(** * Generalized m x m, k-in-a-row tic-tac-toe: rules, evaluation and search

    A shallow embedding of [game_engine.py], [evaluation.py], [search.py],
    the instrumented searches of [performance_tests.py], the game loop of
    [gameplay.py] and the entry points of [main.py], followed by the
    properties of the search engine that the specification states and by
    further properties of the code.

    Python integers are [Z]; the floats of the evaluator are rationals
    ([Q]): every score is an integer or an integer plus one half, so the
    float comparisons of the source are exact.  [math.inf] and [-math.inf]
    are the two extra points of [ext].  A Python exception is a [Raise]. *)

From Stdlib Require Import ZArith QArith Qabs Lqa List Bool Lia Arith Permutation Sorted.
From Stdlib Require Import Orders OrdersTac.
From Stdlib Require String.
Import String.StringSyntax.
Import ListNotations.

Local Open Scope Z_scope.
Delimit Scope string_scope with string.

(** ** Results of fallible code *)

Inductive error : Type :=
| ValueError   (* "Invalid move: cell (r, c) is already occupied" *)
| IndexError   (* list index out of range *)
| TypeError    (* a value of the wrong kind, as when [None] is compared *)
| OutOfFuel.   (* the recursion bound of the model was reached *)

Inductive res (A : Type) : Type :=
| Ok (a : A)
| Raise (e : error).

Arguments Ok {A} a.
Arguments Raise {A} e.

Definition bind {A B : Type} (x : res A) (f : A -> res B) : res B :=
  match x with
  | Ok a => f a
  | Raise e => Raise e
  end.

Notation "x <- c1 ;; c2" := (bind c1 (fun x => c2))
  (at level 61, c1 at next level, right associativity).
Notation "' p <- c1 ;; c2" := (bind c1 (fun x => match x with p => c2 end))
  (at level 61, p pattern, c1 at next level, right associativity).

Fixpoint mapM {A B : Type} (f : A -> res B) (l : list A) : res (list B) :=
  match l with
  | [] => Ok []
  | a :: rest =>
      b <- f a ;;
      bs <- mapM f rest ;;
      Ok (b :: bs)
  end.

(** ** Python sequences *)

(** [range(n)] and [range(a, b)]. *)
Definition range (n : Z) : list Z :=
  map Z.of_nat (seq 0 (Z.to_nat n)).

Definition range_from (a b : Z) : list Z :=
  map (fun i => a + Z.of_nat i) (seq 0 (Z.to_nat (b - a))).

(** The position a subscript [l[i]] addresses in a list of length [len]:
    negative subscripts count from the end, anything else out of
    [-len .. len-1] is an [IndexError]. *)
Definition norm_index (len : nat) (i : Z) : option nat :=
  if 0 <=? i then
    if i <? Z.of_nat len then Some (Z.to_nat i) else None
  else
    if - Z.of_nat len <=? i then Some (Z.to_nat (Z.of_nat len + i)) else None.

Definition getitem {A : Type} (l : list A) (i : Z) : option A :=
  match norm_index (length l) i with
  | Some n => nth_error l n
  | None => None
  end.

Fixpoint update_nth {A : Type} (n : nat) (f : A -> A) (l : list A) : list A :=
  match l, n with
  | [], _ => []
  | a :: rest, O => f a :: rest
  | a :: rest, S n' => a :: update_nth n' f rest
  end.

(** [l[a:b]] for a slice without step. *)
Definition clamp_index (len : nat) (i : Z) : nat :=
  if i <? 0 then Z.to_nat (Z.max 0 (Z.of_nat len + i))
  else Nat.min (Z.to_nat i) len.

Definition slice {A : Type} (l : list A) (a b : Z) : list A :=
  let lo := clamp_index (length l) a in
  let hi := clamp_index (length l) b in
  firstn (hi - lo) (skipn lo l).

(** ** game_engine.py *)

Inductive Player : Type := X | O.

Definition Player_eqb (p q : Player) : bool :=
  match p, q with
  | X, X | O, O => true
  | _, _ => false
  end.

(** A cell is [None], ['X'] or ['O']. *)
Definition cell : Type := option Player.

Definition cell_eqb (a b : cell) : bool :=
  match a, b with
  | None, None => true
  | Some p, Some q => Player_eqb p q
  | _, _ => false
  end.

Definition is_None (a : cell) : bool :=
  match a with None => true | Some _ => false end.

Definition Move : Type := (Z * Z)%type.

Record State : Type := mkState {
  board : list (list cell);
  m : Z;
  k : Z;
  moves : Z
}.

Definition initial_state (m k : Z) : State :=
  {| board := map (fun _ => map (fun _ => None) (range m)) (range m);
     m := m;
     k := k;
     moves := 0 |}.

Definition player (state : State) : Player :=
  if moves state mod 2 =? 0 then X else O.

(** [board[r][c]] where the source reads a cell.  Every read of [actions]
    and [winner], and every read of the evaluator on a board that has
    cells, is at a subscript inside an m x m board (see [wf_board]);
    outside of it the accessor answers [None].  The [IndexError] of the
    centre read of [_center_control_bonus] on a board without cells
    (m <= 0) is therefore not modelled; a state that satisfies [wf_state]
    and is not terminal has cells. *)
Definition cell_at (b : list (list cell)) (r c : Z) : cell :=
  match getitem b r with
  | Some row =>
      match getitem row c with
      | Some x => x
      | None => None
      end
  | None => None
  end.

Definition actions (state : State) : list Move :=
  let m := m state in
  let board := board state in
  flat_map (fun r =>
    flat_map (fun c => if is_None (cell_at board r c) then [(r, c)] else [])
             (range m))
    (range m).

(** [new_state['board'][r][c] = v] on the copy. *)
Definition set_cell (b : list (list cell)) (r c : nat) (v : cell)
  : list (list cell) :=
  update_nth r (update_nth c (fun _ => v)) b.

Definition result (state : State) (action : Move) : res State :=
  let '(r, c) := action in
  match norm_index (length (board state)) r with
  | None => Raise IndexError
  | Some r' =>
      match nth_error (board state) r' with
      | None => Raise IndexError
      | Some row =>
          match norm_index (length row) c with
          | None => Raise IndexError
          | Some c' =>
              match nth_error row c' with
              | None => Raise IndexError
              | Some (Some _) => Raise ValueError
              | Some None =>
                  Ok {| board := set_cell (board state) r' c' (Some (player state));
                        m := m state;
                        k := k state;
                        moves := moves state + 1 |}
              end
          end
      end
  end.

Fixpoint check_line_loop (line : list cell) (k : Z) (count : Z) (current : cell)
  : cell :=
  match line with
  | [] => None
  | cell :: rest =>
      if negb (is_None cell) && cell_eqb cell current then
        let count := count + 1 in
        if count >=? k then current
        else check_line_loop rest k count current
      else
        check_line_loop rest k (if is_None cell then 0 else 1) cell
  end.

Definition _check_line (line : list cell) (k : Z) : option Player :=
  if Z.of_nat (length line) <? k then None
  else check_line_loop line k 0 None.

(** The first line of the scan that has a winner ([if w: return w]). *)
Fixpoint first_winner (lines : list (list cell)) (k : Z) : option Player :=
  match lines with
  | [] => None
  | line :: rest =>
      match _check_line line k with
      | Some w => Some w
      | None => first_winner rest k
      end
  end.

Definition column (b : list (list cell)) (m c : Z) : list cell :=
  map (fun r => cell_at b r c) (range m).

Definition columns (b : list (list cell)) (m : Z) : list (list cell) :=
  map (column b m) (range m).

Definition diagonal (b : list (list cell)) (m start_r start_c : Z) : list cell :=
  map (fun i => cell_at b (start_r + i) (start_c + i))
      (range (m - Z.max start_r start_c)).

Definition diagonals (b : list (list cell)) (m k : Z) : list (list cell) :=
  flat_map (fun start_r =>
    map (fun start_c => diagonal b m start_r start_c) (range (m - k + 1)))
    (range (m - k + 1)).

Definition anti_diagonal (b : list (list cell)) (m start_r start_c : Z)
  : list cell :=
  map (fun i => cell_at b (start_r + i) (start_c - i))
      (range (Z.min (m - start_r) (start_c + 1))).

Definition anti_diagonals (b : list (list cell)) (m k : Z) : list (list cell) :=
  flat_map (fun start_r =>
    map (fun start_c => anti_diagonal b m start_r start_c) (range_from (k - 1) m))
    (range (m - k + 1)).

Definition winner (state : State) : option Player :=
  let board := board state in
  let m := m state in
  let k := k state in
  match first_winner board k with
  | Some w => Some w
  | None =>
  match first_winner (columns board m) k with
  | Some w => Some w
  | None =>
  match first_winner (diagonals board m k) k with
  | Some w => Some w
  | None => first_winner (anti_diagonals board m k) k
  end end end.

Definition terminal (state : State) : bool :=
  negb (is_None (winner state)) || (moves state =? m state ^ 2).

Definition utility (state : State) : option Z :=
  if negb (terminal state) then None
  else
    match winner state with
    | Some X => Some 1
    | Some O => Some (-1)
    | None => Some 0
    end.

(** ** evaluation.py *)

Definition cell_eq_dec (a b : cell) : {a = b} + {a <> b}.
Proof. decide equality. decide equality. Defined.

(** [window.count('X')] *)
Definition count (window : list cell) (p : Player) : Z :=
  Z.of_nat (count_occ cell_eq_dec window (Some p)).

Fixpoint count_sequences_loop (line : list cell) (k : Z) (starts : list Z)
  (x_score o_score : Z) : Z * Z :=
  match starts with
  | [] => (x_score, o_score)
  | i :: rest =>
      let window := slice line i (i + k) in
      let x_count := count window X in
      let o_count := count window O in
      if (x_count >? 0) && (o_count =? 0) then
        count_sequences_loop line k rest (x_score + x_count ^ 2) o_score
      else if (o_count >? 0) && (x_count =? 0) then
        count_sequences_loop line k rest x_score (o_score + o_count ^ 2)
      else
        count_sequences_loop line k rest x_score o_score
  end.

Definition _count_sequences (line : list cell) (k : Z) : Z * Z :=
  count_sequences_loop line k (range (Z.of_nat (length line) - k + 1)) 0 0.

(** The body shared by the four [_evaluate_*] functions:
    [score = 0.0; for line in ...: score += x_s - o_s]. *)
Definition evaluate_lines (lines : list (list cell)) (k : Z) : Q :=
  fold_left (fun score line =>
               let '(x_s, o_s) := _count_sequences line k in
               (score + inject_Z (x_s - o_s))%Q)
            lines 0%Q.

Definition _evaluate_rows (board : list (list cell)) (m k : Z) : Q :=
  evaluate_lines board k.

Definition _evaluate_columns (board : list (list cell)) (m k : Z) : Q :=
  evaluate_lines (columns board m) k.

Definition _evaluate_diagonals (board : list (list cell)) (m k : Z) : Q :=
  evaluate_lines (diagonals board m k) k.

Definition _evaluate_anti_diagonals (board : list (list cell)) (m k : Z) : Q :=
  evaluate_lines (anti_diagonals board m k) k.

Definition _center_control_bonus (board : list (list cell)) (m : Z) : Q :=
  let center := m / 2 in
  if cell_eqb (cell_at board center center) (Some X) then (1 # 2)%Q
  else if cell_eqb (cell_at board center center) (Some O) then (- (1 # 2))%Q
  else 0%Q.

Definition evaluate (state : State) : Q :=
  if terminal state then
    match utility state with
    | Some u => inject_Z u
    | None => 0%Q
    end
  else
    let board := board state in
    let m := m state in
    let k := k state in
    let score := 0%Q in
    let score := (score + _evaluate_rows board m k)%Q in
    let score := (score + _evaluate_columns board m k)%Q in
    let score := (score + _evaluate_diagonals board m k)%Q in
    let score := (score + _evaluate_anti_diagonals board m k)%Q in
    let score := (score + _center_control_bonus board m)%Q in
    score.

(** ** Search values: numbers extended with [-math.inf] and [math.inf] *)

Inductive ext (A : Type) : Type :=
| NegInf
| Fin (a : A)
| PosInf.

Arguments NegInf {A}.
Arguments Fin {A} a.
Arguments PosInf {A}.

Section ExtOrder.
Context {A : Type}.
Variable ltb : A -> A -> bool.
Variable leb : A -> A -> bool.

(** [a < b] *)
Definition ext_ltb (a b : ext A) : bool :=
  match a, b with
  | NegInf, NegInf => false
  | NegInf, _ => true
  | Fin _, NegInf => false
  | Fin x, Fin y => ltb x y
  | Fin _, PosInf => true
  | PosInf, _ => false
  end.

(** [a <= b] *)
Definition ext_leb (a b : ext A) : bool :=
  match a, b with
  | NegInf, _ => true
  | Fin _, NegInf => false
  | Fin x, Fin y => leb x y
  | Fin _, PosInf => true
  | PosInf, PosInf => true
  | PosInf, _ => false
  end.

(** [max(a, b)] keeps [a] unless [b > a]; [min(a, b)] keeps [a] unless
    [b < a]. *)
Definition ext_max (a b : ext A) : ext A := if ext_ltb a b then b else a.
Definition ext_min (a b : ext A) : ext A := if ext_ltb b a then b else a.
End ExtOrder.

Definition Qlt_bool (a b : Q) : bool :=
  (Qnum a * QDen b <? Qnum b * QDen a)%Z.

(** ** Python's [sorted]

    [sorted] is a stable sort that compares with [<] only, and the output
    of a stable sort is fixed by its input and the order; it is modelled
    by the stable insertion sort.  With [key=f] the keys are computed
    once, in list order, before anything is compared. *)

Section Sorting.
Context {K A : Type}.
Variable ltb : K -> K -> bool.

Fixpoint insert (x : K * A) (l : list (K * A)) : list (K * A) :=
  match l with
  | [] => [x]
  | y :: rest =>
      if ltb (fst y) (fst x) then y :: insert x rest
      else x :: y :: rest
  end.

Definition sort_keyed (l : list (K * A)) : list (K * A) :=
  fold_right insert [] l.
End Sorting.

Definition Move_ltb (a b : Move) : bool :=
  let '(r1, c1) := a in
  let '(r2, c2) := b in
  if negb (r1 =? r2) then r1 <? r2 else c1 <? c2.

Definition sorted (l : list Move) : list Move :=
  map snd (sort_keyed Move_ltb (map (fun mv => (mv, mv)) l)).

Definition Key : Type := (Z * Q * Z * Z)%type.

(** Tuple comparison: the first position that differs decides. *)
Definition Key_ltb (a b : Key) : bool :=
  let '(a1, a2, a3, a4) := a in
  let '(b1, b2, b3, b4) := b in
  if negb (a1 =? b1) then a1 <? b1
  else if negb (Qeq_bool a2 b2) then Qlt_bool a2 b2
  else if negb (a3 =? b3) then a3 <? b3
  else a4 <? b4.

Definition sorted_by (key : Move -> res Key) (l : list Move) : res (list Move) :=
  keys <- mapM key l ;;
  Ok (map snd (sort_keyed Key_ltb (combine keys l))).

(** ** search.py *)

Definition winner_is (w : option Player) (p : Player) : bool :=
  match w with
  | Some q => Player_eqb q p
  | None => false
  end.

Definition move_priority (state : State) (move : Move) : res Key :=
  let m := m state in
  let center := m / 2 in
  let current := player state in
  let '(r, c) := move in
  new_state <- result state move ;;
  if winner_is (winner new_state) current then Ok (0, 0%Q, r, c)
  else
    let eval_score :=
      match current with
      | O => (- evaluate new_state)%Q
      | X => evaluate new_state
      end in
    let dist := Z.abs (r - center) + Z.abs (c - center) in
    Ok (1, (- eval_score)%Q, dist, r).

Definition order_moves (state : State) (moves : list Move) (use_heuristic : bool)
  : res (list Move) :=
  if negb use_heuristic then Ok (sorted moves)
  else sorted_by (move_priority state) moves.

Definition SearchResult (V : Type) : Type := (ext V * option Move)%type.

Definition zlt := ext_ltb Z.ltb.
Definition zle := ext_leb Z.leb.
Definition zmax := ext_max Z.ltb.
Definition zmin := ext_min Z.ltb.

(** The value [utility(state)] at a terminal state; [utility] answers
    [None] only at a non-terminal state, where the searches do not ask. *)
Definition utility_value (state : State) : res (ext Z) :=
  match utility state with
  | Some u => Ok (Fin u)
  | None => Raise TypeError
  end.

Section MinimaxLoops.
Variable rec : State -> res (SearchResult Z).

Fixpoint max_loop (state : State) (legal_moves : list Move)
  (best_value : ext Z) (best_move : option Move) : res (SearchResult Z) :=
  match legal_moves with
  | [] => Ok (best_value, best_move)
  | action :: rest =>
      new_state <- result state action ;;
      '(value, _) <- rec new_state ;;
      if zlt best_value value then max_loop state rest value (Some action)
      else max_loop state rest best_value best_move
  end.

Fixpoint min_loop (state : State) (legal_moves : list Move)
  (best_value : ext Z) (best_move : option Move) : res (SearchResult Z) :=
  match legal_moves with
  | [] => Ok (best_value, best_move)
  | action :: rest =>
      new_state <- result state action ;;
      '(value, _) <- rec new_state ;;
      if zlt value best_value then min_loop state rest value (Some action)
      else min_loop state rest best_value best_move
  end.
End MinimaxLoops.

Fixpoint minimax_fuel (fuel : nat) (state : State) : res (SearchResult Z) :=
  match fuel with
  | 0%nat => Raise OutOfFuel
  | S fuel =>
      if terminal state then
        u <- utility_value state ;;
        Ok (u, None)
      else
        let current_player := player state in
        let legal_moves := sorted (actions state) in
        match current_player with
        | X => max_loop (minimax_fuel fuel) state legal_moves NegInf None
        | O => min_loop (minimax_fuel fuel) state legal_moves PosInf None
        end
  end.

(** Every call fills one empty cell, so the recursion is never deeper than
    the number of legal moves. *)
Definition depth_bound (state : State) : nat := S (length (actions state)).

Definition minimax (state : State) : res (SearchResult Z) :=
  minimax_fuel (depth_bound state) state.

(** The loops of [minimax_ab] and of [search] are the same text; they differ
    in the recursive call and in the numbers compared. *)
Section AlphaBetaLoops.
Context {V : Type}.
Variable ltb : V -> V -> bool.
Variable leb : V -> V -> bool.
Variable rec : State -> ext V -> ext V -> res (SearchResult V).

Fixpoint ab_max_loop (state : State) (legal_moves : list Move)
  (alpha beta : ext V) (best_value : ext V) (best_move : option Move)
  : res (SearchResult V) :=
  match legal_moves with
  | [] => Ok (best_value, best_move)
  | action :: rest =>
      new_state <- result state action ;;
      '(value, _) <- rec new_state alpha beta ;;
      let '(best_value, best_move) :=
        if ext_ltb ltb best_value value then (value, Some action)
        else (best_value, best_move) in
      let alpha := ext_max ltb alpha best_value in
      if ext_leb leb beta alpha then Ok (best_value, best_move)
      else ab_max_loop state rest alpha beta best_value best_move
  end.

Fixpoint ab_min_loop (state : State) (legal_moves : list Move)
  (alpha beta : ext V) (best_value : ext V) (best_move : option Move)
  : res (SearchResult V) :=
  match legal_moves with
  | [] => Ok (best_value, best_move)
  | action :: rest =>
      new_state <- result state action ;;
      '(value, _) <- rec new_state alpha beta ;;
      let '(best_value, best_move) :=
        if ext_ltb ltb value best_value then (value, Some action)
        else (best_value, best_move) in
      let beta := ext_min ltb beta best_value in
      if ext_leb leb beta alpha then Ok (best_value, best_move)
      else ab_min_loop state rest alpha beta best_value best_move
  end.
End AlphaBetaLoops.

Definition ordered_moves (state : State) (use_ordering : bool) : res (list Move) :=
  if use_ordering then order_moves state (actions state) true
  else Ok (sorted (actions state)).

Fixpoint minimax_ab_fuel (fuel : nat) (state : State) (alpha beta : ext Z)
  (use_ordering : bool) : res (SearchResult Z) :=
  match fuel with
  | 0%nat => Raise OutOfFuel
  | S fuel =>
      if terminal state then
        u <- utility_value state ;;
        Ok (u, None)
      else
        let current_player := player state in
        legal_moves <- ordered_moves state use_ordering ;;
        let rec := fun s a b => minimax_ab_fuel fuel s a b use_ordering in
        match current_player with
        | X => ab_max_loop Z.ltb Z.leb rec state legal_moves alpha beta NegInf None
        | O => ab_min_loop Z.ltb Z.leb rec state legal_moves alpha beta PosInf None
        end
  end.

Definition minimax_ab (state : State) (alpha beta : ext Z) (use_ordering : bool)
  : res (SearchResult Z) :=
  minimax_ab_fuel (depth_bound state) state alpha beta use_ordering.

(** [search].  The evaluator [eval_fn] is total and real-valued, as the
    specification types it; one that raises, or that returns an infinity
    or a nan, is not modelled. *)
Fixpoint search_fuel (fuel : nat) (state : State) (depth : Z)
  (eval_fn : State -> Q) (alpha beta : ext Q) : res (SearchResult Q) :=
  match fuel with
  | 0%nat => Raise OutOfFuel
  | S fuel =>
      if terminal state then
        let u := utility state in
        match u with
        | Some 1 => Ok (Fin 1000%Q, None)
        | Some (-1) => Ok (Fin (-1000)%Q, None)
        | _ => Ok (Fin 0%Q, None)
        end
      else if depth =? 0 then Ok (Fin (eval_fn state), None)
      else
        let current_player := player state in
        legal_moves <- order_moves state (actions state) true ;;
        let rec := fun s a b => search_fuel fuel s (depth - 1) eval_fn a b in
        match current_player with
        | X => ab_max_loop Qlt_bool Qle_bool rec state legal_moves alpha beta NegInf None
        | O => ab_min_loop Qlt_bool Qle_bool rec state legal_moves alpha beta PosInf None
        end
  end.

Definition search (state : State) (depth : Z) (eval_fn : State -> Q)
  (alpha beta : ext Q) : res (SearchResult Q) :=
  search_fuel (depth_bound state) state depth eval_fn alpha beta.

(** ** performance_tests.py: the instrumented searches *)

Record SearchMetrics : Type := mkMetrics {
  nodes_explored : Z;
  pruning_cutoffs : Z;
  max_depth : Z
}.

Definition new_metrics : SearchMetrics :=
  {| nodes_explored := 0; pruning_cutoffs := 0; max_depth := 0 |}.

(** [metrics.nodes_explored += 1; metrics.max_depth = max(metrics.max_depth, depth)] *)
Definition visit (metrics : SearchMetrics) (depth : Z) : SearchMetrics :=
  {| nodes_explored := nodes_explored metrics + 1;
     pruning_cutoffs := pruning_cutoffs metrics;
     max_depth := if max_depth metrics <? depth then depth else max_depth metrics |}.

Definition cutoff (metrics : SearchMetrics) : SearchMetrics :=
  {| nodes_explored := nodes_explored metrics;
     pruning_cutoffs := pruning_cutoffs metrics + 1;
     max_depth := max_depth metrics |}.

Section InstrumentedLoops.
Variable rec : State -> SearchMetrics -> res (SearchResult Z * SearchMetrics).

Fixpoint max_loop_i (state : State) (legal_moves : list Move)
  (best_value : ext Z) (best_move : option Move) (metrics : SearchMetrics)
  : res (SearchResult Z * SearchMetrics) :=
  match legal_moves with
  | [] => Ok ((best_value, best_move), metrics)
  | action :: rest =>
      new_state <- result state action ;;
      '((value, _), metrics) <- rec new_state metrics ;;
      if zlt best_value value then max_loop_i state rest value (Some action) metrics
      else max_loop_i state rest best_value best_move metrics
  end.

Fixpoint min_loop_i (state : State) (legal_moves : list Move)
  (best_value : ext Z) (best_move : option Move) (metrics : SearchMetrics)
  : res (SearchResult Z * SearchMetrics) :=
  match legal_moves with
  | [] => Ok ((best_value, best_move), metrics)
  | action :: rest =>
      new_state <- result state action ;;
      '((value, _), metrics) <- rec new_state metrics ;;
      if zlt value best_value then min_loop_i state rest value (Some action) metrics
      else min_loop_i state rest best_value best_move metrics
  end.
End InstrumentedLoops.

Section InstrumentedAlphaBetaLoops.
Variable rec : State -> ext Z -> ext Z -> SearchMetrics
               -> res (SearchResult Z * SearchMetrics).

Fixpoint ab_max_loop_i (state : State) (legal_moves : list Move)
  (alpha beta : ext Z) (best_value : ext Z) (best_move : option Move)
  (metrics : SearchMetrics) : res (SearchResult Z * SearchMetrics) :=
  match legal_moves with
  | [] => Ok ((best_value, best_move), metrics)
  | action :: rest =>
      new_state <- result state action ;;
      '((value, _), metrics) <- rec new_state alpha beta metrics ;;
      let '(best_value, best_move) :=
        if zlt best_value value then (value, Some action)
        else (best_value, best_move) in
      let alpha := zmax alpha best_value in
      if zle beta alpha then Ok ((best_value, best_move), cutoff metrics)
      else ab_max_loop_i state rest alpha beta best_value best_move metrics
  end.

Fixpoint ab_min_loop_i (state : State) (legal_moves : list Move)
  (alpha beta : ext Z) (best_value : ext Z) (best_move : option Move)
  (metrics : SearchMetrics) : res (SearchResult Z * SearchMetrics) :=
  match legal_moves with
  | [] => Ok ((best_value, best_move), metrics)
  | action :: rest =>
      new_state <- result state action ;;
      '((value, _), metrics) <- rec new_state alpha beta metrics ;;
      let '(best_value, best_move) :=
        if zlt value best_value then (value, Some action)
        else (best_value, best_move) in
      let beta := zmin beta best_value in
      if zle beta alpha then Ok ((best_value, best_move), cutoff metrics)
      else ab_min_loop_i state rest alpha beta best_value best_move metrics
  end.
End InstrumentedAlphaBetaLoops.

Fixpoint minimax_instrumented_fuel (fuel : nat) (state : State) (depth : Z)
  (metrics : SearchMetrics) : res (SearchResult Z * SearchMetrics) :=
  match fuel with
  | 0%nat => Raise OutOfFuel
  | S fuel =>
      let metrics := visit metrics depth in
      if terminal state then
        u <- utility_value state ;;
        Ok ((u, None), metrics)
      else
        let current_player := player state in
        let legal_moves := sorted (actions state) in
        let rec := fun s mt => minimax_instrumented_fuel fuel s (depth + 1) mt in
        match current_player with
        | X => max_loop_i rec state legal_moves NegInf None metrics
        | O => min_loop_i rec state legal_moves PosInf None metrics
        end
  end.

Definition minimax_instrumented (state : State) (depth : Z)
  (metrics : SearchMetrics) : res (SearchResult Z * SearchMetrics) :=
  minimax_instrumented_fuel (depth_bound state) state depth metrics.

Fixpoint minimax_ab_instrumented_fuel (fuel : nat) (state : State)
  (alpha beta : ext Z) (depth : Z) (metrics : SearchMetrics)
  (use_ordering : bool) : res (SearchResult Z * SearchMetrics) :=
  match fuel with
  | 0%nat => Raise OutOfFuel
  | S fuel =>
      let metrics := visit metrics depth in
      if terminal state then
        u <- utility_value state ;;
        Ok ((u, None), metrics)
      else
        let current_player := player state in
        legal_moves <-
          (if use_ordering then order_moves state (actions state) use_ordering
           else Ok (sorted (actions state))) ;;
        let rec := fun s a b mt =>
          minimax_ab_instrumented_fuel fuel s a b (depth + 1) mt use_ordering in
        match current_player with
        | X => ab_max_loop_i rec state legal_moves alpha beta NegInf None metrics
        | O => ab_min_loop_i rec state legal_moves alpha beta PosInf None metrics
        end
  end.

Definition minimax_ab_instrumented (state : State) (alpha beta : ext Z)
  (depth : Z) (metrics : SearchMetrics) (use_ordering : bool)
  : res (SearchResult Z * SearchMetrics) :=
  minimax_ab_instrumented_fuel (depth_bound state) state alpha beta depth
    metrics use_ordering.

(** ** [result] on the object store

    [result] deep-copies the state dict and writes to the copy.  To say that
    the argument is not mutated the objects are placed in a store: a state
    is a reference to a dict, its board a reference to a list of references
    to rows.  Allocation appends to the store; [copy.deepcopy] keeps a memo
    so that a row reached twice is copied once. *)

(** References are positions in the store. *)
Abbreviation loc := nat (only parsing).

Inductive object : Type :=
| DictObj (board_ref : loc) (m k moves : Z)
| ListObj (rows : list loc)
| RowObj (cells : list cell).

Definition store : Type := list object.

(** Computations on the store that may raise. *)
Definition M (A : Type) : Type := store -> store * res A.

Definition ret {A : Type} (a : A) : M A := fun h => (h, Ok a).

Definition raise {A : Type} (e : error) : M A := fun h => (h, Raise e).

Definition bindM {A B : Type} (x : M A) (f : A -> M B) : M B :=
  fun h =>
    match x h with
    | (h', Ok a) => f a h'
    | (h', Raise e) => (h', Raise e)
    end.

Notation "x <~ c1 ;; c2" := (bindM c1 (fun x => c2))
  (at level 61, c1 at next level, right associativity).
Notation "' p <~ c1 ;; c2" := (bindM c1 (fun x => match x with p => c2 end))
  (at level 61, p pattern, c1 at next level, right associativity).

Definition alloc (o : object) : M loc := fun h => (h ++ [o], Ok (length h)).

Definition write (l : loc) (o : object) : M unit :=
  fun h => (update_nth l (fun _ => o) h, Ok tt).

Definition read_dict (l : loc) : M (loc * Z * Z * Z) :=
  fun h =>
    match nth_error h l with
    | Some (DictObj b m k mv) => (h, Ok (b, m, k, mv))
    | _ => (h, Raise TypeError)
    end.

Definition read_list (l : loc) : M (list loc) :=
  fun h =>
    match nth_error h l with
    | Some (ListObj rows) => (h, Ok rows)
    | _ => (h, Raise TypeError)
    end.

Definition read_row (l : loc) : M (list cell) :=
  fun h =>
    match nth_error h l with
    | Some (RowObj cells) => (h, Ok cells)
    | _ => (h, Raise TypeError)
    end.

(** [l[i]] *)
Definition subscript {A : Type} (l : list A) (i : Z) : M A :=
  match getitem l i with
  | Some a => ret a
  | None => raise IndexError
  end.

Fixpoint memo_find (memo : list (loc * loc)) (l : loc) : option loc :=
  match memo with
  | [] => None
  | (old, new) :: rest => if Nat.eqb old l then Some new else memo_find rest l
  end.

(** The copy of the rows of a board; cells are immutable and shared. *)
Fixpoint deepcopy_rows (memo : list (loc * loc)) (rows : list loc)
  : M (list loc) :=
  match rows with
  | [] => ret []
  | row :: rest =>
      match memo_find memo row with
      | Some row' =>
          rest' <~ deepcopy_rows memo rest ;;
          ret (row' :: rest')
      | None =>
          cells <~ read_row row ;;
          row' <~ alloc (RowObj cells) ;;
          rest' <~ deepcopy_rows ((row, row') :: memo) rest ;;
          ret (row' :: rest')
      end
  end.

Definition deepcopy (state : loc) : M loc :=
  '(b, m, k, mv) <~ read_dict state ;;
  rows <~ read_list b ;;
  rows' <~ deepcopy_rows [] rows ;;
  b' <~ alloc (ListObj rows') ;;
  alloc (DictObj b' m k mv).

Definition player_of_moves (mv : Z) : Player :=
  if mv mod 2 =? 0 then X else O.

Definition result_store (state : loc) (action : Move) : M loc :=
  let '(r, c) := action in
  (* if state['board'][r][c] is not None: raise ValueError *)
  '(b, _, _, mv) <~ read_dict state ;;
  rows <~ read_list b ;;
  row <~ subscript rows r ;;
  cells <~ read_row row ;;
  x <~ subscript cells c ;;
  match x with
  | Some _ => raise ValueError
  | None =>
      (* new_state = copy.deepcopy(state) *)
      new_state <~ deepcopy state ;;
      (* new_state['board'][r][c] = player(state) *)
      '(b', m', k', mv') <~ read_dict new_state ;;
      rows' <~ read_list b' ;;
      row' <~ subscript rows' r ;;
      cells' <~ read_row row' ;;
      match norm_index (length cells') c with
      | None => raise IndexError
      | Some c' =>
          _ <~ write row' (RowObj (update_nth c' (fun _ => Some (player_of_moves mv)) cells')) ;;
          (* new_state['moves'] += 1 *)
          '(b'', m'', k'', mv'') <~ read_dict new_state ;;
          _ <~ write new_state (DictObj b'' m'' k'' (mv'' + 1)) ;;
          ret new_state
      end
  end.

(** [initial_state] builds a fresh dict, a fresh board and fresh rows. *)
Fixpoint alloc_rows (n : nat) (cells : list cell) : M (list loc) :=
  match n with
  | 0%nat => ret []
  | S n =>
      row <~ alloc (RowObj cells) ;;
      rest <~ alloc_rows n cells ;;
      ret (row :: rest)
  end.

Definition initial_state_store (m k : Z) : M loc :=
  rows <~ alloc_rows (Z.to_nat m) (map (fun _ => None) (range m)) ;;
  b <~ alloc (ListObj rows) ;;
  alloc (DictObj b m k 0).

(** The state a reference stands for. *)
Fixpoint denote_rows (h : store) (rows : list loc) : option (list (list cell)) :=
  match rows with
  | [] => Some []
  | row :: rest =>
      match nth_error h row, denote_rows h rest with
      | Some (RowObj cells), Some b => Some (cells :: b)
      | _, _ => None
      end
  end.

Definition denote (h : store) (state : loc) : option State :=
  match nth_error h state with
  | Some (DictObj b m k mv) =>
      match nth_error h b with
      | Some (ListObj rows) =>
          match denote_rows h rows with
          | Some board => Some {| board := board; m := m; k := k; moves := mv |}
          | None => None
          end
      | _ => None
      end
  | _ => None
  end.

(** The rows of a board are distinct objects, as [initial_state] and
    [result] build them. *)
Definition distinct_rows (h : store) (state : loc) : Prop :=
  match nth_error h state with
  | Some (DictObj b _ _ _) =>
      match nth_error h b with
      | Some (ListObj rows) => NoDup rows
      | _ => False
      end
  | _ => False
  end.

(** The store after [result]: the old objects as they were, then the rows
    of the new board, its list and its dict. *)
Definition store_after (h : store) (s' : State) : store :=
  h ++ map RowObj (board s')
    ++ [ListObj (seq (length h) (length (board s')));
        DictObj (length h + length (board s')) (m s') (k s') (moves s')].

(** ** Runs of marks, as the specification words them *)

(** [k] consecutive cells of a line, from some position on, hold [p]. *)
Definition run_in (line : list cell) (p : Player) (k : nat) : Prop :=
  exists i, forall j, (j < k)%nat -> nth_error line (i + j) = Some (Some p).

(** Along a row, down a column, down a diagonal, down an anti-diagonal. *)
Definition directions : list (Z * Z) := [(0, 1); (1, 0); (1, 1); (1, -1)].

(** Player [p] owns [k] consecutive cells of the board in one of the four
    directions. *)
Definition has_run (s : State) (p : Player) : Prop :=
  exists r c dr dc,
    In (dr, dc) directions /\
    forall i, 0 <= i < k s ->
      0 <= r + i * dr < m s /\ 0 <= c + i * dc < m s /\
      cell_at (board s) (r + i * dr) (c + i * dc) = Some p.

Definition other (p : Player) : Player :=
  match p with X => O | O => X end.

(** The lines [winner] scans, in the order it scans them. *)
Definition all_lines (s : State) : list (list cell) :=
  board s ++ columns (board s) (m s)
    ++ diagonals (board s) (m s) (k s)
    ++ anti_diagonals (board s) (m s) (k s).

Definition zsum (l : list Z) : Z := fold_right Z.add 0 l.

(** ** The evaluation, as the specification words it

    Written over the cells of the grid by their coordinates: the lines are
    walked cell by cell from their anchors and the marks of a window are
    counted directly, with nothing taken from the line builders or the
    counting of [evaluation.py]. *)

(** Every contiguous window of exactly [k] cells of a line: the [k] cells
    from each position on, where there are that many. *)
Definition windows (k : nat) (line : list cell) : list (list cell) :=
  filter (fun w => Nat.eqb (length w) k)
         (map (fun i => firstn k (skipn i line)) (seq 0 (S (length line)))).

(** Cell [x] holds the mark of [p]. *)
Definition holds (p : Player) (x : cell) : bool :=
  match x, p with
  | Some X, X => true
  | Some O, O => true
  | _, _ => false
  end.

(** The marks of [p] in a window. *)
Definition marks_of (p : Player) (window : list cell) : Z :=
  Z.of_nat (length (filter (holds p) window)).

(** A window with X marks and zero O marks adds (X-count) squared; one with
    O marks and zero X marks takes (O-count) squared away; a window with
    both marks, or with none, contributes nothing. *)
Definition specified_window_score (window : list cell) : Z :=
  let x := marks_of X window in
  let o := marks_of O window in
  if (0 <? x) && (o =? 0) then x ^ 2
  else if (0 <? o) && (x =? 0) then - o ^ 2
  else 0.

(** The offsets 0, ..., m - 1. *)
Definition upto (m : Z) : list Z := map Z.of_nat (seq 0 (Z.to_nat m)).

(** (r, c) is a cell of the m x m board. *)
Definition on_board (m r c : Z) : bool :=
  (0 <=? r) && (r <? m) && (0 <=? c) && (c <? m).

(** The mark at row [r], column [c] of a grid. *)
Definition mark_at (b : list (list cell)) (r c : Z) : cell :=
  if (0 <=? r) && (0 <=? c)
  then nth (Z.to_nat c) (nth (Z.to_nat r) b []) None
  else None.

(** The cells met from (r, c) on, stepping by (dr, dc), until the edge of
    the board is passed. *)
Fixpoint segment (b : list (list cell)) (m dr dc : Z) (steps : nat) (r c : Z)
  : list cell :=
  match steps with
  | 0%nat => []
  | S steps =>
      if on_board m r c
      then mark_at b r c :: segment b m dr dc steps (r + dr) (c + dc)
      else []
  end.

Definition segment_to_edge (b : list (list cell)) (m dr dc r c : Z) : list cell :=
  segment b m dr dc (Z.to_nat m) r c.

(** Every row, and every column. *)
Definition specified_rows (b : list (list cell)) (m : Z) : list (list cell) :=
  map (fun r => segment_to_edge b m 0 1 r 0) (upto m).

Definition specified_columns (b : list (list cell)) (m : Z) : list (list cell) :=
  map (fun c => segment_to_edge b m 1 0 0 c) (upto m).

(** The segments of one direction anchored at every valid start offset: from
    each cell of the board to the edge, where that is at least [k] cells. *)
Definition anchored_segments (b : list (list cell)) (m k dr dc : Z)
  : list (list cell) :=
  filter (fun seg => k <=? Z.of_nat (length seg))
         (flat_map (fun r => map (fun c => segment_to_edge b m dr dc r c) (upto m))
                   (upto m)).

(** Top-left to bottom-right, and top-right to bottom-left. *)
Definition specified_diagonals (b : list (list cell)) (m k : Z) : list (list cell) :=
  anchored_segments b m k 1 1.

Definition specified_anti_diagonals (b : list (list cell)) (m k : Z)
  : list (list cell) :=
  anchored_segments b m k 1 (-1).

(** The score of a family of lines: every window of exactly [k] cells of
    every line. *)
Definition specified_family_score (k : nat) (lines : list (list cell)) : Z :=
  zsum (map (fun line => zsum (map specified_window_score (windows k line))) lines).

(** Plus one half if the cell at (m / 2, m / 2) is X, minus one half if it
    is O. *)
Definition specified_center_term (b : list (list cell)) (m : Z) : Q :=
  match mark_at b (m / 2) (m / 2) with
  | Some X => (1 # 2)%Q
  | Some O => (- (1 # 2))%Q
  | None => 0%Q
  end.

Definition specified_evaluation (s : State) : Q :=
  let kn := Z.to_nat (k s) in
  (inject_Z (specified_family_score kn (specified_rows (board s) (m s))
             + specified_family_score kn (specified_columns (board s) (m s))
             + specified_family_score kn (specified_diagonals (board s) (m s) (k s))
             + specified_family_score kn
                 (specified_anti_diagonals (board s) (m s) (k s)))
   + specified_center_term (board s) (m s))%Q.

(** ** The evaluation as a sum over the windows of the scanned lines

    The accumulator loops of [evaluation.py] rearranged into sums, over the
    lines the code builds; the intermediate form of the proofs. *)

(** What one window adds to [x_score - o_score] in [_count_sequences]. *)
Definition window_score (window : list cell) : Z :=
  let x_count := count window X in
  let o_count := count window O in
  if (0 <? x_count) && (o_count =? 0) then x_count * x_count
  else if (0 <? o_count) && (x_count =? 0) then - (o_count * o_count)
  else 0.

Definition family_score (k : nat) (lines : list (list cell)) : Z :=
  zsum (map (fun line => zsum (map window_score (windows k line))) lines).

Definition center_bonus (s : State) : Q :=
  match cell_at (board s) (m s / 2) (m s / 2) with
  | Some X => (1 # 2)%Q
  | Some O => (- (1 # 2))%Q
  | None => 0%Q
  end.

Definition scanned_score (s : State) : Q :=
  let kn := Z.to_nat (k s) in
  (inject_Z (family_score kn (board s)
             + family_score kn (columns (board s) (m s))
             + family_score kn (diagonals (board s) (m s) (k s))
             + family_score kn (anti_diagonals (board s) (m s) (k s)))
   + center_bonus s)%Q.

(** ** The move order, as the specification words it *)

(** The key of the specification: tier 0 for an immediate win, then row and
    column; tier 1 otherwise, then the negated evaluation from the mover's
    side, the Manhattan distance to the centre, the row and the column. *)
Definition FullKey : Type := (Z * Q * Z * Z * Z)%type.

Definition mover_evaluation (mover : Player) (new_state : State) : Q :=
  match mover with
  | O => (- evaluate new_state)%Q
  | X => evaluate new_state
  end.

Definition manhattan (state : State) (move : Move) : Z :=
  Z.abs (fst move - m state / 2) + Z.abs (snd move - m state / 2).

Definition specified_key (state : State) (move : Move) : res FullKey :=
  new_state <- result state move ;;
  if winner_is (winner new_state) (player state)
  then Ok (0, 0%Q, 0, fst move, snd move)
  else Ok (1, (- mover_evaluation (player state) new_state)%Q,
           manhattan state move, fst move, snd move).

Definition FullKey_ltb (a b : FullKey) : bool :=
  let '(a1, a2, a3, a4, a5) := a in
  let '(b1, b2, b3, b4, b5) := b in
  if negb (a1 =? b1) then a1 <? b1
  else if negb (Qeq_bool a2 b2) then Qlt_bool a2 b2
  else if negb (a3 =? b3) then a3 <? b3
  else if negb (a4 =? b4) then a4 <? b4
  else a5 <? b5.

(** [a] may stand before [b] in a list that ascends by the specified key. *)
Definition specified_order (state : State) (a b : Move) : Prop :=
  exists ka kb,
    specified_key state a = Ok ka /\ specified_key state b = Ok kb /\
    FullKey_ltb kb ka = false.

(** ** Well-formed states and the notions the properties speak of *)

(** The board of a state is an m x m grid. *)
Definition wf_board (s : State) : Prop :=
  0 <= m s /\
  length (board s) = Z.to_nat (m s) /\
  Forall (fun row => length row = Z.to_nat (m s)) (board s).

(** The occupied cells, enumerated like [actions] enumerates the empty ones. *)
Definition occupied (s : State) : list Move :=
  flat_map (fun r =>
    flat_map (fun c => if is_None (cell_at (board s) r c) then [] else [(r, c)])
             (range (m s)))
    (range (m s)).

(** The invariant of the data model: the board is m x m and the move count
    is the number of non-empty cells. *)
Definition wf_state (s : State) : Prop :=
  wf_board s /\ moves s = Z.of_nat (length (occupied s)).

(** A cell read by position. *)
Definition cell_nat (b : list (list cell)) (r c : nat) : cell :=
  match nth_error b r with
  | Some row =>
      match nth_error row c with
      | Some x => x
      | None => None
      end
  | None => None
  end.

(** The cell a move addresses, if there is one, and its position. *)
Definition position (s : State) (mv : Move) : option (nat * nat) :=
  match norm_index (length (board s)) (fst mv) with
  | Some r =>
      match nth_error (board s) r with
      | Some row =>
          match norm_index (length row) (snd mv) with
          | Some c => Some (r, c)
          | None => None
          end
      | None => None
      end
  | None => None
  end.

Definition target (s : State) (mv : Move) : option cell :=
  match position s mv with
  | Some (r, c) => Some (cell_nat (board s) r c)
  | None => None
  end.

(** Every move of the list addresses an empty cell of the state. *)
Definition legal_moves (s : State) (moves : list Move) : Prop :=
  forall mv, In mv moves -> target s mv = Some None.


(** The successor state [result] builds on an empty cell. *)
Definition place (s : State) (r c : nat) : State :=
  {| board := set_cell (board s) r c (Some (player s));
     m := m s;
     k := k s;
     moves := moves s + 1 |}.

Definition Move_lt (a b : Move) : Prop :=
  fst a < fst b \/ (fst a = fst b /\ snd a < snd b).

(** The value plain minimax gives to the state a move leads to. *)
Definition child_value (s : State) (a : Move) : res (ext Z) :=
  s' <- result s a ;;
  '(v, _) <- minimax s' ;;
  Ok v.

(** The same values as total functions, for the statements about loops:
    on a well-formed board [minimax] and [result] on a legal move never
    raise (lemmas [minimax_total] and [result_legal]). *)
Definition value (s : State) : ext Z :=
  match minimax s with
  | Ok (v, _) => v
  | Raise _ => NegInf
  end.

Definition cvalue (s : State) (a : Move) : ext Z :=
  match result s a with
  | Ok s' => value s'
  | Raise _ => NegInf
  end.

(** What a fail-soft alpha-beta call with window [(alpha, beta)] promises
    about the value [v] it returns, [mv] being the minimax value: at or
    below [alpha] it is an upper bound, at or above [beta] a lower bound,
    and strictly inside the window it is exact. *)
Definition bounded (alpha beta v mv : ext Z) : Prop :=
  (zle v alpha = true -> zle mv v = true) /\
  (zle beta v = true -> zle v mv = true) /\
  (zlt alpha v = true -> zlt v beta = true -> v = mv).

(** The greatest and the least of the values [cv] of a list of moves,
    starting from [acc]. *)
Definition pmax (cv : Move -> ext Z) (l : list Move) (acc : ext Z) : ext Z :=
  fold_left (fun acc a => zmax acc (cv a)) l acc.

Definition pmin (cv : Move -> ext Z) (l : list Move) (acc : ext Z) : ext Z :=
  fold_left (fun acc a => zmin acc (cv a)) l acc.

(** The number of states one instrumented run visits, started at depth 0
    with fresh metrics as [performance_tests.py] does. *)
Definition visited_minimax (s : State) : Z :=
  match minimax_instrumented s 0 new_metrics with
  | Ok (_, metrics) => nodes_explored metrics
  | Raise _ => 0
  end.

Definition visited_minimax_ab (s : State) (use_ordering : bool) : Z :=
  match minimax_ab_instrumented s NegInf PosInf 0 new_metrics use_ordering with
  | Ok (_, metrics) => nodes_explored metrics
  | Raise _ => 0
  end.

(** The states plain minimax visits below the state a move leads to. *)
Definition visited_child (s : State) (a : Move) : Z :=
  match result s a with
  | Ok s' => visited_minimax s'
  | Raise _ => 0
  end.

(** ** Notions used in the proofs about the loops *)

(** Every move of the list is playable and [rec] gives its successor the
    value [cv]. *)
Definition children_ok (rec : State -> res (SearchResult Z)) (s : State)
  (cv : Move -> ext Z) (l : list Move) : Prop :=
  forall a, In a l -> exists s' mv, result s a = Ok s' /\ rec s' = Ok (cv a, mv).

(** The same for a pruning search: for every window [rec] returns a value
    that is [bounded] by the window around [cv]. *)
Definition ab_children_ok (rec : State -> ext Z -> ext Z -> res (SearchResult Z))
  (s : State) (cv : Move -> ext Z) (l : list Move) : Prop :=
  forall a, In a l ->
    exists s', result s a = Ok s' /\
      forall al be, zlt al be = true ->
        exists v mv, rec s' al be = Ok (v, mv) /\ bounded al be v (cv a).

(** Every move of the list is playable and [rec] returns a number for its
    successor. *)
Definition finite_children {V : Type}
  (rec : State -> ext V -> ext V -> res (SearchResult V)) (s : State)
  (l : list Move) : Prop :=
  forall a, In a l ->
    exists s', result s a = Ok s' /\
      forall al be, exists u mv, rec s' al be = Ok (Fin u, mv).

(** [rec] adds exactly [cn a] to the node count below move [a]. *)
Definition counted_children (s : State) (cn : Move -> Z)
  (rec : State -> SearchMetrics -> res (SearchResult Z * SearchMetrics))
  (l : list Move) : Prop :=
  forall a, In a l ->
    exists s', result s a = Ok s' /\
      forall mt, exists r mt', rec s' mt = Ok (r, mt') /\
        nodes_explored mt' = nodes_explored mt + cn a.

(** [rec] adds at most [cn a] to the node count below move [a]. *)
Definition bounded_children (s : State) (cn : Move -> Z)
  (rec : State -> ext Z -> ext Z -> SearchMetrics
         -> res (SearchResult Z * SearchMetrics))
  (l : list Move) : Prop :=
  forall a, In a l ->
    0 <= cn a /\
    exists s', result s a = Ok s' /\
      forall al be mt, exists r mt', rec s' al be mt = Ok (r, mt') /\
        nodes_explored mt <= nodes_explored mt' <= nodes_explored mt + cn a.

(** The plain and the instrumented search agree below every move. *)
Definition agreeing_children (s : State)
  (rec0 : State -> res (SearchResult Z))
  (reci : State -> SearchMetrics -> res (SearchResult Z * SearchMetrics))
  (l : list Move) : Prop :=
  forall a, In a l ->
    exists s', result s a = Ok s' /\
      forall mt, exists r mt', rec0 s' = Ok r /\ reci s' mt = Ok (r, mt').

Definition ab_agreeing_children (s : State)
  (rec0 : State -> ext Z -> ext Z -> res (SearchResult Z))
  (reci : State -> ext Z -> ext Z -> SearchMetrics
          -> res (SearchResult Z * SearchMetrics))
  (l : list Move) : Prop :=
  forall a, In a l ->
    exists s', result s a = Ok s' /\
      forall al be mt, exists r mt',
        rec0 s' al be = Ok r /\ reci s' al be mt = Ok (r, mt').

(** The first [n] cells of a line hold [p]. *)
Definition prefix_run (line : list cell) (p : Player) (n : nat) : Prop :=
  forall j, (j < n)%nat -> nth_error line j = Some (Some p).

(** The state of the scan of [_check_line]: no mark pending, or [count] marks of [q] just
    read, fewer than [k]. *)
Definition scanning (k : Z) (count : Z) (current : cell) : Prop :=
  (current = None /\ count = 0) \/ (exists q, current = Some q /\ 1 <= count < k).

(** ** Notions used in the proofs about the move order *)

(** One position of a tuple comparison: decided here unless the two
    components are equal, and by the rest otherwise. *)
Definition lex_step {A : Type} (eqb ltb : A -> A -> bool) (a b : A) (rest : bool)
  : bool :=
  if negb (eqb a b) then ltb a b else rest.

(** What [==] and [<] of a component must satisfy for tuples to compare as
    a total order. *)
Record bool_order {A : Type} (eqb ltb : A -> A -> bool) : Prop := {
  bo_sym : forall a b, eqb a b = true -> eqb b a = true;
  bo_asym : forall a b, ltb a b = true -> ltb b a = false;
  bo_lt_neq : forall a b, ltb a b = true -> eqb a b = false;
  bo_eq_trans : forall a b c, eqb a b = true -> eqb b c = true -> eqb a c = true;
  bo_total : forall a b, eqb a b = false -> ltb a b = false -> ltb b a = true;
  bo_lt_le : forall a b c, ltb a b = true -> ltb c b = false -> ltb a c = true;
  bo_le_lt : forall a b c, ltb b a = false -> ltb b c = true -> ltb a c = true
}.

(** [x] may stand before [y] in the output of a stable sort: its key is
    smaller, or not larger while [x] came first in an input that
    ascends by [T]. *)
Definition keyed_before {K A : Type} (ltb : K -> K -> bool) (T : A -> A -> Prop)
  (x y : K * A) : Prop :=
  ltb (fst x) (fst y) = true \/ (ltb (fst y) (fst x) = false /\ T (snd x) (snd y)).

Definition keyed_by {K A : Type} (key : A -> res K) (x : K * A) : Prop :=
  key (snd x) = Ok (fst x).

(** ** Positions used as examples *)

(** A 3 x 3 game after X (0,0), O (1,0), X (0,2), O (2,2), X (2,1):
    O is to move and four cells are empty. *)
Definition midgame : State :=
  {| board := [[Some X; None; Some X];
               [Some O; None; None];
               [None; Some X; Some O]];
     m := 3; k := 3; moves := 5 |}.

(** A 4 x 4 board, win length 3, with one X at (2,2). *)
Definition inner_mark : State :=
  {| board := [[None; None; None; None];
               [None; None; None; None];
               [None; None; Some X; None];
               [None; None; None; None]];
     m := 4; k := 3; moves := 1 |}.

(** The row win of [tests.py]: X (0,0), O (1,0), X (0,1), O (1,1), X (0,2). *)
Definition row_win : State :=
  {| board := [[Some X; Some X; Some X];
               [Some O; Some O; None];
               [None; None; None]];
     m := 3; k := 3; moves := 5 |}.

(** [result] does not look at [terminal]: one more move, O (1,2), and both
    players own a row. *)
Definition two_rows : State :=
  {| board := [[Some X; Some X; Some X];
               [Some O; Some O; Some O];
               [None; None; None]];
     m := 3; k := 3; moves := 6 |}.

(** After X (0,0). *)
Definition one_move : State :=
  {| board := [[Some X; None; None];
               [None; None; None];
               [None; None; None]];
     m := 3; k := 3; moves := 1 |}.

(** The store holding an empty 2 x 2 board: two rows, the list, the dict. *)
Definition small_store : store :=
  [RowObj [None; None]; RowObj [None; None]; ListObj [0%nat; 1%nat];
   DictObj 2%nat 2 2 0].

(** ** gameplay.py *)

(** [r, c = action] at the head of [result]: a move that is [None] cannot
    be unpacked. *)
Definition unpack_action (action : option Move) : res Move :=
  match action with
  | Some move => Ok move
  | None => Raise TypeError
  end.

(** [play_game] with [verbose=False]; with [verbose=True] it prints the
    board and the moves besides.  [get_human_move] reads the reply of the
    human player from the terminal and is a parameter here.  The loop ends
    when the move count reaches m * m at the latest, which bounds the
    number of rounds. *)
Section PlayGame.
Context {V1 V2 : Type}.
Variable get_human_move : State -> res Move.
Variable agent1_fn : State -> res (SearchResult V1).
Variable agent2_fn : option (State -> res (SearchResult V2)).

Fixpoint play_loop (fuel : nat) (state : State) : res State :=
  match fuel with
  | 0%nat => Raise OutOfFuel
  | S fuel =>
      if negb (terminal state) then
        move <-
          match player state with
          | X => '(_, move) <- agent1_fn state ;; Ok move
          | O =>
              match agent2_fn with
              | Some agent2_fn => '(_, move) <- agent2_fn state ;; Ok move
              | None => move <- get_human_move state ;; Ok (Some move)
              end
          end ;;
        action <- unpack_action move ;;
        state <- result state action ;;
        play_loop fuel state
      else Ok state
  end.

Definition play_game (m k : Z) : res (option Player) :=
  let state := initial_state m k in
  state <- play_loop (S (Z.to_nat (m ^ 2))) state ;;
  Ok (winner state).
End PlayGame.

(** ** Notions used in the properties of the games played *)

(** The result of a game as a number: 1 when X has won, -1 when O has,
    0 for a draw. *)
Definition outcome (w : option Player) : Z :=
  match w with
  | Some X => 1
  | Some O => -1
  | None => 0
  end.

(** An agent that answers every open state of the game in which [p] is to
    move with a legal move. *)
Definition plays_legally {V : Type} (agent : State -> res (SearchResult V))
  (p : Player) : Prop :=
  forall s, wf_state s -> terminal s = false -> player s = p ->
    exists v a, agent s = Ok (v, Some a) /\ In a (actions s).

(** An agent whose move leads to a state with the minimax value of the
    state it was asked about. *)
Definition plays_optimally {V : Type} (agent : State -> res (SearchResult V))
  (p : Player) : Prop :=
  forall s, wf_state s -> terminal s = false -> player s = p ->
    exists v a, agent s = Ok (v, Some a) /\ In a (actions s) /\
                cvalue s a = value s.

(** The second player, an agent or the human at the terminal. *)
Definition replies_legally {V : Type} (get_human_move : State -> res Move)
  (agent2_fn : option (State -> res (SearchResult V))) : Prop :=
  match agent2_fn with
  | Some agent => plays_legally agent O
  | None =>
      forall s, wf_state s -> terminal s = false -> player s = O ->
        exists a, get_human_move s = Ok a /\ In a (actions s)
  end.

(** The move made at state [s] in a game of [play_game]. *)
Definition chooses {V1 V2 : Type} (get_human_move : State -> res Move)
  (agent1_fn : State -> res (SearchResult V1))
  (agent2_fn : option (State -> res (SearchResult V2)))
  (s : State) (a : Move) : Prop :=
  match player s with
  | X => exists v, agent1_fn s = Ok (v, Some a)
  | O =>
      match agent2_fn with
      | Some agent => exists v, agent s = Ok (v, Some a)
      | None => get_human_move s = Ok a
      end
  end.

(** ** Notions used in the properties of the moves returned *)

(** Every move of the list is playable, and for every window [rec] returns
    a number with property [P] for its successor. *)
Definition searched_children {V : Type} (P : V -> Prop)
  (rec : State -> ext V -> ext V -> res (SearchResult V)) (s : State)
  (l : list Move) : Prop :=
  forall a, In a l ->
    exists s', result s a = Ok s' /\
      forall al be, exists u mv, rec s' al be = Ok (Fin u, mv) /\ P u.

(** The move wins at once for the player to move. *)
Definition wins_now (s : State) (a : Move) : Prop :=
  exists s', result s a = Ok s' /\ winner s' = Some (player s).

(** A search value carried to another scale, and a search result with it. *)
Definition ext_map {V1 V2 : Type} (f : V1 -> V2) (x : ext V1) : ext V2 :=
  match x with
  | NegInf => NegInf
  | Fin u => Fin (f u)
  | PosInf => PosInf
  end.

Definition map_result {V1 V2 : Type} (f : V1 -> V2) (r : res (SearchResult V1))
  : res (SearchResult V2) :=
  match r with
  | Ok (v, move) => Ok (ext_map f v, move)
  | Raise e => Raise e
  end.

(** The utility 1, -1 or 0 on the scale of the sentinels of [search]. *)
Definition sentinel (u : Z) : Q := inject_Z (1000 * u).

(** ** Notions used in the properties of the metrics *)

(** What one instrumented call does to the metrics when it starts no
    deeper than [D] allows: at least one more state, fewer new cutoffs than
    new states, and a depth that grows to [D] at most. *)
Definition metered (D : Z) (mt mt' : SearchMetrics) : Prop :=
  nodes_explored mt + 1 <= nodes_explored mt' /\
  0 <= pruning_cutoffs mt' - pruning_cutoffs mt
    <= nodes_explored mt' - nodes_explored mt - 1 /\
  max_depth mt <= max_depth mt' <= Z.max (max_depth mt) D.

Definition metered_children (D : Z)
  (rec : State -> ext Z -> ext Z -> SearchMetrics
         -> res (SearchResult Z * SearchMetrics))
  (s : State) (l : list Move) : Prop :=
  forall a, In a l ->
    exists s', result s a = Ok s' /\
      forall al be mt, exists r mt', rec s' al be mt = Ok (r, mt') /\ metered D mt mt'.

(** The same for plain minimax, which never counts a cutoff. *)
Definition metered_plain (D : Z) (mt mt' : SearchMetrics) : Prop :=
  pruning_cutoffs mt' = pruning_cutoffs mt /\
  max_depth mt <= max_depth mt' <= Z.max (max_depth mt) D.

Definition metered_children_plain (D : Z)
  (rec : State -> SearchMetrics -> res (SearchResult Z * SearchMetrics))
  (s : State) (l : list Move) : Prop :=
  forall a, In a l ->
    exists s', result s a = Ok s' /\
      forall mt, exists r mt', rec s' mt = Ok (r, mt') /\ metered_plain D mt mt'.

(** ** main.py: the two ways to start a game

    Both print a banner, start [play_game] and return nothing.
    [play_human_vs_ai] builds an agent that depends on the board size and
    then passes [minimax_ab] to [play_game] whatever the size. *)

Definition play_human_vs_ai (get_human_move : State -> res Move) (m k : Z)
  : res unit :=
  _ <- play_game get_human_move
         (fun state => minimax_ab state NegInf PosInf true)
         (@None (State -> res (SearchResult Z))) m k ;;
  Ok tt.

Definition play_ai_vs_ai (get_human_move : State -> res Move) (m k : Z)
  : res unit :=
  if m =? 3 then
    let agent1 := fun state => minimax_ab state NegInf PosInf true in
    let agent2 := fun state => minimax_ab state NegInf PosInf true in
    _ <- play_game get_human_move agent1 (Some agent2) m k ;;
    Ok tt
  else
    let agent1 := fun state => search state 3 evaluate NegInf PosInf in
    let agent2 := fun state => search state 3 evaluate NegInf PosInf in
    _ <- play_game get_human_move agent1 (Some agent2) m k ;;
    Ok tt.

(** ** Notions used in the properties of the rules *)

(** The number of marks of a player on the board. *)
Definition marks (p : Player) (s : State) : Z :=
  zsum (map (fun row => count row p) (board s)).

(** The states a game on the m x m board with win length k passes through:
    the empty board and what [result] makes of a state of the game. *)
Inductive reachable (m0 k0 : Z) : State -> Prop :=
| reachable_initial : reachable m0 k0 (initial_state m0 k0)
| reachable_result (s s' : State) (a : Move) :
    reachable m0 k0 s -> result s a = Ok s' -> reachable m0 k0 s'.

(** ** Notions used in the properties of the evaluation *)

(** The board with the marks of the two players exchanged. *)
Definition swap_cell (x : cell) : cell := option_map other x.

Definition swap_marks (s : State) : State :=
  {| board := map (map swap_cell) (board s);
     m := m s;
     k := k s;
     moves := moves s |}.

(** What a line adds to the score: [x_s - o_s]. *)
Definition line_score (k : Z) (line : list cell) : Z :=
  let '(x_s, o_s) := _count_sequences line k in x_s - o_s.

(** ** main.py: the command line

    [main] reads the arguments after the program name and returns the exit
    code.  [int] is Python's conversion of a string to an integer, which
    raises [ValueError] on a string that is no number; [run_tests] and
    [run_benchmarks] run the suites of [tests.py] and
    [performance_tests.py] and give their exit code.  The help and error
    texts printed are left out. *)

(** [x in args] *)
Definition contains (x : String.string) (args : list String.string) : bool :=
  existsb (String.eqb x) args.

(** [args.index(x)]: the first position of [x]. *)
Fixpoint index (x : String.string) (args : list String.string) : res Z :=
  match args with
  | [] => Raise ValueError
  | a :: rest =>
      if String.eqb a x then Ok 0
      else i <- index x rest ;; Ok (i + 1)
  end.

(** [args[i]] *)
Definition item {A : Type} (l : list A) (i : Z) : res A :=
  match getitem l i with
  | Some a => Ok a
  | None => Raise IndexError
  end.

Section Main.
Variable int : String.string -> res Z.
Variable get_human_move : State -> res Move.
Variable run_tests : res Z.
Variable run_benchmarks : res Z.

(** [if name in args: idx = args.index(name); value = int(args[idx + 1])],
    the body [main] has once for [--board] and once for [--win]. *)
Definition option_value (name : String.string) (default : Z)
  (args : list String.string) : res Z :=
  if contains name args then
    idx <- index name args ;;
    a <- item args (idx + 1) ;;
    int a
  else Ok default.

Definition main (args : list String.string) : res Z :=
  if contains "--help"%string args || contains "-h"%string args then Ok 0
  else if contains "--test"%string args then run_tests
  else if contains "--benchmark"%string args then run_benchmarks
  else
    let m := 3 in
    let k := 3 in
    match (m <- option_value "--board"%string m args ;;
           k <- option_value "--win"%string k args ;;
           Ok (m, k)) with
    | Raise IndexError | Raise ValueError => Ok 1
    | Raise e => Raise e
    | Ok (m, k) =>
        _ <- (if contains "--ai-vs-ai"%string args
              then play_ai_vs_ai get_human_move m k
              else play_human_vs_ai get_human_move m k) ;;
        Ok 0
    end.
End Main.

(** A bound of the evaluation on an m x m board with win length k: at most
    m - k + 1 windows in each of the 2m + 2(m - k + 1)^2 lines, each worth k
    squared at most, and the bonus of the centre. *)
Definition evaluation_bound (m k : Z) : Z :=
  let n := Z.max 0 (m - k + 1) in
  k ^ 2 * n * (2 * m + 2 * n ^ 2) + 1.

(** ** A further position used as an example *)

(** After X (0,0), O (1,0), X (0,1), O (1,1): X is to move and wins at
    once at (0,2). *)
Definition x_to_win : State :=
  {| board := [[Some X; Some X; None];
               [Some O; Some O; None];
               [None; None; None]];
     m := 3; k := 3; moves := 4 |}.

(** Player [p] owns [n] consecutive cells of the board in one of the four
    directions, whatever the win length of the state. *)
Definition owns_run (n : Z) (s : State) (p : Player) : Prop :=
  exists r c dr dc,
    In (dr, dc) directions /\
    forall i, 0 <= i < n ->
      0 <= r + i * dr < m s /\ 0 <= c + i * dc < m s /\
      cell_at (board s) (r + i * dr) (c + i * dc) = Some p.

(** The position after X at (0,0), O at (2,2) and X at (0,1), on the 3 x 3
    board with a win length of one. *)
Definition two_in_a_row_k1 : State :=
  {| board := [[Some X; Some X; None]; [None; None; None]; [None; None; Some O]];
     m := 3; k := 1; moves := 3 |}.

(** * Properties *)

(** ** Sequences and subscripts *)

Lemma in_range (n i : Z) : In i (range n) <-> 0 <= i < n.
Proof.
  unfold range. rewrite in_map_iff. split.
  - intros [j [<- Hj]]. apply in_seq in Hj. lia.
  - intros H. exists (Z.to_nat i). split; [lia|]. apply in_seq. lia.
Qed.

Lemma in_range_from (a b i : Z) : In i (range_from a b) <-> a <= i < b.
Proof.
  unfold range_from. rewrite in_map_iff. split.
  - intros [j [<- Hj]]. apply in_seq in Hj. lia.
  - intros H. exists (Z.to_nat (i - a)). split; [lia|]. apply in_seq. lia.
Qed.

Lemma length_range (n : Z) : length (range n) = Z.to_nat n.
Proof. unfold range. now rewrite length_map, length_seq. Qed.

Lemma nth_error_range (n : Z) (i : nat) :
  (i < Z.to_nat n)%nat -> nth_error (range n) i = Some (Z.of_nat i).
Proof.
  intros H. unfold range. rewrite nth_error_map, nth_error_seq.
  destruct (Nat.ltb_spec i (Z.to_nat n)); [reflexivity | lia].
Qed.

Lemma StronglySorted_app_intro {A : Type} (R : A -> A -> Prop) (l1 l2 : list A) :
  StronglySorted R l1 -> StronglySorted R l2 ->
  (forall a b, In a l1 -> In b l2 -> R a b) ->
  StronglySorted R (l1 ++ l2).
Proof.
  induction l1 as [|x l1 IH]; intros H1 H2 H12; simpl; auto.
  apply StronglySorted_inv in H1. destruct H1 as [H1 Hx].
  constructor.
  - apply IH; auto. intros; apply H12; simpl; auto.
  - apply Forall_app. split; auto.
    apply Forall_forall. intros b Hb. apply H12; simpl; auto.
Qed.

Lemma StronglySorted_flat_map {A B : Type} (RA : A -> A -> Prop)
  (RB : B -> B -> Prop) (f : A -> list B) (l : list A) :
  StronglySorted RA l ->
  (forall a, In a l -> StronglySorted RB (f a)) ->
  (forall a a' b b', In a l -> In a' l -> RA a a' -> In b (f a) -> In b' (f a') -> RB b b') ->
  StronglySorted RB (flat_map f l).
Proof.
  induction l as [|x l IH]; intros Hl Hf Hc; simpl.
  - constructor.
  - apply StronglySorted_inv in Hl. destruct Hl as [Hl Hx].
    apply StronglySorted_app_intro.
    + apply Hf; simpl; auto.
    + apply IH; auto.
      * intros; apply Hf; simpl; auto.
      * intros a a' b b' Ha Ha'. apply Hc; simpl; auto.
    + intros b b' Hb Hb'. apply in_flat_map in Hb'. destruct Hb' as [a' [Ha' Hb']].
      rewrite Forall_forall in Hx.
      apply (Hc x a'); simpl; auto.
Qed.

Lemma StronglySorted_seq (start len : nat) : StronglySorted lt (seq start len).
Proof.
  revert start. induction len as [|len IH]; intros start; simpl; constructor; auto.
  apply Forall_forall. intros j Hj. apply in_seq in Hj. lia.
Qed.

Lemma StronglySorted_map {A B : Type} (RA : A -> A -> Prop) (RB : B -> B -> Prop)
  (f : A -> B) (l : list A) :
  (forall a a', RA a a' -> RB (f a) (f a')) ->
  StronglySorted RA l -> StronglySorted RB (map f l).
Proof.
  intros Hf. induction 1 as [|x l Hl IH Hx]; simpl; constructor; auto.
  apply Forall_map. eapply Forall_impl; [|exact Hx]. auto.
Qed.

Lemma range_sorted (n : Z) : StronglySorted Z.lt (range n).
Proof.
  unfold range. apply (StronglySorted_map lt); [lia | apply StronglySorted_seq].
Qed.

Lemma StronglySorted_NoDup {A : Type} (R : A -> A -> Prop) (l : list A) :
  (forall a, ~ R a a) -> StronglySorted R l -> NoDup l.
Proof.
  intros Hirr. induction 1 as [|x l Hl IH Hx]; constructor; auto.
  intros Hin. rewrite Forall_forall in Hx. exact (Hirr x (Hx x Hin)).
Qed.

Lemma norm_index_nonneg (len : nat) (i : Z) :
  0 <= i < Z.of_nat len -> norm_index len i = Some (Z.to_nat i).
Proof.
  intros H. unfold norm_index.
  destruct (Z.leb_spec 0 i); [|lia].
  destruct (Z.ltb_spec i (Z.of_nat len)); [reflexivity | lia].
Qed.

Lemma norm_index_bound (len : nat) (i : Z) (n : nat) :
  norm_index len i = Some n -> (n < len)%nat.
Proof.
  unfold norm_index.
  destruct (Z.leb_spec 0 i).
  - destruct (Z.ltb_spec i (Z.of_nat len)); [|discriminate].
    intros [= <-]. lia.
  - destruct (Z.leb_spec (- Z.of_nat len) i); [|discriminate].
    intros [= <-]. lia.
Qed.

Lemma cell_at_nat (b : list (list cell)) (r c : Z) :
  0 <= r -> 0 <= c -> cell_at b r c = cell_nat b (Z.to_nat r) (Z.to_nat c).
Proof.
  intros Hr Hc. unfold cell_at, cell_nat, getitem, norm_index.
  destruct (Z.leb_spec 0 r); [|lia].
  destruct (Z.ltb_spec r (Z.of_nat (length b))).
  - destruct (nth_error b (Z.to_nat r)) as [row|]; [|reflexivity].
    destruct (Z.leb_spec 0 c); [|lia].
    destruct (Z.ltb_spec c (Z.of_nat (length row))); [reflexivity|].
    assert (Hn : nth_error row (Z.to_nat c) = None) by (apply nth_error_None; lia).
    now rewrite Hn.
  - assert (Hn : nth_error b (Z.to_nat r) = None) by (apply nth_error_None; lia).
    now rewrite Hn.
Qed.

Lemma length_update_nth {A : Type} (n : nat) (f : A -> A) (l : list A) :
  length (update_nth n f l) = length l.
Proof.
  revert n. induction l as [|a l IH]; intros [|n]; simpl; auto.
Qed.

Lemma nth_error_update_nth {A : Type} (n n' : nat) (f : A -> A) (l : list A) :
  nth_error (update_nth n f l) n' =
  if Nat.eqb n n' then option_map f (nth_error l n') else nth_error l n'.
Proof.
  revert n n'. induction l as [|a l IH]; intros [|n] [|n']; simpl; auto.
  - destruct (Nat.eqb n n'); reflexivity.
Qed.

Lemma cell_nat_set_cell (b : list (list cell)) (r c r' c' : nat) (v : cell) :
  cell_nat (set_cell b r c v) r' c' =
  if Nat.eqb r r' && Nat.eqb c c' then
    match nth_error b r with
    | Some row => match nth_error row c with Some _ => v | None => None end
    | None => None
    end
  else cell_nat b r' c'.
Proof.
  unfold cell_nat, set_cell. rewrite nth_error_update_nth.
  destruct (Nat.eqb_spec r r') as [<-|Hr]; simpl; [|reflexivity].
  destruct (nth_error b r) as [row|] eqn:Hrow; simpl.
  - rewrite nth_error_update_nth.
    destruct (Nat.eqb_spec c c') as [<-|Hc]; simpl; [|reflexivity].
    destruct (nth_error row c); reflexivity.
  - destruct (Nat.eqb c c'); reflexivity.
Qed.

(** ** The rules: [result], [actions] and the state invariant *)

Lemma result_by_position (s : State) (mv : Move) :
  result s mv =
  match position s mv with
  | None => Raise IndexError
  | Some (r, c) =>
      match cell_nat (board s) r c with
      | Some _ => Raise ValueError
      | None => Ok (place s r c)
      end
  end.
Proof.
  destruct mv as [r c]. unfold result, position, cell_nat, place. simpl.
  destruct (norm_index (length (board s)) r) as [r'|]; [|reflexivity].
  destruct (nth_error (board s) r') as [row|] eqn:Hrow; [|reflexivity].
  destruct (norm_index (length row) c) as [c'|] eqn:Hc; [|reflexivity].
  apply norm_index_bound in Hc. apply nth_error_Some in Hc.
  rewrite Hrow.
  destruct (nth_error row c') as [[p|]|] eqn:Hcell; try reflexivity. congruence.
Qed.

Lemma result_ok_inv (s s' : State) (mv : Move) :
  result s mv = Ok s' ->
  exists r c, position s mv = Some (r, c) /\
              cell_nat (board s) r c = None /\ s' = place s r c.
Proof.
  rewrite result_by_position.
  destruct (position s mv) as [[r c]|]; [|discriminate].
  destruct (cell_nat (board s) r c) eqn:Hc; [discriminate|].
  intros [= <-]. exists r, c. auto.
Qed.

Lemma position_in_board (s : State) (r c : Z) :
  wf_board s -> 0 <= r < m s -> 0 <= c < m s ->
  position s (r, c) = Some (Z.to_nat r, Z.to_nat c).
Proof.
  intros (Hm & Hlen & Hrows) Hr Hc. unfold position. simpl.
  rewrite norm_index_nonneg by lia.
  destruct (nth_error (board s) (Z.to_nat r)) as [row|] eqn:Hrow.
  - rewrite Forall_forall in Hrows.
    rewrite (Hrows row (nth_error_In _ _ Hrow)).
    rewrite norm_index_nonneg by lia. reflexivity.
  - apply nth_error_None in Hrow. lia.
Qed.

Lemma position_bound (s : State) (mv : Move) (r c : nat) :
  wf_board s -> position s mv = Some (r, c) ->
  (r < Z.to_nat (m s))%nat /\ (c < Z.to_nat (m s))%nat.
Proof.
  intros (Hm & Hlen & Hrows). unfold position.
  destruct (norm_index (length (board s)) (fst mv)) as [r'|] eqn:Hr; [|discriminate].
  destruct (nth_error (board s) r') as [row|] eqn:Hrow; [|discriminate].
  destruct (norm_index (length row) (snd mv)) as [c'|] eqn:Hc; [|discriminate].
  intros [= <- <-].
  apply norm_index_bound in Hr, Hc.
  rewrite Forall_forall in Hrows.
  rewrite (Hrows row (nth_error_In _ _ Hrow)) in Hc. lia.
Qed.

Lemma in_actions (s : State) (r c : Z) :
  In (r, c) (actions s) <->
  0 <= r < m s /\ 0 <= c < m s /\ cell_at (board s) r c = None.
Proof.
  unfold actions. rewrite in_flat_map. split.
  - intros [r' [Hr' Hin]]. apply in_flat_map in Hin.
    destruct Hin as [c' [Hc' Hin]].
    apply in_range in Hr', Hc'.
    destruct (cell_at (board s) r' c') eqn:Hcell; simpl in Hin; [contradiction|].
    destruct Hin as [[= <- <-]|[]]. auto.
  - intros (Hr & Hc & Hcell). exists r. split; [now apply in_range|].
    apply in_flat_map. exists c. split; [now apply in_range|].
    rewrite Hcell. simpl. auto.
Qed.

Lemma in_occupied (s : State) (r c : Z) :
  In (r, c) (occupied s) <->
  0 <= r < m s /\ 0 <= c < m s /\ cell_at (board s) r c <> None.
Proof.
  unfold occupied. rewrite in_flat_map. split.
  - intros [r' [Hr' Hin]]. apply in_flat_map in Hin.
    destruct Hin as [c' [Hc' Hin]].
    apply in_range in Hr', Hc'.
    destruct (cell_at (board s) r' c') eqn:Hcell; simpl in Hin; [|contradiction].
    destruct Hin as [[= <- <-]|[]]. rewrite Hcell. repeat split; try lia. discriminate.
  - intros (Hr & Hc & Hcell). exists r. split; [now apply in_range|].
    apply in_flat_map. exists c. split; [now apply in_range|].
    destruct (cell_at (board s) r c); [simpl; auto | congruence].
Qed.

Lemma Move_lt_irrefl (a : Move) : ~ Move_lt a a.
Proof. unfold Move_lt. lia. Qed.

Lemma Move_lt_trans (a b c : Move) : Move_lt a b -> Move_lt b c -> Move_lt a c.
Proof. unfold Move_lt. lia. Qed.

Lemma cells_sorted (s : State) (keep : cell -> bool) :
  StronglySorted Move_lt
    (flat_map (fun r =>
       flat_map (fun c => if keep (cell_at (board s) r c) then [(r, c)] else [])
                (range (m s)))
       (range (m s))).
Proof.
  apply (StronglySorted_flat_map Z.lt); [apply range_sorted | |].
  - intros r _. apply (StronglySorted_flat_map Z.lt); [apply range_sorted | |].
    + intros c _. destruct (keep _); repeat constructor.
    + intros c c' b b' _ _ Hlt Hb Hb'.
      destruct (keep (cell_at (board s) r c)); [|contradiction].
      destruct (keep (cell_at (board s) r c')); [|contradiction].
      destruct Hb as [<-|[]]. destruct Hb' as [<-|[]].
      right. simpl. auto.
  - intros r r' b b' _ _ Hlt Hb Hb'.
    apply in_flat_map in Hb, Hb'.
    destruct Hb as [c [_ Hb]]. destruct Hb' as [c' [_ Hb']].
    destruct (keep (cell_at (board s) r c)); [|contradiction].
    destruct (keep (cell_at (board s) r' c')); [|contradiction].
    destruct Hb as [<-|[]]. destruct Hb' as [<-|[]].
    left. simpl. auto.
Qed.

Lemma actions_sorted (s : State) : StronglySorted Move_lt (actions s).
Proof. apply (cells_sorted s is_None). Qed.

Lemma actions_NoDup (s : State) : NoDup (actions s).
Proof.
  eapply StronglySorted_NoDup; [apply Move_lt_irrefl | apply actions_sorted].
Qed.

Lemma occupied_NoDup (s : State) : NoDup (occupied s).
Proof.
  eapply StronglySorted_NoDup; [apply Move_lt_irrefl|].
  unfold occupied.
  pose proof (cells_sorted s (fun x => negb (is_None x))) as H.
  erewrite flat_map_ext; [exact H|].
  intros r. apply flat_map_ext. intros c. simpl.
  destruct (is_None (cell_at (board s) r c)); reflexivity.
Qed.

Lemma length_split_cells {A B : Type} (p : A -> bool) (f : A -> B) (l : list A) :
  (length (flat_map (fun a => if p a then [f a] else []) l)
   + length (flat_map (fun a => if p a then [] else [f a]) l))%nat = length l.
Proof.
  induction l as [|a l IH]; simpl; auto.
  rewrite !length_app. destruct (p a); simpl; lia.
Qed.

Lemma length_flat_map_const {A B : Type} (f g : A -> list B) (l : list A) (n : nat) :
  (forall a, In a l -> (length (f a) + length (g a))%nat = n) ->
  (length (flat_map f l) + length (flat_map g l))%nat = (length l * n)%nat.
Proof.
  induction l as [|a l IH]; intros H; simpl; auto.
  rewrite !length_app.
  specialize (IH (fun x Hx => H x (or_intror Hx))).
  specialize (H a (or_introl eq_refl)). lia.
Qed.

(** Every cell is empty or occupied. *)
Lemma actions_occupied_total (s : State) :
  (length (actions s) + length (occupied s))%nat
  = (Z.to_nat (m s) * Z.to_nat (m s))%nat.
Proof.
  unfold actions, occupied.
  rewrite <- (length_range (m s)) at 1.
  apply length_flat_map_const. intros r _.
  rewrite <- (length_range (m s)).
  apply (length_split_cells (fun c => is_None (cell_at (board s) r c)) (fun c => (r, c))).
Qed.

Lemma place_wf_board (s : State) (r c : nat) : wf_board s -> wf_board (place s r c).
Proof.
  intros (Hm & Hlen & Hrows). unfold wf_board, place, set_cell. simpl.
  split; [assumption|]. split.
  - now rewrite length_update_nth.
  - apply Forall_forall. intros row Hin.
    apply In_nth_error in Hin. destruct Hin as [n Hn].
    rewrite nth_error_update_nth in Hn.
    rewrite Forall_forall in Hrows.
    destruct (Nat.eqb r n).
    + destruct (nth_error (board s) n) as [row0|] eqn:Hrow0; [|discriminate].
      simpl in Hn. injection Hn as <-. rewrite length_update_nth.
      apply Hrows. eapply nth_error_In; eauto.
    + apply Hrows. eapply nth_error_In; eauto.
Qed.

Lemma result_wf_board (s s' : State) (mv : Move) :
  wf_board s -> result s mv = Ok s' -> wf_board s'.
Proof.
  intros Hwf Hres. apply result_ok_inv in Hres.
  destruct Hres as (r & c & _ & _ & ->). now apply place_wf_board.
Qed.

Lemma result_legal (s : State) (a : Move) :
  wf_board s -> In a (actions s) ->
  result s a = Ok (place s (Z.to_nat (fst a)) (Z.to_nat (snd a))).
Proof.
  intros Hwf Hin. destruct a as [r c]. apply in_actions in Hin.
  destruct Hin as (Hr & Hc & Hcell).
  rewrite result_by_position, position_in_board by assumption.
  rewrite cell_at_nat in Hcell by lia. simpl. now rewrite Hcell.
Qed.

Lemma cell_at_place (s : State) (r c : nat) (r' c' : Z) :
  wf_board s -> (r < Z.to_nat (m s))%nat -> (c < Z.to_nat (m s))%nat ->
  0 <= r' -> 0 <= c' ->
  cell_at (board (place s r c)) r' c' =
  if (Z.of_nat r =? r') && (Z.of_nat c =? c') then Some (player s)
  else cell_at (board s) r' c'.
Proof.
  intros (Hm & Hlen & Hrows) Hr Hc Hr' Hc'.
  rewrite !cell_at_nat by assumption. simpl. rewrite cell_nat_set_cell.
  destruct (Z.eqb_spec (Z.of_nat r) r') as [<-|Hne].
  - rewrite Nat2Z.id, Nat.eqb_refl. simpl.
    destruct (Z.eqb_spec (Z.of_nat c) c') as [<-|Hne].
    + rewrite Nat2Z.id, Nat.eqb_refl.
      destruct (nth_error (board s) r) as [row|] eqn:Hrow.
      * rewrite Forall_forall in Hrows.
        pose proof (Hrows row (nth_error_In _ _ Hrow)) as Hl.
        destruct (nth_error row c) eqn:Hcell; [reflexivity|].
        apply nth_error_None in Hcell. lia.
      * apply nth_error_None in Hrow. lia.
    + destruct (Nat.eqb_spec c (Z.to_nat c')); [lia | reflexivity].
  - destruct (Nat.eqb_spec r (Z.to_nat r')); [lia | reflexivity].
Qed.

Lemma in_actions_result (s s' : State) (a a' : Move) :
  wf_board s -> In a (actions s) -> result s a = Ok s' ->
  (In a' (actions s') <-> In a' (actions s) /\ a' <> a).
Proof.
  intros Hwf Hin Hres. rewrite (result_legal s a Hwf Hin) in Hres.
  injection Hres as <-.
  destruct a as [r c], a' as [r' c']. apply in_actions in Hin.
  destruct Hin as (Hr & Hc & Hcell). cbn [fst snd].
  rewrite !in_actions.
  change (m (place s (Z.to_nat r) (Z.to_nat c))) with (m s).
  split.
  - intros (Hr' & Hc' & Hcell').
    rewrite cell_at_place in Hcell' by (auto; lia).
    rewrite !Z2Nat.id in Hcell' by lia.
    destruct (Z.eqb_spec r r'); destruct (Z.eqb_spec c c'); simpl in Hcell';
      try discriminate; (split; [auto | congruence]).
  - intros ((Hr' & Hc' & Hcell') & Hne).
    rewrite cell_at_place by (auto; lia).
    rewrite !Z2Nat.id by lia.
    destruct (Z.eqb_spec r r'); destruct (Z.eqb_spec c c'); simpl; auto.
    subst. congruence.
Qed.

Lemma actions_result_perm (s s' : State) (a : Move) :
  wf_board s -> In a (actions s) -> result s a = Ok s' ->
  Permutation (a :: actions s') (actions s).
Proof.
  intros Hwf Hin Hres. apply NoDup_Permutation.
  - constructor; [|apply actions_NoDup].
    intros H. apply (in_actions_result s s' a a Hwf Hin Hres) in H. tauto.
  - apply actions_NoDup.
  - intros a'. simpl. rewrite (in_actions_result s s' a a' Hwf Hin Hres).
    destruct a as [r c], a' as [r' c'].
    destruct (Z.eq_dec r r'); destruct (Z.eq_dec c c'); subst; intuition congruence.
Qed.

Lemma length_actions_result (s s' : State) (a : Move) :
  wf_board s -> In a (actions s) -> result s a = Ok s' ->
  S (length (actions s')) = length (actions s).
Proof.
  intros Hwf Hin Hres.
  exact (Permutation_length (actions_result_perm s s' a Hwf Hin Hres)).
Qed.

Lemma result_wf_state (s s' : State) (a : Move) :
  wf_state s -> In a (actions s) -> result s a = Ok s' -> wf_state s'.
Proof.
  intros [Hwf Hmoves] Hin Hres. split; [eapply result_wf_board; eauto|].
  pose proof (length_actions_result s s' a Hwf Hin Hres) as Hlen.
  pose proof (actions_occupied_total s) as Ht.
  pose proof (actions_occupied_total s') as Ht'.
  rewrite (result_legal s a Hwf Hin) in Hres. injection Hres as <-.
  simpl in *. lia.
Qed.

Lemma initial_state_cell (m k r c : Z) : cell_at (board (initial_state m k)) r c = None.
Proof.
  unfold cell_at, getitem, initial_state. simpl.
  destruct (norm_index _ r) as [r'|]; [|reflexivity].
  rewrite nth_error_map.
  destruct (nth_error (range m) r'); simpl; [|reflexivity].
  destruct (norm_index _ c) as [c'|]; [|reflexivity].
  rewrite nth_error_map.
  destruct (nth_error (range m) c'); reflexivity.
Qed.

Lemma initial_state_wf (m k : Z) : 0 <= m -> wf_state (initial_state m k).
Proof.
  intros Hm. split.
  - unfold wf_board, initial_state. simpl. split; [assumption|]. split.
    + now rewrite length_map, length_range.
    + apply Forall_map, Forall_forall. intros. now rewrite length_map, length_range.
  - simpl. destruct (occupied (initial_state m k)) as [|[r c] l] eqn:Hocc; [reflexivity|].
    assert (Hin : In (r, c) (occupied (initial_state m k))) by (rewrite Hocc; simpl; auto).
    apply in_occupied in Hin. destruct Hin as (_ & _ & Hcell).
    now rewrite initial_state_cell in Hcell.
Qed.

(** Induction over the game tree: a property of a state follows from the
    property of all its successors. *)
Lemma game_induction (P : State -> Prop) :
  (forall s, wf_board s ->
     (forall a s', In a (actions s) -> result s a = Ok s' -> P s') -> P s) ->
  forall s, wf_board s -> P s.
Proof.
  intros Hstep s.
  remember (length (actions s)) as n eqn:Hn.
  revert s Hn. induction n as [n IH] using lt_wf_ind.
  intros s Hn Hwf. apply Hstep; [assumption|].
  intros a s' Hin Hres.
  apply (IH (length (actions s'))); auto.
  - pose proof (length_actions_result s s' a Hwf Hin Hres). lia.
  - eapply result_wf_board; eauto.
Qed.

Lemma game_induction_state (P : State -> Prop) :
  (forall s, wf_state s ->
     (forall a s', In a (actions s) -> result s a = Ok s' -> P s') -> P s) ->
  forall s, wf_state s -> P s.
Proof.
  intros Hstep s Hs.
  assert (H : wf_state s -> P s); [|auto].
  destruct Hs as [Hwf _]. revert s Hwf.
  apply (game_induction (fun s => wf_state s -> P s)).
  intros s Hwf IH Hs. apply Hstep; [assumption|].
  intros a s' Hin Hres. apply (IH a s' Hin Hres).
  eapply result_wf_state; eauto.
Qed.

(** A non-terminal state of the game has a legal move. *)
Lemma nonterminal_has_action (s : State) :
  wf_state s -> terminal s = false -> actions s <> [].
Proof.
  intros [(Hm & Hlen & Hrows) Hmoves] Hterm Hnil.
  unfold terminal in Hterm. apply orb_false_iff in Hterm.
  destruct Hterm as [_ Hfull]. apply Z.eqb_neq in Hfull.
  pose proof (actions_occupied_total s) as Ht.
  rewrite Hnil in Ht. simpl in Ht. apply Hfull.
  rewrite Hmoves, Ht. nia.
Qed.

(** ** Sorting *)

Section SortingFacts.
Context {K A : Type}.
Variable ltb : K -> K -> bool.

Lemma insert_perm (x : K * A) (l : list (K * A)) :
  Permutation (insert ltb x l) (x :: l).
Proof.
  induction l as [|y l IH]; simpl; [reflexivity|].
  destruct (ltb (fst y) (fst x)); [|reflexivity].
  rewrite IH. apply perm_swap.
Qed.

Lemma sort_keyed_perm (l : list (K * A)) : Permutation (sort_keyed ltb l) l.
Proof.
  induction l as [|x l IH]; simpl; [reflexivity|].
  rewrite insert_perm. now constructor.
Qed.

(** A list that is already in order is left as it is. *)
Lemma sort_keyed_id (l : list (K * A)) :
  StronglySorted (fun a b => ltb (fst b) (fst a) = false) l ->
  sort_keyed ltb l = l.
Proof.
  induction 1 as [|x l Hl IH Hx]; simpl; [reflexivity|].
  rewrite IH. destruct l as [|y l]; simpl; [reflexivity|].
  apply Forall_inv in Hx. now rewrite Hx.
Qed.
End SortingFacts.

Lemma Move_ltb_lt (a b : Move) : Move_ltb a b = true <-> Move_lt a b.
Proof.
  destruct a as [r1 c1], b as [r2 c2]. unfold Move_ltb, Move_lt. simpl.
  destruct (Z.eqb_spec r1 r2); simpl.
  - rewrite Z.ltb_lt. lia.
  - rewrite Z.ltb_lt. lia.
Qed.

Lemma sorted_perm (l : list Move) : Permutation (sorted l) l.
Proof.
  unfold sorted. rewrite sort_keyed_perm, map_map. simpl. now rewrite map_id.
Qed.

Lemma sorted_id (l : list Move) : StronglySorted Move_lt l -> sorted l = l.
Proof.
  intros H. unfold sorted. rewrite sort_keyed_id.
  - rewrite map_map. simpl. apply map_id.
  - apply (StronglySorted_map Move_lt); [|assumption].
    intros a b Hab. simpl.
    destruct (Move_ltb b a) eqn:Hba; [|reflexivity].
    apply Move_ltb_lt in Hba. exfalso.
    exact (Move_lt_irrefl a (Move_lt_trans _ _ _ Hab Hba)).
Qed.

(** [actions] already enumerates in lexicographic order. *)
Lemma sorted_actions (s : State) : sorted (actions s) = actions s.
Proof. apply sorted_id, actions_sorted. Qed.

(** ** [order_moves] keeps the moves *)

Lemma mapM_length {A B : Type} (f : A -> res B) (l : list A) (l' : list B) :
  mapM f l = Ok l' -> length l' = length l.
Proof.
  revert l'. induction l as [|a l IH]; simpl; intros l'.
  - now intros [= <-].
  - destruct (f a); simpl; [|discriminate].
    destruct (mapM f l); simpl; [|discriminate].
    intros [= <-]. simpl. f_equal. now apply IH.
Qed.

Lemma mapM_ok {A B : Type} (f : A -> res B) (l : list A) :
  (forall a, In a l -> exists b, f a = Ok b) -> exists l', mapM f l = Ok l'.
Proof.
  induction l as [|a l IH]; simpl; intros H; [eauto|].
  destruct (H a (or_introl eq_refl)) as [b ->]. simpl.
  destruct IH as [l' ->]; [intros; apply H; auto|]. simpl. eauto.
Qed.

Lemma mapM_raise {A B : Type} (f : A -> res B) (l : list A) (a : A) (e : error) :
  In a l -> f a = Raise e -> exists e', mapM f l = Raise e'.
Proof.
  induction l as [|x l IH]; simpl; [contradiction|].
  intros [->|Hin] Hf.
  - rewrite Hf. simpl. eauto.
  - destruct (f x); simpl; [|eauto].
    destruct (IH Hin Hf) as [e' ->]. simpl. eauto.
Qed.

Lemma map_snd_combine {A B : Type} (l1 : list A) (l2 : list B) :
  length l1 = length l2 -> map snd (combine l1 l2) = l2.
Proof.
  revert l2. induction l1 as [|a l1 IH]; intros [|b l2]; simpl; try discriminate; auto.
  intros [= H]. f_equal. now apply IH.
Qed.

Lemma sorted_by_perm (key : Move -> res Key) (l l' : list Move) :
  sorted_by key l = Ok l' -> Permutation l' l.
Proof.
  unfold sorted_by. destruct (mapM key l) as [keys|] eqn:Hk; simpl; [|discriminate].
  intros [= <-]. rewrite sort_keyed_perm.
  rewrite map_snd_combine; [reflexivity|]. now apply mapM_length in Hk.
Qed.

Lemma order_moves_perm (s : State) (l l' : list Move) (h : bool) :
  order_moves s l h = Ok l' -> Permutation l' l.
Proof.
  unfold order_moves. destruct h; simpl.
  - apply sorted_by_perm.
  - intros [= <-]. apply sorted_perm.
Qed.

Lemma move_priority_ok (s : State) (mv : Move) :
  (exists s', result s mv = Ok s') -> exists key, move_priority s mv = Ok key.
Proof.
  intros [s' Hres]. unfold move_priority. destruct mv as [r c].
  rewrite Hres. simpl. destruct (winner_is _ _); eauto.
Qed.

Lemma order_moves_ok (s : State) (l : list Move) (h : bool) :
  wf_board s -> incl l (actions s) -> exists l', order_moves s l h = Ok l'.
Proof.
  intros Hwf Hl. unfold order_moves. destruct h; simpl; [|eauto].
  unfold sorted_by.
  destruct (mapM_ok (move_priority s) l) as [keys ->]; [|simpl; eauto].
  intros a Ha. apply move_priority_ok.
  rewrite (result_legal s a Hwf (Hl a Ha)). eauto.
Qed.

Lemma ordered_moves_ok (s : State) (h : bool) :
  wf_board s -> exists l, ordered_moves s h = Ok l /\ Permutation l (actions s).
Proof.
  intros Hwf. unfold ordered_moves. destruct h.
  - destruct (order_moves_ok s (actions s) true Hwf (incl_refl _)) as [l Hl].
    exists l. split; [assumption|]. eapply order_moves_perm; eauto.
  - exists (sorted (actions s)). split; [reflexivity | apply sorted_perm].
Qed.

(** ** [order_moves] on an input in lexicographic order *)

Lemma Z_bool_order : bool_order Z.eqb Z.ltb.
Proof.
  split; intros;
    rewrite ?Z.eqb_eq, ?Z.eqb_neq, ?Z.ltb_lt, ?Z.ltb_ge in *; lia.
Qed.

Lemma Qlt_bool_lt (a b : Q) : Qlt_bool a b = true <-> (a < b)%Q.
Proof. unfold Qlt_bool, Qlt. apply Z.ltb_lt. Qed.

Lemma Qlt_bool_ge (a b : Q) : Qlt_bool a b = false <-> (b <= a)%Q.
Proof. unfold Qlt_bool, Qle. apply Z.ltb_ge. Qed.

Lemma Qeq_bool_false (a b : Q) : Qeq_bool a b = false <-> ~ (a == b)%Q.
Proof.
  split.
  - intros H He. apply Qeq_bool_iff in He. congruence.
  - intros H. destruct (Qeq_bool a b) eqn:He; [|reflexivity].
    apply Qeq_bool_iff in He. contradiction.
Qed.

Lemma Q_bool_order : bool_order Qeq_bool Qlt_bool.
Proof.
  split; intros;
    rewrite ?Qeq_bool_iff, ?Qeq_bool_false, ?Qlt_bool_lt, ?Qlt_bool_ge in *; lra.
Qed.

Section LexStep.
Context {A : Type} (eqb ltb : A -> A -> bool).
Hypothesis Hord : bool_order eqb ltb.

Lemma eqb_swap (a b : A) : eqb b a = eqb a b.
Proof.
  destruct (eqb a b) eqn:H1, (eqb b a) eqn:H2; try reflexivity.
  - apply (bo_sym _ _ Hord) in H1. congruence.
  - apply (bo_sym _ _ Hord) in H2. congruence.
Qed.

(** If the shorter tuple puts [a..] before [b..], or does not put it after
    while the input order [T] had it first, then the longer tuple does not
    put [b..] before [a..], as long as the same holds of the rest. *)
Lemma lex_step_refines (T : Prop) (a b : A) (r12 r21 f21 : bool) :
  (r12 = true \/ (r21 = false /\ T) -> f21 = false) ->
  lex_step eqb ltb a b r12 = true \/ (lex_step eqb ltb b a r21 = false /\ T) ->
  lex_step eqb ltb b a f21 = false.
Proof.
  unfold lex_step. intros Hrest. rewrite (eqb_swap a b).
  destruct (eqb a b) eqn:He; simpl.
  - exact Hrest.
  - intros [H | [H _]]; [|exact H]. now apply (bo_asym _ _ Hord).
Qed.

Lemma lex_step_asym (a b : A) (r r' : bool) :
  (r = true -> r' = false) ->
  lex_step eqb ltb a b r = true -> lex_step eqb ltb b a r' = false.
Proof.
  intros Hrest H. apply (lex_step_refines False a b r true r').
  - intros [Hr | [_ []]]. now apply Hrest.
  - now left.
Qed.

Lemma lex_step_lt_le (a b c : A) (rab rcb rac : bool) :
  (rab = true -> rcb = false -> rac = true) ->
  lex_step eqb ltb a b rab = true -> lex_step eqb ltb c b rcb = false ->
  lex_step eqb ltb a c rac = true.
Proof.
  unfold lex_step. intros Hrest.
  destruct (eqb a b) eqn:Hab; simpl.
  - destruct (eqb c b) eqn:Hcb; simpl.
    + rewrite (bo_eq_trans _ _ Hord a b c Hab); [exact Hrest|].
      now apply (bo_sym _ _ Hord).
    + intros _ Hlt.
      assert (Hac : ltb a c = true).
      { apply (bo_le_lt _ _ Hord a b c).
        - destruct (ltb b a) eqn:Hba; [|reflexivity].
          apply (bo_lt_neq _ _ Hord) in Hba. rewrite eqb_swap in Hba. congruence.
        - now apply (bo_total _ _ Hord c b). }
      now rewrite (bo_lt_neq _ _ Hord _ _ Hac).
  - intros Hlt Hcb.
    assert (Hac : ltb a c = true).
    { apply (bo_lt_le _ _ Hord a b c Hlt).
      destruct (eqb c b) eqn:Hcb'; simpl in Hcb; [|exact Hcb].
      destruct (ltb c b) eqn:Hlt'; [|reflexivity].
      apply (bo_lt_neq _ _ Hord) in Hlt'. congruence. }
    now rewrite (bo_lt_neq _ _ Hord _ _ Hac).
Qed.
End LexStep.

Section StableSort.
Context {K A : Type} (ltb : K -> K -> bool) (T : A -> A -> Prop).
Hypothesis ltb_asym : forall a b, ltb a b = true -> ltb b a = false.
Hypothesis ltb_lt_le : forall a b c,
  ltb a b = true -> ltb c b = false -> ltb a c = true.

Lemma keyed_before_insert (x y w : K * A) :
  ltb (fst y) (fst x) = false -> T (snd x) (snd w) ->
  keyed_before ltb T y w -> keyed_before ltb T x w.
Proof.
  intros Hyx Hxw Hyw. unfold keyed_before.
  destruct (ltb (fst x) (fst w)) eqn:Hlt; [now left | right].
  split; [|assumption].
  destruct (ltb (fst w) (fst x)) eqn:Hwx; [|reflexivity].
  pose proof (ltb_lt_le _ _ _ Hwx Hyx) as Hwy.
  destruct Hyw as [H | [H _]]; [apply ltb_asym in H|]; congruence.
Qed.

Lemma insert_sorted (x : K * A) (l : list (K * A)) :
  StronglySorted (keyed_before ltb T) l ->
  Forall (fun z => T (snd x) (snd z)) l ->
  StronglySorted (keyed_before ltb T) (insert ltb x l).
Proof.
  induction 1 as [|y l Hl IH Hy]; intros Hx; simpl.
  - constructor; constructor.
  - apply Forall_cons_iff in Hx. destruct Hx as [Hxy Hx].
    destruct (ltb (fst y) (fst x)) eqn:Hyx.
    + constructor; [now apply IH|].
      apply Forall_forall. intros w Hw.
      apply (Permutation_in _ (insert_perm ltb x l)) in Hw.
      destruct Hw as [<- | Hw]; [now left|].
      rewrite Forall_forall in Hy. now apply Hy.
    + constructor; [now constructor|]. constructor.
      * destruct (ltb (fst x) (fst y)) eqn:Hlt; [now left | right; auto].
      * rewrite Forall_forall in Hx, Hy |- *. intros w Hw.
        apply (keyed_before_insert x y w); auto.
Qed.

(** Stability: an input that ascends by [T] comes out ascending by key,
    and by [T] among equal keys. *)
Lemma sort_keyed_stable (l : list (K * A)) :
  StronglySorted (fun x y => T (snd x) (snd y)) l ->
  StronglySorted (keyed_before ltb T) (sort_keyed ltb l).
Proof.
  induction 1 as [|x l Hl IH Hx]; simpl; [constructor|].
  apply insert_sorted; [assumption|].
  rewrite Forall_forall in Hx |- *. intros z Hz. apply Hx.
  now apply (Permutation_in _ (sort_keyed_perm ltb l)).
Qed.
End StableSort.

Lemma Key_ltb_steps (a1 : Z) (a2 : Q) (a3 a4 b1 : Z) (b2 : Q) (b3 b4 : Z) :
  Key_ltb (a1, a2, a3, a4) (b1, b2, b3, b4) =
  lex_step Z.eqb Z.ltb a1 b1
    (lex_step Qeq_bool Qlt_bool a2 b2 (lex_step Z.eqb Z.ltb a3 b3 (a4 <? b4))).
Proof. reflexivity. Qed.

Lemma FullKey_ltb_steps (a1 : Z) (a2 : Q) (a3 a4 a5 b1 : Z) (b2 : Q) (b3 b4 b5 : Z) :
  FullKey_ltb (a1, a2, a3, a4, a5) (b1, b2, b3, b4, b5) =
  lex_step Z.eqb Z.ltb a1 b1
    (lex_step Qeq_bool Qlt_bool a2 b2
       (lex_step Z.eqb Z.ltb a3 b3 (lex_step Z.eqb Z.ltb a4 b4 (a5 <? b5)))).
Proof. reflexivity. Qed.

Lemma Key_ltb_asym (a b : Key) : Key_ltb a b = true -> Key_ltb b a = false.
Proof.
  destruct a as [[[a1 a2] a3] a4], b as [[[b1 b2] b3] b4].
  rewrite !Key_ltb_steps.
  apply (lex_step_asym _ _ Z_bool_order), (lex_step_asym _ _ Q_bool_order),
        (lex_step_asym _ _ Z_bool_order).
  rewrite Z.ltb_lt, Z.ltb_ge. lia.
Qed.

Lemma Key_ltb_lt_le (a b c : Key) :
  Key_ltb a b = true -> Key_ltb c b = false -> Key_ltb a c = true.
Proof.
  destruct a as [[[a1 a2] a3] a4], b as [[[b1 b2] b3] b4], c as [[[c1 c2] c3] c4].
  rewrite !Key_ltb_steps.
  apply (lex_step_lt_le _ _ Z_bool_order), (lex_step_lt_le _ _ Q_bool_order),
        (lex_step_lt_le _ _ Z_bool_order).
  rewrite !Z.ltb_lt, Z.ltb_ge. lia.
Qed.

Lemma move_priority_inv (s : State) (mv : Move) (key : Key) :
  move_priority s mv = Ok key ->
  exists s', result s mv = Ok s' /\
    key = if winner_is (winner s') (player s)
          then (0, 0%Q, fst mv, snd mv)
          else (1, (- mover_evaluation (player s) s')%Q, manhattan s mv, fst mv).
Proof.
  unfold move_priority, manhattan, mover_evaluation. destruct mv as [r c].
  destruct (result s (r, c)) as [s'|] eqn:Hres; simpl; [|discriminate].
  intros H. exists s'. split; [reflexivity|].
  destruct (winner_is (winner s') (player s)); now injection H as <-.
Qed.

(** The key of [order_moves] places two moves of an ascending input as the
    specified key does. *)
Lemma keyed_before_specified (s : State) (x y : Key * Move) :
  keyed_by (move_priority s) x -> keyed_by (move_priority s) y ->
  keyed_before Key_ltb Move_lt x y -> specified_order s (snd x) (snd y).
Proof.
  destruct x as [ka [r1 c1]], y as [kb [r2 c2]]. unfold keyed_by, keyed_before. cbn [fst snd].
  intros Ha Hb Hbefore.
  apply move_priority_inv in Ha, Hb.
  destruct Ha as (sa & Hra & ->), Hb as (sb & Hrb & ->).
  unfold specified_order, specified_key. rewrite Hra, Hrb. cbn [fst snd bind] in *.
  assert (Hlast : (r1 <? r2) = true \/ ((r2 <? r1) = false /\ Move_lt (r1, c1) (r2, c2)) ->
                  lex_step Z.eqb Z.ltb r2 r1 (c2 <? c1) = false).
  { unfold lex_step, Move_lt. simpl.
    rewrite Z.ltb_lt, Z.ltb_ge. intros H.
    destruct (Z.eqb_spec r2 r1); simpl; [apply Z.ltb_ge | apply Z.ltb_ge]; lia. }
  destruct (winner_is (winner sa) (player s)), (winner_is (winner sb) (player s));
    eexists _, _; (split; [reflexivity|]); (split; [reflexivity|]);
    rewrite FullKey_ltb_steps; rewrite !Key_ltb_steps in Hbefore.
  - revert Hbefore.
    apply (lex_step_refines _ _ Z_bool_order), (lex_step_refines _ _ Q_bool_order).
    intros H. change (lex_step Z.eqb Z.ltb r2 r1 (c2 <? c1) = false).
    destruct H as [H | [H _]]; [|exact H].
    revert H. apply (lex_step_asym _ _ Z_bool_order).
    rewrite Z.ltb_lt, Z.ltb_ge. lia.
  - reflexivity.
  - destruct Hbefore as [H | [H _]]; discriminate.
  - revert Hbefore.
    apply (lex_step_refines _ _ Z_bool_order), (lex_step_refines _ _ Q_bool_order),
          (lex_step_refines _ _ Z_bool_order).
    exact Hlast.
Qed.

Lemma StronglySorted_weaken {A : Type} (R R' : A -> A -> Prop) (P : A -> Prop)
  (l : list A) :
  (forall a b, P a -> P b -> R a b -> R' a b) ->
  Forall P l -> StronglySorted R l -> StronglySorted R' l.
Proof.
  intros Himp HP Hs. induction Hs as [|a l Hl IH Ha]; [constructor|].
  apply Forall_cons_iff in HP. destruct HP as [Pa HP].
  constructor; [now apply IH|].
  rewrite Forall_forall in Ha, HP |- *. intros b Hb. apply Himp; auto.
Qed.

Lemma StronglySorted_combine {A B : Type} (R : B -> B -> Prop)
  (keys : list A) (l : list B) :
  StronglySorted R l ->
  StronglySorted (fun x y => R (snd x) (snd y)) (combine keys l).
Proof.
  intros Hs. revert keys.
  induction Hs as [|b l Hl IH Hb]; intros [|key keys]; simpl; try constructor.
  - apply IH.
  - rewrite Forall_forall in Hb |- *. intros [key' b'] Hin.
    apply in_combine_r in Hin. now apply Hb.
Qed.

Lemma mapM_combine {A B : Type} (f : A -> res B) (l : list A) (keys : list B) :
  mapM f l = Ok keys -> Forall (keyed_by f) (combine keys l).
Proof.
  revert keys. induction l as [|a l IH]; simpl; intros keys.
  - intros [= <-]. constructor.
  - destruct (f a) as [key|] eqn:Hf; simpl; [|discriminate].
    destruct (mapM f l) as [keys'|]; simpl; [|discriminate].
    intros [= <-]. simpl. constructor; [exact Hf | now apply IH].
Qed.

(** On an input in lexicographic order the moves come out in the order of
    the specified key; [actions] gives such an input. *)
Lemma order_moves_ascending_input (s : State) (l l' : list Move) :
  StronglySorted Move_lt l ->
  order_moves s l true = Ok l' ->
  StronglySorted (specified_order s) l'.
Proof.
  intros Hl. unfold order_moves, sorted_by. simpl.
  destruct (mapM (move_priority s) l) as [keys|] eqn:Hk; simpl; [|discriminate].
  intros [= <-].
  apply (StronglySorted_map
           (fun x y => keyed_by (move_priority s) x /\ keyed_by (move_priority s) y /\
                       keyed_before Key_ltb Move_lt x y)).
  - intros x y (Hx & Hy & Hxy). now apply keyed_before_specified.
  - apply (StronglySorted_weaken (keyed_before Key_ltb Move_lt) _
             (keyed_by (move_priority s))); [auto| |].
    + apply (Permutation_Forall (Permutation_sym (sort_keyed_perm Key_ltb _))).
      now apply mapM_combine.
    + apply sort_keyed_stable.
      * exact Key_ltb_asym.
      * exact Key_ltb_lt_le.
      * now apply StronglySorted_combine.
Qed.

Lemma order_moves_of_actions (s : State) :
  wf_board s ->
  exists l, order_moves s (actions s) true = Ok l /\
            Permutation l (actions s) /\
            StronglySorted (specified_order s) l.
Proof.
  intros Hwf.
  destruct (order_moves_ok s (actions s) true Hwf (incl_refl _)) as [l Hl].
  exists l. split; [exact Hl|]. split; [now apply (order_moves_perm s _ _ true)|].
  apply (order_moves_ascending_input s (actions s)); [apply actions_sorted | exact Hl].
Qed.

(** ** The recursion of the searches does not depend on the fuel *)

Lemma terminal_utility (s : State) :
  terminal s = true ->
  utility s = Some (match winner s with Some X => 1 | Some O => -1 | None => 0 end).
Proof.
  intros H. unfold utility. rewrite H. simpl. now destruct (winner s) as [[|]|].
Qed.

Lemma utility_value_terminal (s : State) :
  terminal s = true ->
  utility_value s =
  Ok (Fin (match winner s with Some X => 1 | Some O => -1 | None => 0 end)).
Proof. intros H. unfold utility_value. now rewrite terminal_utility. Qed.

Lemma max_loop_ext (rec1 rec2 : State -> res (SearchResult Z)) (s : State)
  (l : list Move) (bv : ext Z) (bm : option Move) :
  (forall a s', In a l -> result s a = Ok s' -> rec1 s' = rec2 s') ->
  max_loop rec1 s l bv bm = max_loop rec2 s l bv bm.
Proof.
  revert bv bm. induction l as [|a l IH]; intros bv bm H; simpl; [reflexivity|].
  destruct (result s a) eqn:Hres; simpl; [|reflexivity].
  rewrite (H a _ (or_introl eq_refl) Hres).
  destruct (rec2 a0) as [[v mv]|]; simpl; [|reflexivity].
  destruct (zlt bv v); apply IH; intros a' s' Hin' Hres'; apply (H a' s'); simpl; auto.
Qed.

Lemma min_loop_ext (rec1 rec2 : State -> res (SearchResult Z)) (s : State)
  (l : list Move) (bv : ext Z) (bm : option Move) :
  (forall a s', In a l -> result s a = Ok s' -> rec1 s' = rec2 s') ->
  min_loop rec1 s l bv bm = min_loop rec2 s l bv bm.
Proof.
  revert bv bm. induction l as [|a l IH]; intros bv bm H; simpl; [reflexivity|].
  destruct (result s a) eqn:Hres; simpl; [|reflexivity].
  rewrite (H a _ (or_introl eq_refl) Hres).
  destruct (rec2 a0) as [[v mv]|]; simpl; [|reflexivity].
  destruct (zlt v bv); apply IH; intros a' s' Hin' Hres'; apply (H a' s'); simpl; auto.
Qed.

Lemma minimax_fuel_stable (n1 n2 : nat) (s : State) :
  wf_board s -> (length (actions s) < n1)%nat -> (length (actions s) < n2)%nat ->
  minimax_fuel n1 s = minimax_fuel n2 s.
Proof.
  revert n2 s. induction n1 as [|n1 IH]; intros n2 s Hwf H1 H2; [lia|].
  destruct n2 as [|n2]; [lia|]. simpl.
  destruct (terminal s); [reflexivity|].
  rewrite sorted_actions.
  destruct (player s); [apply max_loop_ext | apply min_loop_ext];
    intros a s' Hin Hres;
    pose proof (length_actions_result s s' a Hwf Hin Hres);
    (apply IH; [eapply result_wf_board; eauto | lia | lia]).
Qed.

Lemma minimax_unfold (s : State) :
  wf_board s ->
  minimax s =
  if terminal s then u <- utility_value s ;; Ok (u, None)
  else match player s with
       | X => max_loop minimax s (actions s) NegInf None
       | O => min_loop minimax s (actions s) PosInf None
       end.
Proof.
  intros Hwf. unfold minimax at 1. unfold depth_bound. simpl.
  destruct (terminal s); [reflexivity|].
  rewrite sorted_actions.
  destruct (player s); [apply max_loop_ext | apply min_loop_ext];
    intros a s' Hin Hres;
    pose proof (length_actions_result s s' a Hwf Hin Hres);
    (unfold minimax, depth_bound; apply minimax_fuel_stable; [eapply result_wf_board; eauto | lia | lia]).
Qed.

(** ** The order on extended integers *)

Ltac ext_cases :=
  repeat match goal with
         | x : ext Z |- _ => destruct x
         end;
  unfold zlt, zle, zmax, zmin, ext_max, ext_min, ext_ltb, ext_leb in *;
  simpl in *;
  repeat match goal with
         | H : context [Z.ltb ?a ?b] |- _ => destruct (Z.ltb_spec a b)
         | |- context [Z.ltb ?a ?b] => destruct (Z.ltb_spec a b)
         | H : context [Z.leb ?a ?b] |- _ => destruct (Z.leb_spec a b)
         | |- context [Z.leb ?a ?b] => destruct (Z.leb_spec a b)
         end;
  simpl in *;
  try congruence; try lia;
  try (f_equal; lia).

Lemma zlt_trans (a b c : ext Z) : zlt a b = true -> zlt b c = true -> zlt a c = true.
Proof. intros; ext_cases. Qed.

Lemma zlt_le_trans (a b c : ext Z) :
  zlt b a = false -> zlt b c = true -> zlt a c = true.
Proof. intros; ext_cases. Qed.

Lemma zle_lt_trans (a b c : ext Z) :
  zlt a b = true -> zlt c b = false -> zlt a c = true.
Proof. intros; ext_cases. Qed.

Lemma zle_not_lt (a b : ext Z) : zle a b = negb (zlt b a).
Proof. ext_cases. Qed.

Lemma zlt_irrefl (a : ext Z) : zlt a a = false.
Proof. ext_cases. Qed.

Lemma zlt_zle (a b : ext Z) : zlt a b = true -> zle a b = true.
Proof. intros; ext_cases. Qed.

Lemma zlt_neq (a b : ext Z) : zlt a b = true -> a <> b.
Proof. intros H ->. now rewrite zlt_irrefl in H. Qed.

Lemma not_zlt_zle (a b : ext Z) : zlt b a = false -> zle a b = true.
Proof. intros; ext_cases. Qed.

Lemma zle_refl (a : ext Z) : zle a a = true.
Proof. ext_cases. Qed.

(** ** The loops of plain minimax pick the first best move *)

Section LoopFirstBest.
Variable rec : State -> res (SearchResult Z).
Variable s : State.
Variable cv : Move -> ext Z.

Lemma max_loop_first (l : list Move) (bv : ext Z) (bm : option Move) :
  children_ok rec s cv l ->
  exists v mv, max_loop rec s l bv bm = Ok (v, mv) /\
    ((v = bv /\ mv = bm /\ forall a, In a l -> zlt bv (cv a) = false) \/
     (exists l1 a l2, l = l1 ++ a :: l2 /\ mv = Some a /\ v = cv a /\
        zlt bv v = true /\
        (forall x, In x l1 -> zlt (cv x) v = true) /\
        (forall x, In x l2 -> zlt v (cv x) = false))).
Proof.
  revert bv bm. induction l as [|a l IH]; intros bv bm Hok; simpl.
  - exists bv, bm. split; [reflexivity|]. left. repeat split. intros a [].
  - destruct (Hok a (or_introl eq_refl)) as (s' & mv' & -> & Hrec). simpl.
    rewrite Hrec. simpl.
    assert (Hok' : children_ok rec s cv l) by (intros x Hx; apply Hok; simpl; auto).
    destruct (zlt bv (cv a)) eqn:Hlt.
    + destruct (IH (cv a) (Some a) Hok') as (v & mv & -> & Hcase).
      exists v, mv. split; [reflexivity|]. right.
      destruct Hcase as [(-> & -> & Hall)|(l1 & a' & l2 & -> & -> & -> & Hgt & H1 & H2)].
      * exists [], a, l. repeat split; auto; intros x [].
      * exists (a :: l1), a', l2. repeat split; auto.
        -- eapply zlt_trans; eauto.
        -- intros x [<-|Hx]; auto.
    + destruct (IH bv bm Hok') as (v & mv & -> & Hcase).
      exists v, mv. split; [reflexivity|].
      destruct Hcase as [(-> & -> & Hall)|(l1 & a' & l2 & -> & -> & -> & Hgt & H1 & H2)].
      * left. repeat split; auto. intros x [<-|Hx]; auto.
      * right. exists (a :: l1), a', l2. repeat split; auto.
        intros x [<-|Hx]; auto. eapply zlt_le_trans; eauto.
Qed.

Lemma min_loop_first (l : list Move) (bv : ext Z) (bm : option Move) :
  children_ok rec s cv l ->
  exists v mv, min_loop rec s l bv bm = Ok (v, mv) /\
    ((v = bv /\ mv = bm /\ forall a, In a l -> zlt (cv a) bv = false) \/
     (exists l1 a l2, l = l1 ++ a :: l2 /\ mv = Some a /\ v = cv a /\
        zlt v bv = true /\
        (forall x, In x l1 -> zlt v (cv x) = true) /\
        (forall x, In x l2 -> zlt (cv x) v = false))).
Proof.
  revert bv bm. induction l as [|a l IH]; intros bv bm Hok; simpl.
  - exists bv, bm. split; [reflexivity|]. left. repeat split. intros a [].
  - destruct (Hok a (or_introl eq_refl)) as (s' & mv' & -> & Hrec). simpl.
    rewrite Hrec. simpl.
    assert (Hok' : children_ok rec s cv l) by (intros x Hx; apply Hok; simpl; auto).
    destruct (zlt (cv a) bv) eqn:Hlt.
    + destruct (IH (cv a) (Some a) Hok') as (v & mv & -> & Hcase).
      exists v, mv. split; [reflexivity|]. right.
      destruct Hcase as [(-> & -> & Hall)|(l1 & a' & l2 & -> & -> & -> & Hgt & H1 & H2)].
      * exists [], a, l. repeat split; auto; intros x [].
      * exists (a :: l1), a', l2. repeat split; auto.
        -- eapply zlt_trans; eauto.
        -- intros x [<-|Hx]; auto.
    + destruct (IH bv bm Hok') as (v & mv & -> & Hcase).
      exists v, mv. split; [reflexivity|].
      destruct Hcase as [(-> & -> & Hall)|(l1 & a' & l2 & -> & -> & -> & Hgt & H1 & H2)].
      * left. repeat split; auto. intros x [<-|Hx]; auto.
      * right. exists (a :: l1), a', l2. repeat split; auto.
        intros x [<-|Hx]; auto. eapply zle_lt_trans; eauto.
Qed.
End LoopFirstBest.

(** ** Plain minimax on well-formed states *)

Lemma minimax_total (s : State) :
  wf_board s -> exists v mv, minimax s = Ok (v, mv).
Proof.
  revert s. apply (game_induction (fun s => exists v mv, minimax s = Ok (v, mv))).
  intros s Hwf IH. rewrite minimax_unfold by assumption.
  destruct (terminal s) eqn:Hterm.
  - rewrite utility_value_terminal by assumption. simpl. eauto.
  - set (cv := fun a => cvalue s a).
    assert (Hok : children_ok minimax s cv (actions s)).
    { intros a Ha. pose proof (result_legal s a Hwf Ha) as Hres.
      destruct (IH a _ Ha Hres) as (v & mv & Hmm).
      exists (place s (Z.to_nat (fst a)) (Z.to_nat (snd a))), mv. split; [assumption|].
      unfold cv, cvalue, value. rewrite Hres, Hmm. reflexivity. }
    destruct (player s).
    + destruct (max_loop_first minimax s cv (actions s) NegInf None Hok)
        as (v & mv & Hl & _). eauto.
    + destruct (min_loop_first minimax s cv (actions s) PosInf None Hok)
        as (v & mv & Hl & _). eauto.
Qed.

Lemma children_ok_minimax (s : State) :
  wf_board s -> children_ok minimax s (cvalue s) (actions s).
Proof.
  intros Hwf a Ha. pose proof (result_legal s a Hwf Ha) as Hres.
  assert (Hwf' : wf_board (place s (Z.to_nat (fst a)) (Z.to_nat (snd a))))
    by now apply place_wf_board.
  destruct (minimax_total _ Hwf') as (v & mv & Hmm).
  eexists _, mv. split; [eassumption|].
  unfold cvalue, value. rewrite Hres, Hmm. reflexivity.
Qed.

Lemma child_value_legal (s : State) (a : Move) :
  wf_board s -> In a (actions s) -> child_value s a = Ok (cvalue s a).
Proof.
  intros Hwf Ha. destruct (children_ok_minimax s Hwf a Ha) as (s' & mv & Hres & Hmm).
  unfold child_value. rewrite Hres. simpl. rewrite Hmm. reflexivity.
Qed.

Lemma minimax_value (s : State) (v : ext Z) (mv : option Move) :
  minimax s = Ok (v, mv) -> value s = v.
Proof. intros H. unfold value. now rewrite H. Qed.

(** On a state of the game the value is a utility, and a non-terminal state
    gets a move. *)
Lemma minimax_finite (s : State) :
  wf_state s ->
  exists u mv, minimax s = Ok (Fin u, mv) /\ -1 <= u <= 1 /\
               (terminal s = false -> exists a, mv = Some a).
Proof.
  revert s. apply game_induction_state. intros s Hs IH.
  pose proof Hs as [Hwf _].
  rewrite minimax_unfold by assumption.
  destruct (terminal s) eqn:Hterm.
  - rewrite utility_value_terminal by assumption. simpl.
    eexists _, None. split; [reflexivity|]. split; [|discriminate].
    destruct (winner s) as [[|]|]; lia.
  - pose proof (nonterminal_has_action s Hs Hterm) as Hne.
    pose proof (children_ok_minimax s Hwf) as Hok.
    assert (Hfin : forall a, In a (actions s) -> exists u, cvalue s a = Fin u /\ -1 <= u <= 1).
    { intros a Ha. pose proof (result_legal s a Hwf Ha) as Hres.
      destruct (IH a _ Ha Hres) as (u & mv & Hmm & Hu & _).
      exists u. split; [|assumption]. unfold cvalue. rewrite Hres.
      eapply minimax_value; eauto. }
    destruct (actions s) as [|a0 l0] eqn:Hacts; [congruence|].
    destruct (Hfin a0 (or_introl eq_refl)) as (u0 & Hu0 & _).
    destruct (player s).
    + destruct (max_loop_first minimax s (cvalue s) (a0 :: l0) NegInf None Hok)
        as (v & mv & Hl & Hcase).
      rewrite Hl.
      destruct Hcase as [(_ & _ & Hall)|(l1 & a & l2 & Hsplit & -> & -> & _)].
      * specialize (Hall a0 (or_introl eq_refl)). rewrite Hu0 in Hall. discriminate.
      * destruct (Hfin a) as (u & Hu & Hb).
        { rewrite Hsplit. apply in_elt. }
        rewrite Hu. eauto 6.
    + destruct (min_loop_first minimax s (cvalue s) (a0 :: l0) PosInf None Hok)
        as (v & mv & Hl & Hcase).
      rewrite Hl.
      destruct Hcase as [(_ & _ & Hall)|(l1 & a & l2 & Hsplit & -> & -> & _)].
      * specialize (Hall a0 (or_introl eq_refl)). rewrite Hu0 in Hall. discriminate.
      * destruct (Hfin a) as (u & Hu & Hb).
        { rewrite Hsplit. apply in_elt. }
        rewrite Hu. eauto 6.
Qed.

Lemma StronglySorted_app_inv {A : Type} (R : A -> A -> Prop) (l1 l2 : list A) :
  StronglySorted R (l1 ++ l2) ->
  forall a b, In a l1 -> In b l2 -> R a b.
Proof.
  induction l1 as [|x l1 IH]; simpl; intros H a b Ha Hb; [contradiction|].
  apply StronglySorted_inv in H. destruct H as [H Hx].
  destruct Ha as [<-|Ha].
  - rewrite Forall_forall in Hx. apply Hx, in_or_app. auto.
  - eapply IH; eauto.
Qed.

(** C6: on a non-terminal state plain minimax walks the legal moves in
    lexicographic (row, col) order and returns the first move whose
    recursive value is the optimum -- the greatest child value when X is to
    move, the least when O is -- so the returned move is the
    lexicographically smallest legal move with the optimal value. *)
Theorem minimax_first_optimal_move (s : State) :
  wf_state s -> terminal s = false ->
  StronglySorted Move_lt (sorted (actions s)) /\
  Permutation (sorted (actions s)) (actions s) /\
  exists v mv,
    minimax s = Ok (v, Some mv) /\
    In mv (actions s) /\
    child_value s mv = Ok v /\
    forall a, In a (actions s) ->
      exists va, child_value s a = Ok va /\
        (match player s with
         | X => zle va v
         | O => zle v va
         end = true) /\
        (va = v -> a = mv \/ Move_lt mv a).
Proof.
  intros Hs Hterm. pose proof Hs as [Hwf _].
  split; [rewrite sorted_actions; apply actions_sorted|].
  split; [apply sorted_perm|].
  destruct (minimax_finite s Hs) as (u & mv0 & Hmm & _ & Hmv).
  destruct (Hmv Hterm) as [mv ->].
  exists (Fin u), mv. split; [assumption|].
  rewrite minimax_unfold in Hmm by assumption. rewrite Hterm in Hmm.
  pose proof (children_ok_minimax s Hwf) as Hok.
  pose proof (actions_sorted s) as Hsorted.
  destruct (player s).
  - destruct (max_loop_first minimax s (cvalue s) (actions s) NegInf None Hok)
      as (v & mv' & Hl & Hcase).
    rewrite Hl in Hmm. injection Hmm as -> ->.
    destruct Hcase as [(_ & [=] & _)|(l1 & a & l2 & Hsplit & [= <-] & Hv & _ & H1 & H2)].
    assert (Hin : In mv (actions s)) by (rewrite Hsplit; apply in_elt).
    split; [assumption|]. split; [rewrite child_value_legal by assumption; congruence|].
    intros a Ha. exists (cvalue s a). split; [now apply child_value_legal|].
    rewrite Hsplit in Ha, Hsorted.
    apply in_app_or in Ha. destruct Ha as [Ha|[<-|Ha]].
    + specialize (H1 a Ha). split; [now apply zlt_zle|].
      intros E. now apply zlt_neq in H1.
    + split; [|auto]. rewrite <- Hv. apply zle_refl.
    + split; [apply not_zlt_zle; auto|].
      intros _. right.
      apply (StronglySorted_app_inv Move_lt (l1 ++ [mv]) l2).
      * now rewrite <- app_assoc.
      * apply in_or_app. right. simpl. auto.
      * assumption.
  - destruct (min_loop_first minimax s (cvalue s) (actions s) PosInf None Hok)
      as (v & mv' & Hl & Hcase).
    rewrite Hl in Hmm. injection Hmm as -> ->.
    destruct Hcase as [(_ & [=] & _)|(l1 & a & l2 & Hsplit & [= <-] & Hv & _ & H1 & H2)].
    assert (Hin : In mv (actions s)) by (rewrite Hsplit; apply in_elt).
    split; [assumption|]. split; [rewrite child_value_legal by assumption; congruence|].
    intros a Ha. exists (cvalue s a). split; [now apply child_value_legal|].
    rewrite Hsplit in Ha, Hsorted.
    apply in_app_or in Ha. destruct Ha as [Ha|[<-|Ha]].
    + specialize (H1 a Ha). split; [now apply zlt_zle|].
      intros E. apply zlt_neq in H1. congruence.
    + split; [|auto]. rewrite <- Hv. apply zle_refl.
    + split; [apply not_zlt_zle; auto|].
      intros _. right.
      apply (StronglySorted_app_inv Move_lt (l1 ++ [mv]) l2).
      * now rewrite <- app_assoc.
      * apply in_or_app. right. simpl. auto.
      * assumption.
Qed.

(** ** Alpha-beta: the recursion equation *)

Lemma ordered_moves_perm (s : State) (h : bool) (l : list Move) :
  ordered_moves s h = Ok l -> Permutation l (actions s).
Proof.
  unfold ordered_moves. destruct h.
  - apply order_moves_perm.
  - intros [= <-]. apply sorted_perm.
Qed.

Section AlphaBetaLoopExt.
Context {V : Type}.
Variable ltb leb : V -> V -> bool.
Variable rec1 rec2 : State -> ext V -> ext V -> res (SearchResult V).
Variable s : State.

Lemma ab_max_loop_ext (l : list Move) (alpha beta bv : ext V) (bm : option Move) :
  (forall a s' al be, In a l -> result s a = Ok s' -> rec1 s' al be = rec2 s' al be) ->
  ab_max_loop ltb leb rec1 s l alpha beta bv bm
  = ab_max_loop ltb leb rec2 s l alpha beta bv bm.
Proof.
  revert alpha bv bm. induction l as [|a l IH]; intros alpha bv bm H; simpl; [reflexivity|].
  destruct (result s a) as [s'|] eqn:Hres; simpl; [|reflexivity].
  rewrite (H a s' alpha beta (or_introl eq_refl) Hres).
  destruct (rec2 s' alpha beta) as [[v mv]|]; simpl; [|reflexivity].
  destruct (ext_ltb ltb bv v);
    (destruct (ext_leb leb beta _); [reflexivity|]);
    apply IH; intros a' s'' al be Hin' Hres'; apply (H a' s''); simpl; auto.
Qed.

Lemma ab_min_loop_ext (l : list Move) (alpha beta bv : ext V) (bm : option Move) :
  (forall a s' al be, In a l -> result s a = Ok s' -> rec1 s' al be = rec2 s' al be) ->
  ab_min_loop ltb leb rec1 s l alpha beta bv bm
  = ab_min_loop ltb leb rec2 s l alpha beta bv bm.
Proof.
  revert beta bv bm. induction l as [|a l IH]; intros beta bv bm H; simpl; [reflexivity|].
  destruct (result s a) as [s'|] eqn:Hres; simpl; [|reflexivity].
  rewrite (H a s' alpha beta (or_introl eq_refl) Hres).
  destruct (rec2 s' alpha beta) as [[v mv]|]; simpl; [|reflexivity].
  destruct (ext_ltb ltb v bv);
    (destruct (ext_leb leb _ alpha); [reflexivity|]);
    apply IH; intros a' s'' al be Hin' Hres'; apply (H a' s''); simpl; auto.
Qed.
End AlphaBetaLoopExt.

Lemma minimax_ab_fuel_stable (n1 n2 : nat) (s : State) (alpha beta : ext Z) (uo : bool) :
  wf_board s -> (length (actions s) < n1)%nat -> (length (actions s) < n2)%nat ->
  minimax_ab_fuel n1 s alpha beta uo = minimax_ab_fuel n2 s alpha beta uo.
Proof.
  revert n2 s alpha beta. induction n1 as [|n1 IH]; intros n2 s alpha beta Hwf H1 H2; [lia|].
  destruct n2 as [|n2]; [lia|]. simpl.
  destruct (terminal s); [reflexivity|].
  destruct (ordered_moves s uo) as [l|] eqn:Hl; simpl; [|reflexivity].
  apply ordered_moves_perm in Hl.
  destruct (player s); [apply ab_max_loop_ext | apply ab_min_loop_ext];
    intros a s' al be Hin Hres;
    apply (Permutation_in _ Hl) in Hin;
    pose proof (length_actions_result s s' a Hwf Hin Hres);
    (apply IH; [eapply result_wf_board; eauto | lia | lia]).
Qed.

Lemma minimax_ab_unfold (s : State) (alpha beta : ext Z) (uo : bool) :
  wf_board s ->
  minimax_ab s alpha beta uo =
  if terminal s then u <- utility_value s ;; Ok (u, None)
  else
    legal_moves <- ordered_moves s uo ;;
    match player s with
    | X => ab_max_loop Z.ltb Z.leb (fun s a b => minimax_ab s a b uo)
             s legal_moves alpha beta NegInf None
    | O => ab_min_loop Z.ltb Z.leb (fun s a b => minimax_ab s a b uo)
             s legal_moves alpha beta PosInf None
    end.
Proof.
  intros Hwf. unfold minimax_ab at 1. unfold depth_bound. simpl.
  destruct (terminal s); [reflexivity|].
  destruct (ordered_moves s uo) as [l|] eqn:Hl; simpl; [|reflexivity].
  apply ordered_moves_perm in Hl.
  destruct (player s); [apply ab_max_loop_ext | apply ab_min_loop_ext];
    intros a s' al be Hin Hres;
    apply (Permutation_in _ Hl) in Hin;
    pose proof (length_actions_result s s' a Hwf Hin Hres);
    (unfold minimax_ab, depth_bound; apply minimax_ab_fuel_stable;
     [eapply result_wf_board; eauto | lia | lia]).
Qed.

(** ** The extended integers as a total order *)

Module ExtOrder.
Definition t : Type := ext Z.
Definition eq : t -> t -> Prop := @Logic.eq t.
Definition lt (a b : t) : Prop := Is_true (zlt a b).
Definition le (a b : t) : Prop := Is_true (zle a b).

Lemma lt_iff (a b : t) : zlt a b = true <-> lt a b.
Proof. unfold lt. destruct (zlt a b); simpl; intuition discriminate. Qed.

Lemma le_iff (a b : t) : zle a b = true <-> le a b.
Proof. unfold le. destruct (zle a b); simpl; intuition discriminate. Qed.

#[global] Instance eq_equiv : Equivalence eq.
Proof. unfold eq. apply eq_equivalence. Qed.

#[global] Instance lt_strorder : StrictOrder lt.
Proof.
  split.
  - intros a H. apply lt_iff in H. now rewrite zlt_irrefl in H.
  - intros a b c Hab Hbc. apply lt_iff in Hab, Hbc. apply lt_iff.
    eapply zlt_trans; eauto.
Qed.

#[global] Instance lt_compat : Proper (eq ==> eq ==> iff) lt.
Proof. intros a a' -> b b' ->. reflexivity. Qed.

Lemma le_lteq (x y : t) : le x y <-> lt x y \/ eq x y.
Proof.
  rewrite <- le_iff, <- lt_iff. unfold eq. split.
  - destruct x as [|x|], y as [|y|]; simpl; auto; try discriminate.
    unfold zle, zlt. simpl. rewrite Z.leb_le, Z.ltb_lt. intros H.
    destruct (Z.eq_dec x y) as [->|]; [auto | left; lia].
  - intros [H| ->]; [now apply zlt_zle | apply zle_refl].
Qed.

Lemma lt_total (x y : t) : lt x y \/ eq x y \/ lt y x.
Proof.
  rewrite <- !lt_iff. unfold eq. destruct x as [|x|], y as [|y|]; simpl; auto.
  unfold zlt. simpl. rewrite !Z.ltb_lt.
  destruct (Z.lt_trichotomy x y) as [H|[->|H]]; auto.
Qed.
End ExtOrder.

Module ExtOrderTac := !MakeOrderTac ExtOrder ExtOrder.

Lemma zlt_false (a b : ext Z) : zlt a b = false <-> ExtOrder.le b a.
Proof. rewrite <- ExtOrder.le_iff. split; intros; ext_cases. Qed.

Lemma zle_false (a b : ext Z) : zle a b = false <-> ExtOrder.lt b a.
Proof. rewrite <- ExtOrder.lt_iff. split; intros; ext_cases. Qed.

(** Boolean comparisons become order facts, then the order decides. *)
Ltac ext_order :=
  try discriminate;
  repeat match goal with
         | H : zlt ?a ?b = true |- _ => apply ExtOrder.lt_iff in H
         | H : zle ?a ?b = true |- _ => apply ExtOrder.le_iff in H
         | H : zlt ?a ?b = false |- _ => apply zlt_false in H
         | H : zle ?a ?b = false |- _ => apply zle_false in H
         | H : @Logic.eq (ext Z) ?a ?b |- _ => change (ExtOrder.eq a b) in H
         | H : @Logic.eq bool _ _ |- _ => clear H
         | H : _ -> _ |- _ => clear H
         end;
  match goal with
  | |- zlt ?a ?b = true => apply ExtOrder.lt_iff
  | |- zle ?a ?b = true => apply ExtOrder.le_iff
  | |- zlt ?a ?b = false => apply zlt_false
  | |- zle ?a ?b = false => apply zle_false
  | |- @Logic.eq (ext Z) ?a ?b => change (ExtOrder.eq a b)
  | |- _ => idtac
  end;
  ExtOrderTac.order.

Lemma zmax_case (a b : ext Z) :
  (zlt a b = true /\ zmax a b = b) \/ (zlt a b = false /\ zmax a b = a).
Proof. unfold zmax, ext_max, zlt. destruct (ext_ltb Z.ltb a b); auto. Qed.

Lemma zmin_case (a b : ext Z) :
  (zlt b a = true /\ zmin a b = b) \/ (zlt b a = false /\ zmin a b = a).
Proof. unfold zmin, ext_min, zlt. destruct (ext_ltb Z.ltb b a); auto. Qed.

Lemma zmax_l (a b : ext Z) : zlt a b = false -> zmax a b = a.
Proof. intros H. unfold zmax, ext_max. unfold zlt in H. now rewrite H. Qed.

Lemma zmax_r (a b : ext Z) : zlt a b = true -> zmax a b = b.
Proof. intros H. unfold zmax, ext_max. unfold zlt in H. now rewrite H. Qed.

Lemma zmin_l (a b : ext Z) : zlt b a = false -> zmin a b = a.
Proof. intros H. unfold zmin, ext_min. unfold zlt in H. now rewrite H. Qed.

Lemma zmin_r (a b : ext Z) : zlt b a = true -> zmin a b = b.
Proof. intros H. unfold zmin, ext_min. unfold zlt in H. now rewrite H. Qed.

(** ** Alpha-beta: one step of the pruning loops *)

(** [alpha0] is the bound the loop started with, [bv] the running best
    value, [pm] the true maximum of the children seen so far; the child just
    searched returned [vc] and has minimax value [mc]. *)
Lemma ab_max_step (alpha0 beta bv pm vc mc : ext Z) :
  zlt (zmax alpha0 bv) beta = true ->
  (zle bv alpha0 = true -> zle pm bv = true) ->
  (zlt alpha0 bv = true -> bv = pm) ->
  bounded (zmax alpha0 bv) beta vc mc ->
  forall bv', bv' = (if zlt bv vc then vc else bv) ->
  zmax (zmax alpha0 bv) bv' = zmax alpha0 bv' /\
  (zle beta (zmax alpha0 bv') = true ->
     zle beta bv' = true /\ zle bv' (zmax pm mc) = true /\ zlt alpha0 beta = true) /\
  (zle beta (zmax alpha0 bv') = false ->
     (zle bv' alpha0 = true -> zle (zmax pm mc) bv' = true) /\
     (zlt alpha0 bv' = true -> bv' = zmax pm mc) /\
     zlt (zmax alpha0 bv') beta = true).
Proof.
  unfold bounded. intros H1 H2 H3 (H4 & H5 & H6) bv' Hbv'.
  destruct (zlt alpha0 bv) eqn:EA.
  - (* the running best is above alpha0 and exact *)
    specialize (H3 eq_refl). clear H2. subst pm.
    rewrite (zmax_r alpha0 bv EA) in *.
    destruct (zlt bv vc) eqn:EB; subst bv'.
    + assert (E0 : zlt alpha0 vc = true) by ext_order.
      rewrite (zmax_r bv vc EB), (zmax_r alpha0 vc E0).
      split; [reflexivity|]. split.
      * intros Hb. specialize (H5 Hb).
        destruct (zmax_case bv mc) as [[E ->]|[E ->]]; repeat split; ext_order.
      * intros Hb.
        assert (Hvb : zlt vc beta = true) by ext_order.
        assert (Hx : vc = mc) by (apply H6; auto). subst mc.
        rewrite (zmax_r bv vc EB). repeat split; intros; ext_order.
    + assert (E0 : zle vc bv = true) by ext_order.
      specialize (H4 E0).
      assert (E1 : zlt bv bv = false) by apply zlt_irrefl.
      rewrite (zmax_l bv bv E1), (zmax_r alpha0 bv EA).
      assert (E2 : zlt bv mc = false) by ext_order.
      rewrite (zmax_l bv mc E2).
      split; [reflexivity|]. split; intros Hb; repeat split; intros; ext_order.
  - (* nothing above alpha0 has been seen *)
    clear H3. assert (E0 : zle bv alpha0 = true) by ext_order.
    specialize (H2 E0). rewrite (zmax_l alpha0 bv EA) in *.
    destruct (zlt bv vc) eqn:EB; subst bv'.
    + destruct (zlt alpha0 vc) eqn:EC.
      * rewrite (zmax_r alpha0 vc EC).
        split; [reflexivity|]. split.
        -- intros Hb. specialize (H5 Hb).
           destruct (zmax_case pm mc) as [[E ->]|[E ->]]; repeat split; ext_order.
        -- intros Hb.
           assert (Hvb : zlt vc beta = true) by ext_order.
           assert (Hx : vc = mc) by (apply H6; auto). subst mc.
           assert (E3 : zlt pm vc = true) by ext_order.
           rewrite (zmax_r pm vc E3). repeat split; intros; ext_order.
      * rewrite (zmax_l alpha0 vc EC).
        assert (E1 : zle vc alpha0 = true) by ext_order.
        specialize (H4 E1).
        split; [reflexivity|]. split; intros Hb.
        -- exfalso. ext_order.
        -- destruct (zmax_case pm mc) as [[E ->]|[E ->]]; repeat split; intros; ext_order.
    + rewrite (zmax_l alpha0 bv EA).
      assert (E1 : zle vc alpha0 = true) by ext_order.
      specialize (H4 E1).
      split; [reflexivity|]. split; intros Hb.
      * exfalso. ext_order.
      * destruct (zmax_case pm mc) as [[E ->]|[E ->]]; repeat split; intros; ext_order.
Qed.

Lemma ab_min_step (alpha beta0 bv pm vc mc : ext Z) :
  zlt alpha (zmin beta0 bv) = true ->
  (zle beta0 bv = true -> zle bv pm = true) ->
  (zlt bv beta0 = true -> bv = pm) ->
  bounded alpha (zmin beta0 bv) vc mc ->
  forall bv', bv' = (if zlt vc bv then vc else bv) ->
  zmin (zmin beta0 bv) bv' = zmin beta0 bv' /\
  (zle (zmin beta0 bv') alpha = true ->
     zle bv' alpha = true /\ zle (zmin pm mc) bv' = true /\ zlt alpha beta0 = true) /\
  (zle (zmin beta0 bv') alpha = false ->
     (zle beta0 bv' = true -> zle bv' (zmin pm mc) = true) /\
     (zlt bv' beta0 = true -> bv' = zmin pm mc) /\
     zlt alpha (zmin beta0 bv') = true).
Proof.
  unfold bounded. intros H1 H2 H3 (H4 & H5 & H6) bv' Hbv'.
  destruct (zlt bv beta0) eqn:EA.
  - specialize (H3 eq_refl). clear H2. subst pm.
    rewrite (zmin_r beta0 bv EA) in *.
    destruct (zlt vc bv) eqn:EB; subst bv'.
    + assert (E0 : zlt vc beta0 = true) by ext_order.
      rewrite (zmin_r bv vc EB), (zmin_r beta0 vc E0).
      split; [reflexivity|]. split.
      * intros Hb. specialize (H4 Hb).
        destruct (zmin_case bv mc) as [[E ->]|[E ->]]; repeat split; ext_order.
      * intros Hb.
        assert (Hvb : zlt alpha vc = true) by ext_order.
        assert (Hx : vc = mc) by (apply H6; auto). subst mc.
        rewrite (zmin_r bv vc EB). repeat split; intros; ext_order.
    + assert (E0 : zle bv vc = true) by ext_order.
      specialize (H5 E0).
      assert (E1 : zlt bv bv = false) by apply zlt_irrefl.
      rewrite (zmin_l bv bv E1), (zmin_r beta0 bv EA).
      assert (E2 : zlt mc bv = false) by ext_order.
      rewrite (zmin_l bv mc E2).
      split; [reflexivity|]. split; intros Hb; repeat split; intros; ext_order.
  - clear H3. assert (E0 : zle beta0 bv = true) by ext_order.
    specialize (H2 E0). rewrite (zmin_l beta0 bv EA) in *.
    destruct (zlt vc bv) eqn:EB; subst bv'.
    + destruct (zlt vc beta0) eqn:EC.
      * rewrite (zmin_r beta0 vc EC).
        split; [reflexivity|]. split.
        -- intros Hb. specialize (H4 Hb).
           destruct (zmin_case pm mc) as [[E ->]|[E ->]]; repeat split; ext_order.
        -- intros Hb.
           assert (Hvb : zlt alpha vc = true) by ext_order.
           assert (Hx : vc = mc) by (apply H6; auto). subst mc.
           assert (E3 : zlt vc pm = true) by ext_order.
           rewrite (zmin_r pm vc E3). repeat split; intros; ext_order.
      * rewrite (zmin_l beta0 vc EC).
        assert (E1 : zle beta0 vc = true) by ext_order.
        specialize (H5 E1).
        split; [reflexivity|]. split; intros Hb.
        -- exfalso. ext_order.
        -- destruct (zmin_case pm mc) as [[E ->]|[E ->]]; repeat split; intros; ext_order.
    + rewrite (zmin_l beta0 bv EA).
      assert (E1 : zle beta0 vc = true) by ext_order.
      specialize (H5 E1).
      split; [reflexivity|]. split; intros Hb.
      * exfalso. ext_order.
      * destruct (zmin_case pm mc) as [[E ->]|[E ->]]; repeat split; intros; ext_order.
Qed.

(** ** Maximum and minimum of the child values *)

Section Extremes.
Variable cv : Move -> ext Z.

Lemma pmax_ge_acc (l : list Move) (acc : ext Z) : zle acc (pmax cv l acc) = true.
Proof.
  revert acc. induction l as [|a l IH]; intros acc; simpl; [apply zle_refl|].
  specialize (IH (zmax acc (cv a))).
  destruct (zmax_case acc (cv a)) as [[E Hm]|[E Hm]]; rewrite Hm in *; ext_order.
Qed.

Lemma pmax_upper (l : list Move) (acc : ext Z) (a : Move) :
  In a l -> zle (cv a) (pmax cv l acc) = true.
Proof.
  revert acc. induction l as [|x l IH]; intros acc; simpl; [contradiction|].
  intros [->|Hin]; [|now apply IH].
  pose proof (pmax_ge_acc l (zmax acc (cv a))) as H.
  destruct (zmax_case acc (cv a)) as [[E Hm]|[E Hm]]; rewrite Hm in *; ext_order.
Qed.

Lemma pmax_attained (l : list Move) (acc : ext Z) :
  pmax cv l acc = acc \/ exists a, In a l /\ pmax cv l acc = cv a.
Proof.
  revert acc. induction l as [|x l IH]; intros acc; simpl; [auto|].
  destruct (IH (zmax acc (cv x))) as [H|(a & Ha & H)].
  - rewrite H. destruct (zmax_case acc (cv x)) as [[E ->]|[E ->]]; eauto.
  - right. eauto.
Qed.

Lemma pmin_le_acc (l : list Move) (acc : ext Z) : zle (pmin cv l acc) acc = true.
Proof.
  revert acc. induction l as [|a l IH]; intros acc; simpl; [apply zle_refl|].
  specialize (IH (zmin acc (cv a))).
  destruct (zmin_case acc (cv a)) as [[E Hm]|[E Hm]]; rewrite Hm in *; ext_order.
Qed.

Lemma pmin_lower (l : list Move) (acc : ext Z) (a : Move) :
  In a l -> zle (pmin cv l acc) (cv a) = true.
Proof.
  revert acc. induction l as [|x l IH]; intros acc; simpl; [contradiction|].
  intros [->|Hin]; [|now apply IH].
  pose proof (pmin_le_acc l (zmin acc (cv a))) as H.
  destruct (zmin_case acc (cv a)) as [[E Hm]|[E Hm]]; rewrite Hm in *; ext_order.
Qed.

Lemma pmin_attained (l : list Move) (acc : ext Z) :
  pmin cv l acc = acc \/ exists a, In a l /\ pmin cv l acc = cv a.
Proof.
  revert acc. induction l as [|x l IH]; intros acc; simpl; [auto|].
  destruct (IH (zmin acc (cv x))) as [H|(a & Ha & H)].
  - rewrite H. destruct (zmin_case acc (cv x)) as [[E ->]|[E ->]]; eauto.
  - right. eauto.
Qed.
End Extremes.

Lemma neg_inf_le (x : ext Z) : zle NegInf x = true.
Proof. reflexivity. Qed.

Lemma le_pos_inf (x : ext Z) : zle x PosInf = true.
Proof. now destruct x. Qed.

Lemma bounded_exact (alpha beta x : ext Z) : bounded alpha beta x x.
Proof. unfold bounded. repeat split; intros; auto using zle_refl. Qed.

Lemma bounded_full_window (v mv : ext Z) : bounded NegInf PosInf v mv -> v = mv.
Proof.
  unfold bounded. intros (H1 & H2 & H3).
  pose proof (neg_inf_le mv). pose proof (le_pos_inf mv).
  destruct (zle v NegInf) eqn:E1; [specialize (H1 eq_refl); ext_order|].
  destruct (zle PosInf v) eqn:E2; [specialize (H2 eq_refl); ext_order|].
  apply H3; ext_order.
Qed.

(** ** Alpha-beta: the pruning loops are sound *)

Section AlphaBetaSound.
Variable rec : State -> ext Z -> ext Z -> res (SearchResult Z).
Variable s : State.
Variable cv : Move -> ext Z.

Lemma ab_max_loop_sound (l : list Move) :
  ab_children_ok rec s cv l ->
  forall alpha0 beta bv bm pm,
    zlt (zmax alpha0 bv) beta = true ->
    (zle bv alpha0 = true -> zle pm bv = true) ->
    (zlt alpha0 bv = true -> bv = pm) ->
    exists v mv,
      ab_max_loop Z.ltb Z.leb rec s l (zmax alpha0 bv) beta bv bm = Ok (v, mv) /\
      bounded alpha0 beta v (pmax cv l pm).
Proof.
  induction l as [|a l IH]; intros Hok alpha0 beta bv bm pm H1 H2 H3; simpl.
  - exists bv, bm. split; [reflexivity|].
    unfold bounded.
    destruct (zmax_case alpha0 bv) as [[E Hm]|[E Hm]]; rewrite Hm in H1.
    + specialize (H3 E). subst pm. repeat split; intros; ext_order.
    + assert (E0 : zle bv alpha0 = true) by ext_order.
      specialize (H2 E0). repeat split; intros; ext_order.
  - destruct (Hok a (or_introl eq_refl)) as (s' & -> & Hrec). simpl.
    destruct (Hrec _ _ H1) as (vc & mvc & -> & Hb). simpl.
    change (ext_ltb Z.ltb) with zlt. change (ext_leb Z.leb) with zle.
    change (ext_max Z.ltb) with zmax.
    pose proof (ab_max_step alpha0 beta bv pm vc (cv a) H1 H2 H3 Hb _ eq_refl)
      as (Ha & Hbreak & Hcont).
    assert (Hok' : ab_children_ok rec s cv l) by (intros x Hx; apply Hok; simpl; auto).
    destruct (zlt bv vc) eqn:EB; rewrite Ha;
      match goal with
      | |- context [zle beta (zmax alpha0 ?b)] =>
          destruct (zle beta (zmax alpha0 b)) eqn:Ecut
      end.
    + destruct (Hbreak eq_refl) as (B1 & B2 & B3).
      eexists _, _. split; [reflexivity|].
      pose proof (pmax_ge_acc cv l (zmax pm (cv a))) as Hge.
      unfold bounded. repeat split; intros; ext_order.
    + destruct (Hcont eq_refl) as (C1 & C2 & C3).
      apply IH; auto.
    + destruct (Hbreak eq_refl) as (B1 & B2 & B3).
      eexists _, _. split; [reflexivity|].
      pose proof (pmax_ge_acc cv l (zmax pm (cv a))) as Hge.
      unfold bounded. repeat split; intros; ext_order.
    + destruct (Hcont eq_refl) as (C1 & C2 & C3).
      apply IH; auto.
Qed.

Lemma ab_min_loop_sound (l : list Move) :
  ab_children_ok rec s cv l ->
  forall alpha beta0 bv bm pm,
    zlt alpha (zmin beta0 bv) = true ->
    (zle beta0 bv = true -> zle bv pm = true) ->
    (zlt bv beta0 = true -> bv = pm) ->
    exists v mv,
      ab_min_loop Z.ltb Z.leb rec s l alpha (zmin beta0 bv) bv bm = Ok (v, mv) /\
      bounded alpha beta0 v (pmin cv l pm).
Proof.
  induction l as [|a l IH]; intros Hok alpha beta0 bv bm pm H1 H2 H3; simpl.
  - exists bv, bm. split; [reflexivity|].
    unfold bounded.
    destruct (zmin_case beta0 bv) as [[E Hm]|[E Hm]]; rewrite Hm in H1.
    + specialize (H3 E). subst pm. repeat split; intros; ext_order.
    + assert (E0 : zle beta0 bv = true) by ext_order.
      specialize (H2 E0). repeat split; intros; ext_order.
  - destruct (Hok a (or_introl eq_refl)) as (s' & -> & Hrec). simpl.
    destruct (Hrec _ _ H1) as (vc & mvc & -> & Hb). simpl.
    change (ext_ltb Z.ltb) with zlt. change (ext_leb Z.leb) with zle.
    change (ext_min Z.ltb) with zmin.
    pose proof (ab_min_step alpha beta0 bv pm vc (cv a) H1 H2 H3 Hb _ eq_refl)
      as (Ha & Hbreak & Hcont).
    assert (Hok' : ab_children_ok rec s cv l) by (intros x Hx; apply Hok; simpl; auto).
    destruct (zlt vc bv) eqn:EB; rewrite Ha;
      match goal with
      | |- context [zle (zmin beta0 ?b) alpha] =>
          destruct (zle (zmin beta0 b) alpha) eqn:Ecut
      end.
    + destruct (Hbreak eq_refl) as (B1 & B2 & B3).
      eexists _, _. split; [reflexivity|].
      pose proof (pmin_le_acc cv l (zmin pm (cv a))) as Hge.
      unfold bounded. repeat split; intros; ext_order.
    + destruct (Hcont eq_refl) as (C1 & C2 & C3).
      apply IH; auto.
    + destruct (Hbreak eq_refl) as (B1 & B2 & B3).
      eexists _, _. split; [reflexivity|].
      pose proof (pmin_le_acc cv l (zmin pm (cv a))) as Hge.
      unfold bounded. repeat split; intros; ext_order.
    + destruct (Hcont eq_refl) as (C1 & C2 & C3).
      apply IH; auto.
Qed.
End AlphaBetaSound.

(** ** The minimax value is the extreme child value, in any order *)

Lemma value_unfold_max (s : State) (l : list Move) :
  wf_board s -> terminal s = false -> player s = X ->
  Permutation l (actions s) -> value s = pmax (cvalue s) l NegInf.
Proof.
  intros Hwf Hterm Hpl Hperm.
  unfold value. rewrite minimax_unfold, Hterm, Hpl by assumption.
  destruct (max_loop_first minimax s (cvalue s) (actions s) NegInf None
              (children_ok_minimax s Hwf)) as (v & mv & -> & Hcase).
  assert (Hup : forall a, In a (actions s) -> zle (cvalue s a) (pmax (cvalue s) l NegInf) = true).
  { intros a Ha. apply pmax_upper. eapply Permutation_in; [symmetry|]; eauto. }
  destruct Hcase as [(-> & _ & Hall)|(l1 & a0 & l2 & Hsplit & _ & -> & _ & H1 & H2)].
  - destruct (pmax_attained (cvalue s) l NegInf) as [H|(a & Ha & H)]; [congruence|].
    rewrite H. apply (Permutation_in _ Hperm) in Ha. specialize (Hall a Ha).
    pose proof (neg_inf_le (cvalue s a)). ext_order.
  - assert (Hin0 : In a0 (actions s)) by (rewrite Hsplit; apply in_elt).
    specialize (Hup a0 Hin0).
    destruct (pmax_attained (cvalue s) l NegInf) as [H|(a & Ha & H)]; rewrite H in *.
    + pose proof (neg_inf_le (cvalue s a0)). ext_order.
    + apply (Permutation_in _ Hperm) in Ha. rewrite Hsplit in Ha.
      apply in_app_or in Ha. destruct Ha as [Ha|[<-|Ha]].
      * specialize (H1 a Ha). ext_order.
      * reflexivity.
      * specialize (H2 a Ha). ext_order.
Qed.

Lemma value_unfold_min (s : State) (l : list Move) :
  wf_board s -> terminal s = false -> player s = O ->
  Permutation l (actions s) -> value s = pmin (cvalue s) l PosInf.
Proof.
  intros Hwf Hterm Hpl Hperm.
  unfold value. rewrite minimax_unfold, Hterm, Hpl by assumption.
  destruct (min_loop_first minimax s (cvalue s) (actions s) PosInf None
              (children_ok_minimax s Hwf)) as (v & mv & -> & Hcase).
  assert (Hup : forall a, In a (actions s) -> zle (pmin (cvalue s) l PosInf) (cvalue s a) = true).
  { intros a Ha. apply pmin_lower. eapply Permutation_in; [symmetry|]; eauto. }
  destruct Hcase as [(-> & _ & Hall)|(l1 & a0 & l2 & Hsplit & _ & -> & _ & H1 & H2)].
  - destruct (pmin_attained (cvalue s) l PosInf) as [H|(a & Ha & H)]; [congruence|].
    rewrite H. apply (Permutation_in _ Hperm) in Ha. specialize (Hall a Ha).
    pose proof (le_pos_inf (cvalue s a)). ext_order.
  - assert (Hin0 : In a0 (actions s)) by (rewrite Hsplit; apply in_elt).
    specialize (Hup a0 Hin0).
    destruct (pmin_attained (cvalue s) l PosInf) as [H|(a & Ha & H)]; rewrite H in *.
    + pose proof (le_pos_inf (cvalue s a0)). ext_order.
    + apply (Permutation_in _ Hperm) in Ha. rewrite Hsplit in Ha.
      apply in_app_or in Ha. destruct Ha as [Ha|[<-|Ha]].
      * specialize (H1 a Ha). ext_order.
      * reflexivity.
      * specialize (H2 a Ha). ext_order.
Qed.

(** ** Alpha-beta is sound for every window *)

Lemma minimax_ab_sound (s : State) :
  wf_board s ->
  forall alpha beta uo, zlt alpha beta = true ->
    exists v mv, minimax_ab s alpha beta uo = Ok (v, mv) /\
                 bounded alpha beta v (value s).
Proof.
  revert s.
  apply (game_induction (fun s =>
    forall alpha beta uo, zlt alpha beta = true ->
      exists v mv, minimax_ab s alpha beta uo = Ok (v, mv) /\
                   bounded alpha beta v (value s))).
  intros s Hwf IH alpha beta uo Hab.
  rewrite minimax_ab_unfold by assumption.
  destruct (terminal s) eqn:Hterm.
  - unfold value. rewrite minimax_unfold, Hterm by assumption.
    rewrite utility_value_terminal by assumption. simpl.
    eexists _, _. split; [reflexivity | apply bounded_exact].
  - destruct (ordered_moves_ok s uo Hwf) as (l & -> & Hperm). simpl.
    assert (Hok : ab_children_ok (fun s a b => minimax_ab s a b uo) s (cvalue s) l).
    { intros a Ha. apply (Permutation_in _ Hperm) in Ha.
      pose proof (result_legal s a Hwf Ha) as Hres.
      eexists. split; [exact Hres|].
      intros al be Hlt. unfold cvalue. rewrite Hres.
      apply (IH a _ Ha Hres); assumption. }
    destruct (player s) eqn:Hpl.
    + rewrite (value_unfold_max s l Hwf Hterm Hpl Hperm).
      pose proof (ab_max_loop_sound _ s (cvalue s) l Hok alpha beta NegInf None NegInf) as H.
      rewrite (zmax_l alpha NegInf) in H by now destruct alpha.
      apply H; [assumption | reflexivity |].
      intros E. destruct alpha; discriminate.
    + rewrite (value_unfold_min s l Hwf Hterm Hpl Hperm).
      pose proof (ab_min_loop_sound _ s (cvalue s) l Hok alpha beta PosInf None PosInf) as H.
      rewrite (zmin_l beta PosInf) in H by now destruct beta.
      apply H; [assumption | intros; apply zle_refl |].
      intros E. destruct beta; discriminate.
Qed.

(** ** With the full window and the same order, the same move *)

Section FullWindow.
Variable rec : State -> ext Z -> ext Z -> res (SearchResult Z).
Variable rec0 : State -> res (SearchResult Z).
Variable s : State.
Variable cv : Move -> ext Z.

Lemma max_loop_at_top (l : list Move) (bm : option Move) :
  children_ok rec0 s cv l -> max_loop rec0 s l PosInf bm = Ok (PosInf, bm).
Proof.
  induction l as [|a l IH]; intros Hok; simpl; [reflexivity|].
  destruct (Hok a (or_introl eq_refl)) as (s' & mv & -> & Hr). simpl.
  rewrite Hr. simpl.
  apply IH. intros x Hx. apply Hok. simpl. auto.
Qed.

Lemma min_loop_at_bottom (l : list Move) (bm : option Move) :
  children_ok rec0 s cv l -> min_loop rec0 s l NegInf bm = Ok (NegInf, bm).
Proof.
  induction l as [|a l IH]; intros Hok; simpl; [reflexivity|].
  destruct (Hok a (or_introl eq_refl)) as (s' & mv & -> & Hr). simpl.
  rewrite Hr. simpl.
  replace (zlt (cv a) NegInf) with false by now destruct (cv a).
  apply IH. intros x Hx. apply Hok. simpl. auto.
Qed.

Lemma ab_max_loop_full_window (l : list Move) (bv : ext Z) (bm : option Move) :
  ab_children_ok rec s cv l -> children_ok rec0 s cv l ->
  zlt bv PosInf = true ->
  ab_max_loop Z.ltb Z.leb rec s l bv PosInf bv bm = max_loop rec0 s l bv bm.
Proof.
  revert bv bm. induction l as [|a l IH]; intros bv bm Hab Hok Hbv; [reflexivity|].
  cbn [ab_max_loop ab_min_loop max_loop min_loop bind].
  destruct (Hab a (or_introl eq_refl)) as (s' & Hres & Hrec).
  destruct (Hok a (or_introl eq_refl)) as (s0 & mv0 & Hres0 & Hrec0).
  rewrite Hres in *. injection Hres0 as <-. cbn [bind].
  destruct (Hrec _ _ Hbv) as (vc & mvc & -> & (B1 & B2 & B3)). rewrite Hrec0. cbn [bind].
  change (ext_ltb Z.ltb) with zlt. change (ext_leb Z.leb) with zle.
  change (ext_max Z.ltb) with zmax.
  assert (Hab' : ab_children_ok rec s cv l) by (intros x Hx; apply Hab; simpl; auto).
  assert (Hok' : children_ok rec0 s cv l) by (intros x Hx; apply Hok; simpl; auto).
  pose proof (le_pos_inf (cv a)) as Htop.
  destruct (zlt bv vc) eqn:EB.
  - assert (Hx : vc = cv a).
    { destruct (zlt vc PosInf) eqn:E; [auto|].
      assert (E' : zle PosInf vc = true) by ext_order.
      specialize (B2 E'). ext_order. }
    subst vc. rewrite EB, (zmax_r bv (cv a) EB).
    destruct (zle PosInf (cv a)) eqn:Ecut.
    + assert (Hp : cv a = PosInf) by ext_order.
      rewrite Hp. symmetry. now apply max_loop_at_top.
    + apply IH; auto. ext_order.
  - assert (E' : zle vc bv = true) by ext_order.
    specialize (B1 E').
    assert (EB' : zlt bv (cv a) = false) by ext_order.
    rewrite EB', (zmax_l bv bv (zlt_irrefl bv)).
    assert (Ecut : zle PosInf bv = false) by ext_order.
    rewrite Ecut. now apply IH.
Qed.

Lemma ab_min_loop_full_window (l : list Move) (bv : ext Z) (bm : option Move) :
  ab_children_ok rec s cv l -> children_ok rec0 s cv l ->
  zlt NegInf bv = true ->
  ab_min_loop Z.ltb Z.leb rec s l NegInf bv bv bm = min_loop rec0 s l bv bm.
Proof.
  revert bv bm. induction l as [|a l IH]; intros bv bm Hab Hok Hbv; [reflexivity|].
  cbn [ab_max_loop ab_min_loop max_loop min_loop bind].
  destruct (Hab a (or_introl eq_refl)) as (s' & Hres & Hrec).
  destruct (Hok a (or_introl eq_refl)) as (s0 & mv0 & Hres0 & Hrec0).
  rewrite Hres in *. injection Hres0 as <-. cbn [bind].
  destruct (Hrec _ _ Hbv) as (vc & mvc & -> & (B1 & B2 & B3)). rewrite Hrec0. cbn [bind].
  change (ext_ltb Z.ltb) with zlt. change (ext_leb Z.leb) with zle.
  change (ext_min Z.ltb) with zmin.
  assert (Hab' : ab_children_ok rec s cv l) by (intros x Hx; apply Hab; simpl; auto).
  assert (Hok' : children_ok rec0 s cv l) by (intros x Hx; apply Hok; simpl; auto).
  pose proof (neg_inf_le (cv a)) as Hbot.
  destruct (zlt vc bv) eqn:EB.
  - assert (Hx : vc = cv a).
    { destruct (zlt NegInf vc) eqn:E; [auto|].
      assert (E' : zle vc NegInf = true) by ext_order.
      specialize (B1 E'). ext_order. }
    subst vc. rewrite EB, (zmin_r bv (cv a) EB).
    destruct (zle (cv a) NegInf) eqn:Ecut.
    + assert (Hp : cv a = NegInf) by ext_order.
      rewrite Hp. symmetry. now apply min_loop_at_bottom.
    + apply IH; auto. ext_order.
  - assert (E' : zle bv vc = true) by ext_order.
    specialize (B2 E').
    assert (EB' : zlt (cv a) bv = false) by ext_order.
    rewrite EB', (zmin_l bv bv (zlt_irrefl bv)).
    assert (Ecut : zle bv NegInf = false) by ext_order.
    rewrite Ecut. now apply IH.
Qed.
End FullWindow.

Lemma minimax_ab_unordered_eq (s : State) :
  wf_board s -> minimax_ab s NegInf PosInf false = minimax s.
Proof.
  intros Hwf. rewrite minimax_ab_unfold, minimax_unfold by assumption.
  destruct (terminal s) eqn:Hterm; [reflexivity|].
  unfold ordered_moves. rewrite sorted_actions. simpl.
  assert (Hab : ab_children_ok (fun s a b => minimax_ab s a b false) s (cvalue s) (actions s)).
  { intros a Ha. pose proof (result_legal s a Hwf Ha) as Hres.
    eexists. split; [exact Hres|].
    intros al be Hlt. unfold cvalue. rewrite Hres.
    apply minimax_ab_sound; [now apply place_wf_board | assumption]. }
  pose proof (children_ok_minimax s Hwf) as Hok.
  destruct (player s).
  - now apply (ab_max_loop_full_window _ minimax s (cvalue s)).
  - now apply (ab_min_loop_full_window _ minimax s (cvalue s)).
Qed.

(** C1: alpha-beta minimax called with the full window returns the value
    of plain minimax, with and without heuristic move ordering; without
    ordering (both walk the moves in lexicographic order) it returns the
    same best move as well; so the ordering can change the move found and
    the work done, never the value. *)
Theorem minimax_ab_equals_minimax (s : State) :
  wf_board s ->
  (forall use_ordering, exists v mv mv',
     minimax s = Ok (v, mv) /\
     minimax_ab s NegInf PosInf use_ordering = Ok (v, mv')) /\
  minimax_ab s NegInf PosInf false = minimax s /\
  (exists v mv1 mv2,
     minimax_ab s NegInf PosInf true = Ok (v, mv1) /\
     minimax_ab s NegInf PosInf false = Ok (v, mv2)).
Proof.
  intros Hwf.
  assert (H : forall uo, exists v mv mv',
             minimax s = Ok (v, mv) /\ minimax_ab s NegInf PosInf uo = Ok (v, mv')).
  { intros uo. destruct (minimax_total s Hwf) as (v & mv & Hmm).
    destruct (minimax_ab_sound s Hwf NegInf PosInf uo eq_refl) as (v' & mv' & Hab & Hb).
    apply bounded_full_window in Hb. rewrite (minimax_value s v mv Hmm) in Hb. subst v'.
    eauto. }
  split; [exact H|]. split; [now apply minimax_ab_unordered_eq|].
  destruct (H true) as (v & mv & mv1 & Hmm & H1).
  destruct (H false) as (v' & mv' & mv2 & Hmm' & H2).
  rewrite Hmm in Hmm'. injection Hmm' as <- <-. eauto.
Qed.

(** ** Depth-limited search: the recursion equation *)

Lemma search_fuel_stable (n1 n2 : nat) (s : State) (depth : Z)
  (eval_fn : State -> Q) (alpha beta : ext Q) :
  wf_board s -> (length (actions s) < n1)%nat -> (length (actions s) < n2)%nat ->
  search_fuel n1 s depth eval_fn alpha beta = search_fuel n2 s depth eval_fn alpha beta.
Proof.
  revert n2 s depth alpha beta.
  induction n1 as [|n1 IH]; intros n2 s depth alpha beta Hwf H1 H2; [lia|].
  destruct n2 as [|n2]; [lia|]. simpl.
  destruct (terminal s); [reflexivity|].
  destruct (depth =? 0); [reflexivity|].
  destruct (order_moves s (actions s) true) as [l|] eqn:Hl; simpl; [|reflexivity].
  apply order_moves_perm in Hl.
  destruct (player s); [apply ab_max_loop_ext | apply ab_min_loop_ext];
    intros a s' al be Hin Hres;
    apply (Permutation_in _ Hl) in Hin;
    pose proof (length_actions_result s s' a Hwf Hin Hres);
    (apply IH; [eapply result_wf_board; eauto | lia | lia]).
Qed.

Lemma search_unfold (s : State) (depth : Z) (eval_fn : State -> Q)
  (alpha beta : ext Q) :
  wf_board s ->
  search s depth eval_fn alpha beta =
  if terminal s then
    match utility s with
    | Some 1 => Ok (Fin 1000%Q, None)
    | Some (-1) => Ok (Fin (-1000)%Q, None)
    | _ => Ok (Fin 0%Q, None)
    end
  else if depth =? 0 then Ok (Fin (eval_fn s), None)
  else
    legal_moves <- order_moves s (actions s) true ;;
    match player s with
    | X => ab_max_loop Qlt_bool Qle_bool
             (fun s a b => search s (depth - 1) eval_fn a b)
             s legal_moves alpha beta NegInf None
    | O => ab_min_loop Qlt_bool Qle_bool
             (fun s a b => search s (depth - 1) eval_fn a b)
             s legal_moves alpha beta PosInf None
    end.
Proof.
  intros Hwf. unfold search at 1. unfold depth_bound. simpl.
  destruct (terminal s); [reflexivity|].
  destruct (depth =? 0); [reflexivity|].
  destruct (order_moves s (actions s) true) as [l|] eqn:Hl; simpl; [|reflexivity].
  apply order_moves_perm in Hl.
  destruct (player s); [apply ab_max_loop_ext | apply ab_min_loop_ext];
    intros a s' al be Hin Hres;
    apply (Permutation_in _ Hl) in Hin;
    pose proof (length_actions_result s s' a Hwf Hin Hres);
    (unfold search, depth_bound; apply search_fuel_stable;
     [eapply result_wf_board; eauto | lia | lia]).
Qed.

(** ** The pruning loops return a move once a child has been searched *)

Section LoopsReturnMove.
Context {V : Type}.
Variable ltb leb : V -> V -> bool.
Variable rec : State -> ext V -> ext V -> res (SearchResult V).
Variable s : State.

Lemma ab_max_loop_move (l : list Move) :
  finite_children rec s l ->
  forall alpha beta bv bm,
    (exists u a, bv = Fin u /\ bm = Some a) \/ (bv = NegInf /\ l <> []) ->
    exists u a, ab_max_loop ltb leb rec s l alpha beta bv bm = Ok (Fin u, Some a).
Proof.
  induction l as [|a l IH]; intros Hok alpha beta bv bm Hstart; simpl.
  - destruct Hstart as [(u & a & -> & ->)|[_ Hne]]; [eauto | congruence].
  - destruct (Hok a (or_introl eq_refl)) as (s' & -> & Hrec). simpl.
    destruct (Hrec alpha beta) as (uc & mvc & ->). simpl.
    assert (Hok' : finite_children rec s l) by (intros x Hx; apply Hok; simpl; auto).
    destruct Hstart as [(u & a0 & -> & ->)|[-> _]]; simpl.
    + destruct (ltb u uc);
        match goal with
        | |- context [ext_leb leb beta ?x] => destruct (ext_leb leb beta x)
        end; try (eexists _, _; reflexivity); (apply IH; [assumption | left; eauto]).
    + match goal with
      | |- context [ext_leb leb beta ?x] => destruct (ext_leb leb beta x)
      end; try (eexists _, _; reflexivity); (apply IH; [assumption | left; eauto]).
Qed.

Lemma ab_min_loop_move (l : list Move) :
  finite_children rec s l ->
  forall alpha beta bv bm,
    (exists u a, bv = Fin u /\ bm = Some a) \/ (bv = PosInf /\ l <> []) ->
    exists u a, ab_min_loop ltb leb rec s l alpha beta bv bm = Ok (Fin u, Some a).
Proof.
  induction l as [|a l IH]; intros Hok alpha beta bv bm Hstart; simpl.
  - destruct Hstart as [(u & a & -> & ->)|[_ Hne]]; [eauto | congruence].
  - destruct (Hok a (or_introl eq_refl)) as (s' & -> & Hrec). simpl.
    destruct (Hrec alpha beta) as (uc & mvc & ->). simpl.
    assert (Hok' : finite_children rec s l) by (intros x Hx; apply Hok; simpl; auto).
    destruct Hstart as [(u & a0 & -> & ->)|[-> _]]; simpl.
    + destruct (ltb uc u);
        match goal with
        | |- context [ext_leb leb ?x alpha] => destruct (ext_leb leb x alpha)
        end; try (eexists _, _; reflexivity); (apply IH; [assumption | left; eauto]).
    + match goal with
      | |- context [ext_leb leb ?x alpha] => destruct (ext_leb leb x alpha)
      end; try (eexists _, _; reflexivity); (apply IH; [assumption | left; eauto]).
Qed.
End LoopsReturnMove.

(** ** Terminal states, depth zero and the best move *)

Lemma minimax_ab_finite (s : State) :
  wf_state s ->
  forall alpha beta uo, exists u mv,
    minimax_ab s alpha beta uo = Ok (Fin u, mv) /\
    (terminal s = false -> exists a, mv = Some a).
Proof.
  revert s.
  apply (game_induction_state (fun s =>
    forall alpha beta uo, exists u mv,
      minimax_ab s alpha beta uo = Ok (Fin u, mv) /\
      (terminal s = false -> exists a, mv = Some a))).
  intros s Hs IH alpha beta uo. pose proof Hs as [Hwf _].
  rewrite minimax_ab_unfold by assumption.
  destruct (terminal s) eqn:Hterm.
  - rewrite utility_value_terminal by assumption. simpl.
    eexists _, None. split; [reflexivity | discriminate].
  - destruct (ordered_moves_ok s uo Hwf) as (l & -> & Hperm). simpl.
    assert (Hne : l <> []).
    { intros ->. apply Permutation_nil in Hperm.
      now apply (nonterminal_has_action s Hs Hterm). }
    assert (Hok : finite_children (fun s a b => minimax_ab s a b uo) s l).
    { intros a Ha. apply (Permutation_in _ Hperm) in Ha.
      pose proof (result_legal s a Hwf Ha) as Hres.
      eexists. split; [exact Hres|]. intros al be.
      destruct (IH a _ Ha Hres al be uo) as (u & mv & Hr & _). eauto. }
    destruct (player s).
    + destruct (ab_max_loop_move Z.ltb Z.leb _ s l Hok alpha beta NegInf None)
        as (u & a & ->); eauto.
    + destruct (ab_min_loop_move Z.ltb Z.leb _ s l Hok alpha beta PosInf None)
        as (u & a & ->); eauto.
Qed.

Lemma search_finite (s : State) :
  wf_state s ->
  forall depth eval_fn alpha beta, exists q mv,
    search s depth eval_fn alpha beta = Ok (Fin q, mv) /\
    (terminal s = false -> depth <> 0 -> exists a, mv = Some a).
Proof.
  revert s.
  apply (game_induction_state (fun s =>
    forall depth eval_fn alpha beta, exists q mv,
      search s depth eval_fn alpha beta = Ok (Fin q, mv) /\
      (terminal s = false -> depth <> 0 -> exists a, mv = Some a))).
  intros s Hs IH depth eval_fn alpha beta. pose proof Hs as [Hwf _].
  rewrite search_unfold by assumption.
  destruct (terminal s) eqn:Hterm.
  - destruct (utility s) as [[|[| |]|[| |]]|];
      (eexists _, None; split; [reflexivity | discriminate]).
  - destruct (Z.eqb_spec depth 0) as [->|Hd].
    + eexists _, None. split; [reflexivity | congruence].
    + destruct (order_moves_ok s (actions s) true Hwf (incl_refl _)) as (l & Hl).
      rewrite Hl. simpl. apply order_moves_perm in Hl.
      assert (Hne : l <> []).
      { intros ->. apply Permutation_nil in Hl.
        now apply (nonterminal_has_action s Hs Hterm). }
      assert (Hok : finite_children (fun s a b => search s (depth - 1) eval_fn a b) s l).
      { intros a Ha. apply (Permutation_in _ Hl) in Ha.
        pose proof (result_legal s a Hwf Ha) as Hres.
        eexists. split; [exact Hres|]. intros al be.
        destruct (IH a _ Ha Hres (depth - 1) eval_fn al be) as (u & mv & Hr & _). eauto. }
      destruct (player s).
      * destruct (ab_max_loop_move Qlt_bool Qle_bool _ s l Hok alpha beta NegInf None)
          as (u & a & ->); eauto.
      * destruct (ab_min_loop_move Qlt_bool Qle_bool _ s l Hok alpha beta PosInf None)
          as (u & a & ->); eauto.
Qed.

(** C3, as the code has it: on a non-terminal state of the game plain
    minimax, alpha-beta minimax (any window, either ordering) and
    depth-limited search at every depth other than zero return a best move;
    so a result without a move comes from a terminal state or, for the
    depth-limited search, from depth zero. *)
Theorem best_move_present_on_nonterminal (s : State) :
  wf_state s -> terminal s = false ->
  (exists v a, minimax s = Ok (v, Some a)) /\
  (forall alpha beta use_ordering,
     exists v a, minimax_ab s alpha beta use_ordering = Ok (v, Some a)) /\
  (forall depth eval_fn alpha beta, depth <> 0 ->
     exists v a, search s depth eval_fn alpha beta = Ok (v, Some a)).
Proof.
  intros Hs Hterm. split; [|split].
  - destruct (minimax_finite s Hs) as (u & mv & Hmm & _ & Hmv).
    destruct (Hmv Hterm) as [a ->]. eauto.
  - intros alpha beta uo.
    destruct (minimax_ab_finite s Hs alpha beta uo) as (u & mv & Hr & Hmv).
    destruct (Hmv Hterm) as [a ->]. eauto.
  - intros depth eval_fn alpha beta Hd.
    destruct (search_finite s Hs depth eval_fn alpha beta) as (u & mv & Hr & Hmv).
    destruct (Hmv Hterm Hd) as [a ->]. eauto.
Qed.

(** C5: at a terminal state depth-limited search answers 1000 when X has
    won, -1000 when O has won and 0 for a draw, with no move, whatever the
    depth; at a non-terminal state with depth zero it answers the
    evaluator's score with no move.  One unit of fuel is enough in both
    cases: no recursive call is made. *)
Theorem search_terminal_and_depth_zero (s : State) (depth : Z)
  (eval_fn : State -> Q) (alpha beta : ext Q) :
  (terminal s = true ->
     let sentinel :=
       match winner s with
       | Some X => 1000%Q
       | Some O => (-1000)%Q
       | None => 0%Q
       end in
     search s depth eval_fn alpha beta = Ok (Fin sentinel, None) /\
     search_fuel 1 s depth eval_fn alpha beta = Ok (Fin sentinel, None)) /\
  (terminal s = false ->
     search s 0 eval_fn alpha beta = Ok (Fin (eval_fn s), None) /\
     search_fuel 1 s 0 eval_fn alpha beta = Ok (Fin (eval_fn s), None)).
Proof.
  unfold search, depth_bound. simpl. split; intros Hterm.
  - rewrite Hterm, terminal_utility by assumption.
    destruct (winner s) as [[|]|]; split; reflexivity.
  - rewrite Hterm. split; reflexivity.
Qed.

(** ** The instrumented searches: recursion equations *)

Section InstrumentedLoopExt.
Variable rec1 rec2 : State -> SearchMetrics -> res (SearchResult Z * SearchMetrics).
Variable s : State.
Variable l : list Move.
Hypothesis Hrec : forall a s' mt, In a l -> result s a = Ok s' -> rec1 s' mt = rec2 s' mt.

Lemma max_loop_i_ext (bv : ext Z) (bm : option Move) (mt : SearchMetrics) :
  max_loop_i rec1 s l bv bm mt = max_loop_i rec2 s l bv bm mt.
Proof.
  revert bv bm mt Hrec. induction l as [|a l' IH]; intros bv bm mt H; simpl; [reflexivity|].
  destruct (result s a) as [s'|] eqn:Hres; simpl; [|reflexivity].
  rewrite (H a s' mt (or_introl eq_refl) Hres).
  destruct (rec2 s' mt) as [[[v mv] mt']|]; simpl; [|reflexivity].
  destruct (zlt bv v); apply IH; intros a' s'' mt'' Hin'; apply (H a' s''); simpl; auto.
Qed.

Lemma min_loop_i_ext (bv : ext Z) (bm : option Move) (mt : SearchMetrics) :
  min_loop_i rec1 s l bv bm mt = min_loop_i rec2 s l bv bm mt.
Proof.
  revert bv bm mt Hrec. induction l as [|a l' IH]; intros bv bm mt H; simpl; [reflexivity|].
  destruct (result s a) as [s'|] eqn:Hres; simpl; [|reflexivity].
  rewrite (H a s' mt (or_introl eq_refl) Hres).
  destruct (rec2 s' mt) as [[[v mv] mt']|]; simpl; [|reflexivity].
  destruct (zlt v bv); apply IH; intros a' s'' mt'' Hin'; apply (H a' s''); simpl; auto.
Qed.
End InstrumentedLoopExt.

Section InstrumentedAlphaBetaLoopExt.
Variable rec1 rec2 : State -> ext Z -> ext Z -> SearchMetrics
                     -> res (SearchResult Z * SearchMetrics).
Variable s : State.
Variable l : list Move.
Hypothesis Hrec : forall a s' al be mt,
  In a l -> result s a = Ok s' -> rec1 s' al be mt = rec2 s' al be mt.

Lemma ab_max_loop_i_ext (alpha beta bv : ext Z) (bm : option Move) (mt : SearchMetrics) :
  ab_max_loop_i rec1 s l alpha beta bv bm mt = ab_max_loop_i rec2 s l alpha beta bv bm mt.
Proof.
  revert alpha bv bm mt Hrec.
  induction l as [|a l' IH]; intros alpha bv bm mt H; simpl; [reflexivity|].
  destruct (result s a) as [s'|] eqn:Hres; simpl; [|reflexivity].
  rewrite (H a s' alpha beta mt (or_introl eq_refl) Hres).
  destruct (rec2 s' alpha beta mt) as [[[v mv] mt']|]; simpl; [|reflexivity].
  destruct (zlt bv v);
    (destruct (zle beta _); [reflexivity|]);
    apply IH; intros a' s'' al be mt'' Hin'; apply (H a' s''); simpl; auto.
Qed.

Lemma ab_min_loop_i_ext (alpha beta bv : ext Z) (bm : option Move) (mt : SearchMetrics) :
  ab_min_loop_i rec1 s l alpha beta bv bm mt = ab_min_loop_i rec2 s l alpha beta bv bm mt.
Proof.
  revert beta bv bm mt Hrec.
  induction l as [|a l' IH]; intros beta bv bm mt H; simpl; [reflexivity|].
  destruct (result s a) as [s'|] eqn:Hres; simpl; [|reflexivity].
  rewrite (H a s' alpha beta mt (or_introl eq_refl) Hres).
  destruct (rec2 s' alpha beta mt) as [[[v mv] mt']|]; simpl; [|reflexivity].
  destruct (zlt v bv);
    (destruct (zle _ alpha); [reflexivity|]);
    apply IH; intros a' s'' al be mt'' Hin'; apply (H a' s''); simpl; auto.
Qed.
End InstrumentedAlphaBetaLoopExt.

Lemma minimax_instrumented_fuel_stable (n1 n2 : nat) (s : State) (d : Z)
  (mt : SearchMetrics) :
  wf_board s -> (length (actions s) < n1)%nat -> (length (actions s) < n2)%nat ->
  minimax_instrumented_fuel n1 s d mt = minimax_instrumented_fuel n2 s d mt.
Proof.
  revert n2 s d mt. induction n1 as [|n1 IH]; intros n2 s d mt Hwf H1 H2; [lia|].
  destruct n2 as [|n2]; [lia|]. simpl.
  destruct (terminal s); [reflexivity|].
  rewrite sorted_actions.
  destruct (player s); [apply max_loop_i_ext | apply min_loop_i_ext];
    intros a s' mt' Hin Hres;
    pose proof (length_actions_result s s' a Hwf Hin Hres);
    (apply IH; [eapply result_wf_board; eauto | lia | lia]).
Qed.

Lemma minimax_instrumented_unfold (s : State) (d : Z) (mt : SearchMetrics) :
  wf_board s ->
  minimax_instrumented s d mt =
  let metrics := visit mt d in
  if terminal s then u <- utility_value s ;; Ok ((u, None), metrics)
  else match player s with
       | X => max_loop_i (fun s mt => minimax_instrumented s (d + 1) mt)
                s (actions s) NegInf None metrics
       | O => min_loop_i (fun s mt => minimax_instrumented s (d + 1) mt)
                s (actions s) PosInf None metrics
       end.
Proof.
  intros Hwf. unfold minimax_instrumented at 1. unfold depth_bound. simpl.
  destruct (terminal s); [reflexivity|].
  rewrite sorted_actions.
  destruct (player s); [apply max_loop_i_ext | apply min_loop_i_ext];
    intros a s' mt' Hin Hres;
    pose proof (length_actions_result s s' a Hwf Hin Hres);
    (unfold minimax_instrumented, depth_bound; apply minimax_instrumented_fuel_stable;
     [eapply result_wf_board; eauto | lia | lia]).
Qed.

Lemma ordered_moves_instrumented (s : State) (uo : bool) :
  (if uo then order_moves s (actions s) uo else Ok (sorted (actions s)))
  = ordered_moves s uo.
Proof. now destruct uo. Qed.

Lemma minimax_ab_instrumented_fuel_stable (n1 n2 : nat) (s : State)
  (alpha beta : ext Z) (d : Z) (mt : SearchMetrics) (uo : bool) :
  wf_board s -> (length (actions s) < n1)%nat -> (length (actions s) < n2)%nat ->
  minimax_ab_instrumented_fuel n1 s alpha beta d mt uo
  = minimax_ab_instrumented_fuel n2 s alpha beta d mt uo.
Proof.
  revert n2 s alpha beta d mt.
  induction n1 as [|n1 IH]; intros n2 s alpha beta d mt Hwf H1 H2; [lia|].
  destruct n2 as [|n2]; [lia|]. simpl.
  destruct (terminal s); [reflexivity|].
  rewrite ordered_moves_instrumented.
  destruct (ordered_moves s uo) as [l|] eqn:Hl; simpl; [|reflexivity].
  apply ordered_moves_perm in Hl.
  destruct (player s); [apply ab_max_loop_i_ext | apply ab_min_loop_i_ext];
    intros a s' al be mt' Hin Hres;
    apply (Permutation_in _ Hl) in Hin;
    pose proof (length_actions_result s s' a Hwf Hin Hres);
    (apply IH; [eapply result_wf_board; eauto | lia | lia]).
Qed.

Lemma minimax_ab_instrumented_unfold (s : State) (alpha beta : ext Z) (d : Z)
  (mt : SearchMetrics) (uo : bool) :
  wf_board s ->
  minimax_ab_instrumented s alpha beta d mt uo =
  let metrics := visit mt d in
  if terminal s then u <- utility_value s ;; Ok ((u, None), metrics)
  else
    legal_moves <- ordered_moves s uo ;;
    match player s with
    | X => ab_max_loop_i
             (fun s a b mt => minimax_ab_instrumented s a b (d + 1) mt uo)
             s legal_moves alpha beta NegInf None metrics
    | O => ab_min_loop_i
             (fun s a b mt => minimax_ab_instrumented s a b (d + 1) mt uo)
             s legal_moves alpha beta PosInf None metrics
    end.
Proof.
  intros Hwf. unfold minimax_ab_instrumented at 1. unfold depth_bound. simpl.
  destruct (terminal s); [reflexivity|].
  rewrite ordered_moves_instrumented.
  destruct (ordered_moves s uo) as [l|] eqn:Hl; simpl; [|reflexivity].
  apply ordered_moves_perm in Hl.
  destruct (player s); [apply ab_max_loop_i_ext | apply ab_min_loop_i_ext];
    intros a s' al be mt' Hin Hres;
    apply (Permutation_in _ Hl) in Hin;
    pose proof (length_actions_result s s' a Hwf Hin Hres);
    (unfold minimax_ab_instrumented, depth_bound;
     apply minimax_ab_instrumented_fuel_stable;
     [eapply result_wf_board; eauto | lia | lia]).
Qed.

(** ** Counting the states visited *)

Lemma zsum_perm (l l' : list Z) : Permutation l l' -> zsum l = zsum l'.
Proof. induction 1; simpl; lia. Qed.

Lemma zsum_nonneg (l : list Z) : Forall (fun x => 0 <= x) l -> 0 <= zsum l.
Proof. induction 1; simpl; lia. Qed.

Section CountingLoops.
Variable s : State.
Variable cn : Move -> Z.

Section Plain.
Variable rec : State -> SearchMetrics -> res (SearchResult Z * SearchMetrics).

Lemma max_loop_i_count (l : list Move) :
  counted_children s cn rec l ->
  forall bv bm mt, exists r mt',
    max_loop_i rec s l bv bm mt = Ok (r, mt') /\
    nodes_explored mt' = nodes_explored mt + zsum (map cn l).
Proof.
  induction l as [|a l IH]; intros Hok bv bm mt; simpl.
  - eexists _, _. split; [reflexivity | lia].
  - destruct (Hok a (or_introl eq_refl)) as (s' & -> & Hrec). simpl.
    destruct (Hrec mt) as ([v mv] & mt1 & -> & Hn). simpl.
    assert (Hok' : counted_children s cn rec l) by (intros x Hx; apply Hok; simpl; auto).
    destruct (zlt bv v);
      [destruct (IH Hok' v (Some a) mt1) as (r & mt' & -> & Hn')
      |destruct (IH Hok' bv bm mt1) as (r & mt' & -> & Hn')];
      (eexists _, _; split; [reflexivity | lia]).
Qed.

Lemma min_loop_i_count (l : list Move) :
  counted_children s cn rec l ->
  forall bv bm mt, exists r mt',
    min_loop_i rec s l bv bm mt = Ok (r, mt') /\
    nodes_explored mt' = nodes_explored mt + zsum (map cn l).
Proof.
  induction l as [|a l IH]; intros Hok bv bm mt; simpl.
  - eexists _, _. split; [reflexivity | lia].
  - destruct (Hok a (or_introl eq_refl)) as (s' & -> & Hrec). simpl.
    destruct (Hrec mt) as ([v mv] & mt1 & -> & Hn). simpl.
    assert (Hok' : counted_children s cn rec l) by (intros x Hx; apply Hok; simpl; auto).
    destruct (zlt v bv);
      [destruct (IH Hok' v (Some a) mt1) as (r & mt' & -> & Hn')
      |destruct (IH Hok' bv bm mt1) as (r & mt' & -> & Hn')];
      (eexists _, _; split; [reflexivity | lia]).
Qed.
End Plain.

Section Pruned.
Variable rec : State -> ext Z -> ext Z -> SearchMetrics
               -> res (SearchResult Z * SearchMetrics).

Lemma bounded_children_sum (l : list Move) :
  bounded_children s cn rec l -> 0 <= zsum (map cn l).
Proof.
  intros H. apply zsum_nonneg, Forall_map, Forall_forall.
  intros a Ha. now destruct (H a Ha).
Qed.

Lemma ab_max_loop_i_count (l : list Move) :
  bounded_children s cn rec l ->
  forall alpha beta bv bm mt, exists r mt',
    ab_max_loop_i rec s l alpha beta bv bm mt = Ok (r, mt') /\
    nodes_explored mt <= nodes_explored mt'
      <= nodes_explored mt + zsum (map cn l).
Proof.
  induction l as [|a l IH]; intros Hok alpha beta bv bm mt; simpl.
  - eexists _, _. split; [reflexivity | lia].
  - destruct (Hok a (or_introl eq_refl)) as (Hpos & s' & -> & Hrec). simpl.
    destruct (Hrec alpha beta mt) as ([v mv] & mt1 & -> & Hn). simpl.
    assert (Hok' : bounded_children s cn rec l) by (intros x Hx; apply Hok; simpl; auto).
    pose proof (bounded_children_sum l Hok') as Hsum.
    destruct (zlt bv v);
      (match goal with
       | |- context [zle beta ?x] => destruct (zle beta x)
       end;
       [eexists _, _; split; [reflexivity | simpl; lia]
       |match goal with
        | |- context [ab_max_loop_i rec s l ?al beta ?b ?m mt1] =>
            destruct (IH Hok' al beta b m mt1) as (r & mt' & -> & Hn')
        end; eexists _, _; split; [reflexivity | lia]]).
Qed.

Lemma ab_min_loop_i_count (l : list Move) :
  bounded_children s cn rec l ->
  forall alpha beta bv bm mt, exists r mt',
    ab_min_loop_i rec s l alpha beta bv bm mt = Ok (r, mt') /\
    nodes_explored mt <= nodes_explored mt'
      <= nodes_explored mt + zsum (map cn l).
Proof.
  induction l as [|a l IH]; intros Hok alpha beta bv bm mt; simpl.
  - eexists _, _. split; [reflexivity | lia].
  - destruct (Hok a (or_introl eq_refl)) as (Hpos & s' & -> & Hrec). simpl.
    destruct (Hrec alpha beta mt) as ([v mv] & mt1 & -> & Hn). simpl.
    assert (Hok' : bounded_children s cn rec l) by (intros x Hx; apply Hok; simpl; auto).
    pose proof (bounded_children_sum l Hok') as Hsum.
    destruct (zlt v bv);
      (match goal with
       | |- context [zle ?x alpha] => destruct (zle x alpha)
       end;
       [eexists _, _; split; [reflexivity | simpl; lia]
       |match goal with
        | |- context [ab_min_loop_i rec s l alpha ?be ?b ?m mt1] =>
            destruct (IH Hok' alpha be b m mt1) as (r & mt' & -> & Hn')
        end; eexists _, _; split; [reflexivity | lia]]).
Qed.
End Pruned.
End CountingLoops.

(** The count of one instrumented minimax run depends on the state only. *)
Lemma minimax_instrumented_count (s : State) :
  wf_board s ->
  1 <= visited_minimax s /\
  forall d mt, exists r mt',
    minimax_instrumented s d mt = Ok (r, mt') /\
    nodes_explored mt' = nodes_explored mt + visited_minimax s.
Proof.
  revert s.
  assert (H : forall s, wf_board s -> exists n, 1 <= n /\
            forall d mt, exists r mt',
              minimax_instrumented s d mt = Ok (r, mt') /\
              nodes_explored mt' = nodes_explored mt + n).
  { apply (game_induction (fun s => exists n, 1 <= n /\
            forall d mt, exists r mt',
              minimax_instrumented s d mt = Ok (r, mt') /\
              nodes_explored mt' = nodes_explored mt + n)).
    intros s Hwf IH.
    destruct (terminal s) eqn:Hterm.
    - exists 1. split; [lia|]. intros d mt.
      rewrite minimax_instrumented_unfold by assumption. cbv zeta.
      rewrite Hterm, utility_value_terminal by assumption. simpl.
      eexists _, _. split; [reflexivity | reflexivity].
    - set (cn := fun a => match result s a with
                          | Ok s' => visited_minimax s'
                          | Raise _ => 0
                          end).
      exists (1 + zsum (map cn (actions s))).
      assert (Hcn : forall a, In a (actions s) -> 1 <= cn a /\
                forall d, counted_children s cn
                  (fun s mt => minimax_instrumented s d mt) [a]).
      { intros a Ha. pose proof (result_legal s a Hwf Ha) as Hres.
        destruct (IH a _ Ha Hres) as (n & Hn1 & Hn).
        assert (Hv : cn a = n).
        { unfold cn, visited_minimax. rewrite Hres.
          destruct (Hn 0 new_metrics) as (r & mt' & -> & E). destruct r. simpl in E. lia. }
        split; [lia|]. intros d x [<-|[]].
        eexists. split; [exact Hres|]. intros mt. rewrite Hv. apply Hn. }
      split.
      + assert (0 <= zsum (map cn (actions s))); [|lia].
        apply zsum_nonneg, Forall_map, Forall_forall.
        intros a Ha. destruct (Hcn a Ha). lia.
      + intros d mt. rewrite minimax_instrumented_unfold by assumption. cbv zeta.
        rewrite Hterm.
        assert (Hok : counted_children s cn
                  (fun s mt => minimax_instrumented s (d + 1) mt) (actions s)).
        { intros a Ha. destruct (Hcn a Ha) as [_ Hc].
          apply (Hc (d + 1) a). simpl. auto. }
        destruct (player s).
        * destruct (max_loop_i_count s cn _ (actions s) Hok NegInf None (visit mt d))
            as (r & mt' & -> & Hn).
          eexists _, _. split; [reflexivity|]. simpl in Hn. lia.
        * destruct (min_loop_i_count s cn _ (actions s) Hok PosInf None (visit mt d))
            as (r & mt' & -> & Hn).
          eexists _, _. split; [reflexivity|]. simpl in Hn. lia. }
  intros s Hwf. destruct (H s Hwf) as (n & Hn1 & Hn).
  assert (Hv : visited_minimax s = n).
  { unfold visited_minimax. destruct (Hn 0 new_metrics) as (r & mt' & -> & E).
    destruct r. simpl in E. lia. }
  rewrite Hv. auto.
Qed.

Lemma nodes_visit (mt : SearchMetrics) (d : Z) :
  nodes_explored (visit mt d) = nodes_explored mt + 1.
Proof. reflexivity. Qed.

Lemma counted_children_minimax (s : State) (d : Z) :
  wf_board s ->
  counted_children s (visited_child s)
    (fun s mt => minimax_instrumented s d mt) (actions s).
Proof.
  intros Hwf a Ha. pose proof (result_legal s a Hwf Ha) as Hres.
  eexists. split; [exact Hres|]. intros mt.
  unfold visited_child. rewrite Hres.
  apply minimax_instrumented_count. now apply place_wf_board.
Qed.

(** Plain minimax visits the state and everything below every legal move. *)
Lemma visited_minimax_unfold (s : State) :
  wf_board s ->
  visited_minimax s =
  if terminal s then 1 else 1 + zsum (map (visited_child s) (actions s)).
Proof.
  intros Hwf. unfold visited_minimax at 1.
  rewrite minimax_instrumented_unfold by assumption. cbv zeta.
  destruct (terminal s) eqn:Hterm.
  - rewrite utility_value_terminal by assumption. reflexivity.
  - pose proof (counted_children_minimax s (0 + 1) Hwf) as Hok.
    destruct (player s).
    + destruct (max_loop_i_count s _ _ (actions s) Hok NegInf None (visit new_metrics 0))
        as ([v mv] & mt' & -> & Hn). cbv beta iota. rewrite nodes_visit in Hn. simpl in *. lia.
    + destruct (min_loop_i_count s _ _ (actions s) Hok PosInf None (visit new_metrics 0))
        as ([v mv] & mt' & -> & Hn). cbv beta iota. rewrite nodes_visit in Hn. simpl in *. lia.
Qed.

Lemma minimax_ab_instrumented_count (s : State) :
  wf_board s ->
  forall alpha beta d mt uo, exists r mt',
    minimax_ab_instrumented s alpha beta d mt uo = Ok (r, mt') /\
    nodes_explored mt + 1 <= nodes_explored mt'
      <= nodes_explored mt + visited_minimax s.
Proof.
  revert s.
  apply (game_induction (fun s =>
    forall alpha beta d mt uo, exists r mt',
      minimax_ab_instrumented s alpha beta d mt uo = Ok (r, mt') /\
      nodes_explored mt + 1 <= nodes_explored mt'
        <= nodes_explored mt + visited_minimax s)).
  intros s Hwf IH alpha beta d mt uo.
  rewrite minimax_ab_instrumented_unfold, visited_minimax_unfold by assumption.
  cbv zeta. destruct (terminal s) eqn:Hterm.
  - rewrite utility_value_terminal by assumption. simpl.
    eexists _, _. split; [reflexivity | rewrite nodes_visit; lia].
  - destruct (ordered_moves_ok s uo Hwf) as (l & -> & Hperm). cbn [bind].
    assert (Hok : bounded_children s (visited_child s)
              (fun s a b mt => minimax_ab_instrumented s a b (d + 1) mt uo) l).
    { intros a Ha. apply (Permutation_in _ Hperm) in Ha.
      pose proof (result_legal s a Hwf Ha) as Hres.
      unfold visited_child. rewrite Hres. split.
      - pose proof (minimax_instrumented_count _
                      (place_wf_board s (Z.to_nat (fst a)) (Z.to_nat (snd a)) Hwf))
          as [H1 _].
        apply Z.le_trans with 1; [lia | exact H1].
      - eexists. split; [reflexivity|]. intros al be mt0.
        destruct (IH a _ Ha Hres al be (d + 1) mt0 uo) as (r & mt' & E & Hn).
        exists r, mt'. split; [exact E | lia]. }
    rewrite <- (zsum_perm _ _ (Permutation_map (visited_child s) Hperm)).
    destruct (player s).
    + destruct (ab_max_loop_i_count s _ _ l Hok alpha beta NegInf None (visit mt d))
        as (r & mt' & -> & Hn).
      eexists _, _. split; [reflexivity|]. rewrite nodes_visit in Hn. lia.
    + destruct (ab_min_loop_i_count s _ _ l Hok alpha beta PosInf None (visit mt d))
        as (r & mt' & -> & Hn).
      eexists _, _. split; [reflexivity|]. rewrite nodes_visit in Hn. lia.
Qed.

(** ** The instrumented searches return what the plain searches return *)

Section InstrumentedAgree.
Variable s : State.

Section PlainLoops.
Variable rec0 : State -> res (SearchResult Z).
Variable reci : State -> SearchMetrics -> res (SearchResult Z * SearchMetrics).

Lemma max_loop_i_agrees (l : list Move) :
  agreeing_children s rec0 reci l ->
  forall bv bm mt, exists r mt',
    max_loop rec0 s l bv bm = Ok r /\ max_loop_i reci s l bv bm mt = Ok (r, mt').
Proof.
  induction l as [|a l IH]; intros Hok bv bm mt; simpl; [eauto|].
  destruct (Hok a (or_introl eq_refl)) as (s' & -> & Hrec). simpl.
  destruct (Hrec mt) as ([v mv] & mt1 & -> & ->). simpl.
  assert (Hok' : agreeing_children s rec0 reci l) by (intros x Hx; apply Hok; simpl; auto).
  destruct (zlt bv v); apply IH; assumption.
Qed.

Lemma min_loop_i_agrees (l : list Move) :
  agreeing_children s rec0 reci l ->
  forall bv bm mt, exists r mt',
    min_loop rec0 s l bv bm = Ok r /\ min_loop_i reci s l bv bm mt = Ok (r, mt').
Proof.
  induction l as [|a l IH]; intros Hok bv bm mt; simpl; [eauto|].
  destruct (Hok a (or_introl eq_refl)) as (s' & -> & Hrec). simpl.
  destruct (Hrec mt) as ([v mv] & mt1 & -> & ->). simpl.
  assert (Hok' : agreeing_children s rec0 reci l) by (intros x Hx; apply Hok; simpl; auto).
  destruct (zlt v bv); apply IH; assumption.
Qed.
End PlainLoops.

Section PrunedLoops.
Variable rec0 : State -> ext Z -> ext Z -> res (SearchResult Z).
Variable reci : State -> ext Z -> ext Z -> SearchMetrics
                -> res (SearchResult Z * SearchMetrics).

Lemma ab_max_loop_i_agrees (l : list Move) :
  ab_agreeing_children s rec0 reci l ->
  forall alpha beta bv bm mt, exists r mt',
    ab_max_loop Z.ltb Z.leb rec0 s l alpha beta bv bm = Ok r /\
    ab_max_loop_i reci s l alpha beta bv bm mt = Ok (r, mt').
Proof.
  induction l as [|a l IH]; intros Hok alpha beta bv bm mt; simpl; [eauto|].
  destruct (Hok a (or_introl eq_refl)) as (s' & -> & Hrec). simpl.
  destruct (Hrec alpha beta mt) as ([v mv] & mt1 & -> & ->). simpl.
  change (ext_ltb Z.ltb) with zlt. change (ext_leb Z.leb) with zle.
  change (ext_max Z.ltb) with zmax.
  assert (Hok' : ab_agreeing_children s rec0 reci l) by (intros x Hx; apply Hok; simpl; auto).
  destruct (zlt bv v);
    (match goal with
     | |- context [zle beta ?x] => destruct (zle beta x)
     end; [eauto | apply IH; assumption]).
Qed.

Lemma ab_min_loop_i_agrees (l : list Move) :
  ab_agreeing_children s rec0 reci l ->
  forall alpha beta bv bm mt, exists r mt',
    ab_min_loop Z.ltb Z.leb rec0 s l alpha beta bv bm = Ok r /\
    ab_min_loop_i reci s l alpha beta bv bm mt = Ok (r, mt').
Proof.
  induction l as [|a l IH]; intros Hok alpha beta bv bm mt; simpl; [eauto|].
  destruct (Hok a (or_introl eq_refl)) as (s' & -> & Hrec). simpl.
  destruct (Hrec alpha beta mt) as ([v mv] & mt1 & -> & ->). simpl.
  change (ext_ltb Z.ltb) with zlt. change (ext_leb Z.leb) with zle.
  change (ext_min Z.ltb) with zmin.
  assert (Hok' : ab_agreeing_children s rec0 reci l) by (intros x Hx; apply Hok; simpl; auto).
  destruct (zlt v bv);
    (match goal with
     | |- context [zle ?x alpha] => destruct (zle x alpha)
     end; [eauto | apply IH; assumption]).
Qed.
End PrunedLoops.
End InstrumentedAgree.

Lemma minimax_instrumented_result (s : State) :
  wf_board s ->
  forall d mt, exists r mt',
    minimax s = Ok r /\ minimax_instrumented s d mt = Ok (r, mt').
Proof.
  revert s.
  apply (game_induction (fun s => forall d mt, exists r mt',
    minimax s = Ok r /\ minimax_instrumented s d mt = Ok (r, mt'))).
  intros s Hwf IH d mt.
  rewrite minimax_unfold, minimax_instrumented_unfold by assumption. cbv zeta.
  destruct (terminal s) eqn:Hterm.
  - rewrite utility_value_terminal by assumption. simpl. eauto.
  - assert (Hok : agreeing_children s minimax
              (fun s mt => minimax_instrumented s (d + 1) mt) (actions s)).
    { intros a Ha. pose proof (result_legal s a Hwf Ha) as Hres.
      eexists. split; [exact Hres|]. intros mt0. apply (IH a _ Ha Hres). }
    destruct (player s).
    + apply max_loop_i_agrees; assumption.
    + apply min_loop_i_agrees; assumption.
Qed.

Lemma minimax_ab_instrumented_result (s : State) :
  wf_board s ->
  forall alpha beta d mt uo, exists r mt',
    minimax_ab s alpha beta uo = Ok r /\
    minimax_ab_instrumented s alpha beta d mt uo = Ok (r, mt').
Proof.
  revert s.
  apply (game_induction (fun s => forall alpha beta d mt uo, exists r mt',
    minimax_ab s alpha beta uo = Ok r /\
    minimax_ab_instrumented s alpha beta d mt uo = Ok (r, mt'))).
  intros s Hwf IH alpha beta d mt uo.
  rewrite minimax_ab_unfold, minimax_ab_instrumented_unfold by assumption. cbv zeta.
  destruct (terminal s) eqn:Hterm.
  - rewrite utility_value_terminal by assumption. simpl. eauto.
  - destruct (ordered_moves_ok s uo Hwf) as (l & -> & Hperm). cbn [bind].
    assert (Hok : ab_agreeing_children s (fun s a b => minimax_ab s a b uo)
              (fun s a b mt => minimax_ab_instrumented s a b (d + 1) mt uo) l).
    { intros a Ha. apply (Permutation_in _ Hperm) in Ha.
      pose proof (result_legal s a Hwf Ha) as Hres.
      eexists. split; [exact Hres|]. intros al be mt0. apply (IH a _ Ha Hres). }
    destruct (player s).
    + apply ab_max_loop_i_agrees; assumption.
    + apply ab_min_loop_i_agrees; assumption.
Qed.

(** C4, as the code has it: alpha-beta minimax, with or without heuristic
    move ordering, visits at most as many states as plain minimax -- the
    instrumented runs returning what [minimax] and [minimax_ab] return. *)
Theorem alpha_beta_visits_no_more (s : State) (use_ordering : bool) :
  wf_board s ->
  exists r_mm m_mm r_ab m_ab,
    minimax s = Ok r_mm /\
    minimax_instrumented s 0 new_metrics = Ok (r_mm, m_mm) /\
    minimax_ab s NegInf PosInf use_ordering = Ok r_ab /\
    minimax_ab_instrumented s NegInf PosInf 0 new_metrics use_ordering
      = Ok (r_ab, m_ab) /\
    1 <= nodes_explored m_ab <= nodes_explored m_mm.
Proof.
  intros Hwf.
  destruct (minimax_instrumented_count s Hwf) as [_ Hmm].
  destruct (Hmm 0 new_metrics) as (r_mm & m_mm & E1 & N1).
  destruct (minimax_ab_instrumented_count s Hwf NegInf PosInf 0 new_metrics use_ordering)
    as (r_ab & m_ab & E2 & N2).
  destruct (minimax_instrumented_result s Hwf 0 new_metrics) as (r1 & m1 & P1 & Q1).
  destruct (minimax_ab_instrumented_result s Hwf NegInf PosInf 0 new_metrics use_ordering)
    as (r2 & m2 & P2 & Q2).
  rewrite E1 in Q1. injection Q1 as <- <-.
  rewrite E2 in Q2. injection Q2 as <- <-.
  exists r_mm, m_mm, r_ab, m_ab. repeat (split; [assumption|]).
  change (nodes_explored new_metrics) with 0 in *. lia.
Qed.

(** ** [result]: one cell, one count *)

Lemma position_cell (s : State) (mv : Move) (r c : nat) :
  position s mv = Some (r, c) ->
  exists row x, nth_error (board s) r = Some row /\ nth_error row c = Some x.
Proof.
  unfold position.
  destruct (norm_index (length (board s)) (fst mv)) as [r'|] eqn:Hr; [|discriminate].
  destruct (nth_error (board s) r') as [row|] eqn:Hrow; [|discriminate].
  destruct (norm_index (length row) (snd mv)) as [c'|] eqn:Hc; [|discriminate].
  intros [= <- <-]. apply norm_index_bound in Hc.
  destruct (nth_error row c') as [x|] eqn:Hx; [eauto|].
  apply nth_error_None in Hx. lia.
Qed.

Lemma result_raises_iff_occupied (s : State) (mv : Move) :
  result s mv = Raise ValueError <-> exists p, target s mv = Some (Some p).
Proof.
  rewrite result_by_position. unfold target.
  destruct (position s mv) as [[r c]|]; [|split; [discriminate | intros [p [=]]]].
  destruct (cell_nat (board s) r c) as [p|]; split; eauto; try discriminate.
  intros [p [=]].
Qed.

Lemma result_index_error (s : State) (mv : Move) :
  result s mv = Raise IndexError <-> target s mv = None.
Proof.
  rewrite result_by_position. unfold target.
  destruct (position s mv) as [[r c]|]; [|tauto].
  destruct (cell_nat (board s) r c); split; discriminate.
Qed.

Lemma set_cell_lengths (b : list (list cell)) (r c : nat) (v : cell) :
  map (@length cell) (set_cell b r c v) = map (@length cell) b.
Proof.
  unfold set_cell. revert r. induction b as [|row b IH]; intros [|r]; simpl; auto.
  - now rewrite length_update_nth.
  - now rewrite IH.
Qed.

Lemma place_effect (s : State) (mv : Move) (r c : nat) :
  position s mv = Some (r, c) ->
  m (place s r c) = m s /\ k (place s r c) = k s /\
  moves (place s r c) = moves s + 1 /\
  cell_nat (board (place s r c)) r c = Some (player s) /\
  (forall r' c', (r', c') <> (r, c) ->
     cell_nat (board (place s r c)) r' c' = cell_nat (board s) r' c') /\
  map (@length cell) (board (place s r c)) = map (@length cell) (board s).
Proof.
  intros Hpos. destruct (position_cell s mv r c Hpos) as (row & x & Hrow & Hx).
  repeat split; simpl.
  - rewrite cell_nat_set_cell, !Nat.eqb_refl, Hrow, Hx. reflexivity.
  - intros r' c' Hne. rewrite cell_nat_set_cell.
    destruct (Nat.eqb_spec r r'); destruct (Nat.eqb_spec c c'); simpl; try reflexivity.
    subst. congruence.
  - apply set_cell_lengths.
Qed.

Lemma result_on_empty (s : State) (mv : Move) :
  target s mv = Some None ->
  exists r c, position s mv = Some (r, c) /\ result s mv = Ok (place s r c).
Proof.
  rewrite result_by_position. unfold target.
  destruct (position s mv) as [[r c]|]; [|discriminate].
  intros [= H]. rewrite H. eauto.
Qed.

(** ** [result] on the object store *)

Lemma denote_rows_length (h : store) (rows : list loc) (b : list (list cell)) :
  denote_rows h rows = Some b -> length b = length rows.
Proof.
  revert b. induction rows as [|row rows IH]; simpl; intros b.
  - now intros [= <-].
  - destruct (nth_error h row) as [[| |cells]|]; try discriminate.
    destruct (denote_rows h rows) as [b'|]; [|discriminate].
    intros [= <-]. simpl. f_equal. now apply IH.
Qed.

Lemma denote_rows_nth (h : store) (rows : list loc) (b : list (list cell))
  (i : nat) (row : loc) :
  denote_rows h rows = Some b -> nth_error rows i = Some row ->
  exists cells, nth_error h row = Some (RowObj cells) /\ nth_error b i = Some cells.
Proof.
  revert b i. induction rows as [|row0 rows IH]; simpl; intros b i Hd Hn.
  - destruct i; discriminate.
  - destruct (nth_error h row0) as [[| |cells]|] eqn:Hrow0; try discriminate.
    destruct (denote_rows h rows) as [b'|]; [|discriminate].
    injection Hd as <-. destruct i as [|i]; simpl in *.
    + injection Hn as <-. eauto.
    + now apply IH.
Qed.

Lemma denote_rows_ext (h ext : store) (rows : list loc) (b : list (list cell)) :
  denote_rows h rows = Some b -> denote_rows (h ++ ext) rows = Some b.
Proof.
  revert b. induction rows as [|row rows IH]; simpl; intros b; [auto|].
  destruct (nth_error h row) as [[| |cells]|] eqn:Hrow; try discriminate.
  destruct (denote_rows h rows) as [b'|]; [|discriminate].
  intros [= <-].
  rewrite nth_error_app1 by (apply nth_error_Some; congruence).
  rewrite Hrow, (IH b' eq_refl). reflexivity.
Qed.

Lemma denote_rows_fresh (h tl : store) (b : list (list cell)) :
  denote_rows (h ++ map RowObj b ++ tl) (seq (length h) (length b)) = Some b.
Proof.
  revert h. induction b as [|cells b IH]; intros h; simpl; [reflexivity|].
  rewrite nth_error_app2, Nat.sub_diag by lia. simpl.
  specialize (IH (h ++ [RowObj cells])).
  rewrite length_app, Nat.add_1_r, <- app_assoc in IH. simpl in IH.
  now rewrite IH.
Qed.

Lemma denote_inv (h : store) (st : loc) (s : State) :
  denote h st = Some s ->
  exists bl rows,
    nth_error h st = Some (DictObj bl (m s) (k s) (moves s)) /\
    nth_error h bl = Some (ListObj rows) /\
    denote_rows h rows = Some (board s).
Proof.
  unfold denote.
  destruct (nth_error h st) as [[bl m0 k0 mv0| |]|] eqn:Hst; try discriminate.
  destruct (nth_error h bl) as [[|rows|]|] eqn:Hbl; try discriminate.
  destruct (denote_rows h rows) as [b|] eqn:Hb; [|discriminate].
  intros [= <-]. simpl. exists bl, rows. auto.
Qed.

Lemma denote_ext (h ext : store) (st : loc) (s : State) :
  denote h st = Some s -> denote (h ++ ext) st = Some s.
Proof.
  intros H. destruct (denote_inv h st s H) as (bl & rows & Hst & Hbl & Hrows).
  unfold denote.
  rewrite nth_error_app1, Hst by (apply nth_error_Some; congruence).
  rewrite nth_error_app1, Hbl by (apply nth_error_Some; congruence).
  rewrite (denote_rows_ext h ext rows _ Hrows). now destruct s.
Qed.

Lemma seq_snoc (start len : nat) :
  seq start (S len) = seq start len ++ [(start + len)%nat].
Proof. rewrite <- Nat.add_1_r. now rewrite seq_app. Qed.

(** With distinct rows the memo never answers: every row is copied. *)
Lemma deepcopy_rows_spec (rows : list loc) :
  forall (h : store) (memo : list (loc * loc)) (b : list (list cell)),
    NoDup rows ->
    (forall row, In row rows -> memo_find memo row = None) ->
    denote_rows h rows = Some b ->
    deepcopy_rows memo rows h
    = (h ++ map RowObj b, Ok (seq (length h) (length b))).
Proof.
  induction rows as [|row rows IH]; intros h memo b Hnd Hmemo Hd; simpl in *.
  - injection Hd as <-. simpl. now rewrite app_nil_r.
  - rewrite (Hmemo row (or_introl eq_refl)).
    destruct (nth_error h row) as [[| |cells]|] eqn:Hrow; try discriminate.
    destruct (denote_rows h rows) as [b'|] eqn:Hb'; [|discriminate].
    injection Hd as <-.
    cbv [bindM read_row alloc ret]. rewrite Hrow. cbv beta iota.
    apply NoDup_cons_iff in Hnd. destruct Hnd as [Hnotin Hnd].
    rewrite (IH (h ++ [RowObj cells]) ((row, length h) :: memo) b' Hnd).
    + rewrite <- app_assoc, length_app, Nat.add_1_r. reflexivity.
    + intros row' Hin. simpl.
      destruct (Nat.eqb_spec row row'); [subst; contradiction|].
      apply Hmemo. auto.
    + now apply denote_rows_ext.
Qed.

Lemma update_nth_app_fresh {A : Type} (h ext : list A) (i : nat) (f : A -> A) :
  update_nth (length h + i) f (h ++ ext) = h ++ update_nth i f ext.
Proof. induction h as [|a h IH]; simpl; [reflexivity | now rewrite IH]. Qed.

Lemma update_nth_map_rows (b : list (list cell)) (r : nat) (g : list cell -> list cell)
  (tl : store) (cells : list cell) :
  nth_error b r = Some cells ->
  update_nth r (fun _ => RowObj (g cells)) (map RowObj b ++ tl)
  = map RowObj (update_nth r g b) ++ tl.
Proof.
  revert r. induction b as [|row b IH]; intros [|r]; simpl; try discriminate.
  - now intros [= ->].
  - intros H. now rewrite IH.
Qed.

Lemma nth_error_snoc {A : Type} (l : list A) (a : A) :
  nth_error (l ++ [a]) (length l) = Some a.
Proof. rewrite nth_error_app2, Nat.sub_diag by lia. reflexivity. Qed.

Lemma nth_error_seq_some (start len i : nat) :
  (i < len)%nat -> nth_error (seq start len) i = Some (start + i)%nat.
Proof.
  intros H. rewrite nth_error_seq.
  destruct (Nat.ltb_spec i len); [reflexivity | lia].
Qed.

Lemma result_store_spec (h : store) (st : loc) (s : State) (mv : Move) :
  denote h st = Some s -> distinct_rows h st ->
  result_store st mv h =
  match result s mv with
  | Raise e => (h, Raise e)
  | Ok s' => (store_after h s', Ok (S (length h + length (board s'))))
  end.
Proof.
  intros Hden Hdist.
  destruct (denote_inv h st s Hden) as (bl & rows & Hst & Hbl & Hrows).
  unfold distinct_rows in Hdist. rewrite Hst, Hbl in Hdist.
  pose proof (denote_rows_length h rows _ Hrows) as Hlen.
  rewrite result_by_position. unfold position.
  destruct mv as [r c]. cbn [fst snd]. unfold result_store.
  cbv [bindM read_dict read_list]. rewrite Hst, Hbl.
  unfold subscript at 1. unfold getitem. rewrite <- Hlen.
  destruct (norm_index (length (board s)) r) as [r'|] eqn:Hr; [|reflexivity].
  pose proof (norm_index_bound _ _ _ Hr) as Hr'.
  destruct (nth_error rows r') as [row|] eqn:Hrow;
    [|apply nth_error_None in Hrow; lia].
  destruct (denote_rows_nth h rows _ r' row Hrows Hrow) as (cells & Hcells & Hb).
  rewrite Hb. cbv [ret read_row]. rewrite Hcells.
  unfold subscript at 1. unfold getitem.
  destruct (norm_index (length cells) c) as [c'|] eqn:Hc; [|reflexivity].
  pose proof (norm_index_bound _ _ _ Hc) as Hc'.
  unfold cell_nat. rewrite Hb.
  destruct (nth_error cells c') as [[p|]|] eqn:Hx;
    [reflexivity | | apply nth_error_None in Hx; lia].
  cbv [ret].
  (* the copy *)
  unfold deepcopy. cbv [bindM read_dict read_list]. rewrite Hst, Hbl.
  rewrite (deepcopy_rows_spec rows h [] (board s) Hdist (fun _ _ => eq_refl) Hrows).
  cbv [alloc].
  set (h1 := h ++ map RowObj (board s)).
  set (news := seq (length h) (length (board s))).
  assert (Hl1 : length h1 = (length h + length (board s))%nat)
    by (unfold h1; now rewrite length_app, length_map).
  (* the writes go to the copy *)
  rewrite (nth_error_snoc (h1 ++ [ListObj news])).
  rewrite nth_error_app1 by (rewrite !length_app; simpl; lia).
  rewrite (nth_error_snoc h1).
  unfold subscript, getitem. unfold news at 1 2. rewrite length_seq, Hr.
  rewrite nth_error_seq_some by lia. cbv [ret read_row].
  assert (Hnew : nth_error ((h1 ++ [ListObj news]) ++ [DictObj (length h1) (m s) (k s) (moves s)])
                   (length h + r') = Some (RowObj cells)).
  { rewrite <- app_assoc. unfold h1. rewrite <- app_assoc.
    rewrite nth_error_app2 by lia.
    replace (length h + r' - length h)%nat with r' by lia.
    rewrite nth_error_app1 by (rewrite length_map; lia).
    rewrite nth_error_map, Hb. reflexivity. }
  rewrite Hnew, Hc. cbv [write].
  match goal with
  | |- context [nth_error ?hh (length (h1 ++ [ListObj news]))] =>
      assert (Hd : nth_error hh (length (h1 ++ [ListObj news]))
                   = Some (DictObj (length h1) (m s) (k s) (moves s)))
  end.
  { rewrite nth_error_update_nth.
    destruct (Nat.eqb_spec (length h + r') (length (h1 ++ [ListObj news])));
      [rewrite length_app in *; simpl in *; lia|].
    apply nth_error_snoc. }
  rewrite Hd. unfold store_after, place. cbn [board m k moves]. f_equal.
  - unfold set_cell. rewrite length_update_nth.
    unfold h1. rewrite <- !app_assoc.
    rewrite update_nth_app_fresh.
    rewrite (update_nth_map_rows (board s) r'
               (update_nth c' (fun _ => Some (player s))) _ cells Hb).
    replace (length (h ++ map RowObj (board s) ++ [ListObj news]))
      with (length h + (length (map RowObj (update_nth r' (update_nth c' (fun _ => Some (player s))) (board s)))
                        + 1))%nat
      by (rewrite !length_app, !length_map, length_update_nth; simpl; lia).
    rewrite update_nth_app_fresh. f_equal.
    rewrite app_assoc.
    replace (length (map RowObj (update_nth r' (update_nth c' (fun _ => Some (player s))) (board s))) + 1)%nat
      with (length (map RowObj (update_nth r' (update_nth c' (fun _ => Some (player s))) (board s))
                    ++ [ListObj news]) + 0)%nat
      by (rewrite !length_app; simpl; lia).
    rewrite update_nth_app_fresh. simpl. rewrite <- app_assoc. simpl.
    unfold news. rewrite length_app, length_map. reflexivity.
  - rewrite length_app, Hl1. simpl. f_equal. f_equal.
    unfold set_cell. rewrite length_update_nth. lia.
Qed.

Lemma store_after_old (h : store) (s' : State) (l : loc) :
  (l < length h)%nat -> nth_error (store_after h s') l = nth_error h l.
Proof. intros H. unfold store_after. now rewrite nth_error_app1. Qed.

Lemma denote_store_after (h : store) (s' : State) :
  denote (store_after h s') (S (length h + length (board s'))) = Some s'.
Proof.
  unfold denote, store_after.
  assert (E1 : nth_error
                 (h ++ map RowObj (board s') ++
                  [ListObj (seq (length h) (length (board s')));
                   DictObj (length h + length (board s')) (m s') (k s') (moves s')])
                 (S (length h + length (board s')))
               = Some (DictObj (length h + length (board s')) (m s') (k s') (moves s'))).
  { rewrite nth_error_app2 by lia. rewrite nth_error_app2 by (rewrite length_map; lia).
    rewrite length_map.
    replace (S (length h + length (board s')) - length h - length (board s'))%nat
      with 1%nat by lia. reflexivity. }
  assert (E2 : nth_error
                 (h ++ map RowObj (board s') ++
                  [ListObj (seq (length h) (length (board s')));
                   DictObj (length h + length (board s')) (m s') (k s') (moves s')])
                 (length h + length (board s'))
               = Some (ListObj (seq (length h) (length (board s'))))).
  { rewrite nth_error_app2 by lia. rewrite nth_error_app2 by (rewrite length_map; lia).
    rewrite length_map.
    replace (length h + length (board s') - length h - length (board s'))%nat
      with 0%nat by lia. reflexivity. }
  rewrite E1, E2, denote_rows_fresh. now destruct s'.
Qed.

Lemma distinct_rows_store_after (h : store) (s' : State) :
  distinct_rows (store_after h s') (S (length h + length (board s'))).
Proof.
  unfold distinct_rows, store_after.
  rewrite nth_error_app2 by lia. rewrite nth_error_app2 by (rewrite length_map; lia).
  rewrite length_map.
  replace (S (length h + length (board s')) - length h - length (board s'))%nat
    with 1%nat by lia. simpl.
  rewrite nth_error_app2 by lia. rewrite nth_error_app2 by (rewrite length_map; lia).
  rewrite length_map.
  replace (length h + length (board s') - length h - length (board s'))%nat
    with 0%nat by lia. simpl.
  apply seq_NoDup.
Qed.

Lemma distinct_rows_ext (h ext : store) (st : loc) :
  distinct_rows h st -> distinct_rows (h ++ ext) st.
Proof.
  unfold distinct_rows.
  destruct (nth_error h st) as [[bl m0 k0 mv0| |]|] eqn:Hst; try contradiction.
  destruct (nth_error h bl) as [[|rows|]|] eqn:Hbl; try contradiction.
  rewrite nth_error_app1, Hst by (apply nth_error_Some; congruence).
  rewrite nth_error_app1, Hbl by (apply nth_error_Some; congruence).
  auto.
Qed.

Lemma map_const_repeat {A B : Type} (l : list A) (b : B) :
  map (fun _ => b) l = repeat b (length l).
Proof. induction l as [|a l IH]; simpl; [reflexivity | now rewrite IH]. Qed.

Lemma initial_state_store_spec (m0 k0 : Z) :
  exists h st, initial_state_store m0 k0 [] = (h, Ok st) /\
               denote h st = Some (initial_state m0 k0) /\ distinct_rows h st.
Proof.
  assert (H : forall n cells (h : store),
            alloc_rows n cells h
            = (h ++ repeat (RowObj cells) n, Ok (seq (length h) n))).
  { induction n as [|n IH]; intros cells h; simpl.
    - unfold ret. now rewrite app_nil_r.
    - cbv [bindM alloc ret]. rewrite IH.
      rewrite <- app_assoc, length_app, Nat.add_1_r. reflexivity. }
  unfold initial_state_store. cbv [bindM alloc]. rewrite H. simpl app.
  assert (Hb : repeat (RowObj (map (fun _ => None) (range m0))) (Z.to_nat m0)
               = map RowObj (board (initial_state m0 k0))).
  { unfold initial_state. simpl. rewrite map_map.
    rewrite (map_const_repeat (range m0) (RowObj (map (fun _ => None) (range m0)))).
    now rewrite length_range. }
  assert (Hlen : length (board (initial_state m0 k0)) = Z.to_nat m0)
    by (unfold initial_state; simpl; now rewrite length_map, length_range).
  eexists _, _. split; [reflexivity|].
  pose proof (denote_store_after [] (initial_state m0 k0)) as Hd.
  pose proof (distinct_rows_store_after [] (initial_state m0 k0)) as Hn.
  unfold store_after in Hd, Hn.
  rewrite Hlen in Hd, Hn.
  change (m (initial_state m0 k0)) with m0 in *.
  change (k (initial_state m0 k0)) with k0 in *.
  change (moves (initial_state m0 k0)) with 0 in *.
  rewrite Hb, length_app, length_map, Hlen, <- app_assoc.
  simpl in Hd, Hn |- *.
  rewrite Nat.add_1_r. split; assumption.
Qed.

(** C7: [result] raises the invalid-move error exactly when the cell the
    move addresses is occupied; on an empty cell it returns a new state that
    differs from its argument in that one cell, now the mover's mark, and in
    the move count, one higher; whatever the outcome every object of the
    store is as it was, so the argument still stands for the same state; and
    a second call with the same move yields another state object that
    stands for the same successor. *)
Theorem result_sets_one_cell_of_a_copy (h : store) (st : loc) (s : State)
  (mv : Move) :
  denote h st = Some s -> distinct_rows h st ->
  exists h' out,
    result_store st mv h = (h', out) /\
    match result s mv with
    | Ok s' => exists st', out = Ok st' /\ denote h' st' = Some s' /\
                           distinct_rows h' st' /\ (length h <= st')%nat
    | Raise e => out = Raise e /\ h' = h
    end /\
    (out = Raise ValueError <-> exists p, target s mv = Some (Some p)) /\
    (target s mv = Some None ->
       exists st' s' r c,
         out = Ok st' /\ denote h' st' = Some s' /\ position s mv = Some (r, c) /\
         m s' = m s /\ k s' = k s /\ moves s' = moves s + 1 /\
         cell_nat (board s') r c = Some (player s) /\
         (forall r' c', (r', c') <> (r, c) ->
            cell_nat (board s') r' c' = cell_nat (board s) r' c') /\
         map (@length cell) (board s') = map (@length cell) (board s)) /\
    (forall l, (l < length h)%nat -> nth_error h' l = nth_error h l) /\
    denote h' st = Some s /\
    (forall st1, out = Ok st1 ->
       exists h'' st2,
         result_store st mv h' = (h'', Ok st2) /\ st2 <> st1 /\
         denote h'' st2 = denote h'' st1 /\
         denote h'' st1 = denote h' st1 /\
         denote h'' st = Some s).
Proof.
  intros Hden Hdist.
  pose proof (result_store_spec h st s mv Hden Hdist) as Hspec.
  pose proof (result_raises_iff_occupied s mv) as Hocc.
  destruct (result s mv) as [s'|e] eqn:Hres.
  - (* the cell is empty *)
    exists (store_after h s'), (Ok (S (length h + length (board s')))).
    assert (Hold : denote (store_after h s') st = Some s) by now apply denote_ext.
    assert (Hdist' : distinct_rows (store_after h s') st) by now apply distinct_rows_ext.
    split; [assumption|]. split.
    { eexists. split; [reflexivity|]. split; [apply denote_store_after|].
      split; [apply distinct_rows_store_after | lia]. }
    split.
    { split; [discriminate|]. intros Hp. apply Hocc in Hp. discriminate. }
    split.
    { intros Ht. destruct (result_on_empty s mv Ht) as (r & c & Hpos & Hr).
      rewrite Hres in Hr. injection Hr as ->.
      destruct (place_effect s mv r c Hpos) as (E1 & E2 & E3 & E4 & E5 & E6).
      exists (S (length h + length (board (place s r c)))), (place s r c), r, c.
      split; [reflexivity|]. split; [apply denote_store_after|]. auto 10. }
    split; [intros l Hl; now apply store_after_old|].
    split; [assumption|].
    intros st1 [= <-].
    pose proof (result_store_spec (store_after h s') st s mv Hold Hdist') as Hspec2.
    rewrite Hres in Hspec2.
    eexists _, _. split; [exact Hspec2|].
    assert (Hlen : (length h < length (store_after h s'))%nat).
    { unfold store_after. rewrite !length_app. simpl. lia. }
    split; [lia|]. split; [|split].
    + rewrite denote_store_after. symmetry.
      apply denote_ext, denote_store_after.
    + rewrite denote_store_after. apply denote_ext, denote_store_after.
    + now apply denote_ext.
  - exists h, (Raise e).
    split; [assumption|]. split; [auto|]. split.
    { rewrite <- Hocc. split; congruence. }
    split.
    { intros Ht. destruct (result_on_empty s mv Ht) as (r & c & _ & Hr). congruence. }
    split; [auto|]. split; [assumption|]. discriminate.
Qed.

(** ** Win detection: the run-length scan of one line *)

Lemma prefix_run_cons (x : cell) (line : list cell) (p : Player) (n : nat) :
  prefix_run (x :: line) p (S n) <-> x = Some p /\ prefix_run line p n.
Proof.
  unfold prefix_run. split.
  - intros H. split.
    + specialize (H 0%nat). simpl in H. injection H; [auto | lia].
    + intros j Hj. apply (H (S j)). lia.
  - intros [-> H] [|j] Hj; simpl; [reflexivity|]. apply H. lia.
Qed.

Lemma prefix_run_le (line : list cell) (p : Player) (n n' : nat) :
  (n' <= n)%nat -> prefix_run line p n -> prefix_run line p n'.
Proof. intros Hle H j Hj. apply H. lia. Qed.

Lemma run_in_cons (x : cell) (line : list cell) (p : Player) (k : nat) :
  run_in (x :: line) p k <-> prefix_run (x :: line) p k \/ run_in line p k.
Proof.
  unfold run_in, prefix_run. split.
  - intros [[|i] H]; [left; exact H|].
    right. exists i. intros j Hj. exact (H j Hj).
  - intros [H|[i H]]; [exists 0%nat; exact H|].
    exists (S i). intros j Hj. exact (H j Hj).
Qed.

Lemma run_in_nil (p : Player) (k : nat) : (0 < k)%nat -> ~ run_in [] p k.
Proof.
  intros Hk [i H]. specialize (H 0%nat Hk). destruct (i + 0)%nat; discriminate.
Qed.

Lemma cell_eqb_eq (a b : cell) : cell_eqb a b = true <-> a = b.
Proof. destruct a as [[|]|], b as [[|]|]; simpl; split; congruence. Qed.

Lemma check_line_loop_spec (k : Z) (line : list cell) :
  2 <= k ->
  forall count current, scanning k count current ->
    (forall p, check_line_loop line k count current = Some p ->
       (current = Some p /\ prefix_run line p (Z.to_nat (k - count))) \/
       run_in line p (Z.to_nat k)) /\
    (check_line_loop line k count current = None ->
       (forall q, current = Some q -> ~ prefix_run line q (Z.to_nat (k - count))) /\
       (forall p, ~ run_in line p (Z.to_nat k))).
Proof.
  intros Hk. induction line as [|x line IH]; intros count current Hscan.
  - simpl. split; [discriminate|]. intros _. split.
    + intros q Hq Hrun.
      assert (Hpos : (0 < Z.to_nat (k - count))%nat)
        by (destruct Hscan as [[_ ->]|(q' & _ & Hc)]; lia).
      specialize (Hrun 0%nat Hpos). discriminate.
    + intros p. apply run_in_nil. lia.
  - simpl.
    destruct (negb (is_None x) && cell_eqb x current) eqn:Hmatch.
    + (* the run goes on *)
      apply andb_true_iff in Hmatch. destruct Hmatch as [Hx Heq].
      apply cell_eqb_eq in Heq. subst x.
      destruct Hscan as [[-> _]|(q & -> & Hc)]; [discriminate|].
      destruct (Z.geb_spec (count + 1) k) as [Hge|Hlt].
      * split; [|discriminate]. intros p [= <-]. left. split; [reflexivity|].
        replace (Z.to_nat (k - count)) with 1%nat by lia.
        intros [|j] Hj; [reflexivity | lia].
      * assert (Hscan' : scanning k (count + 1) (Some q)) by (right; exists q; split; [reflexivity | lia]).
        destruct (IH (count + 1) (Some q) Hscan') as [Hs Hn].
        replace (Z.to_nat (k - count)) with (S (Z.to_nat (k - (count + 1)))) by lia.
        split.
        -- intros p Hp. destruct (Hs p Hp) as [[Hq Hrun]|Hrun].
           ++ left. split; [assumption|]. apply prefix_run_cons. injection Hq as ->. auto.
           ++ right. apply run_in_cons. auto.
        -- intros Hnone. destruct (Hn Hnone) as [Hn1 Hn2]. split.
           ++ intros q' [= <-] Hrun. apply prefix_run_cons in Hrun.
              apply (Hn1 q eq_refl). tauto.
           ++ intros p Hrun. apply run_in_cons in Hrun. destruct Hrun as [Hrun|Hrun].
              ** replace (Z.to_nat k) with (S (Z.to_nat (k - 1))) in Hrun by lia.
                 apply prefix_run_cons in Hrun. destruct Hrun as [[= <-] Hrun].
                 apply (Hn1 q eq_refl).
                 eapply prefix_run_le; [|exact Hrun]. lia.
              ** exact (Hn2 p Hrun).
    + (* a new run or an empty cell *)
      assert (Hdiff : forall q, x = Some q -> current <> Some q).
      { intros q -> ->. simpl in Hmatch. destruct q; discriminate. }
      assert (Hscan' : scanning k (if is_None x then 0 else 1) x).
      { destruct x as [q|]; simpl; [right; exists q; split; [reflexivity | lia] | left; auto]. }
      destruct (IH _ x Hscan') as [Hs Hn].
      split.
      * intros p Hp. right. apply run_in_cons.
        destruct (Hs p Hp) as [[-> Hrun]|Hrun]; [|auto].
        left. simpl in Hrun.
        replace (Z.to_nat k) with (S (Z.to_nat (k - 1))) by lia.
        apply prefix_run_cons. auto.
      * intros Hnone. destruct (Hn Hnone) as [Hn1 Hn2]. split.
        -- intros q -> Hrun.
           assert (Hpos : exists n, Z.to_nat (k - count) = S n).
           { destruct Hscan as [[[=] _]|(q' & _ & Hc)].
             exists (Z.to_nat (k - count - 1)). lia. }
           destruct Hpos as [n Hpos]. rewrite Hpos in Hrun.
           apply prefix_run_cons in Hrun. destruct Hrun as [-> _].
           exact (Hdiff q eq_refl eq_refl).
        -- intros p Hrun. apply run_in_cons in Hrun. destruct Hrun as [Hrun|Hrun].
           ++ replace (Z.to_nat k) with (S (Z.to_nat (k - 1))) in Hrun by lia.
              apply prefix_run_cons in Hrun. destruct Hrun as [-> Hrun].
              apply (Hn1 p eq_refl). simpl. exact Hrun.
           ++ exact (Hn2 p Hrun).
Qed.

Lemma run_in_length (line : list cell) (p : Player) (k : nat) :
  (0 < k)%nat -> run_in line p k -> (k <= length line)%nat.
Proof.
  intros Hk [i H]. specialize (H (k - 1)%nat).
  assert (Hs : nth_error line (i + (k - 1)) <> None) by (rewrite H; [discriminate | lia]).
  apply nth_error_Some in Hs. lia.
Qed.

(** One line: the scan reports a player exactly when a run of [k] is there,
    and then one who owns such a run. *)
Lemma check_line_spec (line : list cell) (k : Z) :
  2 <= k ->
  (forall p, _check_line line k = Some p -> run_in line p (Z.to_nat k)) /\
  (_check_line line k = None -> forall p, ~ run_in line p (Z.to_nat k)).
Proof.
  intros Hk. unfold _check_line.
  destruct (Z.ltb_spec (Z.of_nat (length line)) k) as [Hshort|Hlong].
  - split; [discriminate|]. intros _ p Hrun.
    apply run_in_length in Hrun; lia.
  - destruct (check_line_loop_spec k line Hk 0 None) as [Hs Hn]; [left; auto|].
    split.
    + intros p Hp. destruct (Hs p Hp) as [[[=] _]|Hrun]. exact Hrun.
    + intros Hnone. now apply Hn.
Qed.

(** The scan on lines of four cells with [k = 3]: three marks in a row
    win, two do not, and three marks split by the opponent do not. *)
Example check_line_three_in_a_row :
  _check_line [None; Some X; Some X; Some X] 3 = Some X.
Proof. reflexivity. Qed.

Example check_line_two_in_a_row :
  _check_line [Some X; Some X; None; Some O] 3 = None.
Proof. reflexivity. Qed.

Example check_line_split_run :
  _check_line [Some X; Some X; Some O; Some X] 3 = None.
Proof. reflexivity. Qed.

(** With [k = 1] the count is compared with [k] only when a mark repeats:
    a single mark is not reported, and two adjacent marks are. *)
Example check_line_single_mark :
  _check_line [Some X] 1 = None /\ run_in [Some X] X 1 /\
  _check_line [Some X; Some X] 1 = Some X.
Proof.
  split; [reflexivity|]. split; [|reflexivity].
  exists 0%nat. intros j Hj. now replace j with 0%nat by lia.
Qed.

Lemma first_winner_spec (lines : list (list cell)) (k : Z) :
  2 <= k ->
  (forall p, first_winner lines k = Some p ->
     exists line, In line lines /\ run_in line p (Z.to_nat k)) /\
  (first_winner lines k = None ->
     forall line p, In line lines -> ~ run_in line p (Z.to_nat k)).
Proof.
  intros Hk. induction lines as [|line lines [IHs IHn]]; simpl.
  - split; [discriminate | auto].
  - destruct (check_line_spec line k Hk) as [Hs Hn].
    destruct (_check_line line k) as [w|].
    + split; [|discriminate]. intros p [= <-]. exists line. auto.
    + split.
      * intros p Hp. destruct (IHs p Hp) as (l & Hl & Hrun). eauto.
      * intros Hnone l p [<-|Hin]; [now apply Hn | now apply IHn].
Qed.

Lemma first_winner_app (l1 l2 : list (list cell)) (k : Z) :
  first_winner (l1 ++ l2) k =
  match first_winner l1 k with
  | Some w => Some w
  | None => first_winner l2 k
  end.
Proof.
  induction l1 as [|line l1 IH]; simpl; [reflexivity|].
  destruct (_check_line line k); [reflexivity | exact IH].
Qed.

Lemma winner_all_lines (s : State) : winner s = first_winner (all_lines s) (k s).
Proof.
  unfold winner, all_lines. rewrite !first_winner_app.
  destruct (first_winner (board s) (k s)); [reflexivity|].
  destruct (first_winner (columns (board s) (m s)) (k s)); [reflexivity|].
  destruct (first_winner (diagonals (board s) (m s) (k s)) (k s)); reflexivity.
Qed.

(** ** Win detection: the lines of the board *)

Lemma nth_error_map_range {A : Type} (f : Z -> A) (n : Z) (j : nat) :
  nth_error (map f (range n)) j =
  if (j <? Z.to_nat n)%nat then Some (f (Z.of_nat j)) else None.
Proof.
  rewrite nth_error_map.
  destruct (Nat.ltb_spec j (Z.to_nat n)) as [H|H].
  - now rewrite nth_error_range.
  - assert (E : nth_error (range n) j = None)
      by (apply nth_error_None; now rewrite length_range).
    now rewrite E.
Qed.

Lemma nth_error_map_range_some {A : Type} (f : Z -> A) (n : Z) (j : nat) (x : A) :
  nth_error (map f (range n)) j = Some x <->
  (j < Z.to_nat n)%nat /\ f (Z.of_nat j) = x.
Proof.
  rewrite nth_error_map_range.
  destruct (Nat.ltb_spec j (Z.to_nat n)); split.
  - intros [= <-]. auto.
  - intros [_ <-]. reflexivity.
  - discriminate.
  - intros [? _]. lia.
Qed.

Lemma cell_nat_some (b : list (list cell)) (r c : nat) (p : Player) :
  cell_nat b r c = Some p <->
  exists row, nth_error b r = Some row /\ nth_error row c = Some (Some p).
Proof.
  unfold cell_nat. split.
  - destruct (nth_error b r) as [row|]; [|discriminate].
    destruct (nth_error row c) as [x|] eqn:Hx; [|discriminate].
    intros ->. eauto.
  - intros (row & -> & ->). reflexivity.
Qed.

Lemma in_all_lines (s : State) (line : list cell) :
  In line (all_lines s) <->
  In line (board s) \/
  (exists c, 0 <= c < m s /\ line = column (board s) (m s) c) \/
  (exists sr sc, 0 <= sr < m s - k s + 1 /\ 0 <= sc < m s - k s + 1 /\
                 line = diagonal (board s) (m s) sr sc) \/
  (exists sr sc, 0 <= sr < m s - k s + 1 /\ k s - 1 <= sc < m s /\
                 line = anti_diagonal (board s) (m s) sr sc).
Proof.
  unfold all_lines, columns, diagonals, anti_diagonals.
  rewrite !in_app_iff, in_map_iff, !in_flat_map.
  split.
  - intros [H|[[c [<- Hc]]|[[sr [Hsr H]]|[sr [Hsr H]]]]]; [auto| | |].
    + right. left. exists c. apply in_range in Hc. auto.
    + right. right. left. apply in_map_iff in H. destruct H as [sc [<- Hsc]].
      apply in_range in Hsr, Hsc. eauto.
    + right. right. right. apply in_map_iff in H. destruct H as [sc [<- Hsc]].
      apply in_range in Hsr. apply in_range_from in Hsc. eauto.
  - intros [H|[(c & Hc & ->)|[(sr & sc & Hsr & Hsc & ->)|(sr & sc & Hsr & Hsc & ->)]]];
      [auto| | |].
    + right. left. exists c. split; [reflexivity | now apply in_range].
    + right. right. left. exists sr. split; [now apply in_range|].
      apply in_map_iff. exists sc. split; [reflexivity | now apply in_range].
    + right. right. right. exists sr. split; [now apply in_range|].
      apply in_map_iff. exists sc. split; [reflexivity | now apply in_range_from].
Qed.

Lemma line_run_sound (s : State) (p : Player) (line : list cell) :
  wf_board s -> 1 <= k s ->
  In line (all_lines s) -> run_in line p (Z.to_nat (k s)) -> has_run s p.
Proof.
  intros (Hm & Hlen & Hrows) Hk Hin [i Hrun].
  assert (Hz : forall z, 0 <= z < k s ->
            nth_error line (i + Z.to_nat z) = Some (Some p))
    by (intros z Hz; apply Hrun; lia).
  apply in_all_lines in Hin.
  destruct Hin as [Hin|[(c & Hc & ->)|[(sr & sc & Hsr & Hsc & ->)|(sr & sc & Hsr & Hsc & ->)]]].
  - apply In_nth_error in Hin. destruct Hin as [r Hr].
    assert (Hrm : (r < Z.to_nat (m s))%nat)
      by (rewrite <- Hlen; apply nth_error_Some; congruence).
    rewrite Forall_forall in Hrows.
    pose proof (Hrows line (nth_error_In _ _ Hr)) as Hll.
    exists (Z.of_nat r), (Z.of_nat i), 0, 1. split; [simpl; auto|].
    intros z Hzr. specialize (Hz z Hzr).
    assert (Hb : (i + Z.to_nat z < length line)%nat)
      by (apply nth_error_Some; congruence).
    split; [lia|]. split; [lia|].
    rewrite cell_at_nat by lia. apply cell_nat_some. exists line.
    replace (Z.to_nat (Z.of_nat r + z * 0)) with r by lia.
    replace (Z.to_nat (Z.of_nat i + z * 1)) with (i + Z.to_nat z)%nat by lia.
    auto.
  - exists (Z.of_nat i), c, 1, 0. split; [simpl; auto|].
    intros z Hzr. specialize (Hz z Hzr). unfold column in Hz.
    apply nth_error_map_range_some in Hz. destruct Hz as [Hb Hcell].
    split; [lia|]. split; [lia|].
    replace (Z.of_nat i + z * 1) with (Z.of_nat (i + Z.to_nat z)) by lia.
    replace (c + z * 0) with c by lia. exact Hcell.
  - exists (sr + Z.of_nat i), (sc + Z.of_nat i), 1, 1. split; [simpl; auto|].
    intros z Hzr. specialize (Hz z Hzr). unfold diagonal in Hz.
    apply nth_error_map_range_some in Hz. destruct Hz as [Hb Hcell].
    split; [lia|]. split; [lia|].
    replace (sr + Z.of_nat i + z * 1) with (sr + Z.of_nat (i + Z.to_nat z)) by lia.
    replace (sc + Z.of_nat i + z * 1) with (sc + Z.of_nat (i + Z.to_nat z)) by lia.
    exact Hcell.
  - exists (sr + Z.of_nat i), (sc - Z.of_nat i), 1, (-1). split; [simpl; auto|].
    intros z Hzr. specialize (Hz z Hzr). unfold anti_diagonal in Hz.
    apply nth_error_map_range_some in Hz. destruct Hz as [Hb Hcell].
    split; [lia|]. split; [lia|].
    replace (sr + Z.of_nat i + z * 1) with (sr + Z.of_nat (i + Z.to_nat z)) by lia.
    replace (sc - Z.of_nat i + z * -1) with (sc - Z.of_nat (i + Z.to_nat z)) by lia.
    exact Hcell.
Qed.

Lemma line_run_complete (s : State) (p : Player) :
  wf_board s -> 1 <= k s -> has_run s p ->
  exists line, In line (all_lines s) /\ run_in line p (Z.to_nat (k s)).
Proof.
  intros (Hm & Hlen & Hrows) Hk (r & c & dr & dc & Hdir & Hrun).
  pose proof (Hrun 0 ltac:(lia)) as H0.
  pose proof (Hrun (k s - 1) ltac:(lia)) as Hlast.
  assert (Hj : forall j, (j < Z.to_nat (k s))%nat -> 0 <= Z.of_nat j < k s) by lia.
  simpl in Hdir.
  destruct Hdir as [[= <- <-]|[[= <- <-]|[[= <- <-]|[[= <- <-]|[]]]]].
  - (* along a row *)
    destruct (nth_error (board s) (Z.to_nat r)) as [line|] eqn:Hline;
      [|apply nth_error_None in Hline; lia].
    exists line. split; [apply in_all_lines; left; eapply nth_error_In; eauto|].
    exists (Z.to_nat c). intros j Hlt.
    destruct (Hrun _ (Hj j Hlt)) as (Hr & Hc & Hcell).
    rewrite cell_at_nat in Hcell by lia. apply cell_nat_some in Hcell.
    destruct Hcell as (row & Hrow & Hx).
    replace (Z.to_nat (r + Z.of_nat j * 0)) with (Z.to_nat r) in Hrow by lia.
    replace (Z.to_nat (c + Z.of_nat j * 1)) with (Z.to_nat c + j)%nat in Hx by lia.
    congruence.
  - (* down a column *)
    exists (column (board s) (m s) c).
    split; [apply in_all_lines; right; left; exists c; split; [lia | reflexivity]|].
    exists (Z.to_nat r). intros j Hlt.
    destruct (Hrun _ (Hj j Hlt)) as (Hr & Hc & Hcell).
    unfold column. apply nth_error_map_range_some. split; [lia|].
    replace (Z.of_nat (Z.to_nat r + j)) with (r + Z.of_nat j * 1) by lia.
    replace (c + Z.of_nat j * 0) with c in Hcell by lia. exact Hcell.
  - (* down a diagonal *)
    exists (diagonal (board s) (m s) r c).
    split; [apply in_all_lines; right; right; left; exists r, c; repeat split; lia|].
    exists 0%nat. intros j Hlt.
    destruct (Hrun _ (Hj j Hlt)) as (Hr & Hc & Hcell).
    unfold diagonal. apply nth_error_map_range_some. split; [lia|].
    simpl. replace (Z.of_nat j * 1) with (Z.of_nat j) in Hcell by lia. exact Hcell.
  - (* down an anti-diagonal *)
    exists (anti_diagonal (board s) (m s) r c).
    split; [apply in_all_lines; right; right; right; exists r, c; repeat split; lia|].
    exists 0%nat. intros j Hlt.
    destruct (Hrun _ (Hj j Hlt)) as (Hr & Hc & Hcell).
    unfold anti_diagonal. apply nth_error_map_range_some. split; [lia|].
    simpl. replace (r + Z.of_nat j * 1) with (r + Z.of_nat j) in Hcell by lia.
    replace (c + Z.of_nat j * -1) with (c - Z.of_nat j) in Hcell by lia. exact Hcell.
Qed.

(** C8, as the code has it, for a win length of at least two: [winner]
    reports only a player who owns [k] consecutive marks in a row, a column,
    a diagonal or an anti-diagonal; it reports [None] exactly when no player
    owns such a run; and when one player alone owns a run it reports that
    player. *)
Theorem winner_reports_a_run (s : State) :
  wf_board s -> 2 <= k s ->
  (forall p, winner s = Some p -> has_run s p) /\
  (winner s = None <-> forall p, ~ has_run s p) /\
  (forall p, has_run s p -> ~ has_run s (other p) -> winner s = Some p).
Proof.
  intros Hwf Hk. rewrite winner_all_lines.
  destruct (first_winner_spec (all_lines s) (k s) Hk) as [Hs Hn].
  assert (H1 : forall p, first_winner (all_lines s) (k s) = Some p -> has_run s p).
  { intros p Hp. destruct (Hs p Hp) as (line & Hin & Hrun).
    eapply line_run_sound; eauto. lia. }
  assert (H2 : first_winner (all_lines s) (k s) = None -> forall p, ~ has_run s p).
  { intros Hnone p Hrun.
    destruct (line_run_complete s p Hwf ltac:(lia) Hrun) as (line & Hin & Hl).
    exact (Hn Hnone line p Hin Hl). }
  split; [exact H1|]. split.
  - split; [exact H2|]. intros Hno.
    destruct (first_winner (all_lines s) (k s)) as [w|] eqn:Hw; [|reflexivity].
    exfalso. exact (Hno w (H1 w eq_refl)).
  - intros p Hp Hnot.
    destruct (first_winner (all_lines s) (k s)) as [w|] eqn:Hw.
    + pose proof (H1 w eq_refl) as Hrun.
      destruct p, w; simpl in Hnot; try reflexivity; contradiction.
    + exfalso. exact (H2 eq_refl p Hp).
Qed.

(** ** The evaluator against its specification *)

Lemma zsum_app (l1 l2 : list Z) : zsum (l1 ++ l2) = zsum l1 + zsum l2.
Proof. induction l1 as [|x l1 IH]; simpl; lia. Qed.

Lemma slice_window {A : Type} (line : list A) (i k : nat) :
  (i + k <= length line)%nat ->
  slice line (Z.of_nat i) (Z.of_nat i + Z.of_nat k) = firstn k (skipn i line).
Proof.
  intros H. unfold slice, clamp_index.
  destruct (Z.ltb_spec (Z.of_nat i) 0); [lia|].
  destruct (Z.ltb_spec (Z.of_nat i + Z.of_nat k) 0); [lia|].
  rewrite Nat2Z.id.
  replace (Nat.min i (length line)) with i by lia.
  replace (Nat.min (Z.to_nat (Z.of_nat i + Z.of_nat k)) (length line) - i)%nat
    with k by lia.
  reflexivity.
Qed.

Lemma filter_seq_below (b start len : nat) :
  filter (fun i => Nat.leb (i + b) (start + len)) (seq start (S len))
  = seq start (S len - b).
Proof.
  revert start. induction len as [|len IH]; intros start.
  - cbn [seq filter].
    destruct (Nat.leb_spec (start + b) (start + 0)) as [H|H].
    + replace (1 - b)%nat with 1%nat by lia. reflexivity.
    + replace (1 - b)%nat with 0%nat by lia. reflexivity.
  - change (seq start (S (S len))) with (start :: seq (S start) (S len)).
    cbn [filter].
    rewrite (filter_ext _ (fun i => Nat.leb (i + b) (S start + len)))
      by (intros i; f_equal; lia).
    rewrite (IH (S start)).
    destruct (Nat.leb_spec (start + b) (start + S len)) as [H|H].
    + replace (S (S len) - b)%nat with (S (S len - b)) by lia. reflexivity.
    + replace (S len - b)%nat with 0%nat by lia.
      replace (S (S len) - b)%nat with 0%nat by lia. reflexivity.
Qed.

Lemma filter_map_comm {A B : Type} (p : B -> bool) (f : A -> B) (l : list A) :
  filter p (map f l) = map f (filter (fun a => p (f a)) l).
Proof.
  induction l as [|a l IH]; simpl; [reflexivity|].
  destruct (p (f a)); simpl; now rewrite IH.
Qed.

Lemma windows_range (k : nat) (line : list cell) :
  windows k line
  = map (fun i => firstn k (skipn i line)) (seq 0 (S (length line) - k)).
Proof.
  unfold windows. rewrite filter_map_comm.
  rewrite <- (filter_seq_below k 0 (length line)). cbn [Nat.add].
  f_equal. apply filter_ext_in. intros i Hi. apply in_seq in Hi.
  rewrite length_firstn, length_skipn.
  destruct (Nat.leb_spec (i + k) (length line)) as [H|H].
  - assert (Hk : (k <= length line - i)%nat) by lia.
    rewrite (Nat.min_l _ _ Hk). apply Nat.eqb_refl.
  - apply Nat.eqb_neq. intros E. apply Nat.min_l_iff in E. lia.
Qed.

Lemma window_score_cases (window : list cell) :
  let x_count := count window X in
  let o_count := count window O in
  window_score window =
  if (x_count >? 0) && (o_count =? 0) then x_count ^ 2
  else if (o_count >? 0) && (x_count =? 0) then - o_count ^ 2
  else 0.
Proof.
  unfold window_score. cbv zeta.
  rewrite !Z.gtb_ltb, !Z.pow_2_r. reflexivity.
Qed.

Lemma count_sequences_loop_spec (line : list cell) (k : Z) (starts : list Z)
  (x_score o_score : Z) :
  let '(x_s, o_s) := count_sequences_loop line k starts x_score o_score in
  x_s - o_s = x_score - o_score
              + zsum (map (fun i => window_score (slice line i (i + k))) starts).
Proof.
  revert x_score o_score. induction starts as [|i starts IH]; intros x_score o_score.
  - simpl. lia.
  - simpl. rewrite window_score_cases. cbv zeta.
    destruct ((count (slice line i (i + k)) X >? 0)
              && (count (slice line i (i + k)) O =? 0)).
    + specialize (IH (x_score + count (slice line i (i + k)) X ^ 2) o_score).
      destruct (count_sequences_loop line k starts _ o_score). lia.
    + destruct ((count (slice line i (i + k)) O >? 0)
                && (count (slice line i (i + k)) X =? 0)).
      * specialize (IH x_score (o_score + count (slice line i (i + k)) O ^ 2)).
        destruct (count_sequences_loop line k starts x_score _). lia.
      * specialize (IH x_score o_score).
        destruct (count_sequences_loop line k starts x_score o_score). lia.
Qed.

Lemma count_sequences_spec (line : list cell) (k : Z) :
  0 <= k ->
  let '(x_s, o_s) := _count_sequences line k in
  x_s - o_s = zsum (map window_score (windows (Z.to_nat k) line)).
Proof.
  intros Hk. unfold _count_sequences.
  pose proof (count_sequences_loop_spec line k
                (range (Z.of_nat (length line) - k + 1)) 0 0) as H.
  destruct (count_sequences_loop line k _ 0 0) as [x_s o_s].
  rewrite H, windows_range. change (0 - 0) with 0. rewrite Z.add_0_l. f_equal.
  unfold range. rewrite !map_map.
  replace (Z.to_nat (Z.of_nat (length line) - k + 1))
    with (S (length line) - Z.to_nat k)%nat by lia.
  apply map_ext_in. intros i Hi. apply in_seq in Hi. f_equal.
  rewrite <- (Z2Nat.id k) at 1 by assumption.
  apply slice_window. lia.
Qed.

Lemma evaluate_lines_spec (lines : list (list cell)) (k : Z) :
  0 <= k ->
  (evaluate_lines lines k == inject_Z (family_score (Z.to_nat k) lines))%Q.
Proof.
  intros Hk. unfold evaluate_lines, family_score.
  assert (H : forall acc : Q,
            (fold_left (fun score line =>
                          let '(x_s, o_s) := _count_sequences line k in
                          score + inject_Z (x_s - o_s)) lines acc
             == acc + inject_Z (zsum (map (fun line =>
                   zsum (map window_score (windows (Z.to_nat k) line))) lines)))%Q).
  { induction lines as [|line lines IH]; intros acc; simpl.
    - unfold inject_Z. ring.
    - rewrite IH. pose proof (count_sequences_spec line k Hk) as Hl.
      destruct (_count_sequences line k) as [x_s o_s]. rewrite Hl.
      rewrite inject_Z_plus. ring. }
  rewrite H. ring.
Qed.

Lemma center_control_bonus_spec (s : State) :
  _center_control_bonus (board s) (m s) = center_bonus s.
Proof.
  unfold _center_control_bonus, center_bonus.
  now destruct (cell_at (board s) (m s / 2) (m s / 2)) as [[|]|].
Qed.

Lemma evaluate_scanned (s : State) :
  wf_board s -> 0 <= k s -> terminal s = false ->
  (evaluate s == scanned_score s)%Q.
Proof.
  intros Hwf Hk Hterm. unfold evaluate. rewrite Hterm.
  cbv zeta. unfold _evaluate_rows, _evaluate_columns, _evaluate_diagonals,
    _evaluate_anti_diagonals, scanned_score.
  rewrite !evaluate_lines_spec by assumption.
  rewrite center_control_bonus_spec. cbv zeta.
  rewrite !inject_Z_plus. ring.
Qed.

(** ** The evaluation against its specification *)

Lemma marks_of_count (p : Player) (w : list cell) : marks_of p w = count w p.
Proof.
  unfold marks_of, count. f_equal.
  induction w as [|x w IH]; [reflexivity|].
  cbn [filter count_occ].
  destruct (cell_eq_dec x (Some p)) as [->|Hne].
  - destruct p; cbn [holds length]; now rewrite IH.
  - assert (E : holds p x = false)
      by (destruct x as [[|]|], p; try reflexivity; congruence).
    now rewrite E.
Qed.

Lemma specified_window_score_scanned (w : list cell) :
  specified_window_score w = window_score w.
Proof.
  unfold specified_window_score, window_score.
  rewrite !marks_of_count, !Z.pow_2_r. reflexivity.
Qed.

Lemma specified_family_score_scanned (k0 : nat) (lines : list (list cell)) :
  specified_family_score k0 lines = family_score k0 lines.
Proof.
  unfold specified_family_score, family_score. f_equal.
  apply map_ext. intros line. f_equal.
  apply map_ext. intros w. apply specified_window_score_scanned.
Qed.

Lemma windows_no_cells (line : list cell) :
  zsum (map window_score (windows 0 line)) = 0.
Proof.
  rewrite windows_range, map_map. cbn [firstn].
  induction (seq 0 (S (length line) - 0)) as [|i l IHl]; [reflexivity|].
  cbn [map]. unfold zsum in *. cbn [fold_right]. rewrite IHl. reflexivity.
Qed.

Lemma family_score_no_cells (lines : list (list cell)) : family_score 0 lines = 0.
Proof.
  unfold family_score. induction lines as [|line lines IH]; [reflexivity|].
  cbn [map]. unfold zsum in *. cbn [fold_right]. rewrite IH.
  fold (zsum (map window_score (windows 0 line))).
  rewrite windows_no_cells. reflexivity.
Qed.

Lemma mark_at_cell_at (b : list (list cell)) (r c : Z) :
  0 <= r -> 0 <= c -> mark_at b r c = cell_at b r c.
Proof.
  intros Hr Hc. rewrite cell_at_nat by assumption. unfold mark_at, cell_nat.
  destruct (Z.leb_spec 0 r); [|lia]. destruct (Z.leb_spec 0 c); [|lia].
  cbn [andb].
  destruct (nth_error b (Z.to_nat r)) as [row|] eqn:Hrow.
  - rewrite (nth_error_nth _ _ _ Hrow).
    destruct (nth_error row (Z.to_nat c)) as [x|] eqn:Hx.
    + now rewrite (nth_error_nth _ _ _ Hx).
    + apply nth_overflow. now apply nth_error_None.
  - rewrite (nth_overflow b) by now apply nth_error_None.
    now destruct (Z.to_nat c).
Qed.

(** A segment holds the marks of the cells it passes, up to the edge. *)
Lemma segment_cells (b : list (list cell)) (m0 dr dc : Z) (n : nat) :
  forall (steps : nat) (r c : Z),
    (forall i, (i < n)%nat ->
       on_board m0 (r + Z.of_nat i * dr) (c + Z.of_nat i * dc) = true) ->
    (steps = n \/
     ((n < steps)%nat /\
      on_board m0 (r + Z.of_nat n * dr) (c + Z.of_nat n * dc) = false)) ->
    segment b m0 dr dc steps r c
    = map (fun i => mark_at b (r + Z.of_nat i * dr) (c + Z.of_nat i * dc)) (seq 0 n).
Proof.
  induction n as [|n IH]; intros steps r c Hon Hend.
  - destruct Hend as [-> | [Hlt Hoff]]; [reflexivity|].
    destruct steps as [|steps]; [reflexivity|]. cbn [segment].
    replace (r + Z.of_nat 0 * dr) with r in Hoff by lia.
    replace (c + Z.of_nat 0 * dc) with c in Hoff by lia.
    now rewrite Hoff.
  - destruct steps as [|steps]; [destruct Hend as [H|[H _]]; lia|].
    cbn [segment]. pose proof (Hon 0%nat ltac:(lia)) as H0.
    replace (r + Z.of_nat 0 * dr) with r in H0 by lia.
    replace (c + Z.of_nat 0 * dc) with c in H0 by lia.
    rewrite H0. cbn [seq map].
    replace (r + Z.of_nat 0 * dr) with r by lia.
    replace (c + Z.of_nat 0 * dc) with c by lia.
    f_equal. rewrite <- seq_shift, map_map.
    rewrite (IH steps (r + dr) (c + dc)).
    + apply map_ext. intros i. f_equal; lia.
    + intros i Hi. specialize (Hon (S i) ltac:(lia)).
      replace (r + dr + Z.of_nat i * dr) with (r + Z.of_nat (S i) * dr) by lia.
      replace (c + dc + Z.of_nat i * dc) with (c + Z.of_nat (S i) * dc) by lia.
      exact Hon.
    + destruct Hend as [H | [Hlt Hoff]]; [left; lia|]. right. split; [lia|].
      replace (r + dr + Z.of_nat n * dr) with (r + Z.of_nat (S n) * dr) by lia.
      replace (c + dc + Z.of_nat n * dc) with (c + Z.of_nat (S n) * dc) by lia.
      exact Hoff.
Qed.

Lemma in_upto (m0 x : Z) : In x (upto m0) <-> 0 <= x < m0.
Proof. exact (in_range m0 x). Qed.

Lemma list_as_nths {A : Type} (d : A) (l : list A) :
  map (fun i => nth i l d) (seq 0 (length l)) = l.
Proof.
  induction l as [|a l IH]; [reflexivity|].
  cbn [length seq map nth]. f_equal.
  rewrite <- seq_shift, map_map. exact IH.
Qed.

(** The rows, columns, diagonals and anti-diagonals of the specification
    are the lines [evaluate] scans, in the same order. *)
Lemma specified_rows_scanned (s : State) :
  wf_board s -> specified_rows (board s) (m s) = board s.
Proof.
  intros (Hm & Hlen & Hrows). unfold specified_rows, upto. rewrite map_map.
  transitivity (map (fun i => nth i (board s) []) (seq 0 (length (board s))));
    [|apply list_as_nths].
  rewrite Hlen. apply map_ext_in. intros r Hr. apply in_seq in Hr.
  unfold segment_to_edge.
  rewrite (segment_cells _ _ _ _ (Z.to_nat (m s))).
  - assert (Hin : In (nth r (board s) []) (board s)) by (apply nth_In; lia).
    rewrite Forall_forall in Hrows. specialize (Hrows _ Hin).
    transitivity (map (fun i => nth i (nth r (board s) []) None)
                      (seq 0 (length (nth r (board s) []))));
      [|apply list_as_nths].
    rewrite Hrows. apply map_ext. intros i. unfold mark_at.
    destruct (Z.leb_spec 0 (Z.of_nat r + Z.of_nat i * 0)); [|lia].
    destruct (Z.leb_spec 0 (0 + Z.of_nat i * 1)); [|lia].
    cbn [andb]. f_equal; [lia|]. f_equal. lia.
  - intros i Hi. unfold on_board.
    repeat (apply andb_true_intro; split);
      try (apply Z.leb_le; lia); apply Z.ltb_lt; lia.
  - left. reflexivity.
Qed.

Lemma specified_columns_scanned (s : State) :
  wf_board s -> specified_columns (board s) (m s) = columns (board s) (m s).
Proof.
  intros (Hm & Hlen & Hrows). unfold specified_columns, columns.
  change (upto (m s)) with (range (m s)).
  apply map_ext_in. intros c Hc. apply in_range in Hc.
  unfold segment_to_edge, column, range. rewrite map_map.
  rewrite (segment_cells _ _ _ _ (Z.to_nat (m s))).
  - apply map_ext. intros i. rewrite mark_at_cell_at by lia. f_equal; lia.
  - intros i Hi. unfold on_board.
    repeat (apply andb_true_intro; split);
      try (apply Z.leb_le; lia); apply Z.ltb_lt; lia.
  - left. reflexivity.
Qed.

Lemma diagonal_segment (b : list (list cell)) (m0 r c : Z) :
  0 <= r < m0 -> 0 <= c < m0 ->
  segment_to_edge b m0 1 1 r c = diagonal b m0 r c.
Proof.
  intros Hr Hc. unfold segment_to_edge, diagonal, range. rewrite map_map.
  rewrite (segment_cells _ _ _ _ (Z.to_nat (m0 - Z.max r c))).
  - apply map_ext. intros i. rewrite mark_at_cell_at by lia. f_equal; lia.
  - intros i Hi. unfold on_board.
    repeat (apply andb_true_intro; split);
      try (apply Z.leb_le; lia); apply Z.ltb_lt; lia.
  - destruct (Z.eq_dec (Z.max r c) 0) as [E|E]; [left; lia|].
    right. split; [lia|]. unfold on_board.
    destruct (Z.ltb_spec (r + Z.of_nat (Z.to_nat (m0 - Z.max r c)) * 1) m0);
      destruct (Z.ltb_spec (c + Z.of_nat (Z.to_nat (m0 - Z.max r c)) * 1) m0);
      rewrite ?andb_false_r; try reflexivity; lia.
Qed.

Lemma anti_diagonal_segment (b : list (list cell)) (m0 r c : Z) :
  0 <= r < m0 -> 0 <= c < m0 ->
  segment_to_edge b m0 1 (-1) r c = anti_diagonal b m0 r c.
Proof.
  intros Hr Hc. unfold segment_to_edge, anti_diagonal, range. rewrite map_map.
  rewrite (segment_cells _ _ _ _ (Z.to_nat (Z.min (m0 - r) (c + 1)))).
  - apply map_ext_in. intros i Hi. apply in_seq in Hi.
    rewrite mark_at_cell_at by lia. f_equal; lia.
  - intros i Hi. unfold on_board.
    repeat (apply andb_true_intro; split);
      try (apply Z.leb_le; lia); apply Z.ltb_lt; lia.
  - destruct (Z.eq_dec (Z.min (m0 - r) (c + 1)) m0) as [E|E]; [left; lia|].
    right. split; [lia|]. unfold on_board.
    destruct (Z.ltb_spec (r + Z.of_nat (Z.to_nat (Z.min (m0 - r) (c + 1))) * 1) m0);
      destruct (Z.leb_spec 0 (c + Z.of_nat (Z.to_nat (Z.min (m0 - r) (c + 1))) * -1));
      rewrite ?andb_false_r; cbn [andb]; try reflexivity; lia.
Qed.

Lemma filter_map_tested {A B : Type} (P : B -> bool) (G H : A -> B)
  (pc : A -> bool) (a : bool) (l : list A) :
  (forall c, In c l -> P (G c) = a && pc c) ->
  (forall c, In c l -> a = true -> pc c = true -> G c = H c) ->
  filter P (map G l) = if a then map H (filter pc l) else [].
Proof.
  induction l as [|c l IH]; intros HP HG; [now destruct a|].
  cbn [map filter]. rewrite (HP c) by (left; reflexivity).
  rewrite IH;
    [| intros c' Hc'; apply HP; right; assumption
     | intros c' Hc'; apply HG; right; assumption].
  destruct a; [|reflexivity]. cbn [andb].
  destruct (pc c) eqn:E; [|reflexivity].
  cbn [map]. rewrite (HG c) by auto using in_eq. reflexivity.
Qed.

Lemma filter_flat_map_tested {A B : Type} (P : B -> bool) (G H : A -> A -> B)
  (pr pc : A -> bool) (l1 l2 : list A) :
  (forall r c, In r l1 -> In c l2 -> P (G r c) = pr r && pc c) ->
  (forall r c, In r l1 -> In c l2 -> pr r = true -> pc c = true -> G r c = H r c) ->
  filter P (flat_map (fun r => map (G r) l2) l1)
  = flat_map (fun r => map (H r) (filter pc l2)) (filter pr l1).
Proof.
  induction l1 as [|r l1 IH]; intros HP HG; [reflexivity|].
  cbn [flat_map filter]. rewrite filter_app.
  rewrite IH;
    [| intros r' c' Hr' Hc'; apply HP; [right|]; assumption
     | intros r' c' Hr' Hc'; apply HG; [right|]; assumption].
  rewrite (filter_map_tested P (G r) (H r) pc (pr r) l2).
  - destruct (pr r); reflexivity.
  - intros c Hc. apply HP; [left; reflexivity | assumption].
  - intros c Hc. apply HG; [left; reflexivity | assumption].
Qed.

Lemma filter_seq_lt (a n : nat) :
  filter (fun i => (i <? a)%nat) (seq 0 n) = seq 0 (Nat.min a n).
Proof.
  induction n as [|n IH]; [now rewrite Nat.min_0_r|].
  rewrite seq_S, filter_app, IH. cbn [filter Nat.add].
  destruct (Nat.ltb_spec n a) as [H|H].
  - replace (Nat.min a n) with n by lia.
    replace (Nat.min a (S n)) with (S n) by lia. now rewrite seq_S.
  - replace (Nat.min a (S n)) with (Nat.min a n) by lia. apply app_nil_r.
Qed.

Lemma filter_seq_ge (a n : nat) :
  filter (fun i => (a <=? i)%nat) (seq 0 n) = seq a (n - a).
Proof.
  induction n as [|n IH]; [reflexivity|].
  rewrite seq_S, filter_app, IH. cbn [filter Nat.add].
  destruct (Nat.leb_spec a n) as [H|H].
  - replace (S n - a)%nat with (S (n - a)) by lia. rewrite seq_S.
    replace (a + (n - a))%nat with n by lia. reflexivity.
  - replace (S n - a)%nat with 0%nat by lia.
    replace (n - a)%nat with 0%nat by lia. reflexivity.
Qed.

Lemma seq_from (a n : nat) : seq a n = map (fun i => (a + i)%nat) (seq 0 n).
Proof.
  induction a as [|a IH]; [symmetry; apply map_id|].
  rewrite <- seq_shift, IH, map_map. reflexivity.
Qed.

Lemma upto_at_most (m0 a : Z) :
  a < m0 -> filter (fun x => x <=? a) (upto m0) = range (a + 1).
Proof.
  intros Ha. unfold upto, range. rewrite filter_map_comm.
  rewrite (filter_ext _ (fun i => (i <? Z.to_nat (a + 1))%nat)).
  - rewrite filter_seq_lt. f_equal. f_equal. lia.
  - intros i. destruct (Z.leb_spec (Z.of_nat i) a), (Nat.ltb_spec i (Z.to_nat (a + 1)));
      try reflexivity; lia.
Qed.

Lemma upto_at_least (m0 a : Z) :
  0 <= a -> filter (fun x => a <=? x) (upto m0) = range_from a m0.
Proof.
  intros Ha. unfold upto, range_from. rewrite filter_map_comm.
  rewrite (filter_ext _ (fun i => (Z.to_nat a <=? i)%nat)).
  - rewrite filter_seq_ge, seq_from, map_map.
    replace (Z.to_nat m0 - Z.to_nat a)%nat with (Z.to_nat (m0 - a)) by lia.
    apply map_ext. intros i. lia.
  - intros i. destruct (Z.leb_spec a (Z.of_nat i)), (Nat.leb_spec (Z.to_nat a) i);
      try reflexivity; lia.
Qed.

Lemma length_diagonal (b : list (list cell)) (m0 r c : Z) :
  Z.of_nat (length (diagonal b m0 r c)) = Z.max 0 (m0 - Z.max r c).
Proof. unfold diagonal. rewrite length_map, length_range. lia. Qed.

Lemma length_anti_diagonal (b : list (list cell)) (m0 r c : Z) :
  Z.of_nat (length (anti_diagonal b m0 r c)) = Z.max 0 (Z.min (m0 - r) (c + 1)).
Proof. unfold anti_diagonal. rewrite length_map, length_range. lia. Qed.

Lemma specified_diagonals_scanned (b : list (list cell)) (m0 k0 : Z) :
  1 <= k0 -> specified_diagonals b m0 k0 = diagonals b m0 k0.
Proof.
  intros Hk. unfold specified_diagonals, anchored_segments, diagonals.
  rewrite (filter_flat_map_tested _ _ (diagonal b m0)
             (fun r => r <=? m0 - k0) (fun c => c <=? m0 - k0)).
  - rewrite (upto_at_most m0 (m0 - k0)) by lia.
    replace (m0 - k0 + 1) with (m0 - k0 + 1) by lia. reflexivity.
  - intros r c Hr Hc. apply in_upto in Hr, Hc.
    rewrite diagonal_segment, length_diagonal by assumption.
    destruct (Z.leb_spec k0 (Z.max 0 (m0 - Z.max r c))),
      (Z.leb_spec r (m0 - k0)), (Z.leb_spec c (m0 - k0)); try reflexivity; lia.
  - intros r c Hr Hc _ _. apply in_upto in Hr, Hc. now apply diagonal_segment.
Qed.

Lemma specified_anti_diagonals_scanned (b : list (list cell)) (m0 k0 : Z) :
  1 <= k0 -> specified_anti_diagonals b m0 k0 = anti_diagonals b m0 k0.
Proof.
  intros Hk. unfold specified_anti_diagonals, anchored_segments, anti_diagonals.
  rewrite (filter_flat_map_tested _ _ (anti_diagonal b m0)
             (fun r => r <=? m0 - k0) (fun c => k0 - 1 <=? c)).
  - rewrite (upto_at_most m0 (m0 - k0)) by lia.
    rewrite (upto_at_least m0 (k0 - 1)) by lia. reflexivity.
  - intros r c Hr Hc. apply in_upto in Hr, Hc.
    rewrite anti_diagonal_segment, length_anti_diagonal by assumption.
    destruct (Z.leb_spec k0 (Z.max 0 (Z.min (m0 - r) (c + 1)))),
      (Z.leb_spec r (m0 - k0)), (Z.leb_spec (k0 - 1) c); try reflexivity; lia.
  - intros r c Hr Hc _ _. apply in_upto in Hr, Hc. now apply anti_diagonal_segment.
Qed.

Lemma specified_center_term_scanned (s : State) :
  0 <= m s -> specified_center_term (board s) (m s) = center_bonus s.
Proof.
  intros Hm. unfold specified_center_term, center_bonus.
  assert (0 <= m s / 2) by (apply Z.div_pos; lia).
  now rewrite mark_at_cell_at.
Qed.

Lemma specified_evaluation_scanned (s : State) :
  wf_board s -> 0 <= k s -> (specified_evaluation s == scanned_score s)%Q.
Proof.
  intros Hwf Hk. unfold specified_evaluation, scanned_score. cbv zeta.
  rewrite !specified_family_score_scanned.
  rewrite specified_center_term_scanned by apply Hwf.
  destruct (Z.eq_dec (k s) 0) as [E|E].
  - rewrite E. change (Z.to_nat 0) with 0%nat.
    rewrite !family_score_no_cells. reflexivity.
  - rewrite specified_rows_scanned, specified_columns_scanned by assumption.
    rewrite specified_diagonals_scanned, specified_anti_diagonals_scanned by lia.
    reflexivity.
Qed.

(** C9: at a terminal state [evaluate] is the integer utility, 1, -1 or 0;
    at any other state it is the sum, over the rows, the columns and the
    diagonal and anti-diagonal segments anchored at every cell from which
    at least [k] cells remain to the edge, of the scores of all windows of
    exactly [k] cells -- the square of the X count for a window with X
    marks only, minus the square of the O count for a window with O marks
    only, nothing for any other -- plus one half when the cell at
    (m / 2, m / 2) holds X, minus one half when it holds O.  The segments
    of one diagonal overlap, and a window counts once in each segment that
    contains it. *)
Theorem evaluate_meets_specification (s : State) :
  wf_state s -> 0 <= k s ->
  (terminal s = true ->
     exists u, utility s = Some u /\ (u = 1 \/ u = -1 \/ u = 0) /\
               evaluate s = inject_Z u) /\
  (terminal s = false -> (evaluate s == specified_evaluation s)%Q).
Proof.
  intros [Hwf _] Hk. split; intros Hterm.
  - unfold evaluate. rewrite Hterm.
    rewrite terminal_utility by assumption. eexists. split; [reflexivity|].
    split; [|reflexivity]. destruct (winner s) as [[|]|]; auto.
  - rewrite (evaluate_scanned s Hwf Hk Hterm).
    symmetry. now apply specified_evaluation_scanned.
Qed.

(** On the 4 x 4 board with a win length of 3 the main diagonal is walked
    from (0,0) and again from (1,1): the single X at (2,2) lies in two
    windows of that diagonal, and the window (1,1), (2,2), (3,3) counts in
    both segments, so the diagonals add 3. *)
Example inner_windows_count_in_every_segment :
  specified_family_score 3 (specified_diagonals (board inner_mark) 4 3) = 3 /\
  (evaluate inner_mark == 17 # 2)%Q.
Proof. repeat split; vm_compute; reflexivity. Qed.

(** ** [order_moves]: permutation and order *)


Lemma move_priority_raises (s : State) (mv : Move) (e : error) :
  result s mv = Raise e -> move_priority s mv = Raise e.
Proof.
  intros H. unfold move_priority. destruct mv as [r c]. now rewrite H.
Qed.


(** ** The properties at concrete positions *)

Ltac solve_wf_board :=
  unfold wf_board; simpl; repeat split; try lia; repeat constructor.

Ltac solve_wf_state :=
  split; [solve_wf_board | vm_compute; reflexivity].

Lemma minimax_ab_equals_minimax_witness :
  wf_board midgame /\
  ((forall use_ordering, exists v mv mv',
      minimax midgame = Ok (v, mv) /\
      minimax_ab midgame NegInf PosInf use_ordering = Ok (v, mv')) /\
   minimax_ab midgame NegInf PosInf false = minimax midgame /\
   (exists v mv1 mv2,
      minimax_ab midgame NegInf PosInf true = Ok (v, mv1) /\
      minimax_ab midgame NegInf PosInf false = Ok (v, mv2))).
Proof.
  split; [solve_wf_board | apply (minimax_ab_equals_minimax midgame); solve_wf_board].
Defined.

Lemma best_move_present_on_nonterminal_witness :
  wf_state midgame /\ terminal midgame = false /\
  ((exists v a, minimax midgame = Ok (v, Some a)) /\
   (forall alpha beta use_ordering,
      exists v a, minimax_ab midgame alpha beta use_ordering = Ok (v, Some a)) /\
   (forall depth eval_fn alpha beta, depth <> 0 ->
      exists v a, search midgame depth eval_fn alpha beta = Ok (v, Some a))).
Proof.
  split; [solve_wf_state|]. split; [reflexivity|].
  apply (best_move_present_on_nonterminal midgame); [solve_wf_state | reflexivity].
Defined.

(** At depth zero the depth-limited search returns no move although the
    state is not terminal. *)
Lemma search_depth_zero_returns_no_move :
  wf_state (initial_state 3 3) /\
  terminal (initial_state 3 3) = false /\
  exists v, search (initial_state 3 3) 0 evaluate NegInf PosInf = Ok (v, None).
Proof.
  split; [apply initial_state_wf; lia|]. split; [reflexivity|].
  eexists. vm_compute. reflexivity.
Qed.

Lemma alpha_beta_visits_no_more_witness :
  wf_board midgame /\
  exists r_mm m_mm r_ab m_ab,
    minimax midgame = Ok r_mm /\
    minimax_instrumented midgame 0 new_metrics = Ok (r_mm, m_mm) /\
    minimax_ab midgame NegInf PosInf true = Ok r_ab /\
    minimax_ab_instrumented midgame NegInf PosInf 0 new_metrics true = Ok (r_ab, m_ab) /\
    1 <= nodes_explored m_ab <= nodes_explored m_mm.
Proof.
  split; [solve_wf_board | apply (alpha_beta_visits_no_more midgame true); solve_wf_board].
Defined.

(** With heuristic ordering alpha-beta visits 24 states of [midgame],
    without it 19. *)
Lemma ordering_can_visit_more :
  wf_state midgame /\
  visited_minimax_ab midgame true = 24 /\
  visited_minimax_ab midgame false = 19 /\
  ~ visited_minimax_ab midgame true <= visited_minimax_ab midgame false.
Proof.
  split; [solve_wf_state|].
  assert (H1 : visited_minimax_ab midgame true = 24) by (vm_compute; reflexivity).
  assert (H2 : visited_minimax_ab midgame false = 19) by (vm_compute; reflexivity).
  rewrite H1, H2. repeat split. lia.
Qed.

Lemma search_terminal_and_depth_zero_witness :
  terminal row_win = true /\ terminal midgame = false /\
  search row_win 3 evaluate NegInf PosInf = Ok (Fin 1000%Q, None) /\
  search midgame 0 evaluate NegInf PosInf = Ok (Fin (evaluate midgame), None).
Proof.
  split; [reflexivity|]. split; [reflexivity|]. split.
  - apply (search_terminal_and_depth_zero row_win 3 evaluate NegInf PosInf).
    reflexivity.
  - apply (search_terminal_and_depth_zero midgame 0 evaluate NegInf PosInf).
    reflexivity.
Defined.

Lemma minimax_first_optimal_move_witness :
  wf_state midgame /\ terminal midgame = false /\
  (StronglySorted Move_lt (sorted (actions midgame)) /\
   Permutation (sorted (actions midgame)) (actions midgame) /\
   exists v mv,
     minimax midgame = Ok (v, Some mv) /\
     In mv (actions midgame) /\
     child_value midgame mv = Ok v /\
     forall a, In a (actions midgame) ->
       exists va, child_value midgame a = Ok va /\
         (match player midgame with
          | X => zle va v
          | O => zle v va
          end = true) /\
         (va = v -> a = mv \/ Move_lt mv a)).
Proof.
  split; [solve_wf_state|]. split; [reflexivity|].
  apply (minimax_first_optimal_move midgame); [solve_wf_state | reflexivity].
Defined.

Lemma result_sets_one_cell_of_a_copy_witness :
  denote small_store 3%nat = Some (initial_state 2 2) /\
  distinct_rows small_store 3%nat /\
  exists h' out,
    result_store 3%nat (0, 1) small_store = (h', out) /\
    out = Ok 7%nat /\
    denote h' 7%nat
    = Some {| board := [[None; Some X]; [None; None]]; m := 2; k := 2; moves := 1 |} /\
    denote h' 3%nat = Some (initial_state 2 2).
Proof.
  assert (Hd : denote small_store 3%nat = Some (initial_state 2 2)) by reflexivity.
  assert (Hn : distinct_rows small_store 3%nat).
  { simpl. repeat constructor; simpl; intuition lia. }
  split; [exact Hd|]. split; [exact Hn|].
  destruct (result_sets_one_cell_of_a_copy small_store 3%nat (initial_state 2 2) (0, 1) Hd Hn)
    as (h' & out & Hrun & Hres & _ & _ & _ & Hold & _).
  exists h', out. split; [exact Hrun|].
  vm_compute in Hrun. injection Hrun as <- <-.
  repeat split; reflexivity.
Defined.

Lemma winner_reports_a_run_witness :
  wf_board row_win /\ 2 <= k row_win /\
  winner row_win = Some X /\ has_run row_win X.
Proof.
  assert (Hwf : wf_board row_win) by solve_wf_board.
  assert (Hk : 2 <= k row_win) by (simpl; lia).
  split; [exact Hwf|]. split; [exact Hk|]. split; [reflexivity|].
  apply (winner_reports_a_run row_win Hwf Hk). reflexivity.
Defined.

(** Both players own a row of [two_rows]; [winner] reports X, the first
    found, and not O. *)
Lemma winner_reports_one_of_two_owners :
  wf_state two_rows /\ 2 <= k two_rows /\
  has_run two_rows O /\ has_run two_rows X /\
  winner two_rows = Some X /\ winner two_rows <> Some O.
Proof.
  split; [solve_wf_state|]. split; [simpl; lia|].
  assert (Hrun : forall p r, cell_at (board two_rows) r 0 = Some p ->
            cell_at (board two_rows) r 1 = Some p ->
            cell_at (board two_rows) r 2 = Some p ->
            0 <= r < 3 -> has_run two_rows p).
  { intros p r H0 H1 H2 Hr. exists r, 0, 0, 1. split; [simpl; auto|].
    intros i Hi. simpl in Hi.
    assert (Hc : i = 0 \/ i = 1 \/ i = 2) by lia.
    replace (r + i * 0) with r by lia.
    destruct Hc as [-> | [-> | ->]]; simpl; auto with zarith. }
  split; [apply (Hrun O 1); try reflexivity; lia|].
  split; [apply (Hrun X 0); try reflexivity; lia|].
  split; [reflexivity | discriminate].
Qed.

Lemma evaluate_meets_specification_witness :
  wf_state midgame /\ 0 <= k midgame /\ terminal midgame = false /\
  (evaluate midgame == specified_evaluation midgame)%Q.
Proof.
  assert (Hwf : wf_state midgame) by solve_wf_state.
  assert (Hk : 0 <= k midgame) by (simpl; lia).
  split; [exact Hwf|]. split; [exact Hk|]. split; [reflexivity|].
  apply (evaluate_meets_specification midgame Hwf Hk). reflexivity.
Defined.



(** C2, where the code departs from it: both (0,0) and (0,2) are legal on
    the empty 3 x 3 board and tie on evaluation, distance to the centre and
    row; the specified key puts (0,0) before (0,2) by its column, but the
    key of [order_moves] ends at the row, so the two keep their input
    order. *)
Theorem order_moves_ignores_the_column :
  legal_moves (initial_state 3 3) [(0, 2); (0, 0)] /\
  order_moves (initial_state 3 3) [(0, 2); (0, 0)] true = Ok [(0, 2); (0, 0)] /\
  ~ specified_order (initial_state 3 3) (0, 2) (0, 0) /\
  specified_order (initial_state 3 3) (0, 0) (0, 2).
Proof.
  split; [intros mv [<-|[<-|[]]]; reflexivity|].
  split; [vm_compute; reflexivity|]. split.
  - intros (ka & kb & Ha & Hb & Hlt).
    vm_compute in Ha, Hb. injection Ha as <-. injection Hb as <-.
    vm_compute in Hlt. discriminate.
  - eexists _, _. split; [vm_compute; reflexivity|].
    split; [vm_compute; reflexivity|]. vm_compute. reflexivity.
Qed.

(** * Further properties of the code *)

(** ** The move alpha-beta returns *)

(** With the full window the pruning loops of [minimax_ab] are the loops of
    plain minimax over the ordered moves. *)
Lemma minimax_ab_as_plain_loop (s : State) (uo : bool) (l : list Move) :
  wf_board s -> terminal s = false -> ordered_moves s uo = Ok l ->
  minimax_ab s NegInf PosInf uo =
  match player s with
  | X => max_loop minimax s l NegInf None
  | O => min_loop minimax s l PosInf None
  end.
Proof.
  intros Hwf Hterm Hl. rewrite minimax_ab_unfold, Hterm, Hl by assumption.
  cbn [bind].
  pose proof (ordered_moves_perm s uo l Hl) as Hperm.
  assert (Hab : ab_children_ok (fun s a b => minimax_ab s a b uo) s (cvalue s) l).
  { intros a Ha. apply (Permutation_in _ Hperm) in Ha.
    pose proof (result_legal s a Hwf Ha) as Hres.
    eexists. split; [exact Hres|].
    intros al be Hlt. unfold cvalue. rewrite Hres.
    apply minimax_ab_sound; [now apply place_wf_board | assumption]. }
  assert (Hok : children_ok minimax s (cvalue s) l).
  { intros a Ha. apply (children_ok_minimax s Hwf).
    now apply (Permutation_in _ Hperm). }
  destruct (player s).
  - now apply (ab_max_loop_full_window _ minimax s (cvalue s)).
  - now apply (ab_min_loop_full_window _ minimax s (cvalue s)).
Qed.

Lemma cvalue_finite (s : State) (a : Move) :
  wf_state s -> In a (actions s) -> exists u, cvalue s a = Fin u /\ -1 <= u <= 1.
Proof.
  intros Hs Ha. pose proof Hs as [Hwf _].
  pose proof (result_legal s a Hwf Ha) as Hres.
  destruct (minimax_finite _ (result_wf_state s _ a Hs Ha Hres)) as (u & mv & Hmm & Hu & _).
  exists u. split; [|assumption]. unfold cvalue. rewrite Hres.
  now apply (minimax_value _ _ mv).
Qed.

Lemma value_finite (s : State) :
  wf_state s -> exists u, value s = Fin u /\ -1 <= u <= 1.
Proof.
  intros Hs. destruct (minimax_finite s Hs) as (u & mv & Hmm & Hu & _).
  exists u. split; [now apply (minimax_value _ _ mv) | assumption].
Qed.

(** The move of [minimax_ab], called as the agents call it: legal, the first
    of the ordered moves that attains the minimax value, and no move of the
    state does better for the player to move. *)
Lemma minimax_ab_best_move (s : State) (uo : bool) :
  wf_state s -> terminal s = false ->
  exists l u a l1 l2,
    ordered_moves s uo = Ok l /\ Permutation l (actions s) /\
    minimax_ab s NegInf PosInf uo = Ok (Fin u, Some a) /\
    l = l1 ++ a :: l2 /\ In a (actions s) /\
    value s = Fin u /\ cvalue s a = Fin u /\
    (forall x, In x l1 -> cvalue s x <> Fin u) /\
    (forall x, In x (actions s) ->
       match player s with
       | X => zle (cvalue s x) (Fin u)
       | O => zle (Fin u) (cvalue s x)
       end = true).
Proof.
  intros Hs Hterm. pose proof Hs as [Hwf _].
  destruct (ordered_moves_ok s uo Hwf) as (l & Hl & Hperm).
  pose proof (nonterminal_has_action s Hs Hterm) as Hne.
  assert (Hok : children_ok minimax s (cvalue s) l).
  { intros a Ha. apply (children_ok_minimax s Hwf).
    now apply (Permutation_in _ Hperm). }
  assert (Hl0 : exists a0, In a0 l).
  { destruct l as [|a0 l0]; [|exists a0; now left].
    apply Permutation_nil in Hperm. congruence. }
  destruct Hl0 as (a0 & Ha0).
  destruct (cvalue_finite s a0 Hs (Permutation_in _ Hperm Ha0)) as (u0 & Hu0 & _).
  destruct (minimax_ab_sound s Hwf NegInf PosInf uo eq_refl) as (v' & mv' & Hab & Hb).
  apply bounded_full_window in Hb.
  rewrite (minimax_ab_as_plain_loop s uo l Hwf Hterm Hl) in Hab |- *.
  destruct (player s) eqn:Hpl.
  - destruct (max_loop_first minimax s (cvalue s) l NegInf None Hok)
      as (v & mv & Hloop & Hcase).
    rewrite Hloop in Hab |- *. injection Hab as <- <-.
    destruct Hcase as [(_ & _ & Hall)|(l1 & a & l2 & Hsplit & -> & -> & _ & H1 & H2)].
    { specialize (Hall a0 Ha0). rewrite Hu0 in Hall. discriminate. }
    assert (Ha : In a (actions s)).
    { apply (Permutation_in _ Hperm). rewrite Hsplit. apply in_elt. }
    destruct (cvalue_finite s a Hs Ha) as (u & Hu & _).
    exists l, u, a, l1, l2. rewrite Hu in *.
    repeat split; auto.
    + intros x Hx E. specialize (H1 x Hx). rewrite E in H1.
      now rewrite zlt_irrefl in H1.
    + intros x Hx. apply (Permutation_in _ (Permutation_sym Hperm)) in Hx.
      rewrite Hsplit in Hx. apply in_app_or in Hx.
      destruct Hx as [Hx | [<- | Hx]].
      * apply zlt_zle. now apply H1.
      * rewrite Hu. apply zle_refl.
      * apply not_zlt_zle. now apply H2.
  - destruct (min_loop_first minimax s (cvalue s) l PosInf None Hok)
      as (v & mv & Hloop & Hcase).
    rewrite Hloop in Hab |- *. injection Hab as <- <-.
    destruct Hcase as [(_ & _ & Hall)|(l1 & a & l2 & Hsplit & -> & -> & _ & H1 & H2)].
    { specialize (Hall a0 Ha0). rewrite Hu0 in Hall. discriminate. }
    assert (Ha : In a (actions s)).
    { apply (Permutation_in _ Hperm). rewrite Hsplit. apply in_elt. }
    destruct (cvalue_finite s a Hs Ha) as (u & Hu & _).
    exists l, u, a, l1, l2. rewrite Hu in *.
    repeat split; auto.
    + intros x Hx E. specialize (H1 x Hx). rewrite E in H1.
      now rewrite zlt_irrefl in H1.
    + intros x Hx. apply (Permutation_in _ (Permutation_sym Hperm)) in Hx.
      rewrite Hsplit in Hx. apply in_app_or in Hx.
      destruct Hx as [Hx | [<- | Hx]].
      * apply zlt_zle. now apply H1.
      * rewrite Hu. apply zle_refl.
      * apply not_zlt_zle. now apply H2.
Qed.

(** ** Games played by [play_game] *)

Lemma value_terminal (s : State) :
  wf_board s -> terminal s = true -> value s = Fin (outcome (winner s)).
Proof.
  intros Hwf Hterm. unfold value. rewrite minimax_unfold, Hterm by assumption.
  rewrite utility_value_terminal by assumption. reflexivity.
Qed.

Lemma initial_state_actions_length (m0 k0 : Z) :
  0 <= m0 -> length (actions (initial_state m0 k0)) = Z.to_nat (m0 ^ 2).
Proof.
  intros Hm. destruct (initial_state_wf m0 k0 Hm) as [_ Hmoves].
  pose proof (actions_occupied_total (initial_state m0 k0)) as Htot.
  simpl in Hmoves, Htot.
  assert (Hocc : length (occupied (initial_state m0 k0)) = 0%nat) by lia.
  rewrite Hocc in Htot. nia.
Qed.

Section PlayGameFacts.
Context {V1 V2 : Type}.
Variable get_human_move : State -> res Move.
Variable agent1_fn : State -> res (SearchResult V1).
Variable agent2_fn : option (State -> res (SearchResult V2)).

Lemma play_loop_step (fuel : nat) (s s' : State) (a : Move) :
  terminal s = false -> chooses get_human_move agent1_fn agent2_fn s a ->
  result s a = Ok s' ->
  play_loop get_human_move agent1_fn agent2_fn (S fuel) s
  = play_loop get_human_move agent1_fn agent2_fn fuel s'.
Proof.
  intros Hterm Hch Hres. cbn [play_loop]. rewrite Hterm. cbn [negb].
  unfold chooses in Hch. destruct (player s).
  - destruct Hch as [v ->]. cbn [bind unpack_action]. now rewrite Hres.
  - destruct agent2_fn as [agent|].
    + destruct Hch as [v ->]. cbn [bind unpack_action]. now rewrite Hres.
    + rewrite Hch. cbn [bind unpack_action]. now rewrite Hres.
Qed.

(** A game in which every move made is legal and keeps [R] between the
    value of the state and the value of its successor ends at a terminal
    state whose outcome is in [R] with the value of the start. *)
Lemma play_loop_invariant (R : ext Z -> ext Z -> Prop) :
  (forall x, R x x) -> (forall x y z, R x y -> R y z -> R x z) ->
  (forall s, wf_state s -> terminal s = false ->
     exists a, chooses get_human_move agent1_fn agent2_fn s a /\
               In a (actions s) /\ R (value s) (cvalue s a)) ->
  forall s, wf_state s ->
  forall fuel, (length (actions s) < fuel)%nat ->
    exists final,
      play_loop get_human_move agent1_fn agent2_fn fuel s = Ok final /\
      wf_state final /\ terminal final = true /\
      m final = m s /\ k final = k s /\
      R (value s) (Fin (outcome (winner final))).
Proof.
  intros Hrefl Htrans Hmove s Hs. revert s Hs.
  apply (game_induction_state (fun s =>
    forall fuel, (length (actions s) < fuel)%nat ->
      exists final,
        play_loop get_human_move agent1_fn agent2_fn fuel s = Ok final /\
        wf_state final /\ terminal final = true /\
        m final = m s /\ k final = k s /\
        R (value s) (Fin (outcome (winner final))))).
  intros s Hs IH fuel Hfuel. pose proof Hs as [Hwf _].
  destruct fuel as [|fuel]; [lia|].
  destruct (terminal s) eqn:Hterm.
  - exists s. cbn [play_loop]. rewrite Hterm. cbn [negb].
    split; [reflexivity|]. split; [assumption|]. split; [reflexivity|].
    split; [reflexivity|]. split; [reflexivity|].
    rewrite (value_terminal s Hwf Hterm). apply Hrefl.
  - destruct (Hmove s Hs Hterm) as (a & Hch & Ha & HR).
    pose proof (result_legal s a Hwf Ha) as Hres.
    rewrite (play_loop_step fuel s _ a Hterm Hch Hres).
    pose proof (length_actions_result s _ a Hwf Ha Hres) as Hlen.
    destruct (IH a _ Ha Hres fuel) as (final & Hplay & Hwff & Htf & Hm & Hk & HRf);
      [lia|].
    exists final. split; [assumption|]. split; [assumption|].
    split; [assumption|].
    apply result_ok_inv in Hres as Hinv. destruct Hinv as (r & c & _ & _ & Hplace).
    split; [rewrite Hm, Hplace; reflexivity|].
    split; [rewrite Hk, Hplace; reflexivity|].
    apply (Htrans _ (cvalue s a)); [assumption|].
    unfold cvalue. rewrite Hres. exact HRf.
Qed.

Lemma play_game_from_loop (m0 k0 : Z) (final : State) :
  play_loop get_human_move agent1_fn agent2_fn (S (Z.to_nat (m0 ^ 2)))
    (initial_state m0 k0) = Ok final ->
  play_game get_human_move agent1_fn agent2_fn m0 k0 = Ok (winner final).
Proof. intros H. unfold play_game. now rewrite H. Qed.

Lemma chooses_legal (s : State) :
  plays_legally agent1_fn X -> replies_legally get_human_move agent2_fn ->
  wf_state s -> terminal s = false ->
  exists a, chooses get_human_move agent1_fn agent2_fn s a /\ In a (actions s).
Proof.
  intros H1 H2 Hs Hterm. unfold chooses, replies_legally in *.
  destruct (player s) eqn:Hpl.
  - destruct (H1 s Hs Hterm Hpl) as (v & a & Hag & Ha). eauto.
  - destruct agent2_fn as [agent|].
    + destruct (H2 s Hs Hterm Hpl) as (v & a & Hag & Ha). eauto.
    + destruct (H2 s Hs Hterm Hpl) as (a & Hag & Ha). eauto.
Qed.
End PlayGameFacts.

Lemma plays_optimally_legally {V : Type} (agent : State -> res (SearchResult V))
  (p : Player) :
  plays_optimally agent p -> plays_legally agent p.
Proof.
  intros H s Hs Hterm Hpl. destruct (H s Hs Hterm Hpl) as (v & a & Hag & Ha & _).
  eauto.
Qed.

Lemma minimax_ab_plays_optimally (uo : bool) (p : Player) :
  plays_optimally (fun state => minimax_ab state NegInf PosInf uo) p.
Proof.
  intros s Hs Hterm _.
  destruct (minimax_ab_best_move s uo Hs Hterm)
    as (l & u & a & l1 & l2 & _ & _ & Hab & _ & Ha & Hv & Hc & _).
  exists (Fin u), a. rewrite Hv, Hc. auto.
Qed.

Lemma minimax_plays_optimally (p : Player) : plays_optimally minimax p.
Proof.
  intros s Hs Hterm Hpl. pose proof Hs as [Hwf _].
  rewrite <- (minimax_ab_unordered_eq s Hwf).
  now apply (minimax_ab_plays_optimally false p).
Qed.

Lemma value_le_child (s : State) (a : Move) :
  wf_board s -> terminal s = false -> player s = O -> In a (actions s) ->
  zle (value s) (cvalue s a) = true.
Proof.
  intros Hwf Hterm Hpl Ha.
  rewrite (value_unfold_min s (actions s) Hwf Hterm Hpl (Permutation_refl _)).
  now apply pmin_lower.
Qed.

Lemma child_le_value (s : State) (a : Move) :
  wf_board s -> terminal s = false -> player s = X -> In a (actions s) ->
  zle (cvalue s a) (value s) = true.
Proof.
  intros Hwf Hterm Hpl Ha.
  rewrite (value_unfold_max s (actions s) Hwf Hterm Hpl (Permutation_refl _)).
  now apply pmax_upper.
Qed.

Lemma wf_state_moves_bound (s : State) : wf_state s -> 0 <= moves s <= m s ^ 2.
Proof.
  intros [[Hm _] Hmoves]. pose proof (actions_occupied_total s) as Htot.
  rewrite Hmoves. nia.
Qed.

Lemma play_game_legal {V1 V2 : Type}
  (get_human_move : State -> res Move)
  (agent1_fn : State -> res (SearchResult V1))
  (agent2_fn : option (State -> res (SearchResult V2))) (m0 k0 : Z) :
  0 <= m0 ->
  plays_legally agent1_fn X -> replies_legally get_human_move agent2_fn ->
  exists final,
    play_game get_human_move agent1_fn agent2_fn m0 k0 = Ok (winner final) /\
    wf_state final /\ terminal final = true /\
    m final = m0 /\ k final = k0 /\ 0 <= moves final <= m0 ^ 2.
Proof.
  intros Hm H1 H2.
  destruct (play_loop_invariant get_human_move agent1_fn agent2_fn (fun _ _ => True))
    with (s := initial_state m0 k0) (fuel := S (Z.to_nat (m0 ^ 2)))
    as (final & Hplay & Hwf & Hterm & Hmf & Hkf & _); auto.
  - intros s Hs Hterm.
    destruct (chooses_legal get_human_move agent1_fn agent2_fn s H1 H2 Hs Hterm)
      as (a & Hch & Ha).
    eauto.
  - now apply initial_state_wf.
  - rewrite initial_state_actions_length by assumption. lia.
  - exists final. split; [now apply play_game_from_loop|].
    simpl in Hmf, Hkf. repeat (split; [assumption|]).
    pose proof (wf_state_moves_bound final Hwf). rewrite Hmf in *. assumption.
Qed.

(** X21: [play_game], legal players: the game ends, at a terminal state of the
    same board size and win length, after at most m * m moves, and the
    winner of that state is returned. *)
Theorem play_game_ends_at_a_terminal_state {V1 V2 : Type}
  (get_human_move : State -> res Move)
  (agent1_fn : State -> res (SearchResult V1))
  (agent2_fn : option (State -> res (SearchResult V2))) (m0 k0 : Z) :
  0 <= m0 ->
  plays_legally agent1_fn X -> replies_legally get_human_move agent2_fn ->
  exists final,
    play_game get_human_move agent1_fn agent2_fn m0 k0 = Ok (winner final) /\
    wf_state final /\ terminal final = true /\
    m final = m0 /\ k final = k0 /\ 0 <= moves final <= m0 ^ 2.
Proof. apply play_game_legal. Qed.

Lemma play_game_first_optimal {V2 : Type}
  (get_human_move : State -> res Move)
  (agent2_fn : option (State -> res (SearchResult V2))) (m0 k0 : Z) :
  0 <= m0 -> replies_legally get_human_move agent2_fn ->
  exists u w,
    value (initial_state m0 k0) = Fin u /\
    play_game get_human_move (fun state => minimax_ab state NegInf PosInf true)
      agent2_fn m0 k0 = Ok w /\
    u <= outcome w.
Proof.
  intros Hm H2.
  set (agent1 := fun state => minimax_ab state NegInf PosInf true).
  destruct (play_loop_invariant get_human_move agent1 agent2_fn
              (fun x y => zle x y = true))
    with (s := initial_state m0 k0) (fuel := S (Z.to_nat (m0 ^ 2)))
    as (final & Hplay & Hwf & Hterm & _ & _ & HR).
  - apply zle_refl.
  - intros x y z Hxy Hyz. ext_order.
  - intros s Hs Hterm. pose proof Hs as [Hwf _].
    destruct (player s) eqn:Hpl.
    + destruct (minimax_ab_plays_optimally true X s Hs Hterm Hpl)
        as (v & a & Hag & Ha & Hc).
      exists a. split; [unfold chooses; rewrite Hpl; eauto|].
      split; [assumption|]. rewrite Hc. apply zle_refl.
    + destruct (chooses_legal get_human_move agent1 agent2_fn s
                  (plays_optimally_legally _ _ (minimax_ab_plays_optimally true X))
                  H2 Hs Hterm) as (a & Hch & Ha).
      exists a. split; [assumption|]. split; [assumption|].
      now apply value_le_child.
  - now apply initial_state_wf.
  - rewrite initial_state_actions_length by assumption. lia.
  - destruct (value_finite _ (initial_state_wf m0 k0 Hm)) as (u & Hu & _).
    exists u, (winner final). split; [assumption|].
    split; [now apply play_game_from_loop|].
    rewrite Hu in HR. simpl in HR. now apply Z.leb_le.
Qed.

(** X22: [play_game] with [minimax_ab] moving first, as [main.py] starts the game
    against the human: whatever legal moves the second player makes, X
    ends no worse than the minimax value of the empty board. *)
Theorem minimax_ab_first_player_gets_the_value {V2 : Type}
  (get_human_move : State -> res Move)
  (agent2_fn : option (State -> res (SearchResult V2))) (m0 k0 : Z) :
  0 <= m0 -> replies_legally get_human_move agent2_fn ->
  exists u w,
    value (initial_state m0 k0) = Fin u /\
    play_game get_human_move (fun state => minimax_ab state NegInf PosInf true)
      agent2_fn m0 k0 = Ok w /\
    u <= outcome w.
Proof. apply play_game_first_optimal. Qed.

Lemma play_game_second_optimal {V1 : Type}
  (get_human_move : State -> res Move)
  (agent1_fn : State -> res (SearchResult V1)) (m0 k0 : Z) :
  0 <= m0 -> plays_legally agent1_fn X ->
  exists u w,
    value (initial_state m0 k0) = Fin u /\
    play_game get_human_move agent1_fn
      (Some (fun state => minimax_ab state NegInf PosInf true)) m0 k0 = Ok w /\
    outcome w <= u.
Proof.
  intros Hm H1.
  set (agent2 := fun state => minimax_ab state NegInf PosInf true).
  destruct (play_loop_invariant get_human_move agent1_fn (Some agent2)
              (fun x y => zle y x = true))
    with (s := initial_state m0 k0) (fuel := S (Z.to_nat (m0 ^ 2)))
    as (final & Hplay & Hwf & Hterm & _ & _ & HR).
  - apply zle_refl.
  - intros x y z Hxy Hyz. ext_order.
  - intros s Hs Hterm. pose proof Hs as [Hwf _].
    destruct (player s) eqn:Hpl.
    + destruct (H1 s Hs Hterm Hpl) as (v & a & Hag & Ha).
      exists a. split; [unfold chooses; rewrite Hpl; eauto|].
      split; [assumption|]. now apply child_le_value.
    + destruct (minimax_ab_plays_optimally true O s Hs Hterm Hpl)
        as (v & a & Hag & Ha & Hc).
      exists a. split; [unfold chooses; rewrite Hpl; eauto|].
      split; [assumption|]. rewrite Hc. apply zle_refl.
  - now apply initial_state_wf.
  - rewrite initial_state_actions_length by assumption. lia.
  - destruct (value_finite _ (initial_state_wf m0 k0 Hm)) as (u & Hu & _).
    exists u, (winner final). split; [assumption|].
    split; [now apply play_game_from_loop|].
    rewrite Hu in HR. simpl in HR. now apply Z.leb_le.
Qed.

(** X23: [play_game] with [minimax_ab] moving second: whatever legal moves the
    first player makes, the outcome is no better for X than the minimax
    value of the empty board. *)
Theorem minimax_ab_second_player_holds_the_value {V1 : Type}
  (get_human_move : State -> res Move)
  (agent1_fn : State -> res (SearchResult V1)) (m0 k0 : Z) :
  0 <= m0 -> plays_legally agent1_fn X ->
  exists u w,
    value (initial_state m0 k0) = Fin u /\
    play_game get_human_move agent1_fn
      (Some (fun state => minimax_ab state NegInf PosInf true)) m0 k0 = Ok w /\
    outcome w <= u.
Proof. apply play_game_second_optimal. Qed.

Lemma play_game_self_play
  (get_human_move : State -> res Move) (m0 k0 : Z) :
  0 <= m0 ->
  exists u w,
    value (initial_state m0 k0) = Fin u /\
    play_game get_human_move (fun state => minimax_ab state NegInf PosInf true)
      (Some (fun state => minimax_ab state NegInf PosInf true)) m0 k0 = Ok w /\
    outcome w = u.
Proof.
  intros Hm.
  set (agent := fun state => minimax_ab state NegInf PosInf true).
  destruct (play_loop_invariant get_human_move agent (Some agent) eq)
    with (s := initial_state m0 k0) (fuel := S (Z.to_nat (m0 ^ 2)))
    as (final & Hplay & Hwf & Hterm & _ & _ & HR).
  - reflexivity.
  - intros x y z -> ->. reflexivity.
  - intros s Hs Hterm.
    destruct (minimax_ab_plays_optimally true (player s) s Hs Hterm eq_refl)
      as (v & a & Hag & Ha & Hc).
    exists a. split; [unfold chooses; destruct (player s); eauto|]. auto.
  - now apply initial_state_wf.
  - rewrite initial_state_actions_length by assumption. lia.
  - exists (outcome (winner final)), (winner final).
    split; [assumption|]. split; [now apply play_game_from_loop | reflexivity].
Qed.

(** X24: [play_game] between two [minimax_ab] agents, as [main.py] and
    [tests.py] start it on the 3 x 3 board: the game ends with the minimax
    value of the empty board as its outcome. *)
Theorem minimax_ab_self_play_gives_the_value
  (get_human_move : State -> res Move) (m0 k0 : Z) :
  0 <= m0 ->
  exists u w,
    value (initial_state m0 k0) = Fin u /\
    play_game get_human_move (fun state => minimax_ab state NegInf PosInf true)
      (Some (fun state => minimax_ab state NegInf PosInf true)) m0 k0 = Ok w /\
    outcome w = u.
Proof. apply play_game_self_play. Qed.

Lemma value_initial_3x3 : value (initial_state 3 3) = Fin 0.
Proof.
  unfold value.
  rewrite <- (minimax_ab_unordered_eq _ (proj1 (initial_state_wf 3 3 ltac:(lia)))).
  vm_compute. reflexivity.
Qed.

(** X25: The game every entry point plays by default, 3 x 3 with three in a
    row: its minimax value is the draw, so [minimax_ab] moving first never
    loses to a second player, agent or human, who makes legal moves,
    [minimax_ab] moving second never loses either, and two [minimax_ab]
    agents draw, as [tests.py] asserts. *)
Theorem minimax_ab_never_loses_on_the_3x3_board {V : Type}
  (get_human_move : State -> res Move)
  (agent1_fn : State -> res (SearchResult V))
  (agent2_fn : option (State -> res (SearchResult V))) :
  value (initial_state 3 3) = Fin 0 /\
  (replies_legally get_human_move agent2_fn ->
   exists w,
     play_game get_human_move (fun state => minimax_ab state NegInf PosInf true)
       agent2_fn 3 3 = Ok w /\ w <> Some O) /\
  (plays_legally agent1_fn X ->
   exists w,
     play_game get_human_move agent1_fn
       (Some (fun state => minimax_ab state NegInf PosInf true)) 3 3 = Ok w /\
     w <> Some X) /\
  play_game get_human_move (fun state => minimax_ab state NegInf PosInf true)
    (Some (fun state => minimax_ab state NegInf PosInf true)) 3 3 = Ok None.
Proof.
  split; [exact value_initial_3x3|]. split; [|split].
  - intros H2.
    destruct (play_game_first_optimal get_human_move agent2_fn 3 3 ltac:(lia) H2)
      as (u & w & Hu & Hplay & Hle).
    rewrite value_initial_3x3 in Hu. injection Hu as <-.
    exists w. split; [assumption|]. intros ->. simpl in Hle. lia.
  - intros H1.
    destruct (play_game_second_optimal get_human_move agent1_fn 3 3 ltac:(lia) H1)
      as (u & w & Hu & Hplay & Hle).
    rewrite value_initial_3x3 in Hu. injection Hu as <-.
    exists w. split; [assumption|]. intros ->. simpl in Hle. lia.
  - destruct (play_game_self_play get_human_move 3 3 ltac:(lia))
      as (u & w & Hu & Hplay & Hout).
    rewrite value_initial_3x3 in Hu. injection Hu as <-.
    rewrite Hplay. f_equal. destruct w as [[|]|]; simpl in Hout; congruence.
Qed.

(** ** What the pruning loops return *)

Section LoopsKeep.
Context {V : Type}.
Variable ltb leb : V -> V -> bool.
Variable rec : State -> ext V -> ext V -> res (SearchResult V).
Variable s : State.
Variable P : V -> Prop.
Variable Q : Move -> Prop.

Lemma searched_children_tail (a : Move) (l : list Move) :
  searched_children P rec s (a :: l) -> searched_children P rec s l.
Proof. intros H x Hx. apply H. now right. Qed.

(** The value returned is the starting value or one a child returned, and
    the move one of the list or the starting move. *)
Lemma ab_max_loop_keeps (l : list Move) :
  searched_children P rec s l -> (forall a, In a l -> Q a) ->
  forall alpha beta bv bm,
    (exists u a, bv = Fin u /\ bm = Some a /\ P u /\ Q a) \/ (bv = NegInf /\ l <> []) ->
    exists u a,
      ab_max_loop ltb leb rec s l alpha beta bv bm = Ok (Fin u, Some a) /\ P u /\ Q a.
Proof.
  induction l as [|a l IH]; intros Hok HQ alpha beta bv bm Hstart; simpl.
  - destruct Hstart as [(u & a & -> & -> & Hu & Ha)|[_ Hne]]; [eauto | congruence].
  - destruct (Hok a (or_introl eq_refl)) as (s' & -> & Hrec). simpl.
    destruct (Hrec alpha beta) as (uc & mvc & -> & Huc). simpl.
    pose proof (searched_children_tail a l Hok) as Hok'.
    assert (HQ' : forall x, In x l -> Q x) by (intros x Hx; apply HQ; now right).
    pose proof (HQ a (or_introl eq_refl)) as Ha.
    destruct Hstart as [(u & a0 & -> & -> & Hu & Ha0)|[-> _]]; simpl.
    + destruct (ltb u uc);
        match goal with
        | |- context [ext_leb leb beta ?x] => destruct (ext_leb leb beta x)
        end; try (eexists _, _; split; [reflexivity | split; assumption]);
        (apply IH; [assumption | assumption | left; eauto 7]).
    + match goal with
      | |- context [ext_leb leb beta ?x] => destruct (ext_leb leb beta x)
      end; try (eexists _, _; split; [reflexivity | split; assumption]);
      (apply IH; [assumption | assumption | left; eauto 7]).
Qed.

Lemma ab_min_loop_keeps (l : list Move) :
  searched_children P rec s l -> (forall a, In a l -> Q a) ->
  forall alpha beta bv bm,
    (exists u a, bv = Fin u /\ bm = Some a /\ P u /\ Q a) \/ (bv = PosInf /\ l <> []) ->
    exists u a,
      ab_min_loop ltb leb rec s l alpha beta bv bm = Ok (Fin u, Some a) /\ P u /\ Q a.
Proof.
  induction l as [|a l IH]; intros Hok HQ alpha beta bv bm Hstart; simpl.
  - destruct Hstart as [(u & a & -> & -> & Hu & Ha)|[_ Hne]]; [eauto | congruence].
  - destruct (Hok a (or_introl eq_refl)) as (s' & -> & Hrec). simpl.
    destruct (Hrec alpha beta) as (uc & mvc & -> & Huc). simpl.
    pose proof (searched_children_tail a l Hok) as Hok'.
    assert (HQ' : forall x, In x l -> Q x) by (intros x Hx; apply HQ; now right).
    pose proof (HQ a (or_introl eq_refl)) as Ha.
    destruct Hstart as [(u & a0 & -> & -> & Hu & Ha0)|[-> _]]; simpl.
    + destruct (ltb uc u);
        match goal with
        | |- context [ext_leb leb ?x alpha] => destruct (ext_leb leb x alpha)
        end; try (eexists _, _; split; [reflexivity | split; assumption]);
        (apply IH; [assumption | assumption | left; eauto 7]).
    + match goal with
      | |- context [ext_leb leb ?x alpha] => destruct (ext_leb leb x alpha)
      end; try (eexists _, _; split; [reflexivity | split; assumption]);
      (apply IH; [assumption | assumption | left; eauto 7]).
Qed.

(** Once the best value is one that no child exceeds, the loop returns it
    with the move it came with. *)
Lemma ab_max_loop_at_bound (B : V) (l : list Move) :
  (forall u, P u -> ltb B u = false) ->
  searched_children P rec s l ->
  forall alpha beta bm,
    ab_max_loop ltb leb rec s l alpha beta (Fin B) bm = Ok (Fin B, bm).
Proof.
  intros HB. induction l as [|a l IH]; intros Hok alpha beta bm; simpl; [reflexivity|].
  destruct (Hok a (or_introl eq_refl)) as (s' & -> & Hrec). simpl.
  destruct (Hrec alpha beta) as (uc & mvc & -> & Huc). simpl.
  rewrite (HB uc Huc).
  match goal with
  | |- context [ext_leb leb beta ?x] => destruct (ext_leb leb beta x)
  end; [reflexivity|].
  apply IH. now apply (searched_children_tail a).
Qed.

Lemma ab_min_loop_at_bound (B : V) (l : list Move) :
  (forall u, P u -> ltb u B = false) ->
  searched_children P rec s l ->
  forall alpha beta bm,
    ab_min_loop ltb leb rec s l alpha beta (Fin B) bm = Ok (Fin B, bm).
Proof.
  intros HB. induction l as [|a l IH]; intros Hok alpha beta bm; simpl; [reflexivity|].
  destruct (Hok a (or_introl eq_refl)) as (s' & -> & Hrec). simpl.
  destruct (Hrec alpha beta) as (uc & mvc & -> & Huc). simpl.
  rewrite (HB uc Huc).
  match goal with
  | |- context [ext_leb leb ?x alpha] => destruct (ext_leb leb x alpha)
  end; [reflexivity|].
  apply IH. now apply (searched_children_tail a).
Qed.
End LoopsKeep.

(** ** Values and moves of [minimax_ab] and [search], for every window *)

Lemma minimax_ab_in_range (s : State) :
  wf_state s ->
  forall alpha beta uo, exists u mv,
    minimax_ab s alpha beta uo = Ok (Fin u, mv) /\ -1 <= u <= 1 /\
    (terminal s = true -> mv = None) /\
    (terminal s = false -> exists a, mv = Some a /\ In a (actions s)).
Proof.
  revert s.
  apply (game_induction_state (fun s =>
    forall alpha beta uo, exists u mv,
      minimax_ab s alpha beta uo = Ok (Fin u, mv) /\ -1 <= u <= 1 /\
      (terminal s = true -> mv = None) /\
      (terminal s = false -> exists a, mv = Some a /\ In a (actions s)))).
  intros s Hs IH alpha beta uo. pose proof Hs as [Hwf _].
  rewrite minimax_ab_unfold by assumption.
  destruct (terminal s) eqn:Hterm.
  - rewrite utility_value_terminal by assumption. simpl.
    eexists _, None. split; [reflexivity|].
    split; [destruct (winner s) as [[|]|]; lia|]. split; [reflexivity | discriminate].
  - destruct (ordered_moves_ok s uo Hwf) as (l & -> & Hperm). simpl.
    assert (Hne : l <> []).
    { intros ->. apply Permutation_nil in Hperm.
      now apply (nonterminal_has_action s Hs Hterm). }
    assert (Hok : searched_children (fun u => -1 <= u <= 1)
                    (fun s a b => minimax_ab s a b uo) s l).
    { intros a Ha. apply (Permutation_in _ Hperm) in Ha.
      pose proof (result_legal s a Hwf Ha) as Hres.
      eexists. split; [exact Hres|]. intros al be.
      destruct (IH a _ Ha Hres al be uo) as (u & mv & Hr & Hu & _). eauto. }
    assert (HQ : forall a, In a l -> In a (actions s))
      by (intros a; apply (Permutation_in _ Hperm)).
    destruct (player s).
    + destruct (ab_max_loop_keeps Z.ltb Z.leb _ s _ _ l Hok HQ alpha beta NegInf None)
        as (u & a & -> & Hu & Ha); [auto|].
      exists u, (Some a). split; [reflexivity|]. split; [assumption|].
      split; [discriminate | eauto].
    + destruct (ab_min_loop_keeps Z.ltb Z.leb _ s _ _ l Hok HQ alpha beta PosInf None)
        as (u & a & -> & Hu & Ha); [auto|].
      exists u, (Some a). split; [reflexivity|]. split; [assumption|].
      split; [discriminate | eauto].
Qed.

Lemma search_keeps (P : Q -> Prop) (eval_fn : State -> Q) (m0 k0 : Z) :
  P 1000%Q -> P (-1000)%Q -> P 0%Q ->
  (forall st, wf_state st -> m st = m0 -> k st = k0 -> P (eval_fn st)) ->
  forall s, wf_state s -> m s = m0 -> k s = k0 ->
  forall depth alpha beta, exists q mv,
    search s depth eval_fn alpha beta = Ok (Fin q, mv) /\ P q /\
    (terminal s = true \/ depth = 0 -> mv = None) /\
    (terminal s = false -> depth <> 0 -> exists a, mv = Some a /\ In a (actions s)).
Proof.
  intros Hwin Hloss Hdraw Heval s Hs. revert s Hs.
  apply (game_induction_state (fun s =>
    m s = m0 -> k s = k0 ->
    forall depth alpha beta, exists q mv,
      search s depth eval_fn alpha beta = Ok (Fin q, mv) /\ P q /\
      (terminal s = true \/ depth = 0 -> mv = None) /\
      (terminal s = false -> depth <> 0 -> exists a, mv = Some a /\ In a (actions s)))).
  intros s Hs IH Hms Hks depth alpha beta. pose proof Hs as [Hwf _].
  rewrite search_unfold by assumption.
  destruct (terminal s) eqn:Hterm.
  - destruct (utility s) as [[|[| |]|[| |]]|];
      (eexists _, None; split; [reflexivity|]; split; [assumption|];
       split; [reflexivity | discriminate]).
  - destruct (Z.eqb_spec depth 0) as [->|Hd].
    + eexists _, None. split; [reflexivity|]. split; [now apply Heval|].
      split; [reflexivity | congruence].
    + destruct (order_moves_ok s (actions s) true Hwf (incl_refl _)) as (l & Hl).
      rewrite Hl. simpl. apply order_moves_perm in Hl.
      assert (Hne : l <> []).
      { intros ->. apply Permutation_nil in Hl.
        now apply (nonterminal_has_action s Hs Hterm). }
      assert (Hok : searched_children P
                      (fun s a b => search s (depth - 1) eval_fn a b) s l).
      { intros a Ha. apply (Permutation_in _ Hl) in Ha.
        pose proof (result_legal s a Hwf Ha) as Hres.
        eexists. split; [exact Hres|]. intros al be.
        destruct (IH a _ Ha Hres Hms Hks (depth - 1) al be) as (u & mv & Hr & Hu & _).
        eauto. }
      assert (HQ : forall a, In a l -> In a (actions s))
        by (intros a; apply (Permutation_in _ Hl)).
      destruct (player s).
      * destruct (ab_max_loop_keeps Qlt_bool Qle_bool _ s _ _ l Hok HQ alpha beta NegInf None)
          as (u & a & -> & Hu & Ha); [auto|].
        exists u, (Some a). split; [reflexivity|]. split; [assumption|].
        split; [intros [?|?]; congruence | eauto].
      * destruct (ab_min_loop_keeps Qlt_bool Qle_bool _ s _ _ l Hok HQ alpha beta PosInf None)
          as (u & a & -> & Hu & Ha); [auto|].
        exists u, (Some a). split; [reflexivity|]. split; [assumption|].
        split; [intros [?|?]; congruence | eauto].
Qed.

(** ** An immediate win is taken *)

Lemma winner_is_true (w : option Player) (p : Player) :
  winner_is w p = true <-> w = Some p.
Proof.
  destruct w as [[|]|], p; simpl; split; intros H; congruence.
Qed.

Lemma specified_key_inv (s : State) (a : Move) (key : FullKey) :
  specified_key s a = Ok key ->
  exists s', result s a = Ok s' /\
    key = if winner_is (winner s') (player s)
          then (0, 0%Q, 0, fst a, snd a)
          else (1, (- mover_evaluation (player s) s')%Q, manhattan s a, fst a, snd a).
Proof.
  unfold specified_key. destruct (result s a) as [s'|]; simpl; [|discriminate].
  intros H. exists s'. split; [reflexivity|].
  destruct (winner_is (winner s') (player s)); now injection H as <-.
Qed.

(** The first of the ordered moves wins at once if any move does, and it
    is the least such move in (row, col) order. *)
Lemma ordered_head_wins (s : State) (l : list Move) :
  wf_board s -> order_moves s (actions s) true = Ok l ->
  (exists w, In w (actions s) /\ wins_now s w) ->
  exists a0 l', l = a0 :: l' /\ In a0 (actions s) /\ wins_now s a0 /\
    forall w, In w (actions s) -> wins_now s w -> w = a0 \/ Move_lt a0 w.
Proof.
  intros Hwf Hl (w0 & Hw0 & Hwin0).
  pose proof (order_moves_perm s _ _ true Hl) as Hperm.
  pose proof (order_moves_ascending_input s _ _ (actions_sorted s) Hl) as Hsorted.
  destruct l as [|a0 l'].
  { apply Permutation_nil in Hperm. rewrite Hperm in Hw0.
    contradiction. }
  apply StronglySorted_inv in Hsorted. destruct Hsorted as [_ Hhead].
  rewrite Forall_forall in Hhead.
  assert (Ha0 : In a0 (actions s)) by (apply (Permutation_in _ Hperm); now left).
  assert (Hle : forall w, In w (actions s) -> wins_now s w ->
            wins_now s a0 /\ (w = a0 \/ Move_lt a0 w)).
  { intros w Hw (sw & Hresw & Hwinw).
    apply (Permutation_in _ (Permutation_sym Hperm)) in Hw.
    destruct Hw as [<- | Hw]; [split; [exists sw; auto | now left]|].
    destruct (Hhead w Hw) as (ka & kw & Hka & Hkw & Hlt).
    apply specified_key_inv in Hka, Hkw.
    destruct Hka as (sa & Hresa & ->), Hkw as (sw' & Hresw' & ->).
    rewrite Hresw in Hresw'. injection Hresw' as <-.
    apply winner_is_true in Hwinw as Hw1. rewrite Hw1 in Hlt.
    destruct (winner_is (winner sa) (player s)) eqn:Hwa.
    - split; [exists sa; split; [assumption | now apply winner_is_true]|].
      destruct a0 as [r0 c0], w as [rw cw]. unfold Move_lt. simpl in *.
      destruct (Z.eqb_spec rw r0) as [->|Hr]; simpl in Hlt.
      + apply Z.ltb_ge in Hlt.
        destruct (Z.eq_dec cw c0) as [->|Hc]; [now left | right; lia].
      + apply Z.ltb_ge in Hlt. right. lia.
    - simpl in Hlt. discriminate. }
  exists a0, l'. split; [reflexivity|]. split; [assumption|].
  split; [apply (Hle w0 Hw0 Hwin0)|].
  intros w Hw Hwin. apply (Hle w Hw Hwin).
Qed.

Lemma winner_terminal (s : State) (p : Player) :
  winner s = Some p -> terminal s = true.
Proof. intros H. unfold terminal. now rewrite H. Qed.

(** X15: [minimax_ab] with move ordering, any window: when the player to move
    can win at once, the value is that player's win and the move returned
    is the least winning move in (row, col) order. *)
Theorem minimax_ab_takes_an_immediate_win (s : State) (alpha beta : ext Z) :
  wf_state s -> terminal s = false ->
  (exists w, In w (actions s) /\ wins_now s w) ->
  exists a,
    minimax_ab s alpha beta true = Ok (Fin (outcome (Some (player s))), Some a) /\
    In a (actions s) /\ wins_now s a /\
    forall w, In w (actions s) -> wins_now s w -> w = a \/ Move_lt a w.
Proof.
  intros Hs Hterm Hex. pose proof Hs as [Hwf _].
  destruct (order_moves_ok s (actions s) true Hwf (incl_refl _)) as (l & Hl).
  destruct (ordered_head_wins s l Hwf Hl Hex) as (a0 & l' & -> & Ha0 & Hwin & Hleast).
  exists a0. split; [|auto].
  rewrite minimax_ab_unfold, Hterm by assumption.
  unfold ordered_moves. rewrite Hl. cbn [bind].
  pose proof (order_moves_perm s _ _ true Hl) as Hperm.
  assert (Hok : searched_children (fun u => -1 <= u <= 1)
                  (fun s a b => minimax_ab s a b true) s l').
  { intros a Ha.
    assert (Ha' : In a (actions s)) by (apply (Permutation_in _ Hperm); now right).
    pose proof (result_legal s a Hwf Ha') as Hres.
    eexists. split; [exact Hres|]. intros al be.
    destruct (minimax_ab_in_range _ (result_wf_state s _ a Hs Ha' Hres) al be true)
      as (u & mv & Hr & Hu & _).
    eauto. }
  destruct Hwin as (s0 & Hres0 & Hw0).
  assert (Hchild : forall al be,
            minimax_ab s0 al be true = Ok (Fin (outcome (Some (player s))), None)).
  { intros al be.
    rewrite minimax_ab_unfold by (eapply result_wf_board; eauto).
    rewrite (winner_terminal s0 _ Hw0).
    rewrite utility_value_terminal by (now apply (winner_terminal s0 (player s))).
    rewrite Hw0. reflexivity. }
  destruct (player s) eqn:Hpl.
  - cbn [ab_max_loop]. rewrite Hres0. cbn [bind]. rewrite Hchild. cbn [bind outcome].
    change (ext_ltb Z.ltb NegInf (Fin 1)) with true. cbv iota.
    destruct (ext_leb Z.leb beta (ext_max Z.ltb alpha (Fin 1))); [reflexivity|].
    apply (ab_max_loop_at_bound Z.ltb Z.leb _ s (fun u => -1 <= u <= 1) 1 l');
      [|assumption].
    intros u Hu. apply Z.ltb_ge. lia.
  - cbn [ab_min_loop]. rewrite Hres0. cbn [bind]. rewrite Hchild. cbn [bind outcome].
    change (ext_ltb Z.ltb (Fin (-1)) PosInf) with true. cbv iota.
    destruct (ext_leb Z.leb (ext_min Z.ltb beta (Fin (-1))) alpha); [reflexivity|].
    apply (ab_min_loop_at_bound Z.ltb Z.leb _ s (fun u => -1 <= u <= 1) (-1) l');
      [|assumption].
    intros u Hu. apply Z.ltb_ge. lia.
Qed.

(** X17: The same of depth-limited [search], at any depth other than zero and
    for any window, when the evaluation function stays within the
    sentinels: the value is the sentinel of the player to move and the move
    the least winning move. *)
Theorem search_takes_an_immediate_win (s : State) (depth : Z)
  (eval_fn : State -> Q) (alpha beta : ext Q) :
  wf_state s -> terminal s = false -> depth <> 0 ->
  (forall st, wf_state st -> m st = m s -> k st = k s ->
     (-1000 <= eval_fn st <= 1000)%Q) ->
  (exists w, In w (actions s) /\ wins_now s w) ->
  exists a,
    search s depth eval_fn alpha beta
      = Ok (Fin (match player s with X => 1000%Q | O => (-1000)%Q end), Some a) /\
    In a (actions s) /\ wins_now s a /\
    forall w, In w (actions s) -> wins_now s w -> w = a \/ Move_lt a w.
Proof.
  intros Hs Hterm Hd Heval Hex. pose proof Hs as [Hwf _].
  destruct (order_moves_ok s (actions s) true Hwf (incl_refl _)) as (l & Hl).
  destruct (ordered_head_wins s l Hwf Hl Hex) as (a0 & l' & -> & Ha0 & Hwin & Hleast).
  exists a0. split; [|auto].
  rewrite search_unfold, Hterm by assumption.
  destruct (Z.eqb_spec depth 0) as [|_]; [contradiction|].
  rewrite Hl. cbn [bind].
  pose proof (order_moves_perm s _ _ true Hl) as Hperm.
  set (P := fun q : Q => (-1000 <= q <= 1000)%Q).
  assert (Hok : searched_children P
                  (fun s a b => search s (depth - 1) eval_fn a b) s l').
  { intros a Ha.
    assert (Ha' : In a (actions s)) by (apply (Permutation_in _ Hperm); now right).
    pose proof (result_legal s a Hwf Ha') as Hres.
    eexists. split; [exact Hres|]. intros al be.
    destruct (search_keeps P eval_fn (m s) (k s))
      with (s := place s (Z.to_nat (fst a)) (Z.to_nat (snd a)))
           (depth := depth - 1) (alpha := al) (beta := be)
      as (u & mv & Hr & Hu & _);
      try (unfold P; lra); try reflexivity; [exact Heval | |eauto].
    now apply (result_wf_state s _ a Hs Ha' Hres). }
  destruct Hwin as (s0 & Hres0 & Hw0).
  assert (Hchild : forall al be,
            search s0 (depth - 1) eval_fn al be
            = Ok (Fin (match player s with X => 1000%Q | O => (-1000)%Q end), None)).
  { intros al be.
    rewrite search_unfold by (eapply result_wf_board; eauto).
    rewrite (winner_terminal s0 _ Hw0).
    rewrite terminal_utility by (now apply (winner_terminal s0 (player s))).
    rewrite Hw0. now destruct (player s). }
  destruct (player s) eqn:Hpl.
  - cbn [ab_max_loop]. rewrite Hres0. cbn [bind]. rewrite Hchild. cbn [bind].
    change (ext_ltb Qlt_bool NegInf (Fin 1000%Q)) with true. cbv iota.
    destruct (ext_leb Qle_bool beta (ext_max Qlt_bool alpha (Fin 1000%Q)));
      [reflexivity|].
    apply (ab_max_loop_at_bound Qlt_bool Qle_bool _ s P 1000%Q l'); [|assumption].
    intros u Hu. apply Qlt_bool_ge. apply Hu.
  - cbn [ab_min_loop]. rewrite Hres0. cbn [bind]. rewrite Hchild. cbn [bind].
    change (ext_ltb Qlt_bool (Fin (-1000)%Q) PosInf) with true. cbv iota.
    destruct (ext_leb Qle_bool (ext_min Qlt_bool beta (Fin (-1000)%Q)) alpha);
      [reflexivity|].
    apply (ab_min_loop_at_bound Qlt_bool Qle_bool _ s P (-1000)%Q l'); [|assumption].
    intros u Hu. apply Qlt_bool_ge. apply Hu.
Qed.

(** ** Depth-limited search that reaches the end of the game *)

Section LoopsEmbed.
Context {V1 V2 : Type}.
Variable ltb1 leb1 : V1 -> V1 -> bool.
Variable ltb2 leb2 : V2 -> V2 -> bool.
Variable f : V1 -> V2.
Hypothesis f_ltb : forall a b, ltb2 (f a) (f b) = ltb1 a b.
Hypothesis f_leb : forall a b, leb2 (f a) (f b) = leb1 a b.
Variable rec1 : State -> ext V1 -> ext V1 -> res (SearchResult V1).
Variable rec2 : State -> ext V2 -> ext V2 -> res (SearchResult V2).
Variable s : State.

Lemma ext_ltb_map (a b : ext V1) :
  ext_ltb ltb2 (ext_map f a) (ext_map f b) = ext_ltb ltb1 a b.
Proof. destruct a, b; simpl; auto. Qed.

Lemma ext_leb_map (a b : ext V1) :
  ext_leb leb2 (ext_map f a) (ext_map f b) = ext_leb leb1 a b.
Proof. destruct a, b; simpl; auto. Qed.

Lemma ext_max_map (a b : ext V1) :
  ext_max ltb2 (ext_map f a) (ext_map f b) = ext_map f (ext_max ltb1 a b).
Proof. unfold ext_max. rewrite ext_ltb_map. now destruct (ext_ltb ltb1 a b). Qed.

Lemma ext_min_map (a b : ext V1) :
  ext_min ltb2 (ext_map f a) (ext_map f b) = ext_map f (ext_min ltb1 a b).
Proof. unfold ext_min. rewrite ext_ltb_map. now destruct (ext_ltb ltb1 b a). Qed.

(** The pruning loops commute with a change of scale that keeps the
    order. *)
Lemma ab_max_loop_embed (l : list Move) :
  (forall a s' al be, In a l -> result s a = Ok s' ->
     rec2 s' (ext_map f al) (ext_map f be) = map_result f (rec1 s' al be)) ->
  forall alpha beta bv bm,
    ab_max_loop ltb2 leb2 rec2 s l (ext_map f alpha) (ext_map f beta) (ext_map f bv) bm
    = map_result f (ab_max_loop ltb1 leb1 rec1 s l alpha beta bv bm).
Proof.
  induction l as [|a l IH]; intros Hrec alpha beta bv bm; [reflexivity|].
  cbn [ab_max_loop].
  destruct (result s a) as [s'|e] eqn:Hres; [|reflexivity]. cbn [bind].
  rewrite (Hrec a s' alpha beta (or_introl eq_refl) Hres).
  destruct (rec1 s' alpha beta) as [[vc mvc]|e]; [|reflexivity].
  cbn [map_result bind]. rewrite ext_ltb_map.
  destruct (ext_ltb ltb1 bv vc).
  - rewrite ext_max_map, ext_leb_map.
    destruct (ext_leb leb1 beta (ext_max ltb1 alpha vc)); [reflexivity|].
    apply IH. intros x sx al be Hx. apply Hrec. now right.
  - rewrite ext_max_map, ext_leb_map.
    destruct (ext_leb leb1 beta (ext_max ltb1 alpha bv)); [reflexivity|].
    apply IH. intros x sx al be Hx. apply Hrec. now right.
Qed.

Lemma ab_min_loop_embed (l : list Move) :
  (forall a s' al be, In a l -> result s a = Ok s' ->
     rec2 s' (ext_map f al) (ext_map f be) = map_result f (rec1 s' al be)) ->
  forall alpha beta bv bm,
    ab_min_loop ltb2 leb2 rec2 s l (ext_map f alpha) (ext_map f beta) (ext_map f bv) bm
    = map_result f (ab_min_loop ltb1 leb1 rec1 s l alpha beta bv bm).
Proof.
  induction l as [|a l IH]; intros Hrec alpha beta bv bm; [reflexivity|].
  cbn [ab_min_loop].
  destruct (result s a) as [s'|e] eqn:Hres; [|reflexivity]. cbn [bind].
  rewrite (Hrec a s' alpha beta (or_introl eq_refl) Hres).
  destruct (rec1 s' alpha beta) as [[vc mvc]|e]; [|reflexivity].
  cbn [map_result bind]. rewrite ext_ltb_map.
  destruct (ext_ltb ltb1 vc bv).
  - rewrite ext_min_map, ext_leb_map.
    destruct (ext_leb leb1 (ext_min ltb1 beta vc) alpha); [reflexivity|].
    apply IH. intros x sx al be Hx. apply Hrec. now right.
  - rewrite ext_min_map, ext_leb_map.
    destruct (ext_leb leb1 (ext_min ltb1 beta bv) alpha); [reflexivity|].
    apply IH. intros x sx al be Hx. apply Hrec. now right.
Qed.
End LoopsEmbed.

Lemma sentinel_ltb (a b : Z) : Qlt_bool (sentinel a) (sentinel b) = (a <? b).
Proof.
  unfold Qlt_bool, sentinel, inject_Z. cbn [Qnum Qden]. rewrite !Z.mul_1_r.
  destruct (Z.ltb_spec a b), (Z.ltb_spec (1000 * a) (1000 * b)); auto; lia.
Qed.

Lemma sentinel_leb (a b : Z) : Qle_bool (sentinel a) (sentinel b) = (a <=? b).
Proof.
  unfold Qle_bool, sentinel, inject_Z. cbn [Qnum Qden]. rewrite !Z.mul_1_r.
  destruct (Z.leb_spec a b), (Z.leb_spec (1000 * a) (1000 * b)); auto; lia.
Qed.

Lemma search_to_the_end (eval_fn : State -> Q) (s : State) :
  wf_state s ->
  forall depth alpha beta,
    Z.of_nat (length (actions s)) <= depth \/ depth < 0 ->
    search s depth eval_fn (ext_map sentinel alpha) (ext_map sentinel beta)
    = map_result sentinel (minimax_ab s alpha beta true).
Proof.
  revert s.
  apply (game_induction_state (fun s =>
    forall depth alpha beta,
      Z.of_nat (length (actions s)) <= depth \/ depth < 0 ->
      search s depth eval_fn (ext_map sentinel alpha) (ext_map sentinel beta)
      = map_result sentinel (minimax_ab s alpha beta true))).
  intros s Hs IH depth alpha beta Hdepth. pose proof Hs as [Hwf _].
  rewrite search_unfold, minimax_ab_unfold by assumption.
  destruct (terminal s) eqn:Hterm.
  - rewrite terminal_utility, utility_value_terminal by assumption.
    now destruct (winner s) as [[|]|].
  - pose proof (nonterminal_has_action s Hs Hterm) as Hne.
    destruct (Z.eqb_spec depth 0) as [->|Hd].
    { destruct (actions s); [congruence | simpl in Hdepth; lia]. }
    unfold ordered_moves.
    destruct (order_moves s (actions s) true) as [l|e] eqn:Hl; [|reflexivity].
    cbn [bind]. pose proof (order_moves_perm s _ _ true Hl) as Hperm.
    assert (Hrec : forall a s' al be, In a l -> result s a = Ok s' ->
              search s' (depth - 1) eval_fn (ext_map sentinel al) (ext_map sentinel be)
              = map_result sentinel (minimax_ab s' al be true)).
    { intros a s' al be Ha Hres. apply (Permutation_in _ Hperm) in Ha.
      apply (IH a s' Ha Hres).
      pose proof (length_actions_result s s' a Hwf Ha Hres). lia. }
    destruct (player s).
    + apply (ab_max_loop_embed Z.ltb Z.leb Qlt_bool Qle_bool sentinel
               sentinel_ltb sentinel_leb
               (fun s a b => minimax_ab s a b true)
               (fun s a b => search s (depth - 1) eval_fn a b) s l Hrec
               alpha beta NegInf None).
    + apply (ab_min_loop_embed Z.ltb Z.leb Qlt_bool Qle_bool sentinel
               sentinel_ltb sentinel_leb
               (fun s a b => minimax_ab s a b true)
               (fun s a b => search s (depth - 1) eval_fn a b) s l Hrec
               alpha beta PosInf None).
Qed.

(** X18: [search] with a depth of at least the number of empty cells, or with a
    negative depth, never asks the evaluation function: for every window it
    returns the move of [minimax_ab] with move ordering and its value on
    the scale of the sentinels, so with the full window 1000 times the
    minimax value. *)
Theorem search_to_the_end_is_minimax_ab (s : State) (depth : Z)
  (eval_fn : State -> Q) :
  wf_state s ->
  Z.of_nat (length (actions s)) <= depth \/ depth < 0 ->
  (forall alpha beta,
     search s depth eval_fn (ext_map sentinel alpha) (ext_map sentinel beta)
     = map_result sentinel (minimax_ab s alpha beta true)) /\
  exists u mv,
    value s = Fin u /\
    minimax_ab s NegInf PosInf true = Ok (Fin u, mv) /\
    search s depth eval_fn NegInf PosInf = Ok (Fin (inject_Z (1000 * u)), mv).
Proof.
  intros Hs Hdepth. pose proof Hs as [Hwf _].
  split; [intros alpha beta; now apply search_to_the_end|].
  destruct (minimax_ab_sound s Hwf NegInf PosInf true eq_refl) as (v & mv & Hab & Hb).
  apply bounded_full_window in Hb.
  destruct (value_finite s Hs) as (u & Hu & _).
  exists u, mv. split; [assumption|]. rewrite Hb, Hu in Hab.
  split; [assumption|].
  change NegInf with (ext_map sentinel NegInf) at 1.
  change PosInf with (ext_map sentinel PosInf) at 1.
  rewrite (search_to_the_end eval_fn s Hs depth NegInf PosInf Hdepth), Hab.
  reflexivity.
Qed.

(** ** Alpha-beta with a window, and the values a search can return *)

(** X12: [minimax_ab] called with a window [alpha < beta], with or without move
    ordering: a value strictly inside the window is the minimax value; a
    value at or below [alpha] is an upper bound of it and a value at or
    above [beta] a lower bound. *)
Theorem minimax_ab_window_bounds (s : State) (alpha beta : ext Z)
  (use_ordering : bool) :
  wf_board s -> zlt alpha beta = true ->
  exists v mv,
    minimax_ab s alpha beta use_ordering = Ok (v, mv) /\
    (zlt alpha v = true -> zlt v beta = true -> v = value s) /\
    (zle v alpha = true -> zle (value s) v = true) /\
    (zle beta v = true -> zle v (value s) = true).
Proof.
  intros Hwf Hab.
  destruct (minimax_ab_sound s Hwf alpha beta use_ordering Hab)
    as (v & mv & Hr & B1 & B2 & B3).
  exists v, mv. auto.
Qed.

(** X13: [minimax_ab] on a state of the game, for every window and both
    orderings: the value is -1, 0 or 1, never infinite; a terminal state gets
    no move and any other state a legal one. *)
Theorem minimax_ab_returns_a_utility_and_a_legal_move (s : State)
  (alpha beta : ext Z) (use_ordering : bool) :
  wf_state s ->
  exists u mv,
    minimax_ab s alpha beta use_ordering = Ok (Fin u, mv) /\
    (u = -1 \/ u = 0 \/ u = 1) /\
    (terminal s = true -> mv = None) /\
    (terminal s = false -> exists a, mv = Some a /\ In a (actions s)).
Proof.
  intros Hs.
  destruct (minimax_ab_in_range s Hs alpha beta use_ordering)
    as (u & mv & Hr & Hu & Ht & Hn).
  exists u, mv. repeat split; auto. lia.
Qed.

(** X16: [search] on a state of the game, for every depth, window and
    evaluation function: the value is one of the sentinels 1000, -1000, 0 or
    a value of the evaluation function, never infinite; the move is absent
    at a terminal state and at depth zero, and legal otherwise. *)
Theorem search_returns_a_sentinel_or_an_evaluation (s : State) (depth : Z)
  (eval_fn : State -> Q) (alpha beta : ext Q) :
  wf_state s ->
  exists q mv,
    search s depth eval_fn alpha beta = Ok (Fin q, mv) /\
    (q = 1000%Q \/ q = (-1000)%Q \/ q = 0%Q \/ exists st, q = eval_fn st) /\
    (terminal s = true \/ depth = 0 -> mv = None) /\
    (terminal s = false -> depth <> 0 -> exists a, mv = Some a /\ In a (actions s)).
Proof.
  intros Hs.
  apply (search_keeps
           (fun q => q = 1000%Q \/ q = (-1000)%Q \/ q = 0%Q \/ exists st, q = eval_fn st)
           eval_fn (m s) (k s)); eauto 6.
Qed.

(** X14: [minimax_ab] called with the full window on an open state of the game:
    the move returned is legal, leads to a state with the minimax value,
    and is the first such move in the order the moves were searched in,
    the heuristic order or the (row, col) order. *)
Theorem minimax_ab_returns_the_first_best_move (s : State) (use_ordering : bool) :
  wf_state s -> terminal s = false ->
  exists l u a l1 l2,
    ordered_moves s use_ordering = Ok l /\ Permutation l (actions s) /\
    minimax_ab s NegInf PosInf use_ordering = Ok (Fin u, Some a) /\
    l = l1 ++ a :: l2 /\ In a (actions s) /\
    value s = Fin u /\ child_value s a = Ok (Fin u) /\
    (forall x, In x l1 -> child_value s x <> Ok (Fin u)) /\
    (forall x, In x (actions s) ->
       exists ux, child_value s x = Ok (Fin ux) /\
         match player s with
         | X => ux <= u
         | O => u <= ux
         end).
Proof.
  intros Hs Hterm. pose proof Hs as [Hwf _].
  destruct (minimax_ab_best_move s use_ordering Hs Hterm)
    as (l & u & a & l1 & l2 & Hl & Hperm & Hab & Hsplit & Ha & Hv & Hc & H1 & H2).
  exists l, u, a, l1, l2.
  split; [assumption|]. split; [assumption|]. split; [assumption|].
  split; [assumption|]. split; [assumption|]. split; [assumption|].
  split; [rewrite (child_value_legal s a Hwf Ha); now f_equal|].
  split.
  - intros x Hx E.
    assert (Hxa : In x (actions s)).
    { apply (Permutation_in _ Hperm). rewrite Hsplit. apply in_or_app. now left. }
    rewrite (child_value_legal s x Hwf Hxa) in E. injection E as E.
    now apply (H1 x Hx).
  - intros x Hx. destruct (cvalue_finite s x Hs Hx) as (ux & Hux & _).
    exists ux. split; [rewrite (child_value_legal s x Hwf Hx); now f_equal|].
    specialize (H2 x Hx). rewrite Hux in H2.
    destruct (player s); simpl in H2; now apply Z.leb_le.
Qed.

(** ** The metrics of the instrumented searches *)

Lemma max_depth_visit (mt : SearchMetrics) (d : Z) :
  max_depth (visit mt d) = Z.max (max_depth mt) d.
Proof. unfold visit. simpl. destruct (Z.ltb_spec (max_depth mt) d); lia. Qed.

Section MeteredLoops.
Variable rec : State -> ext Z -> ext Z -> SearchMetrics
               -> res (SearchResult Z * SearchMetrics).
Variable s : State.
Variable D : Z.

Lemma ab_max_loop_i_metered (l : list Move) :
  metered_children D rec s l ->
  forall alpha beta bv bm mt, exists r mt',
    ab_max_loop_i rec s l alpha beta bv bm mt = Ok (r, mt') /\
    nodes_explored mt <= nodes_explored mt' /\
    0 <= pruning_cutoffs mt' - pruning_cutoffs mt
      <= nodes_explored mt' - nodes_explored mt /\
    max_depth mt <= max_depth mt' <= Z.max (max_depth mt) D.
Proof.
  induction l as [|a l IH]; intros Hok alpha beta bv bm mt; simpl.
  - eexists _, _. split; [reflexivity | lia].
  - destruct (Hok a (or_introl eq_refl)) as (s' & -> & Hrec). simpl.
    destruct (Hrec alpha beta mt) as ([v mv] & mt1 & -> & Hn & Hc & Hd). simpl.
    assert (Hok' : metered_children D rec s l) by (intros x Hx; apply Hok; simpl; auto).
    destruct (zlt bv v);
      (match goal with
       | |- context [zle beta ?x] => destruct (zle beta x)
       end;
       [eexists _, _; split; [reflexivity | simpl; lia]
       |match goal with
        | |- context [ab_max_loop_i rec s l ?al beta ?b ?m mt1] =>
            destruct (IH Hok' al beta b m mt1) as (r & mt' & -> & Hn' & Hc' & Hd')
        end; eexists _, _; split; [reflexivity | lia]]).
Qed.

Lemma ab_min_loop_i_metered (l : list Move) :
  metered_children D rec s l ->
  forall alpha beta bv bm mt, exists r mt',
    ab_min_loop_i rec s l alpha beta bv bm mt = Ok (r, mt') /\
    nodes_explored mt <= nodes_explored mt' /\
    0 <= pruning_cutoffs mt' - pruning_cutoffs mt
      <= nodes_explored mt' - nodes_explored mt /\
    max_depth mt <= max_depth mt' <= Z.max (max_depth mt) D.
Proof.
  induction l as [|a l IH]; intros Hok alpha beta bv bm mt; simpl.
  - eexists _, _. split; [reflexivity | lia].
  - destruct (Hok a (or_introl eq_refl)) as (s' & -> & Hrec). simpl.
    destruct (Hrec alpha beta mt) as ([v mv] & mt1 & -> & Hn & Hc & Hd). simpl.
    assert (Hok' : metered_children D rec s l) by (intros x Hx; apply Hok; simpl; auto).
    destruct (zlt v bv);
      (match goal with
       | |- context [zle ?x alpha] => destruct (zle x alpha)
       end;
       [eexists _, _; split; [reflexivity | simpl; lia]
       |match goal with
        | |- context [ab_min_loop_i rec s l alpha ?be ?b ?m mt1] =>
            destruct (IH Hok' alpha be b m mt1) as (r & mt' & -> & Hn' & Hc' & Hd')
        end; eexists _, _; split; [reflexivity | lia]]).
Qed.
End MeteredLoops.

Section MeteredPlainLoops.
Variable rec : State -> SearchMetrics -> res (SearchResult Z * SearchMetrics).
Variable s : State.
Variable D : Z.

Lemma max_loop_i_metered (l : list Move) :
  metered_children_plain D rec s l ->
  forall bv bm mt, exists r mt',
    max_loop_i rec s l bv bm mt = Ok (r, mt') /\
    pruning_cutoffs mt' = pruning_cutoffs mt /\
    max_depth mt <= max_depth mt' <= Z.max (max_depth mt) D.
Proof.
  induction l as [|a l IH]; intros Hok bv bm mt; simpl.
  - eexists _, _. split; [reflexivity | lia].
  - destruct (Hok a (or_introl eq_refl)) as (s' & -> & Hrec). simpl.
    destruct (Hrec mt) as ([v mv] & mt1 & -> & Hc & Hd). simpl.
    assert (Hok' : metered_children_plain D rec s l)
      by (intros x Hx; apply Hok; simpl; auto).
    destruct (zlt bv v);
      match goal with
      | |- context [max_loop_i rec s l ?b ?m mt1] =>
          destruct (IH Hok' b m mt1) as (r & mt' & -> & Hc' & Hd')
      end; eexists _, _; (split; [reflexivity | lia]).
Qed.

Lemma min_loop_i_metered (l : list Move) :
  metered_children_plain D rec s l ->
  forall bv bm mt, exists r mt',
    min_loop_i rec s l bv bm mt = Ok (r, mt') /\
    pruning_cutoffs mt' = pruning_cutoffs mt /\
    max_depth mt <= max_depth mt' <= Z.max (max_depth mt) D.
Proof.
  induction l as [|a l IH]; intros Hok bv bm mt; simpl.
  - eexists _, _. split; [reflexivity | lia].
  - destruct (Hok a (or_introl eq_refl)) as (s' & -> & Hrec). simpl.
    destruct (Hrec mt) as ([v mv] & mt1 & -> & Hc & Hd). simpl.
    assert (Hok' : metered_children_plain D rec s l)
      by (intros x Hx; apply Hok; simpl; auto).
    destruct (zlt v bv);
      match goal with
      | |- context [min_loop_i rec s l ?b ?m mt1] =>
          destruct (IH Hok' b m mt1) as (r & mt' & -> & Hc' & Hd')
      end; eexists _, _; (split; [reflexivity | lia]).
Qed.
End MeteredPlainLoops.

Lemma minimax_ab_instrumented_metered (s : State) :
  wf_board s ->
  forall alpha beta d mt uo, exists r mt',
    minimax_ab_instrumented s alpha beta d mt uo = Ok (r, mt') /\
    metered (d + Z.of_nat (length (actions s))) mt mt' /\
    d <= max_depth mt'.
Proof.
  revert s.
  apply (game_induction (fun s =>
    forall alpha beta d mt uo, exists r mt',
      minimax_ab_instrumented s alpha beta d mt uo = Ok (r, mt') /\
      metered (d + Z.of_nat (length (actions s))) mt mt' /\
      d <= max_depth mt')).
  intros s Hwf IH alpha beta d mt uo.
  rewrite minimax_ab_instrumented_unfold by assumption.
  cbv zeta. destruct (terminal s) eqn:Hterm.
  - rewrite utility_value_terminal by assumption. cbn [bind].
    eexists _, _. split; [reflexivity|]. unfold metered.
    rewrite nodes_visit, max_depth_visit. cbn [pruning_cutoffs visit]. lia.
  - destruct (ordered_moves_ok s uo Hwf) as (l & -> & Hperm). cbn [bind].
    set (D := d + Z.of_nat (length (actions s))).
    assert (Hok : metered_children D
              (fun s a b mt => minimax_ab_instrumented s a b (d + 1) mt uo) s l).
    { intros a Ha. apply (Permutation_in _ Hperm) in Ha.
      pose proof (result_legal s a Hwf Ha) as Hres.
      eexists. split; [exact Hres|]. intros al be mt0.
      destruct (IH a _ Ha Hres al be (d + 1) mt0 uo) as (r & mt' & E & Hm & _).
      exists r, mt'. split; [exact E|].
      pose proof (length_actions_result s _ a Hwf Ha Hres) as Hlen.
      replace D with (d + 1 + Z.of_nat (length (actions
                        (place s (Z.to_nat (fst a)) (Z.to_nat (snd a))))))
        by (unfold D; lia).
      exact Hm. }
    pose proof (nodes_visit mt d) as Hnv. pose proof (max_depth_visit mt d) as Hdv.
    assert (Hcv : pruning_cutoffs (visit mt d) = pruning_cutoffs mt) by reflexivity.
    destruct (player s).
    + destruct (ab_max_loop_i_metered _ s D l Hok alpha beta NegInf None (visit mt d))
        as (r & mt' & -> & Hn & Hc & Hd).
      eexists _, _. split; [reflexivity|]. unfold metered, D in *. lia.
    + destruct (ab_min_loop_i_metered _ s D l Hok alpha beta PosInf None (visit mt d))
        as (r & mt' & -> & Hn & Hc & Hd).
      eexists _, _. split; [reflexivity|]. unfold metered, D in *. lia.
Qed.

Lemma minimax_instrumented_metered (s : State) :
  wf_board s ->
  forall d mt, exists r mt',
    minimax_instrumented s d mt = Ok (r, mt') /\
    metered_plain (d + Z.of_nat (length (actions s))) mt mt' /\
    d <= max_depth mt'.
Proof.
  revert s.
  apply (game_induction (fun s =>
    forall d mt, exists r mt',
      minimax_instrumented s d mt = Ok (r, mt') /\
      metered_plain (d + Z.of_nat (length (actions s))) mt mt' /\
      d <= max_depth mt')).
  intros s Hwf IH d mt.
  rewrite minimax_instrumented_unfold by assumption.
  cbv zeta. destruct (terminal s) eqn:Hterm.
  - rewrite utility_value_terminal by assumption. cbn [bind].
    eexists _, _. split; [reflexivity|]. unfold metered_plain.
    rewrite max_depth_visit. cbn [pruning_cutoffs visit]. lia.
  - set (D := d + Z.of_nat (length (actions s))).
    assert (Hok : metered_children_plain D
              (fun s mt => minimax_instrumented s (d + 1) mt) s (actions s)).
    { intros a Ha.
      pose proof (result_legal s a Hwf Ha) as Hres.
      eexists. split; [exact Hres|]. intros mt0.
      destruct (IH a _ Ha Hres (d + 1) mt0) as (r & mt' & E & Hm & _).
      exists r, mt'. split; [exact E|].
      pose proof (length_actions_result s _ a Hwf Ha Hres) as Hlen.
      replace D with (d + 1 + Z.of_nat (length (actions
                        (place s (Z.to_nat (fst a)) (Z.to_nat (snd a))))))
        by (unfold D; lia).
      exact Hm. }
    pose proof (max_depth_visit mt d) as Hdv.
    assert (Hcv : pruning_cutoffs (visit mt d) = pruning_cutoffs mt) by reflexivity.
    destruct (player s).
    + destruct (max_loop_i_metered _ s D (actions s) Hok NegInf None (visit mt d))
        as (r & mt' & -> & Hc & Hd).
      eexists _, _. split; [reflexivity|]. unfold metered_plain, D in *. lia.
    + destruct (min_loop_i_metered _ s D (actions s) Hok PosInf None (visit mt d))
        as (r & mt' & -> & Hc & Hd).
      eexists _, _. split; [reflexivity|]. unfold metered_plain, D in *. lia.
Qed.

(** X20: [minimax_ab_instrumented]: every run counts fewer cutoffs than states
    -- a cutoff is counted at most once in a state, and only after a
    successor was searched -- and the greatest depth recorded is at least
    the depth the run started at and at most that depth plus the number
    of empty cells. *)
Theorem alpha_beta_metrics_are_consistent (s : State) (alpha beta : ext Z)
  (depth : Z) (metrics : SearchMetrics) (use_ordering : bool) :
  wf_board s ->
  exists r metrics',
    minimax_ab_instrumented s alpha beta depth metrics use_ordering
      = Ok (r, metrics') /\
    pruning_cutoffs metrics <= pruning_cutoffs metrics' /\
    pruning_cutoffs metrics' - pruning_cutoffs metrics
      < nodes_explored metrics' - nodes_explored metrics /\
    Z.max (max_depth metrics) depth <= max_depth metrics'
      <= Z.max (max_depth metrics) (depth + Z.of_nat (length (actions s))).
Proof.
  intros Hwf.
  destruct (minimax_ab_instrumented_metered s Hwf alpha beta depth metrics use_ordering)
    as (r & mt' & Hr & (Hn & Hc & Hd) & Hlow).
  exists r, mt'. split; [exact Hr|]. lia.
Qed.

(** X19: [minimax_instrumented]: the run counts one state for the state it is
    called on and what the runs on the successors count, it never counts a
    cutoff, and the greatest depth recorded is at least the depth the run
    started at and at most that depth plus the number of empty cells. *)
Theorem minimax_metrics_are_consistent (s : State) (depth : Z)
  (metrics : SearchMetrics) :
  wf_board s ->
  exists r metrics',
    minimax_instrumented s depth metrics = Ok (r, metrics') /\
    nodes_explored metrics' = nodes_explored metrics + visited_minimax s /\
    visited_minimax s =
      (if terminal s then 1 else 1 + zsum (map (visited_child s) (actions s))) /\
    pruning_cutoffs metrics' = pruning_cutoffs metrics /\
    Z.max (max_depth metrics) depth <= max_depth metrics'
      <= Z.max (max_depth metrics) (depth + Z.of_nat (length (actions s))).
Proof.
  intros Hwf.
  destruct (minimax_instrumented_metered s Hwf depth metrics)
    as (r & mt' & Hr & (Hc & Hd) & Hlow).
  destruct (minimax_instrumented_count s Hwf) as [_ Hcount].
  destruct (Hcount depth metrics) as (r' & mt'' & Hr' & Hn).
  rewrite Hr in Hr'. injection Hr' as <- <-.
  exists r, mt'. split; [exact Hr|]. split; [exact Hn|].
  split; [now apply visited_minimax_unfold|]. split; [exact Hc | lia].
Qed.

(** ** The rules: subscripts, legal moves and the marks on the board *)

Lemma result_normalizes (s s' : State) (a : Move) :
  wf_board s -> result s a = Ok s' ->
  exists r c, position s a = Some (r, c) /\
    In (Z.of_nat r, Z.of_nat c) (actions s) /\
    result s (Z.of_nat r, Z.of_nat c) = Ok s' /\ s' = place s r c /\
    cell_nat (board s) r c = None.
Proof.
  intros Hwf Hres. destruct (result_ok_inv s s' a Hres) as (r & c & Hpos & Hcell & ->).
  destruct (position_bound s a r c Hwf Hpos) as [Hr Hc].
  assert (Hin : In (Z.of_nat r, Z.of_nat c) (actions s)).
  { apply in_actions. split; [lia|]. split; [lia|].
    rewrite cell_at_nat, !Nat2Z.id by lia. exact Hcell. }
  exists r, c. split; [assumption|]. split; [assumption|].
  split; [|auto]. rewrite (result_legal s _ Hwf Hin). simpl. now rewrite !Nat2Z.id.
Qed.

Lemma position_alias (s : State) (r c r' c' : Z) :
  wf_board s -> 0 <= r < m s -> 0 <= c < m s ->
  (r' = r \/ r' = r - m s) -> (c' = c \/ c' = c - m s) ->
  position s (r', c') = Some (Z.to_nat r, Z.to_nat c).
Proof.
  intros Hwf Hr Hc Hr' Hc'. pose proof Hwf as (Hm & Hlen & Hrows).
  assert (Hnorm : forall i i', 0 <= i < m s -> (i' = i \/ i' = i - m s) ->
            norm_index (Z.to_nat (m s)) i' = Some (Z.to_nat i)).
  { intros i i' Hi [-> | ->]; [apply norm_index_nonneg; lia|].
    unfold norm_index.
    destruct (Z.leb_spec 0 (i - m s)); [lia|].
    destruct (Z.leb_spec (- Z.of_nat (Z.to_nat (m s))) (i - m s)); [|lia].
    f_equal. lia. }
  unfold position. cbn [fst snd]. rewrite Hlen, (Hnorm r r' Hr Hr').
  destruct (nth_error (board s) (Z.to_nat r)) as [row|] eqn:Hrow.
  - rewrite Forall_forall in Hrows.
    rewrite (Hrows row (nth_error_In _ _ Hrow)), (Hnorm c c' Hc Hc'). reflexivity.
  - apply nth_error_None in Hrow. lia.
Qed.

Lemma position_out_of_range (s : State) (r c : Z) :
  wf_board s ->
  r < - m s \/ m s <= r \/ c < - m s \/ m s <= c ->
  position s (r, c) = None.
Proof.
  intros (Hm & Hlen & Hrows) Hout. unfold position. cbn [fst snd]. rewrite Hlen.
  destruct (norm_index (Z.to_nat (m s)) r) as [r'|] eqn:Hr; [|reflexivity].
  destruct (nth_error (board s) r') as [row|] eqn:Hrow; [|reflexivity].
  rewrite Forall_forall in Hrows. rewrite (Hrows row (nth_error_In _ _ Hrow)).
  destruct (norm_index (Z.to_nat (m s)) c) as [c'|] eqn:Hc; [|reflexivity].
  exfalso. unfold norm_index in Hr, Hc.
  destruct (Z.leb_spec 0 r), (Z.ltb_spec r (Z.of_nat (Z.to_nat (m s)))),
           (Z.leb_spec (- Z.of_nat (Z.to_nat (m s))) r),
           (Z.leb_spec 0 c), (Z.ltb_spec c (Z.of_nat (Z.to_nat (m s)))),
           (Z.leb_spec (- Z.of_nat (Z.to_nat (m s))) c);
    try discriminate; lia.
Qed.

(** X3: [result] subscripts the board as Python does: a row or a column below
    zero counts from the end, so (r - m, c), (r, c - m) and (r - m, c - m)
    are the move (r, c); outside of -m .. m - 1 the move raises
    [IndexError].  [actions] lists no move with a subscript below zero. *)
Theorem result_counts_negative_subscripts_from_the_end (s : State) (r c : Z) :
  wf_board s ->
  (0 <= r < m s -> 0 <= c < m s ->
     result s (r - m s, c) = result s (r, c) /\
     result s (r, c - m s) = result s (r, c) /\
     result s (r - m s, c - m s) = result s (r, c) /\
     ~ In (r - m s, c) (actions s) /\ ~ In (r, c - m s) (actions s)) /\
  (r < - m s \/ m s <= r \/ c < - m s \/ m s <= c ->
     result s (r, c) = Raise IndexError).
Proof.
  intros Hwf. split.
  - intros Hr Hc. rewrite !result_by_position.
    rewrite (position_alias s r c (r - m s) c), (position_alias s r c r (c - m s)),
            (position_alias s r c (r - m s) (c - m s)), (position_alias s r c r c);
      auto.
    repeat split; try reflexivity; rewrite in_actions; lia.
  - intros Hout. rewrite result_by_position.
    now rewrite (position_out_of_range s r c Hwf Hout).
Qed.

(** X2: [actions] lists exactly the moves inside the board that [result]
    accepts, each once and in (row, col) order. *)
Theorem actions_are_the_moves_result_accepts (s : State) :
  wf_board s ->
  (forall r c, In (r, c) (actions s) <->
     0 <= r < m s /\ 0 <= c < m s /\ exists s', result s (r, c) = Ok s') /\
  NoDup (actions s) /\ StronglySorted Move_lt (actions s).
Proof.
  intros Hwf. split; [|split; [apply actions_NoDup | apply actions_sorted]].
  intros r c. rewrite in_actions. split.
  - intros (Hr & Hc & Hcell). split; [assumption|]. split; [assumption|].
    assert (Hin : In (r, c) (actions s)) by (apply in_actions; auto).
    rewrite (result_legal s _ Hwf Hin). eauto.
  - intros (Hr & Hc & s' & Hres). split; [assumption|]. split; [assumption|].
    rewrite result_by_position, (position_in_board s r c Hwf Hr Hc) in Hres.
    rewrite cell_at_nat by lia.
    destruct (cell_nat (board s) (Z.to_nat r) (Z.to_nat c)); [discriminate | reflexivity].
Qed.

Lemma count_update_empty (row : list cell) (c : nat) (q p : Player) :
  nth_error row c = Some None ->
  count (update_nth c (fun _ : cell => Some q) row) p
  = count row p + (if Player_eqb q p then 1 else 0).
Proof.
  unfold count. revert c. induction row as [|x row IH]; intros [|c] H; simpl in *;
    try discriminate.
  - injection H as ->.
    destruct (cell_eq_dec None (Some p)) as [E|_]; [discriminate|].
    destruct (cell_eq_dec (Some q) (Some p)) as [E|E].
    + injection E as ->. destruct p; simpl; lia.
    + destruct q, p; simpl; try lia; now contradiction E.
  - specialize (IH c H).
    destruct (cell_eq_dec x (Some p)); lia.
Qed.

Lemma zsum_map_update_nth {A : Type} (f : A -> Z) (g : A -> A) (l : list A)
  (n : nat) (x : A) :
  nth_error l n = Some x ->
  zsum (map f (update_nth n g l)) = zsum (map f l) + f (g x) - f x.
Proof.
  revert n. induction l as [|y l IH]; intros [|n] H; simpl in *; try discriminate.
  - injection H as ->. lia.
  - rewrite (IH n H). lia.
Qed.

Lemma marks_place (s : State) (r c : nat) (p : Player) (row : list cell) :
  nth_error (board s) r = Some row -> nth_error row c = Some None ->
  marks p (place s r c) = marks p s + (if Player_eqb (player s) p then 1 else 0).
Proof.
  intros Hrow Hcell. unfold marks, place, set_cell. cbn [board].
  rewrite (zsum_map_update_nth _ _ _ r row Hrow). cbv beta.
  rewrite (count_update_empty row c (player s) p Hcell). lia.
Qed.

Lemma count_no_marks (line : list cell) (p : Player) :
  Forall (fun x => x = None) line -> count line p = 0.
Proof.
  unfold count. induction 1 as [|x line Hx _ IH]; simpl; [reflexivity|].
  subst x. destruct (cell_eq_dec None (Some p)); [discriminate | exact IH].
Qed.

Lemma marks_initial_state (m0 k0 : Z) (p : Player) : marks p (initial_state m0 k0) = 0.
Proof.
  unfold marks, initial_state. cbn [board]. rewrite map_map.
  set (row := map (fun _ : Z => @None Player) (range m0)).
  assert (Hrow : count row p = 0).
  { apply count_no_marks, Forall_forall. intros x Hx.
    apply in_map_iff in Hx. now destruct Hx as (_ & <- & _). }
  clearbody row.
  induction (range m0) as [|i l IH]; simpl; [reflexivity|].
  rewrite IH, Hrow. reflexivity.
Qed.

Lemma player_turn (s : State) :
  0 <= moves s ->
  (player s = X <-> moves s mod 2 = 0) /\ (player s = O <-> moves s mod 2 = 1).
Proof.
  intros H. unfold player. pose proof (Z.mod_pos_bound (moves s) 2 ltac:(lia)).
  destruct (Z.eqb_spec (moves s mod 2) 0); split; split; intros; try congruence; lia.
Qed.

Lemma reachable_invariant (m0 k0 : Z) (s : State) :
  0 <= m0 -> reachable m0 k0 s ->
  wf_state s /\ m s = m0 /\ k s = k0 /\
  moves s = marks X s + marks O s /\
  marks X s = marks O s + (match player s with X => 0 | O => 1 end).
Proof.
  intros Hm. induction 1 as [|s s' a Hreach IH Hres].
  - split; [now apply initial_state_wf|]. rewrite !marks_initial_state. auto.
  - destruct IH as (Hs & Hms & Hks & Hmoves & Hturn). pose proof Hs as [Hwf _].
    destruct (result_normalizes s s' a Hwf Hres) as (r & c & Hpos & Hin & Hres' & -> & Hcell).
    split; [exact (result_wf_state s _ _ Hs Hin Hres')|].
    split; [assumption|]. split; [assumption|].
    destruct (position_cell s a r c Hpos) as (row & x & Hrow & Hx).
    assert (x = None) as ->.
    { unfold cell_nat in Hcell. now rewrite Hrow, Hx in Hcell. }
    rewrite !(marks_place s r c _ row Hrow Hx).
    assert (Hnn : 0 <= moves s).
    { destruct Hs as [_ ->]. lia. }
    destruct (player_turn s Hnn) as [HX HO].
    assert (Hnn' : 0 <= moves (place s r c)) by (cbn [moves place]; lia).
    destruct (player_turn (place s r c) Hnn') as [HX' HO'].
    cbn [moves place] in HX', HO' |- *.
    destruct (player s) eqn:Hpl; cbn [Player_eqb].
    + assert (E : moves s mod 2 = 0) by now apply HX.
      assert (E' : (moves s + 1) mod 2 = 1)
        by (rewrite Z.add_mod, E by lia; reflexivity).
      apply HO' in E'. rewrite E'. lia.
    + assert (E : moves s mod 2 = 1) by now apply HO.
      assert (E' : (moves s + 1) mod 2 = 0)
        by (rewrite Z.add_mod, E by lia; reflexivity).
      apply HX' in E'. rewrite E'. lia.
Qed.

Lemma actions_count (s : State) :
  wf_state s -> Z.of_nat (length (actions s)) = m s ^ 2 - moves s.
Proof.
  intros [[Hm _] Hmoves]. pose proof (actions_occupied_total s) as Htot.
  rewrite Hmoves. nia.
Qed.

(** X4: The states of a game, from [initial_state] on through [result]: the
    board stays m x m with the same win length, the move count is the number of
    marks, X has as many marks as O when X is to move and one more when
    O is, and the legal moves are the m * m cells less the moves made. *)
Theorem reachable_states_keep_the_counts (m0 k0 : Z) (s : State) :
  0 <= m0 -> reachable m0 k0 s ->
  wf_board s /\ m s = m0 /\ k s = k0 /\
  moves s = marks X s + marks O s /\
  marks X s = marks O s + (match player s with X => 0 | O => 1 end) /\
  Z.of_nat (length (actions s)) = m0 ^ 2 - moves s /\
  (moves s = m0 ^ 2 <-> actions s = []).
Proof.
  intros Hm Hreach.
  destruct (reachable_invariant m0 k0 s Hm Hreach) as (Hs & Hms & Hks & Hmoves & Hturn).
  pose proof (actions_count s Hs) as Hcount. rewrite Hms in Hcount.
  split; [apply Hs|]. repeat (split; [assumption|]).
  split; [intros E; destruct (actions s); [reflexivity | simpl in Hcount; lia]
         |intros E; rewrite E in Hcount; simpl in Hcount; lia].
Qed.

(** ** Boards on which nobody wins *)

Lemma check_line_loop_no_marks (line : list cell) (k : Z) :
  Forall (fun x => x = None) line -> check_line_loop line k 0 None = None.
Proof.
  induction 1 as [|x line Hx _ IH]; simpl; [reflexivity|]. subst x. exact IH.
Qed.

Lemma check_line_no_marks (line : list cell) (k : Z) :
  Forall (fun x => x = None) line -> _check_line line k = None.
Proof.
  intros H. unfold _check_line.
  destruct (Z.of_nat (length line) <? k); [reflexivity|].
  now apply check_line_loop_no_marks.
Qed.

Lemma check_line_short (line : list cell) (k : Z) :
  Z.of_nat (length line) < k -> _check_line line k = None.
Proof. intros H. unfold _check_line. apply Z.ltb_lt in H. now rewrite H. Qed.

Lemma first_winner_none (lines : list (list cell)) (k : Z) :
  (forall line, In line lines -> _check_line line k = None) ->
  first_winner lines k = None.
Proof.
  induction lines as [|line lines IH]; intros H; simpl; [reflexivity|].
  rewrite (H line (or_introl eq_refl)). apply IH. intros l Hl. apply H. now right.
Qed.

Lemma winner_short_lines (s : State) :
  wf_board s -> m s < k s -> winner s = None.
Proof.
  intros (Hm & Hlen & Hrows) Hk. rewrite winner_all_lines.
  apply first_winner_none. intros line Hline. apply check_line_short.
  apply in_all_lines in Hline.
  destruct Hline as [Hrow | [(c & _ & ->) | [(sr & sc & H & _) | (sr & sc & H & _)]]];
    try lia.
  - rewrite Forall_forall in Hrows. rewrite (Hrows line Hrow). lia.
  - unfold column. rewrite length_map, length_range. lia.
Qed.

Lemma winner_initial_state (m0 k0 : Z) : winner (initial_state m0 k0) = None.
Proof.
  rewrite winner_all_lines. apply first_winner_none. intros line Hline.
  apply check_line_no_marks, Forall_forall. intros x Hx.
  apply in_all_lines in Hline.
  destruct Hline as [Hrow | [(c & _ & ->) | [(sr & sc & _ & _ & ->) | (sr & sc & _ & _ & ->)]]].
  - cbn [board initial_state] in Hrow. apply in_map_iff in Hrow.
    destruct Hrow as (_ & <- & _). apply in_map_iff in Hx. now destruct Hx as (_ & <- & _).
  - apply in_map_iff in Hx. destruct Hx as (r & <- & _). apply initial_state_cell.
  - apply in_map_iff in Hx. destruct Hx as (i & <- & _). apply initial_state_cell.
  - apply in_map_iff in Hx. destruct Hx as (i & <- & _). apply initial_state_cell.
Qed.

Lemma value_without_winner (s : State) :
  wf_state s -> m s < k s -> value s = Fin 0.
Proof.
  revert s. apply (game_induction_state (fun s => m s < k s -> value s = Fin 0)).
  intros s Hs IH Hk. pose proof Hs as [Hwf _].
  destruct (terminal s) eqn:Hterm.
  - rewrite (value_terminal s Hwf Hterm), (winner_short_lines s Hwf Hk). reflexivity.
  - destruct (minimax_ab_best_move s false Hs Hterm)
      as (l & u & a & l1 & l2 & _ & _ & _ & _ & Ha & Hv & Hc & _).
    rewrite Hv, <- Hc. pose proof (result_legal s a Hwf Ha) as Hres.
    unfold cvalue. rewrite Hres. apply (IH a _ Ha Hres). exact Hk.
Qed.

(** X6: A win length greater than the board size, which [initial_state] and
    [main.py] accept: no line is long enough, so [winner] reports nobody,
    the game ends only when the board is full, and the minimax value of
    every state is the draw. *)
Theorem nobody_wins_when_k_exceeds_m (s : State) :
  wf_state s -> m s < k s ->
  winner s = None /\
  (terminal s = true <-> actions s = []) /\
  (terminal s = true -> utility s = Some 0) /\
  exists mv, minimax s = Ok (Fin 0, mv).
Proof.
  intros Hs Hk. pose proof Hs as [Hwf _].
  pose proof (winner_short_lines s Hwf Hk) as Hw.
  split; [assumption|]. split; [|split].
  - unfold terminal. rewrite Hw. cbn [is_None negb orb].
    pose proof (actions_count s Hs) as Hcount.
    rewrite Z.eqb_eq. split.
    + intros E. destruct (actions s); [reflexivity | simpl in Hcount; lia].
    + intros E. rewrite E in Hcount. simpl in Hcount. lia.
  - intros Hterm. rewrite (terminal_utility s Hterm), Hw. reflexivity.
  - destruct (minimax_total s Hwf) as (v & mv & Hmm).
    pose proof (minimax_value s v mv Hmm) as Hv.
    rewrite (value_without_winner s Hs Hk) in Hv. subst v. eauto.
Qed.

Lemma searches_on_a_negative_size (m0 k0 : Z) :
  (m0 < 0 -> minimax_ab (initial_state m0 k0) NegInf PosInf true = Ok (NegInf, None)) /\
  (m0 < 0 -> forall depth eval_fn alpha beta, depth <> 0 ->
     search (initial_state m0 k0) depth eval_fn alpha beta = Ok (NegInf, None)).
Proof.
  assert (H : m0 < 0 ->
            terminal (initial_state m0 k0) = false /\ actions (initial_state m0 k0) = []).
  { intros Hm. split.
    - unfold terminal. rewrite winner_initial_state.
      cbn [is_None negb orb moves m initial_state]. apply Z.eqb_neq. nia.
    - unfold actions. cbn [m initial_state]. unfold range.
      replace (Z.to_nat m0) with 0%nat by lia. reflexivity. }
  split.
  - intros Hm. destruct (H Hm) as [Hnt Hacts].
    unfold minimax_ab, depth_bound. rewrite Hacts.
    cbn [length minimax_ab_fuel]. rewrite Hnt. unfold ordered_moves.
    rewrite Hacts. reflexivity.
  - intros Hm depth eval_fn alpha beta Hd. destruct (H Hm) as [Hnt Hacts].
    unfold search, depth_bound. rewrite Hacts.
    cbn [length search_fuel]. rewrite Hnt, Hacts.
    destruct (Z.eqb_spec depth 0); [contradiction | reflexivity].
Qed.

(** X1: [initial_state] for every m and k: nobody has won and X is to move;
    the board of a positive size is open with its m * m cells as the legal
    moves; the board of size zero is terminal at once; a negative size
    gives a state that is not terminal and has no legal move, on which
    [minimax], [minimax_ab] and [search] return minus infinity and no
    move. *)
Theorem initial_state_by_board_size (m0 k0 : Z) :
  winner (initial_state m0 k0) = None /\
  player (initial_state m0 k0) = X /\
  (0 < m0 ->
     terminal (initial_state m0 k0) = false /\
     length (actions (initial_state m0 k0)) = Z.to_nat (m0 ^ 2) /\
     forall r c, In (r, c) (actions (initial_state m0 k0)) <->
                 0 <= r < m0 /\ 0 <= c < m0) /\
  (m0 = 0 -> terminal (initial_state m0 k0) = true) /\
  (m0 < 0 ->
     terminal (initial_state m0 k0) = false /\
     actions (initial_state m0 k0) = [] /\
     minimax (initial_state m0 k0) = Ok (NegInf, None) /\
     (forall alpha beta use_ordering,
        minimax_ab (initial_state m0 k0) alpha beta use_ordering = Ok (NegInf, None)) /\
     (forall depth eval_fn alpha beta, depth <> 0 ->
        search (initial_state m0 k0) depth eval_fn alpha beta = Ok (NegInf, None))).
Proof.
  pose proof (winner_initial_state m0 k0) as Hw.
  split; [assumption|]. split; [reflexivity|].
  assert (Hterm : terminal (initial_state m0 k0) = (0 =? m0 ^ 2)).
  { unfold terminal. rewrite Hw. reflexivity. }
  split; [|split].
  - intros Hm. split; [rewrite Hterm; apply Z.eqb_neq; nia|].
    split; [apply initial_state_actions_length; lia|].
    intros r c. rewrite in_actions, initial_state_cell. simpl. tauto.
  - intros ->. rewrite Hterm. reflexivity.
  - intros Hm.
    assert (Hnt : terminal (initial_state m0 k0) = false)
      by (rewrite Hterm; apply Z.eqb_neq; nia).
    assert (Hacts : actions (initial_state m0 k0) = []).
    { unfold actions. cbn [m initial_state]. unfold range.
      replace (Z.to_nat m0) with 0%nat by lia. reflexivity. }
    split; [assumption|]. split; [assumption|].
    split; [|split].
    + unfold minimax, depth_bound. rewrite Hacts. cbn [length minimax_fuel].
      rewrite Hnt, Hacts. reflexivity.
    + intros alpha beta uo. unfold minimax_ab, depth_bound. rewrite Hacts.
      cbn [length minimax_ab_fuel]. rewrite Hnt. unfold ordered_moves.
      rewrite Hacts. now destruct uo.
    + intros depth eval_fn alpha beta Hd. unfold search, depth_bound. rewrite Hacts.
      cbn [length search_fuel]. rewrite Hnt, Hacts.
      destruct (Z.eqb_spec depth 0); [contradiction | reflexivity].
Qed.

(** ** Starting a game from [main.py] *)

Lemma search_plays_legally (depth : Z) (eval_fn : State -> Q) (p : Player) :
  depth <> 0 ->
  plays_legally (fun state => search state depth eval_fn NegInf PosInf) p.
Proof.
  intros Hd s Hs Hterm _.
  destruct (search_keeps (fun _ => True) eval_fn (m s) (k s) I I I
              (fun _ _ _ _ => I) s Hs eq_refl eq_refl depth NegInf PosInf)
    as (q & mv & Hr & _ & _ & Hmv).
  destruct (Hmv Hterm Hd) as (a & -> & Ha). eauto.
Qed.

Lemma play_game_no_move {V1 V2 : Type} (get_human_move : State -> res Move)
  (agent1_fn : State -> res (SearchResult V1))
  (agent2_fn : option (State -> res (SearchResult V2))) (m0 k0 : Z) (v : ext V1) :
  m0 <> 0 -> agent1_fn (initial_state m0 k0) = Ok (v, None) ->
  play_game get_human_move agent1_fn agent2_fn m0 k0 = Raise TypeError.
Proof.
  intros Hm Hag. unfold play_game. cbn [play_loop].
  assert (Hnt : terminal (initial_state m0 k0) = false).
  { unfold terminal. rewrite winner_initial_state. cbn [is_None negb orb moves m initial_state].
    apply Z.eqb_neq. nia. }
  rewrite Hnt. cbn [negb].
  change (player (initial_state m0 k0)) with X. cbv iota.
  rewrite Hag. reflexivity.
Qed.

Lemma games_on_a_negative_size (get_human_move : State -> res Move) (m0 k0 : Z) :
  m0 < 0 ->
  play_ai_vs_ai get_human_move m0 k0 = Raise TypeError /\
  play_human_vs_ai get_human_move m0 k0 = Raise TypeError.
Proof.
  intros Hneg. destruct (searches_on_a_negative_size m0 k0) as (Hab & Hsearch).
  split.
  - unfold play_ai_vs_ai. destruct (Z.eqb_spec m0 3); [lia|]. cbv zeta.
    rewrite (play_game_no_move _ _ _ m0 k0 NegInf); [reflexivity | lia|].
    apply Hsearch; [assumption | discriminate].
  - unfold play_human_vs_ai.
    rewrite (play_game_no_move _ _ _ m0 k0 NegInf); [reflexivity | lia|].
    now apply Hab.
Qed.

(** X26: The two ways [main.py] starts a game, for every board size it lets
    through: on a negative size the first agent has no move to return and
    the game stops with a [TypeError]; from size zero on a game between the
    agents runs to its end, and so does a game against a human who makes
    legal moves. *)
Theorem starting_a_game_by_board_size (get_human_move : State -> res Move)
  (m0 k0 : Z) :
  play_ai_vs_ai get_human_move m0 k0
    = (if m0 <? 0 then Raise TypeError else Ok tt) /\
  (m0 < 0 -> play_human_vs_ai get_human_move m0 k0 = Raise TypeError) /\
  (0 <= m0 ->
   replies_legally get_human_move (@None (State -> res (SearchResult Z))) ->
   play_human_vs_ai get_human_move m0 k0 = Ok tt).
Proof.
  destruct (searches_on_a_negative_size m0 k0) as (Hab & Hsearch).
  split; [|split].
  - unfold play_ai_vs_ai. destruct (Z.ltb_spec m0 0) as [Hneg | Hpos].
    + destruct (Z.eqb_spec m0 3); [lia|]. cbv zeta.
      rewrite (play_game_no_move _ _ _ m0 k0 NegInf); [reflexivity | lia|].
      apply Hsearch; [assumption | discriminate].
    + destruct (Z.eqb_spec m0 3) as [->|_]; cbv zeta.
      * destruct (play_game_legal get_human_move
                    (fun state => minimax_ab state NegInf PosInf true)
                    (Some (fun state => minimax_ab state NegInf PosInf true)) 3 k0)
          as (final & -> & _); [lia | | | reflexivity].
        -- apply plays_optimally_legally, minimax_ab_plays_optimally.
        -- apply plays_optimally_legally, minimax_ab_plays_optimally.
      * destruct (play_game_legal get_human_move
                    (fun state => search state 3 evaluate NegInf PosInf)
                    (Some (fun state => search state 3 evaluate NegInf PosInf)) m0 k0)
          as (final & -> & _); [lia | | | reflexivity].
        -- apply search_plays_legally. discriminate.
        -- apply search_plays_legally. discriminate.
  - intros Hneg. unfold play_human_vs_ai.
    rewrite (play_game_no_move _ _ _ m0 k0 NegInf); [reflexivity | lia|].
    now apply Hab.
  - intros Hpos Hhuman. unfold play_human_vs_ai.
    destruct (play_game_legal get_human_move
                (fun state => minimax_ab state NegInf PosInf true)
                (@None (State -> res (SearchResult Z))) m0 k0)
      as (final & -> & _); [lia | | assumption | reflexivity].
    apply plays_optimally_legally, minimax_ab_plays_optimally.
Qed.

(** ** Exchanging the marks of the two players *)

Lemma getitem_map {A B : Type} (f : A -> B) (l : list A) (i : Z) :
  getitem (map f l) i = option_map f (getitem l i).
Proof.
  unfold getitem. rewrite length_map.
  destruct (norm_index (length l) i); [apply nth_error_map | reflexivity].
Qed.

Lemma cell_at_swap (b : list (list cell)) (r c : Z) :
  cell_at (map (map swap_cell) b) r c = swap_cell (cell_at b r c).
Proof.
  unfold cell_at. rewrite getitem_map.
  destruct (getitem b r) as [row|]; simpl; [|reflexivity].
  rewrite getitem_map. now destruct (getitem row c).
Qed.

Lemma map_flat_map_lines {A B C : Type} (g : B -> C) (f : A -> list B) (l : list A) :
  map g (flat_map f l) = flat_map (fun a => map g (f a)) l.
Proof.
  induction l as [|a l IH]; simpl; [reflexivity|]. now rewrite map_app, IH.
Qed.

Lemma columns_swap (b : list (list cell)) (m0 : Z) :
  columns (map (map swap_cell) b) m0 = map (map swap_cell) (columns b m0).
Proof.
  unfold columns, column. rewrite map_map. apply map_ext. intros c.
  rewrite map_map. apply map_ext. intros r. apply cell_at_swap.
Qed.

Lemma diagonals_swap (b : list (list cell)) (m0 k0 : Z) :
  diagonals (map (map swap_cell) b) m0 k0 = map (map swap_cell) (diagonals b m0 k0).
Proof.
  unfold diagonals, diagonal. rewrite map_flat_map_lines.
  apply flat_map_ext. intros sr. rewrite map_map. apply map_ext. intros sc.
  rewrite map_map. apply map_ext. intros i. apply cell_at_swap.
Qed.

Lemma anti_diagonals_swap (b : list (list cell)) (m0 k0 : Z) :
  anti_diagonals (map (map swap_cell) b) m0 k0
  = map (map swap_cell) (anti_diagonals b m0 k0).
Proof.
  unfold anti_diagonals, anti_diagonal. rewrite map_flat_map_lines.
  apply flat_map_ext. intros sr. rewrite map_map. apply map_ext. intros sc.
  rewrite map_map. apply map_ext. intros i. apply cell_at_swap.
Qed.

Lemma check_line_loop_swap (line : list cell) (k0 count0 : Z) (current : cell) :
  check_line_loop (map swap_cell line) k0 count0 (swap_cell current)
  = swap_cell (check_line_loop line k0 count0 current).
Proof.
  revert count0 current. induction line as [|x line IH]; intros count0 current; simpl;
    [reflexivity|].
  assert (E1 : is_None (swap_cell x) = is_None x) by now destruct x.
  assert (E2 : cell_eqb (swap_cell x) (swap_cell current) = cell_eqb x current)
    by now destruct x as [[|]|], current as [[|]|].
  rewrite E1, E2.
  destruct (negb (is_None x) && cell_eqb x current).
  - destruct (count0 + 1 >=? k0); [reflexivity | apply IH].
  - apply IH.
Qed.

Lemma check_line_swap (line : list cell) (k0 : Z) :
  _check_line (map swap_cell line) k0 = swap_cell (_check_line line k0).
Proof.
  unfold _check_line. rewrite length_map.
  destruct (Z.of_nat (length line) <? k0); [reflexivity|].
  apply (check_line_loop_swap line k0 0 None).
Qed.

Lemma first_winner_swap (lines : list (list cell)) (k0 : Z) :
  first_winner (map (map swap_cell) lines) k0 = swap_cell (first_winner lines k0).
Proof.
  induction lines as [|line lines IH]; simpl; [reflexivity|].
  rewrite check_line_swap. destruct (_check_line line k0); simpl; [reflexivity | exact IH].
Qed.

Lemma winner_swap (s : State) : winner (swap_marks s) = swap_cell (winner s).
Proof.
  unfold winner, swap_marks. cbn [board m k].
  rewrite columns_swap, diagonals_swap, anti_diagonals_swap, !first_winner_swap.
  destruct (first_winner (board s) (k s)); [reflexivity|].
  destruct (first_winner (columns (board s) (m s)) (k s)); [reflexivity|].
  destruct (first_winner (diagonals (board s) (m s) (k s)) (k s)); reflexivity.
Qed.

Lemma terminal_swap (s : State) : terminal (swap_marks s) = terminal s.
Proof.
  unfold terminal. rewrite winner_swap. cbn [moves m swap_marks].
  now destruct (winner s).
Qed.

Lemma utility_swap (s : State) : utility (swap_marks s) = option_map Z.opp (utility s).
Proof.
  unfold utility. rewrite terminal_swap, winner_swap.
  destruct (terminal s); [|reflexivity]. now destruct (winner s) as [[|]|].
Qed.

Lemma count_swap (w : list cell) (p : Player) :
  count (map swap_cell w) p = count w (other p).
Proof.
  unfold count. f_equal. induction w as [|x w IH]; simpl; [reflexivity|].
  destruct (cell_eq_dec (swap_cell x) (Some p)) as [E|E],
           (cell_eq_dec x (Some (other p))) as [E'|E']; try (now rewrite IH).
  - exfalso. apply E'. destruct x as [[|]|], p; simpl in *; congruence.
  - exfalso. apply E. subst x. now destruct p.
Qed.

Lemma window_score_swap (w : list cell) :
  window_score (map swap_cell w) = - window_score w.
Proof.
  unfold window_score. rewrite !count_swap. cbn [other].
  assert (Hx : 0 <= count w X) by (unfold count; lia).
  assert (Ho : 0 <= count w O) by (unfold count; lia).
  destruct (Z.ltb_spec 0 (count w X)), (Z.ltb_spec 0 (count w O)),
           (Z.eqb_spec (count w X) 0), (Z.eqb_spec (count w O) 0);
    cbn [andb]; lia.
Qed.

Lemma slice_map {A B : Type} (f : A -> B) (l : list A) (a b : Z) :
  slice (map f l) a b = map f (slice l a b).
Proof. unfold slice. now rewrite length_map, skipn_map, firstn_map. Qed.

Lemma line_score_windows (k0 : Z) (line : list cell) :
  line_score k0 line
  = zsum (map (fun i => window_score (slice line i (i + k0)))
              (range (Z.of_nat (length line) - k0 + 1))).
Proof.
  unfold line_score, _count_sequences.
  pose proof (count_sequences_loop_spec line k0
                (range (Z.of_nat (length line) - k0 + 1)) 0 0) as H.
  destruct (count_sequences_loop line k0 _ 0 0) as [x_s o_s]. lia.
Qed.

Lemma zsum_map_opp {A : Type} (f g : A -> Z) (l : list A) :
  (forall a, f a = - g a) -> zsum (map f l) = - zsum (map g l).
Proof.
  intros H. induction l as [|a l IH]; simpl; [reflexivity|]. rewrite H, IH. lia.
Qed.

Lemma line_score_swap (k0 : Z) (line : list cell) :
  line_score k0 (map swap_cell line) = - line_score k0 line.
Proof.
  rewrite !line_score_windows, length_map. apply zsum_map_opp.
  intros i. rewrite slice_map. apply window_score_swap.
Qed.

Lemma evaluate_lines_scores (lines : list (list cell)) (k0 : Z) :
  (evaluate_lines lines k0 == inject_Z (zsum (map (line_score k0) lines)))%Q.
Proof.
  unfold evaluate_lines.
  assert (H : forall acc : Q,
            (fold_left (fun score line =>
                          let '(x_s, o_s) := _count_sequences line k0 in
                          score + inject_Z (x_s - o_s)) lines acc
             == acc + inject_Z (zsum (map (line_score k0) lines)))%Q).
  { induction lines as [|line lines IH]; intros acc; simpl.
    - unfold inject_Z. ring.
    - rewrite IH. unfold line_score at 2.
      destruct (_count_sequences line k0) as [x_s o_s].
      rewrite inject_Z_plus. ring. }
  rewrite H. ring.
Qed.

Lemma evaluate_lines_swap (lines : list (list cell)) (k0 : Z) :
  (evaluate_lines (map (map swap_cell) lines) k0 == - evaluate_lines lines k0)%Q.
Proof.
  rewrite !evaluate_lines_scores, map_map.
  rewrite (zsum_map_opp _ (line_score k0)) by (intros; apply line_score_swap).
  rewrite inject_Z_opp. reflexivity.
Qed.

Lemma center_control_bonus_swap (b : list (list cell)) (m0 : Z) :
  _center_control_bonus (map (map swap_cell) b) m0 = (- _center_control_bonus b m0)%Q.
Proof.
  unfold _center_control_bonus. rewrite cell_at_swap.
  now destruct (cell_at b (m0 / 2) (m0 / 2)) as [[|]|].
Qed.

Lemma evaluate_swap (s : State) : (evaluate (swap_marks s) == - evaluate s)%Q.
Proof.
  unfold evaluate. rewrite terminal_swap, utility_swap.
  destruct (terminal s).
  - destruct (utility s) as [u|]; cbn [option_map];
      [rewrite inject_Z_opp|]; reflexivity.
  - cbn [board m k swap_marks].
    unfold _evaluate_rows, _evaluate_columns, _evaluate_diagonals,
           _evaluate_anti_diagonals.
    rewrite columns_swap, diagonals_swap, anti_diagonals_swap,
            center_control_bonus_swap, !evaluate_lines_swap.
    ring.
Qed.

Lemma swap_marks_wf_board (s : State) : wf_board s -> wf_board (swap_marks s).
Proof.
  intros (Hm & Hlen & Hrows). unfold wf_board, swap_marks. cbn [board m].
  split; [assumption|]. split; [now rewrite length_map|].
  apply Forall_map. eapply Forall_impl; [|exact Hrows].
  intros row Hrow. now rewrite length_map.
Qed.

(** X7: Exchanging the marks of the two players on a board exchanges the
    players in what [winner] reports, leaves [terminal] as it is and
    negates [utility] and [evaluate]: the evaluation treats the two
    players alike. *)
Theorem exchanging_the_marks_negates_the_evaluation (s : State) :
  wf_board s ->
  wf_board (swap_marks s) /\
  winner (swap_marks s) = option_map other (winner s) /\
  terminal (swap_marks s) = terminal s /\
  utility (swap_marks s) = option_map Z.opp (utility s) /\
  (evaluate (swap_marks s) == - evaluate s)%Q.
Proof.
  intros Hwf. split; [now apply swap_marks_wf_board|].
  split; [apply winner_swap|]. split; [apply terminal_swap|].
  split; [apply utility_swap | apply evaluate_swap].
Qed.

(** ** The order [order_moves] returns *)

Lemma Move_ltb_asym (a b : Move) : Move_ltb a b = true -> Move_ltb b a = false.
Proof.
  intros H. apply Move_ltb_lt in H.
  destruct (Move_ltb b a) eqn:E; [|reflexivity].
  apply Move_ltb_lt in E. exfalso.
  exact (Move_lt_irrefl a (Move_lt_trans _ _ _ H E)).
Qed.

Lemma Move_ltb_lt_le (a b c : Move) :
  Move_ltb a b = true -> Move_ltb c b = false -> Move_ltb a c = true.
Proof.
  intros H1 H2. apply Move_ltb_lt in H1. apply Move_ltb_lt.
  assert (H3 : ~ Move_lt c b) by (intros H; apply Move_ltb_lt in H; congruence).
  unfold Move_lt in *. lia.
Qed.

Lemma sorted_ascending (l : list Move) :
  StronglySorted (fun a b => Move_ltb b a = false) (sorted l).
Proof.
  unfold sorted.
  apply (StronglySorted_map
           (fun x y : Move * Move =>
              fst x = snd x /\ fst y = snd y /\
              keyed_before Move_ltb (fun _ _ : Move => True) x y)).
  - intros x y (Hx & Hy & [H | [H _]]); rewrite <- Hx, <- Hy; [|exact H].
    now apply Move_ltb_asym.
  - apply (StronglySorted_weaken
             (keyed_before Move_ltb (fun _ _ : Move => True)) _
             (fun x : Move * Move => fst x = snd x)); [auto| |].
    + apply (Permutation_Forall (Permutation_sym (sort_keyed_perm Move_ltb _))).
      apply Forall_map, Forall_forall. reflexivity.
    + apply sort_keyed_stable.
      * exact Move_ltb_asym.
      * exact Move_ltb_lt_le.
      * induction l as [|a l IH]; simpl; constructor; [exact IH|].
        apply Forall_forall. intros; exact I.
Qed.

Lemma ascending_NoDup_strict (l : list Move) :
  NoDup l -> StronglySorted (fun a b => Move_ltb b a = false) l ->
  StronglySorted Move_lt l.
Proof.
  intros Hnd Hs. induction Hs as [|a l Hl IH Ha]; [constructor|].
  apply NoDup_cons_iff in Hnd. destruct Hnd as [Hnotin Hnd].
  constructor; [now apply IH|].
  rewrite Forall_forall in Ha |- *. intros b Hb.
  specialize (Ha b Hb).
  assert (Hne : a <> b) by (intros ->; contradiction).
  assert (H : ~ Move_lt b a) by (intros H; apply Move_ltb_lt in H; congruence).
  destruct a as [r1 c1], b as [r2 c2]. unfold Move_lt in *. simpl in *.
  destruct (Z.eq_dec r1 r2) as [->|]; [|lia].
  destruct (Z.eq_dec c1 c2) as [->|]; [congruence | lia].
Qed.

(** X10: [order_moves] without the heuristic, on any list of moves: the moves
    come back in ascending (row, col) order, strictly ascending when no
    move is listed twice; a list in that order, as [actions] gives it, is
    returned as it is, so ordering twice changes nothing. *)
Theorem order_moves_without_heuristic_sorts (s : State) (moves : list Move) :
  exists l,
    order_moves s moves false = Ok l /\ Permutation l moves /\
    StronglySorted (fun a b => Move_ltb b a = false) l /\
    (NoDup moves -> StronglySorted Move_lt l) /\
    (StronglySorted Move_lt moves -> l = moves) /\
    order_moves s l false = Ok l /\
    order_moves s (actions s) false = Ok (actions s).
Proof.
  exists (sorted moves). unfold order_moves. cbn [negb].
  pose proof (sorted_perm moves) as Hperm.
  pose proof (sorted_ascending moves) as Hasc.
  split; [reflexivity|]. split; [assumption|]. split; [assumption|].
  split; [|split; [|split]].
  - intros Hnd. apply ascending_NoDup_strict; [|assumption].
    now apply (Permutation_NoDup (Permutation_sym Hperm)).
  - apply sorted_id.
  - f_equal. unfold sorted at 1. rewrite sort_keyed_id.
    + rewrite map_map. simpl. apply map_id.
    + apply (StronglySorted_map (fun a b => Move_ltb b a = false)); [|assumption].
      intros a b H. exact H.
  - now rewrite sorted_actions.
Qed.

(** X11: [order_moves] with the heuristic on the list [actions] gives, as the
    searches call it: the moves come back all and once, ascending in the key
    that puts a move that wins at once first, then the better evaluation
    for the player to move, then the shorter distance to the centre, then
    the row, then the column. *)
Theorem order_moves_orders_the_legal_moves (s : State) :
  wf_board s ->
  exists l,
    order_moves s (actions s) true = Ok l /\
    Permutation l (actions s) /\ NoDup l /\
    StronglySorted (specified_order s) l /\
    forall a b, In a l -> In b l -> wins_now s a -> ~ wins_now s b ->
      exists l1 l2 l3, l = l1 ++ a :: l2 ++ b :: l3.
Proof.
  intros Hwf.
  destruct (order_moves_ok s (actions s) true Hwf (incl_refl _)) as [l Hl].
  pose proof (order_moves_perm s _ _ true Hl) as Hperm.
  pose proof (order_moves_ascending_input s (actions s) l (actions_sorted s) Hl) as Hs.
  assert (Hnd : NoDup l)
    by (apply (Permutation_NoDup (Permutation_sym Hperm)), actions_NoDup).
  exists l. split; [assumption|]. split; [assumption|]. split; [assumption|].
  split; [assumption|].
  intros a b Ha Hb Hwa Hwb.
  assert (Hne : a <> b) by (intros ->; contradiction).
  destruct (in_split a l Ha) as (l1 & l2' & Hsplit).
  assert (Hb' : In b l1 \/ In b l2').
  { rewrite Hsplit in Hb. apply in_app_or in Hb.
    destruct Hb as [Hb | [Hb | Hb]]; [now left | congruence | now right]. }
  destruct Hb' as [Hb' | Hb'].
  - exfalso. rewrite Hsplit in Hs.
    pose proof (StronglySorted_app_inv _ l1 (a :: l2') Hs b a Hb' (or_introl eq_refl))
      as (kb & ka & Hkb & Hka & Hlt).
    apply specified_key_inv in Hkb, Hka.
    destruct Hkb as (sb & Hrb & ->), Hka as (sa & Hra & ->).
    destruct Hwa as (sa' & Hra' & Hwin). rewrite Hra in Hra'. injection Hra' as <-.
    apply winner_is_true in Hwin. rewrite Hwin in Hlt.
    destruct (winner_is (winner sb) (player s)) eqn:Hwinb.
    + apply Hwb. exists sb. split; [assumption | now apply winner_is_true].
    + simpl in Hlt. discriminate.
  - destruct (in_split b l2' Hb') as (l2 & l3 & ->).
    exists l1, l2, l3. exact Hsplit.
Qed.

(** ** Moves after the end of the game *)

Lemma winner_runs (s : State) :
  wf_board s -> 2 <= k s ->
  (forall p, winner s = Some p -> has_run s p) /\
  (winner s = None -> forall p, ~ has_run s p).
Proof.
  intros Hwf Hk. rewrite winner_all_lines.
  destruct (first_winner_spec (all_lines s) (k s) Hk) as [Hs Hn]. split.
  - intros p Hp. destruct (Hs p Hp) as (line & Hin & Hrun).
    eapply line_run_sound; eauto. lia.
  - intros Hnone p Hrun.
    destruct (line_run_complete s p Hwf ltac:(lia) Hrun) as (line & Hin & Hl).
    exact (Hn Hnone line p Hin Hl).
Qed.

Lemma has_run_place (s : State) (r c : nat) (p : Player) :
  wf_board s -> (r < Z.to_nat (m s))%nat -> (c < Z.to_nat (m s))%nat ->
  cell_nat (board s) r c = None ->
  has_run s p -> has_run (place s r c) p.
Proof.
  intros Hwf Hr Hc Hcell (r0 & c0 & dr & dc & Hdir & Hrun).
  exists r0, c0, dr, dc. split; [assumption|].
  intros i Hi. cbn [k m place] in Hi |- *.
  destruct (Hrun i Hi) as (Hri & Hci & Hp).
  split; [assumption|]. split; [assumption|].
  rewrite (cell_at_place s r c _ _ Hwf Hr Hc) by lia.
  destruct ((Z.of_nat r =? r0 + i * dr) && (Z.of_nat c =? c0 + i * dc)) eqn:E;
    [|exact Hp].
  exfalso. apply andb_prop in E. destruct E as [E1 E2].
  apply Z.eqb_eq in E1, E2. rewrite <- E1, <- E2 in Hp.
  rewrite cell_at_nat, !Nat2Z.id in Hp by lia. congruence.
Qed.

(** X5: [result] does not ask whether the game is over.  On a full board it
    raises for every move; a move it accepts keeps every run of k marks,
    so a state that is terminal stays terminal, with a winner still
    reported. *)
Theorem a_finished_game_stays_finished (s : State) :
  wf_state s -> 2 <= k s ->
  (actions s = [] ->
     forall a, result s a = Raise ValueError \/ result s a = Raise IndexError) /\
  (forall a s', result s a = Ok s' ->
     (forall p, has_run s p -> has_run s' p) /\
     (terminal s = true -> winner s <> None /\ winner s' <> None /\ terminal s' = true)).
Proof.
  intros Hs Hk. pose proof Hs as [Hwf _]. split.
  - intros Hacts a. destruct (result s a) as [s'|[| | |]] eqn:Hres; auto.
    + destruct (result_normalizes s s' a Hwf Hres) as (r & c & _ & Hin & _).
      rewrite Hacts in Hin. contradiction.
    + exfalso. rewrite result_by_position in Hres.
      destruct (position s a) as [[r c]|]; [|discriminate].
      destruct (cell_nat (board s) r c); discriminate.
    + exfalso. rewrite result_by_position in Hres.
      destruct (position s a) as [[r c]|]; [|discriminate].
      destruct (cell_nat (board s) r c); discriminate.
  - intros a s' Hres.
    destruct (result_normalizes s s' a Hwf Hres) as (r & c & Hpos & Hin & Hres' & -> & Hcell).
    destruct (position_bound s a r c Hwf Hpos) as [Hr Hc].
    assert (Hkeep : forall p, has_run s p -> has_run (place s r c) p)
      by (intros p; now apply has_run_place).
    split; [exact Hkeep|]. intros Hterm.
    assert (Hw : winner s <> None).
    { intros Hnone. unfold terminal in Hterm. rewrite Hnone in Hterm.
      cbn [is_None negb orb] in Hterm. apply Z.eqb_eq in Hterm.
      pose proof (actions_count s Hs) as Hcount.
      destruct (actions s); [contradiction | simpl in Hcount; lia]. }
    split; [assumption|].
    destruct (winner s) as [p|] eqn:Hwp; [clear Hw | congruence].
    destruct (winner_runs s Hwf Hk) as [H1 _].
    pose proof (Hkeep p (H1 p Hwp)) as Hrun'.
    destruct (winner_runs (place s r c) (place_wf_board s r c Hwf) Hk) as [_ H2'].
    assert (Hw' : winner (place s r c) <> None)
      by (intros Hnone; exact (H2' Hnone p Hrun')).
    split; [assumption|].
    unfold terminal. destruct (winner (place s r c)); [reflexivity | congruence].
Qed.

(** ** The command line of [main.py] *)

Lemma contains_app (x : String.string) (l1 l2 : list String.string) :
  contains x (l1 ++ l2) = contains x l1 || contains x l2.
Proof. unfold contains. apply existsb_app. Qed.

Lemma index_first (x : String.string) (pre post : list String.string) :
  contains x pre = false ->
  index x (pre ++ x :: post) = Ok (Z.of_nat (length pre)).
Proof.
  induction pre as [|a pre IH]; intros H; cbn [index app].
  - now rewrite String.eqb_refl.
  - cbn [contains existsb] in H. apply orb_false_elim in H. destruct H as [Ha Hpre].
    rewrite String.eqb_sym, Ha. fold (contains x pre) in Hpre.
    rewrite (IH Hpre). cbn [bind length]. f_equal. lia.
Qed.

Lemma item_after (pre post : list String.string) (x : String.string) :
  item (pre ++ x :: post) (Z.of_nat (length pre) + 1)
  = match post with
    | [] => Raise IndexError
    | a :: _ => Ok a
    end.
Proof.
  unfold item, getitem, norm_index. rewrite length_app. cbn [length].
  destruct (Z.leb_spec 0 (Z.of_nat (length pre) + 1)); [|lia].
  destruct post as [|a post]; cbn [length].
  - destruct (Z.ltb_spec (Z.of_nat (length pre) + 1) (Z.of_nat (length pre + 1))); [lia|].
    reflexivity.
  - destruct (Z.ltb_spec (Z.of_nat (length pre) + 1)
                (Z.of_nat (length pre + S (S (length post))))); [|lia].
    replace (Z.to_nat (Z.of_nat (length pre) + 1)) with (length pre + 1)%nat by lia.
    rewrite nth_error_app2 by lia.
    replace (length pre + 1 - length pre)%nat with 1%nat by lia. reflexivity.
Qed.

Lemma option_value_first (int : String.string -> res Z) (name : String.string)
  (default : Z) (pre post : list String.string) :
  contains name pre = false ->
  option_value int name default (pre ++ name :: post)
  = match post with
    | [] => Raise IndexError
    | a :: _ => int a
    end.
Proof.
  intros Hpre. unfold option_value.
  rewrite contains_app. cbn [contains existsb]. rewrite String.eqb_refl, orb_true_r.
  cbn [orb]. rewrite (index_first name pre post Hpre). cbn [bind].
  rewrite item_after. now destruct post.
Qed.

(** X27: [main]: a help flag anywhere among the arguments wins over every
    other argument; without the help, test and benchmark flags, a
    [--board] that is the last argument or is followed by something [int]
    rejects gives exit code 1, where the argument after the first
    [--board] counts; a board size that [int] accepts is passed on
    unchecked, so a negative size, once the win length is read, ends in
    the [TypeError] of the game. *)
Theorem main_reads_the_command_line (int : String.string -> res Z)
  (get_human_move : State -> res Move) (run_tests run_benchmarks : res Z)
  (args pre post : list String.string) :
  (contains "--help"%string args || contains "-h"%string args = true ->
   main int get_human_move run_tests run_benchmarks args = Ok 0) /\
  (contains "--help"%string args || contains "-h"%string args = false ->
   contains "--test"%string args = false ->
   contains "--benchmark"%string args = false ->
   args = pre ++ "--board"%string :: post ->
   contains "--board"%string pre = false ->
   match post with
   | [] => main int get_human_move run_tests run_benchmarks args = Ok 1
   | a :: _ =>
       (int a = Raise ValueError ->
        main int get_human_move run_tests run_benchmarks args = Ok 1) /\
       (forall m0 k0, int a = Ok m0 -> m0 < 0 ->
          option_value int "--win"%string 3 args = Ok k0 ->
          main int get_human_move run_tests run_benchmarks args = Raise TypeError)
   end).
Proof.
  split.
  - intros H. unfold main. now rewrite H.
  - intros Hhelp Htest Hbench -> Hpre. unfold main.
    rewrite Hhelp, Htest, Hbench. cbv zeta.
    rewrite (option_value_first int "--board"%string 3 pre post Hpre).
    destruct post as [|a post]; [reflexivity|]. split.
    + intros ->. reflexivity.
    + intros m0 k0 -> Hm ->. cbn [bind].
      destruct (games_on_a_negative_size get_human_move m0 k0 Hm) as [-> ->].
      now destruct (contains "--ai-vs-ai"%string (pre ++ "--board"%string :: a :: post)).
Qed.

(** ** The size of the evaluation *)

Lemma count_bounds (w : list cell) (p : Player) : 0 <= count w p <= Z.of_nat (length w).
Proof.
  unfold count. pose proof (count_occ_bound cell_eq_dec (Some p) w). lia.
Qed.

Lemma window_score_bound (w : list cell) :
  Z.abs (window_score w) <= Z.of_nat (length w) ^ 2.
Proof.
  unfold window_score.
  pose proof (count_bounds w X). pose proof (count_bounds w O).
  destruct ((0 <? count w X) && (count w O =? 0)); [nia|].
  destruct ((0 <? count w O) && (count w X =? 0)); nia.
Qed.

Lemma slice_length_le {A : Type} (l : list A) (i k0 : Z) :
  0 <= i -> 0 <= k0 -> Z.of_nat (length (slice l i (i + k0))) <= k0.
Proof.
  intros Hi Hk. unfold slice, clamp_index.
  destruct (Z.ltb_spec i 0); [lia|]. destruct (Z.ltb_spec (i + k0) 0); [lia|].
  rewrite length_firstn, length_skipn. lia.
Qed.

Lemma zsum_abs_bound {A : Type} (f : A -> Z) (B : Z) (l : list A) :
  (forall a, In a l -> Z.abs (f a) <= B) ->
  Z.abs (zsum (map f l)) <= B * Z.of_nat (length l).
Proof.
  induction l as [|a l IH]; intros H; simpl; [lia|].
  pose proof (H a (or_introl eq_refl)).
  assert (Z.abs (zsum (map f l)) <= B * Z.of_nat (length l))
    by (apply IH; intros x Hx; apply H; now right).
  lia.
Qed.

Lemma line_score_bound (k0 : Z) (line : list cell) :
  0 <= k0 ->
  Z.abs (line_score k0 line) <= k0 ^ 2 * Z.max 0 (Z.of_nat (length line) - k0 + 1).
Proof.
  intros Hk. rewrite line_score_windows.
  pose proof (zsum_abs_bound (fun i => window_score (slice line i (i + k0))) (k0 ^ 2)
                (range (Z.of_nat (length line) - k0 + 1))) as H.
  rewrite length_range in H.
  replace (Z.of_nat (Z.to_nat (Z.of_nat (length line) - k0 + 1)))
    with (Z.max 0 (Z.of_nat (length line) - k0 + 1)) in H by lia.
  apply H. intros i Hi. apply in_range in Hi.
  pose proof (window_score_bound (slice line i (i + k0))).
  pose proof (slice_length_le line i k0 ltac:(lia) Hk). nia.
Qed.

Lemma length_flat_map_fixed {A B : Type} (f : A -> list B) (l : list A) (c : nat) :
  (forall a, length (f a) = c) -> length (flat_map f l) = (length l * c)%nat.
Proof.
  intros H. induction l as [|a l IH]; simpl; [reflexivity|].
  rewrite length_app, H, IH. reflexivity.
Qed.

Lemma length_range_from (a b : Z) : length (range_from a b) = Z.to_nat (b - a).
Proof. unfold range_from. now rewrite length_map, length_seq. Qed.

Lemma all_lines_length (s : State) :
  wf_board s ->
  Z.of_nat (length (all_lines s))
  = 2 * m s + 2 * Z.max 0 (m s - k s + 1) ^ 2.
Proof.
  intros (Hm & Hlen & _). unfold all_lines, columns, diagonals, anti_diagonals.
  rewrite !length_app, Hlen, length_map, length_range.
  rewrite (length_flat_map_fixed _ _ (Z.to_nat (m s - k s + 1)))
    by (intros; now rewrite length_map, length_range).
  rewrite (length_flat_map_fixed _ _ (Z.to_nat (m s - k s + 1)))
    by (intros; rewrite length_map, length_range_from; f_equal; lia).
  rewrite length_range. nia.
Qed.

Lemma all_lines_line_length (s : State) (line : list cell) :
  wf_board s -> In line (all_lines s) -> Z.of_nat (length line) <= m s.
Proof.
  intros (Hm & Hlen & Hrows) Hline. apply in_all_lines in Hline.
  destruct Hline as [Hrow | [(c & _ & ->) | [(sr & sc & Hsr & Hsc & ->) | (sr & sc & Hsr & Hsc & ->)]]].
  - rewrite Forall_forall in Hrows. rewrite (Hrows line Hrow). lia.
  - unfold column. rewrite length_map, length_range. lia.
  - unfold diagonal. rewrite length_map, length_range. lia.
  - unfold anti_diagonal. rewrite length_map, length_range. lia.
Qed.

Lemma zsum_map_app {A : Type} (f : A -> Z) (l1 l2 : list A) :
  zsum (map f (l1 ++ l2)) = zsum (map f l1) + zsum (map f l2).
Proof. now rewrite map_app, zsum_app. Qed.

(** The evaluation of an open state: the scores of all lines and the bonus
    of the centre. *)
Lemma evaluate_open_state (s : State) :
  terminal s = false ->
  exists b,
    (evaluate s == (2 * zsum (map (line_score (k s)) (all_lines s)) + b) # 2)%Q /\
    -1 <= b <= 1 /\ (cell_at (board s) (m s / 2) (m s / 2) = None -> b = 0).
Proof.
  intros Hterm. unfold evaluate. rewrite Hterm. cbv zeta.
  unfold _evaluate_rows, _evaluate_columns, _evaluate_diagonals,
         _evaluate_anti_diagonals, all_lines.
  rewrite !zsum_map_app.
  set (F1 := zsum (map (line_score (k s)) (board s))).
  set (F2 := zsum (map (line_score (k s)) (columns (board s) (m s)))).
  set (F3 := zsum (map (line_score (k s)) (diagonals (board s) (m s) (k s)))).
  set (F4 := zsum (map (line_score (k s)) (anti_diagonals (board s) (m s) (k s)))).
  assert (E : (0 + evaluate_lines (board s) (k s)
               + evaluate_lines (columns (board s) (m s)) (k s)
               + evaluate_lines (diagonals (board s) (m s) (k s)) (k s)
               + evaluate_lines (anti_diagonals (board s) (m s) (k s)) (k s)
               == inject_Z (F1 + (F2 + (F3 + F4))))%Q).
  { rewrite !evaluate_lines_scores. unfold F1, F2, F3, F4.
    rewrite !inject_Z_plus. ring. }
  unfold _center_control_bonus.
  destruct (cell_at (board s) (m s / 2) (m s / 2)) as [[|]|] eqn:Hc;
    cbn [cell_eqb Player_eqb].
  - exists 1. split; [|split; [lia | discriminate]].
    rewrite E. unfold Qeq, Qplus, inject_Z. cbn [Qnum Qden]. lia.
  - exists (-1). split; [|split; [lia | discriminate]].
    rewrite E. unfold Qeq, Qplus, Qopp, inject_Z. cbn [Qnum Qden]. lia.
  - exists 0. split; [|split; [lia | reflexivity]].
    rewrite E. unfold Qeq, Qplus, inject_Z. cbn [Qnum Qden]. lia.
Qed.

Lemma evaluate_bounded (s : State) :
  wf_board s -> 0 <= k s ->
  (- inject_Z (evaluation_bound (m s) (k s)) <= evaluate s
   <= inject_Z (evaluation_bound (m s) (k s)))%Q.
Proof.
  intros Hwf Hk. pose proof Hwf as (Hm & _).
  set (n := Z.max 0 (m s - k s + 1)).
  assert (Hn : 0 <= n) by (unfold n; lia).
  assert (Hk2 : 0 <= k s ^ 2) by (apply Z.pow_nonneg; lia).
  assert (Hn2 : 0 <= n ^ 2) by (apply Z.pow_nonneg; lia).
  assert (HT : 0 <= k s ^ 2 * n * (2 * m s + 2 * n ^ 2))
    by (apply Z.mul_nonneg_nonneg; [apply Z.mul_nonneg_nonneg|]; lia).
  assert (HB : evaluation_bound (m s) (k s) = k s ^ 2 * n * (2 * m s + 2 * n ^ 2) + 1)
    by reflexivity.
  destruct (terminal s) eqn:Hterm.
  - unfold evaluate. rewrite Hterm, (terminal_utility s Hterm).
    assert (Hu : -1 <= match winner s with Some X => 1 | Some O => -1 | None => 0 end <= 1)
      by (destruct (winner s) as [[|]|]; lia).
    rewrite <- inject_Z_opp. split; rewrite <- Zle_Qle; lia.
  - destruct (evaluate_open_state s Hterm) as (b & -> & Hb & _).
    assert (HF : Z.abs (zsum (map (line_score (k s)) (all_lines s)))
                 <= k s ^ 2 * n * Z.of_nat (length (all_lines s))).
    { apply zsum_abs_bound. intros line Hline.
      pose proof (line_score_bound (k s) line Hk) as Hl.
      pose proof (all_lines_line_length s line Hwf Hline) as Hlen.
      apply Z.le_trans with (1 := Hl). apply Z.mul_le_mono_nonneg_l; [assumption|].
      unfold n. lia. }
    rewrite (all_lines_length s Hwf) in HF. fold n in HF.
    rewrite HB.
    set (F := zsum (map (line_score (k s)) (all_lines s))) in *.
    set (T := k s ^ 2 * n * (2 * m s + 2 * n ^ 2)) in *.
    unfold Qle, Qopp, inject_Z. cbn [Qnum Qden]. lia.
Qed.

(** X8: [evaluate] stays within a bound that the board size and the win length
    fix, so on a board for which that bound is at most 1000 -- the 3 x 3,
    4 x 4 and 5 x 5 boards of the tests among them -- the sentinels of
    [search] are never exceeded by the evaluation. *)
Theorem evaluate_stays_within_its_bound (s : State) :
  wf_board s -> 0 <= k s ->
  (- inject_Z (evaluation_bound (m s) (k s)) <= evaluate s
   <= inject_Z (evaluation_bound (m s) (k s)))%Q /\
  (evaluation_bound (m s) (k s) <= 1000 -> (-1000 <= evaluate s <= 1000)%Q) /\
  evaluation_bound 3 3 = 73 /\ evaluation_bound 4 3 = 289 /\
  evaluation_bound 4 4 = 161 /\ evaluation_bound 5 4 = 577.
Proof.
  intros Hwf Hk. pose proof (evaluate_bounded s Hwf Hk) as [Hlo Hhi].
  split; [split; assumption|]. split; [|repeat split].
  intros HB. split.
  - apply Qle_trans with (2 := Hlo). rewrite <- inject_Z_opp.
    change (-1000)%Q with (inject_Z (-1000)). rewrite <- Zle_Qle. lia.
  - apply Qle_trans with (1 := Hhi).
    change 1000%Q with (inject_Z 1000). rewrite <- Zle_Qle. lia.
Qed.

(** ** The numbers [evaluate] returns *)

(** X9: [evaluate] returns a whole number of halves, and a whole number unless
    it adds the bonus of an occupied centre: the float arithmetic of the
    source is exact on such numbers. *)
Theorem evaluate_is_a_whole_number_of_halves (s : State) :
  wf_board s ->
  exists z : Z,
    (evaluate s == z # 2)%Q /\
    (terminal s = true \/ cell_at (board s) (m s / 2) (m s / 2) = None ->
     exists n : Z, z = 2 * n /\ (evaluate s == inject_Z n)%Q).
Proof.
  intros _. destruct (terminal s) eqn:Hterm.
  - unfold evaluate. rewrite Hterm.
    set (u := match utility s with Some u => u | None => 0 end).
    assert (E : match utility s with Some u => inject_Z u | None => 0%Q end = inject_Z u)
      by (unfold u; now destruct (utility s)).
    rewrite E. exists (2 * u). split.
    + unfold Qeq, inject_Z. cbn [Qnum Qden]. lia.
    + intros _. exists u. split; reflexivity.
  - destruct (evaluate_open_state s Hterm) as (b & E & Hb & Hcentre).
    exists (2 * zsum (map (line_score (k s)) (all_lines s)) + b).
    split; [exact E|]. intros [?|Hc]; [discriminate|].
    rewrite (Hcentre Hc) in E |- *.
    exists (zsum (map (line_score (k s)) (all_lines s))). split; [lia|].
    rewrite E. unfold Qeq, inject_Z. cbn [Qnum Qden]. lia.
Qed.

(** ** A win length below two *)

(** The scan of a line counts a mark only when it repeats the one before, so
    for every win length up to two it stops at the first repeated mark. *)
Lemma check_line_loop_below_two (k0 : Z) (line : list cell) :
  k0 <= 2 ->
  forall count current,
    current = None \/ 1 <= count ->
    check_line_loop line k0 count current = check_line_loop line 2 count current.
Proof.
  intros Hk. induction line as [|x line IH]; intros count current Hc; simpl;
    [reflexivity|].
  destruct (negb (is_None x) && cell_eqb x current) eqn:E.
  - apply andb_prop in E. destruct E as [Hx He].
    assert (Hcount : 1 <= count).
    { destruct Hc as [-> | Hc]; [|exact Hc]. destruct x; discriminate. }
    replace (count + 1 >=? k0) with true by (symmetry; apply Z.geb_le; lia).
    replace (count + 1 >=? 2) with true by (symmetry; apply Z.geb_le; lia).
    reflexivity.
  - apply IH. destruct x; simpl; [right; lia | left; reflexivity].
Qed.

Lemma check_line_below_two (k0 : Z) (line : list cell) :
  k0 <= 2 -> _check_line line k0 = _check_line line 2.
Proof.
  intros Hk. unfold _check_line.
  rewrite (check_line_loop_below_two k0 line Hk 0 None) by (left; reflexivity).
  destruct (Z.ltb_spec (Z.of_nat (length line)) k0) as [H1|H1];
    destruct (Z.ltb_spec (Z.of_nat (length line)) 2) as [H2|H2];
    try reflexivity; [lia|].
  destruct line as [|x [|y line]]; [reflexivity | | simpl in H2; lia].
  destruct x; reflexivity.
Qed.

Lemma first_winner_below_two (k0 : Z) (lines : list (list cell)) :
  k0 <= 2 -> first_winner lines k0 = first_winner lines 2.
Proof.
  intros Hk. induction lines as [|line lines IH]; simpl; [reflexivity|].
  rewrite (check_line_below_two k0 line Hk), IH. reflexivity.
Qed.

Lemma line_pair_sound (s : State) (p : Player) (line : list cell) :
  wf_board s ->
  In line (all_lines s) -> run_in line p 2 -> owns_run 2 s p.
Proof.
  intros (Hm & Hlen & Hrows) Hin [i Hrun].
  assert (Hz : forall z, 0 <= z < 2 ->
            nth_error line (i + Z.to_nat z) = Some (Some p))
    by (intros z Hz; apply Hrun; lia).
  apply in_all_lines in Hin.
  destruct Hin as [Hin|[(c & Hc & ->)|[(sr & sc & Hsr & Hsc & ->)|(sr & sc & Hsr & Hsc & ->)]]].
  - apply In_nth_error in Hin. destruct Hin as [r Hr].
    assert (Hrm : (r < Z.to_nat (m s))%nat)
      by (rewrite <- Hlen; apply nth_error_Some; congruence).
    rewrite Forall_forall in Hrows.
    pose proof (Hrows line (nth_error_In _ _ Hr)) as Hll.
    exists (Z.of_nat r), (Z.of_nat i), 0, 1. split; [simpl; auto|].
    intros z Hzr. specialize (Hz z Hzr).
    assert (Hb : (i + Z.to_nat z < length line)%nat)
      by (apply nth_error_Some; congruence).
    split; [lia|]. split; [lia|].
    rewrite cell_at_nat by lia. apply cell_nat_some. exists line.
    replace (Z.to_nat (Z.of_nat r + z * 0)) with r by lia.
    replace (Z.to_nat (Z.of_nat i + z * 1)) with (i + Z.to_nat z)%nat by lia.
    auto.
  - exists (Z.of_nat i), c, 1, 0. split; [simpl; auto|].
    intros z Hzr. specialize (Hz z Hzr). unfold column in Hz.
    apply nth_error_map_range_some in Hz. destruct Hz as [Hb Hcell].
    split; [lia|]. split; [lia|].
    replace (Z.of_nat i + z * 1) with (Z.of_nat (i + Z.to_nat z)) by lia.
    replace (c + z * 0) with c by lia. exact Hcell.
  - exists (sr + Z.of_nat i), (sc + Z.of_nat i), 1, 1. split; [simpl; auto|].
    intros z Hzr. specialize (Hz z Hzr). unfold diagonal in Hz.
    apply nth_error_map_range_some in Hz. destruct Hz as [Hb Hcell].
    split; [lia|]. split; [lia|].
    replace (sr + Z.of_nat i + z * 1) with (sr + Z.of_nat (i + Z.to_nat z)) by lia.
    replace (sc + Z.of_nat i + z * 1) with (sc + Z.of_nat (i + Z.to_nat z)) by lia.
    exact Hcell.
  - exists (sr + Z.of_nat i), (sc - Z.of_nat i), 1, (-1). split; [simpl; auto|].
    intros z Hzr. specialize (Hz z Hzr). unfold anti_diagonal in Hz.
    apply nth_error_map_range_some in Hz. destruct Hz as [Hb Hcell].
    split; [lia|]. split; [lia|].
    replace (sr + Z.of_nat i + z * 1) with (sr + Z.of_nat (i + Z.to_nat z)) by lia.
    replace (sc - Z.of_nat i + z * -1) with (sc - Z.of_nat (i + Z.to_nat z)) by lia.
    exact Hcell.
Qed.

Lemma line_pair_complete (s : State) (p : Player) :
  wf_board s -> k s <= 2 -> owns_run 2 s p ->
  exists line, In line (all_lines s) /\ run_in line p 2.
Proof.
  intros (Hm & Hlen & Hrows) Hk (r & c & dr & dc & Hdir & Hrun).
  pose proof (Hrun 0 ltac:(lia)) as H0.
  pose proof (Hrun 1 ltac:(lia)) as Hlast.
  assert (Hj : forall j, (j < 2)%nat -> 0 <= Z.of_nat j < 2) by lia.
  simpl in Hdir.
  destruct Hdir as [[= <- <-]|[[= <- <-]|[[= <- <-]|[[= <- <-]|[]]]]].
  - (* along a row *)
    destruct (nth_error (board s) (Z.to_nat r)) as [line|] eqn:Hline;
      [|apply nth_error_None in Hline; lia].
    exists line. split; [apply in_all_lines; left; eapply nth_error_In; eauto|].
    exists (Z.to_nat c). intros j Hlt.
    destruct (Hrun _ (Hj j Hlt)) as (Hr & Hc & Hcell).
    rewrite cell_at_nat in Hcell by lia. apply cell_nat_some in Hcell.
    destruct Hcell as (row & Hrow & Hx).
    replace (Z.to_nat (r + Z.of_nat j * 0)) with (Z.to_nat r) in Hrow by lia.
    replace (Z.to_nat (c + Z.of_nat j * 1)) with (Z.to_nat c + j)%nat in Hx by lia.
    congruence.
  - (* down a column *)
    exists (column (board s) (m s) c).
    split; [apply in_all_lines; right; left; exists c; split; [lia | reflexivity]|].
    exists (Z.to_nat r). intros j Hlt.
    destruct (Hrun _ (Hj j Hlt)) as (Hr & Hc & Hcell).
    unfold column. apply nth_error_map_range_some. split; [lia|].
    replace (Z.of_nat (Z.to_nat r + j)) with (r + Z.of_nat j * 1) by lia.
    replace (c + Z.of_nat j * 0) with c in Hcell by lia. exact Hcell.
  - (* down a diagonal *)
    exists (diagonal (board s) (m s) r c).
    split; [apply in_all_lines; right; right; left; exists r, c; repeat split; lia|].
    exists 0%nat. intros j Hlt.
    destruct (Hrun _ (Hj j Hlt)) as (Hr & Hc & Hcell).
    unfold diagonal. apply nth_error_map_range_some. split; [lia|].
    simpl. replace (Z.of_nat j * 1) with (Z.of_nat j) in Hcell by lia. exact Hcell.
  - (* down an anti-diagonal *)
    exists (anti_diagonal (board s) (m s) r c).
    split; [apply in_all_lines; right; right; right; exists r, c; repeat split; lia|].
    exists 0%nat. intros j Hlt.
    destruct (Hrun _ (Hj j Hlt)) as (Hr & Hc & Hcell).
    unfold anti_diagonal. apply nth_error_map_range_some. split; [lia|].
    simpl. replace (r + Z.of_nat j * 1) with (r + Z.of_nat j) in Hcell by lia.
    replace (c + Z.of_nat j * -1) with (c - Z.of_nat j) in Hcell by lia. exact Hcell.
Qed.

(** X28: with a win length of one or less, [winner] asks for two equal marks
    side by side, as it does for a win length of two: it reports only a
    player who owns two adjacent cells in a row, a column, a diagonal or an
    anti-diagonal, it reports [None] exactly when no player does, and a
    player who alone owns such a pair is reported.  A single mark never
    wins. *)
Theorem a_win_length_below_two_asks_for_a_pair (s : State) :
  wf_board s -> k s <= 1 ->
  (forall p, winner s = Some p -> owns_run 2 s p) /\
  (winner s = None <-> forall p, ~ owns_run 2 s p) /\
  (forall p, owns_run 2 s p -> ~ owns_run 2 s (other p) -> winner s = Some p).
Proof.
  intros Hwf Hk. rewrite winner_all_lines.
  rewrite (first_winner_below_two (k s) (all_lines s)) by lia.
  destruct (first_winner_spec (all_lines s) 2 ltac:(lia)) as [Hs Hn].
  assert (H1 : forall p, first_winner (all_lines s) 2 = Some p -> owns_run 2 s p).
  { intros p Hp. destruct (Hs p Hp) as (line & Hin & Hrun).
    eapply line_pair_sound; eauto. }
  assert (H2 : first_winner (all_lines s) 2 = None -> forall p, ~ owns_run 2 s p).
  { intros Hnone p Hrun.
    destruct (line_pair_complete s p Hwf ltac:(lia) Hrun) as (line & Hin & Hl).
    exact (Hn Hnone line p Hin Hl). }
  split; [exact H1|]. split.
  - split; [exact H2|]. intros Hno.
    destruct (first_winner (all_lines s) 2) as [w|] eqn:Hw; [|reflexivity].
    exfalso. exact (Hno w (H1 w eq_refl)).
  - intros p Hp Hnot.
    destruct (first_winner (all_lines s) 2) as [w|] eqn:Hw.
    + pose proof (H1 w eq_refl) as Hrw.
      destruct p, w; try reflexivity; exfalso; apply Hnot; exact Hrw.
    + exfalso. exact (H2 eq_refl p Hp).
Qed.

(** ** The further properties at concrete positions *)

Lemma play_game_ends_at_a_terminal_state_witness :
  0 <= 2 /\ plays_legally minimax X /\
  replies_legally (fun _ => Raise TypeError) (Some minimax) /\
  exists final,
    play_game (fun _ => Raise TypeError) minimax (Some minimax) 2 2
      = Ok (winner final) /\
    wf_state final /\ terminal final = true /\
    m final = 2 /\ k final = 2 /\ 0 <= moves final <= 2 ^ 2.
Proof.
  assert (H0 : 0 <= 2) by lia.
  assert (H1 : plays_legally minimax X)
    by apply plays_optimally_legally, minimax_plays_optimally.
  assert (H2 : replies_legally (fun _ : State => @Raise Move TypeError) (Some minimax))
    by apply plays_optimally_legally, minimax_plays_optimally.
  split; [exact H0|]. split; [exact H1|]. split; [exact H2|].
  exact (play_game_ends_at_a_terminal_state _ minimax (Some minimax) 2 2 H0 H1 H2).
Defined.

Lemma minimax_ab_first_player_gets_the_value_witness :
  0 <= 3 /\ replies_legally (fun _ => Raise TypeError) (Some minimax) /\
  exists u w,
    value (initial_state 3 3) = Fin u /\
    play_game (fun _ => Raise TypeError)
      (fun state => minimax_ab state NegInf PosInf true) (Some minimax) 3 3 = Ok w /\
    u <= outcome w.
Proof.
  assert (H0 : 0 <= 3) by lia.
  assert (H2 : replies_legally (fun _ : State => @Raise Move TypeError) (Some minimax))
    by apply plays_optimally_legally, minimax_plays_optimally.
  split; [exact H0|]. split; [exact H2|].
  exact (minimax_ab_first_player_gets_the_value _ (Some minimax) 3 3 H0 H2).
Defined.

Lemma minimax_ab_second_player_holds_the_value_witness :
  0 <= 3 /\ plays_legally minimax X /\
  exists u w,
    value (initial_state 3 3) = Fin u /\
    play_game (fun _ => Raise TypeError) minimax
      (Some (fun state => minimax_ab state NegInf PosInf true)) 3 3 = Ok w /\
    outcome w <= u.
Proof.
  assert (H0 : 0 <= 3) by lia.
  assert (H1 : plays_legally minimax X)
    by apply plays_optimally_legally, minimax_plays_optimally.
  split; [exact H0|]. split; [exact H1|].
  exact (minimax_ab_second_player_holds_the_value
           (fun _ : State => @Raise Move TypeError) minimax 3 3 H0 H1).
Defined.

Lemma minimax_ab_self_play_gives_the_value_witness :
  0 <= 3 /\
  exists u w,
    value (initial_state 3 3) = Fin u /\
    play_game (fun _ => Raise TypeError)
      (fun state => minimax_ab state NegInf PosInf true)
      (Some (fun state => minimax_ab state NegInf PosInf true)) 3 3 = Ok w /\
    outcome w = u.
Proof.
  assert (H0 : 0 <= 3) by lia.
  split; [exact H0|].
  exact (minimax_ab_self_play_gives_the_value
           (fun _ : State => @Raise Move TypeError) 3 3 H0).
Defined.

Lemma x_to_win_wins : exists w, In w (actions x_to_win) /\ wins_now x_to_win w.
Proof.
  exists (0, 2). split; [vm_compute; auto|].
  eexists. split; reflexivity.
Qed.

Lemma minimax_ab_takes_an_immediate_win_witness :
  wf_state x_to_win /\ terminal x_to_win = false /\
  (exists w, In w (actions x_to_win) /\ wins_now x_to_win w) /\
  exists a,
    minimax_ab x_to_win NegInf PosInf true
      = Ok (Fin (outcome (Some (player x_to_win))), Some a) /\
    In a (actions x_to_win) /\ wins_now x_to_win a /\
    forall w, In w (actions x_to_win) -> wins_now x_to_win w -> w = a \/ Move_lt a w.
Proof.
  assert (Hs : wf_state x_to_win) by solve_wf_state.
  assert (Hterm : terminal x_to_win = false) by reflexivity.
  split; [exact Hs|]. split; [exact Hterm|]. split; [exact x_to_win_wins|].
  exact (minimax_ab_takes_an_immediate_win x_to_win NegInf PosInf Hs Hterm
           x_to_win_wins).
Defined.

Lemma evaluate_within_sentinels_3x3 (st : State) :
  wf_state st -> m st = m x_to_win -> k st = k x_to_win ->
  (-1000 <= evaluate st <= 1000)%Q.
Proof.
  intros [Hwf _] Hm Hk. cbn [m k x_to_win] in Hm, Hk.
  destruct (evaluate_bounded st Hwf ltac:(lia)) as [Hlo Hhi].
  rewrite Hm, Hk in Hlo, Hhi. split.
  - apply Qle_trans with (2 := Hlo). vm_compute. discriminate.
  - apply Qle_trans with (1 := Hhi). vm_compute. discriminate.
Qed.

Lemma search_takes_an_immediate_win_witness :
  wf_state x_to_win /\ terminal x_to_win = false /\ 4 <> 0 /\
  (forall st, wf_state st -> m st = m x_to_win -> k st = k x_to_win ->
     (-1000 <= evaluate st <= 1000)%Q) /\
  (exists w, In w (actions x_to_win) /\ wins_now x_to_win w) /\
  exists a,
    search x_to_win 4 evaluate NegInf PosInf
      = Ok (Fin (match player x_to_win with X => 1000%Q | O => (-1000)%Q end), Some a) /\
    In a (actions x_to_win) /\ wins_now x_to_win a /\
    forall w, In w (actions x_to_win) -> wins_now x_to_win w -> w = a \/ Move_lt a w.
Proof.
  assert (Hs : wf_state x_to_win) by solve_wf_state.
  assert (Hterm : terminal x_to_win = false) by reflexivity.
  assert (Hd : 4 <> 0) by discriminate.
  split; [exact Hs|]. split; [exact Hterm|]. split; [exact Hd|].
  split; [exact evaluate_within_sentinels_3x3|]. split; [exact x_to_win_wins|].
  exact (search_takes_an_immediate_win x_to_win 4 evaluate NegInf PosInf Hs Hterm Hd
           evaluate_within_sentinels_3x3 x_to_win_wins).
Defined.

Lemma search_to_the_end_is_minimax_ab_witness :
  wf_state midgame /\
  (Z.of_nat (length (actions midgame)) <= 4 \/ 4 < 0) /\
  (forall alpha beta,
     search midgame 4 evaluate (ext_map sentinel alpha) (ext_map sentinel beta)
     = map_result sentinel (minimax_ab midgame alpha beta true)) /\
  exists u mv,
    value midgame = Fin u /\
    minimax_ab midgame NegInf PosInf true = Ok (Fin u, mv) /\
    search midgame 4 evaluate NegInf PosInf = Ok (Fin (inject_Z (1000 * u)), mv).
Proof.
  assert (Hs : wf_state midgame) by solve_wf_state.
  assert (Hd : Z.of_nat (length (actions midgame)) <= 4 \/ 4 < 0)
    by (left; vm_compute; discriminate).
  split; [exact Hs|]. split; [exact Hd|].
  exact (search_to_the_end_is_minimax_ab midgame 4 evaluate Hs Hd).
Defined.

Lemma minimax_ab_window_bounds_witness :
  wf_board midgame /\ zlt (Fin (-1)) (Fin 1) = true /\
  exists v mv,
    minimax_ab midgame (Fin (-1)) (Fin 1) true = Ok (v, mv) /\
    (zlt (Fin (-1)) v = true -> zlt v (Fin 1) = true -> v = value midgame) /\
    (zle v (Fin (-1)) = true -> zle (value midgame) v = true) /\
    (zle (Fin 1) v = true -> zle v (value midgame) = true).
Proof.
  assert (Hwf : wf_board midgame) by solve_wf_board.
  assert (Hab : zlt (Fin (-1)) (Fin 1) = true) by reflexivity.
  split; [exact Hwf|]. split; [exact Hab|].
  exact (minimax_ab_window_bounds midgame (Fin (-1)) (Fin 1) true Hwf Hab).
Defined.

Lemma minimax_ab_returns_a_utility_and_a_legal_move_witness :
  wf_state midgame /\
  exists u mv,
    minimax_ab midgame (Fin 0) (Fin 1) true = Ok (Fin u, mv) /\
    (u = -1 \/ u = 0 \/ u = 1) /\
    (terminal midgame = true -> mv = None) /\
    (terminal midgame = false -> exists a, mv = Some a /\ In a (actions midgame)).
Proof.
  assert (Hs : wf_state midgame) by solve_wf_state.
  split; [exact Hs|].
  exact (minimax_ab_returns_a_utility_and_a_legal_move midgame (Fin 0) (Fin 1) true Hs).
Defined.

Lemma search_returns_a_sentinel_or_an_evaluation_witness :
  wf_state midgame /\
  exists q mv,
    search midgame 2 evaluate NegInf PosInf = Ok (Fin q, mv) /\
    (q = 1000%Q \/ q = (-1000)%Q \/ q = 0%Q \/ exists st, q = evaluate st) /\
    (terminal midgame = true \/ 2 = 0 -> mv = None) /\
    (terminal midgame = false -> 2 <> 0 ->
     exists a, mv = Some a /\ In a (actions midgame)).
Proof.
  assert (Hs : wf_state midgame) by solve_wf_state.
  split; [exact Hs|].
  exact (search_returns_a_sentinel_or_an_evaluation midgame 2 evaluate NegInf PosInf Hs).
Defined.

Lemma minimax_ab_returns_the_first_best_move_witness :
  wf_state midgame /\ terminal midgame = false /\
  exists l u a l1 l2,
    ordered_moves midgame true = Ok l /\ Permutation l (actions midgame) /\
    minimax_ab midgame NegInf PosInf true = Ok (Fin u, Some a) /\
    l = l1 ++ a :: l2 /\ In a (actions midgame) /\
    value midgame = Fin u /\ child_value midgame a = Ok (Fin u) /\
    (forall x, In x l1 -> child_value midgame x <> Ok (Fin u)) /\
    (forall x, In x (actions midgame) ->
       exists ux, child_value midgame x = Ok (Fin ux) /\
         match player midgame with
         | X => ux <= u
         | O => u <= ux
         end).
Proof.
  assert (Hs : wf_state midgame) by solve_wf_state.
  assert (Hterm : terminal midgame = false) by reflexivity.
  split; [exact Hs|]. split; [exact Hterm|].
  exact (minimax_ab_returns_the_first_best_move midgame true Hs Hterm).
Defined.

Lemma alpha_beta_metrics_are_consistent_witness :
  wf_board midgame /\
  exists r metrics',
    minimax_ab_instrumented midgame NegInf PosInf 0 new_metrics true
      = Ok (r, metrics') /\
    pruning_cutoffs new_metrics <= pruning_cutoffs metrics' /\
    pruning_cutoffs metrics' - pruning_cutoffs new_metrics
      < nodes_explored metrics' - nodes_explored new_metrics /\
    Z.max (max_depth new_metrics) 0 <= max_depth metrics'
      <= Z.max (max_depth new_metrics) (0 + Z.of_nat (length (actions midgame))).
Proof.
  assert (Hwf : wf_board midgame) by solve_wf_board.
  split; [exact Hwf|].
  exact (alpha_beta_metrics_are_consistent midgame NegInf PosInf 0 new_metrics true Hwf).
Defined.

Lemma minimax_metrics_are_consistent_witness :
  wf_board midgame /\
  exists r metrics',
    minimax_instrumented midgame 0 new_metrics = Ok (r, metrics') /\
    nodes_explored metrics' = nodes_explored new_metrics + visited_minimax midgame /\
    visited_minimax midgame =
      (if terminal midgame then 1
       else 1 + zsum (map (visited_child midgame) (actions midgame))) /\
    pruning_cutoffs metrics' = pruning_cutoffs new_metrics /\
    Z.max (max_depth new_metrics) 0 <= max_depth metrics'
      <= Z.max (max_depth new_metrics) (0 + Z.of_nat (length (actions midgame))).
Proof.
  assert (Hwf : wf_board midgame) by solve_wf_board.
  split; [exact Hwf|].
  exact (minimax_metrics_are_consistent midgame 0 new_metrics Hwf).
Defined.

Lemma result_counts_negative_subscripts_from_the_end_witness :
  wf_board midgame /\
  (0 <= 1 < m midgame -> 0 <= 1 < m midgame ->
     result midgame (1 - m midgame, 1) = result midgame (1, 1) /\
     result midgame (1, 1 - m midgame) = result midgame (1, 1) /\
     result midgame (1 - m midgame, 1 - m midgame) = result midgame (1, 1) /\
     ~ In (1 - m midgame, 1) (actions midgame) /\
     ~ In (1, 1 - m midgame) (actions midgame)) /\
  (1 < - m midgame \/ m midgame <= 1 \/ 1 < - m midgame \/ m midgame <= 1 ->
     result midgame (1, 1) = Raise IndexError).
Proof.
  assert (Hwf : wf_board midgame) by solve_wf_board.
  split; [exact Hwf|].
  exact (result_counts_negative_subscripts_from_the_end midgame 1 1 Hwf).
Defined.

Lemma actions_are_the_moves_result_accepts_witness :
  wf_board midgame /\
  (forall r c, In (r, c) (actions midgame) <->
     0 <= r < m midgame /\ 0 <= c < m midgame /\
     exists s', result midgame (r, c) = Ok s') /\
  NoDup (actions midgame) /\ StronglySorted Move_lt (actions midgame).
Proof.
  assert (Hwf : wf_board midgame) by solve_wf_board.
  split; [exact Hwf|].
  exact (actions_are_the_moves_result_accepts midgame Hwf).
Defined.

Lemma reachable_states_keep_the_counts_witness :
  0 <= 3 /\ reachable 3 3 one_move /\
  wf_board one_move /\ m one_move = 3 /\ k one_move = 3 /\
  moves one_move = marks X one_move + marks O one_move /\
  marks X one_move
    = marks O one_move + (match player one_move with X => 0 | O => 1 end) /\
  Z.of_nat (length (actions one_move)) = 3 ^ 2 - moves one_move /\
  (moves one_move = 3 ^ 2 <-> actions one_move = []).
Proof.
  assert (H0 : 0 <= 3) by lia.
  assert (Hr : reachable 3 3 one_move).
  { apply (reachable_result 3 3 (initial_state 3 3) one_move (0, 0));
      [constructor | reflexivity]. }
  split; [exact H0|]. split; [exact Hr|].
  exact (reachable_states_keep_the_counts 3 3 one_move H0 Hr).
Defined.

Lemma nobody_wins_when_k_exceeds_m_witness :
  wf_state (initial_state 2 3) /\ m (initial_state 2 3) < k (initial_state 2 3) /\
  winner (initial_state 2 3) = None /\
  (terminal (initial_state 2 3) = true <-> actions (initial_state 2 3) = []) /\
  (terminal (initial_state 2 3) = true -> utility (initial_state 2 3) = Some 0) /\
  exists mv, minimax (initial_state 2 3) = Ok (Fin 0, mv).
Proof.
  assert (Hs : wf_state (initial_state 2 3)) by (apply initial_state_wf; lia).
  assert (Hk : m (initial_state 2 3) < k (initial_state 2 3)) by (simpl; lia).
  split; [exact Hs|]. split; [exact Hk|].
  exact (nobody_wins_when_k_exceeds_m (initial_state 2 3) Hs Hk).
Defined.

Lemma exchanging_the_marks_negates_the_evaluation_witness :
  wf_board midgame /\
  wf_board (swap_marks midgame) /\
  winner (swap_marks midgame) = option_map other (winner midgame) /\
  terminal (swap_marks midgame) = terminal midgame /\
  utility (swap_marks midgame) = option_map Z.opp (utility midgame) /\
  (evaluate (swap_marks midgame) == - evaluate midgame)%Q.
Proof.
  assert (Hwf : wf_board midgame) by solve_wf_board.
  split; [exact Hwf|].
  exact (exchanging_the_marks_negates_the_evaluation midgame Hwf).
Defined.

Lemma evaluate_stays_within_its_bound_witness :
  wf_board midgame /\ 0 <= k midgame /\
  (- inject_Z (evaluation_bound (m midgame) (k midgame)) <= evaluate midgame
   <= inject_Z (evaluation_bound (m midgame) (k midgame)))%Q /\
  (evaluation_bound (m midgame) (k midgame) <= 1000 ->
   (-1000 <= evaluate midgame <= 1000)%Q) /\
  evaluation_bound 3 3 = 73 /\ evaluation_bound 4 3 = 289 /\
  evaluation_bound 4 4 = 161 /\ evaluation_bound 5 4 = 577.
Proof.
  assert (Hwf : wf_board midgame) by solve_wf_board.
  assert (Hk : 0 <= k midgame) by (simpl; lia).
  split; [exact Hwf|]. split; [exact Hk|].
  exact (evaluate_stays_within_its_bound midgame Hwf Hk).
Defined.

Lemma evaluate_is_a_whole_number_of_halves_witness :
  wf_board midgame /\
  exists z : Z,
    (evaluate midgame == z # 2)%Q /\
    (terminal midgame = true \/
     cell_at (board midgame) (m midgame / 2) (m midgame / 2) = None ->
     exists n : Z, z = 2 * n /\ (evaluate midgame == inject_Z n)%Q).
Proof.
  assert (Hwf : wf_board midgame) by solve_wf_board.
  split; [exact Hwf|].
  exact (evaluate_is_a_whole_number_of_halves midgame Hwf).
Defined.

Lemma order_moves_orders_the_legal_moves_witness :
  wf_board x_to_win /\
  exists l,
    order_moves x_to_win (actions x_to_win) true = Ok l /\
    Permutation l (actions x_to_win) /\ NoDup l /\
    StronglySorted (specified_order x_to_win) l /\
    forall a b, In a l -> In b l -> wins_now x_to_win a -> ~ wins_now x_to_win b ->
      exists l1 l2 l3, l = l1 ++ a :: l2 ++ b :: l3.
Proof.
  assert (Hwf : wf_board x_to_win) by solve_wf_board.
  split; [exact Hwf|].
  exact (order_moves_orders_the_legal_moves x_to_win Hwf).
Defined.

Lemma a_finished_game_stays_finished_witness :
  wf_state row_win /\ 2 <= k row_win /\
  (actions row_win = [] ->
     forall a, result row_win a = Raise ValueError \/ result row_win a = Raise IndexError) /\
  (forall a s', result row_win a = Ok s' ->
     (forall p, has_run row_win p -> has_run s' p) /\
     (terminal row_win = true ->
      winner row_win <> None /\ winner s' <> None /\ terminal s' = true)).
Proof.
  assert (Hs : wf_state row_win) by solve_wf_state.
  assert (Hk : 2 <= k row_win) by (simpl; lia).
  split; [exact Hs|]. split; [exact Hk|].
  exact (a_finished_game_stays_finished row_win Hs Hk).
Defined.

Lemma a_win_length_below_two_asks_for_a_pair_witness :
  wf_board two_in_a_row_k1 /\ k two_in_a_row_k1 <= 1 /\
  winner two_in_a_row_k1 = Some X /\ owns_run 2 two_in_a_row_k1 X.
Proof.
  assert (Hwf : wf_board two_in_a_row_k1) by solve_wf_board.
  assert (Hk : k two_in_a_row_k1 <= 1) by (simpl; lia).
  split; [exact Hwf|]. split; [exact Hk|]. split; [reflexivity|].
  apply (a_win_length_below_two_asks_for_a_pair two_in_a_row_k1 Hwf Hk). reflexivity.
Defined.
